(** * concurrent-exchange-sim: order book, risk checks, accounts and engine loop

    A shallow embedding of the single-threaded core of the exchange
    simulator (object pool, intrusive price levels, order book matching,
    risk checks, account updates, engine event processing) together with
    the invariants of the book and the properties of the specification.

    Conventions of the embedding:
    - signed 64-bit values ([Price], [Qty], balances) are [Z] with the
      two's complement wrap-around written out ([wrap_i64]);
    - unsigned values ([OrderId], [TraderId], pool indices, counters) are
      [N] with their modulus written out ([wrap_u32], [wrap_u64]);
    - the pool's slot array and the order-id index are finite maps;
      the level arrays are lists indexed from the front;
    - reading a slot outside the pool is undefined behaviour in the
      source: the model reads a default entry and ignores such writes;
    - [CES_ASSERT] is compiled out of release builds ([NDEBUG]) and is
      not modelled;
    - mutexes guard a single-threaded execution and are not modelled;
      clock readings (timestamps, latencies) are left out. *)

From Stdlib Require Import ZArith NArith Lia List Bool Sorted.
From stdpp Require Import base tactics option list numbers strings gmap fin_maps.

Local Open Scope Z_scope.

(* ===================================================================== *)
(** ** common/types.hpp *)
(* ===================================================================== *)

Definition INVALID_POOL_INDEX : N := 4294967295%N.
Definition INVALID_ORDER_ID : N := 18446744073709551615%N.
Definition INVALID_TRADER_ID : N := 4294967295%N.

(** Arithmetic of [std::int64_t]. *)
Definition wrap_i64 (z : Z) : Z := (z + 2 ^ 63) mod 2 ^ 64 - 2 ^ 63.
Definition in_i64 (z : Z) : Prop := - 2 ^ 63 <= z < 2 ^ 63.

(** Arithmetic of [std::uint64_t] and [std::uint32_t]. *)
Definition wrap_u64 (n : N) : N := (n mod 2 ^ 64)%N.
Definition wrap_u32 (n : N) : N := (n mod 2 ^ 32)%N.
Definition incr_u64 (n : N) : N := wrap_u64 (n + 1).
Definition incr_u32 (n : N) : N := wrap_u32 (n + 1).
Definition decr_u32 (n : N) : N := wrap_u32 (n + (2 ^ 32 - 1)).

(** [u += static_cast<std::uint64_t>(z)] for a signed [z]. *)
Definition add_i64_to_u64 (u : N) (z : Z) : N :=
  Z.to_N ((Z.of_N u + z) mod 2 ^ 64).

Inductive Side := Buy | Sell.

Definition opposite (s : Side) : Side :=
  match s with Buy => Sell | Sell => Buy end.

Definition is_buy (s : Side) : bool :=
  match s with Buy => true | Sell => false end.

Inductive OrderType := NewLimit | NewMarket | Cancel | Modify.

Inductive OrderResult :=
  Accepted | PartiallyFilled | FullyFilled | Cancelled | Modified | Rejected | NotFound.

Global Instance Side_eq_dec : EqDecision Side.
Proof. solve_decision. Defined.
Global Instance OrderType_eq_dec : EqDecision OrderType.
Proof. solve_decision. Defined.
Global Instance OrderResult_eq_dec : EqDecision OrderResult.
Proof. solve_decision. Defined.

(* ===================================================================== *)
(** ** lob/order.hpp *)
(* ===================================================================== *)

Module Order.
Record t := mk {
  order_id : N;
  trader_id : N;
  side : Side;
  price : Z;
  qty_remaining : Z;
  qty_original : Z;
  next_idx : N;
  prev_idx : N
}.

(** [Order() = default]. *)
Definition default : t :=
  mk INVALID_ORDER_ID INVALID_TRADER_ID Buy 0 0 0
     INVALID_POOL_INDEX INVALID_POOL_INDEX.

(** [Order(id, trader, s, p, qty)]. *)
Definition make (id trader : N) (s : Side) (p qty : Z) : t :=
  mk id trader s p qty qty INVALID_POOL_INDEX INVALID_POOL_INDEX.

Definition set_qty_remaining (q : Z) (o : t) : t :=
  mk (order_id o) (trader_id o) (side o) (price o) q (qty_original o)
     (next_idx o) (prev_idx o).
Definition set_next_idx (n : N) (o : t) : t :=
  mk (order_id o) (trader_id o) (side o) (price o) (qty_remaining o)
     (qty_original o) n (prev_idx o).
Definition set_prev_idx (n : N) (o : t) : t :=
  mk (order_id o) (trader_id o) (side o) (price o) (qty_remaining o)
     (qty_original o) (next_idx o) n.
End Order.

Module Trade.
Record t := mk {
  maker_order_id : N;
  taker_order_id : N;
  maker_trader_id : N;
  taker_trader_id : N;
  price : Z;
  qty : Z;
  taker_side : Side
}.
End Trade.

Module OrderResponse.
Record t := mk {
  result : OrderResult;
  order_id : N;
  qty_filled : Z;
  qty_remaining : Z;
  trade_count : N
}.

(** A default-constructed response carrying the given order id. *)
Definition init (id : N) : t := mk Rejected id 0 0 0%N.

Definition set_result (r : OrderResult) (x : t) : t :=
  mk r (order_id x) (qty_filled x) (qty_remaining x) (trade_count x).

Definition success (x : t) : bool :=
  negb (bool_decide (result x = Rejected)) &&
  negb (bool_decide (result x = NotFound)).
End OrderResponse.

Module OrderEvent.
Record t := mk {
  type : OrderType;
  order_id : N;
  trader_id : N;
  side : Side;
  price : Z;
  qty : Z
}.

Definition new_limit (id trader : N) (s : Side) (p q : Z) : t :=
  mk NewLimit id trader s p q.
Definition new_market (id trader : N) (s : Side) (q : Z) : t :=
  mk NewMarket id trader s 0 q.
Definition cancel (id : N) : t :=
  mk Cancel id INVALID_TRADER_ID Buy 0 0.
Definition modify (id : N) (new_qty new_price : Z) : t :=
  mk Modify id INVALID_TRADER_ID Buy new_price new_qty.
End OrderEvent.

(* ===================================================================== *)
(** ** memory/object_pool.hpp, instantiated at [Order] *)
(* ===================================================================== *)

Module Pool.
Record Entry := mkEntry {
  storage : Order.t;
  next_free : N;
  in_use : bool
}.

Record t := mk {
  storage_ : gmap N Entry;
  free_head_ : N;
  capacity_ : N;
  size_ : N
}.

Definition default_entry : Entry :=
  mkEntry Order.default INVALID_POOL_INDEX false.

Definition free_link (capacity i : N) : N :=
  if (i + 1 <? capacity)%N then (i + 1)%N else INVALID_POOL_INDEX.

Definition initial_entry (capacity i : N) : N * Entry :=
  (i, mkEntry Order.default (free_link capacity i) false).

(** [ObjectPool(capacity)]: every slot free, chained in index order. *)
Definition new (capacity : N) : t :=
  mk (list_to_map
        (initial_entry capacity <$> (N.of_nat <$> seq 0 (N.to_nat capacity))))
     (if (0 <? capacity)%N then 0%N else INVALID_POOL_INDEX)
     capacity 0%N.

Definition entry_at (p : t) (i : N) : Entry :=
  default default_entry (storage_ p !! i).

(** [operator[]] (read). *)
Definition at_ (p : t) (i : N) : Order.t := storage (entry_at p i).

(** A write through the reference returned by [operator[]]. *)
Definition update (p : t) (i : N) (f : Order.t -> Order.t) : t :=
  mk (alter (fun e => mkEntry (f (storage e)) (next_free e) (in_use e)) i
            (storage_ p))
     (free_head_ p) (capacity_ p) (size_ p).

Definition is_valid (p : t) (i : N) : bool :=
  (i <? capacity_ p)%N && in_use (entry_at p i).

Definition allocate (p : t) (o : Order.t) : N * t :=
  if (free_head_ p =? INVALID_POOL_INDEX)%N then (INVALID_POOL_INDEX, p)
  else
    let idx := free_head_ p in
    let entry := entry_at p idx in
    (idx,
     mk (alter (fun e => mkEntry o (next_free e) true) idx (storage_ p))
        (next_free entry) (capacity_ p) (incr_u32 (size_ p))).

Definition deallocate (p : t) (index : N) : t :=
  mk (alter (fun e => mkEntry (storage e) (free_head_ p) false) index
            (storage_ p))
     index (capacity_ p) (decr_u32 (size_ p)).

(** [get(index)]: [None] stands for [nullptr]. *)
Definition get (p : t) (index : N) : option Order.t :=
  if (capacity_ p <=? index)%N || negb (in_use (entry_at p index)) then None
  else Some (at_ p index).

Definition size (p : t) : N := size_ p.
Definition capacity (p : t) : N := capacity_ p.
Definition full (p : t) : bool := (free_head_ p =? INVALID_POOL_INDEX)%N.
Definition empty (p : t) : bool := (size_ p =? 0)%N.

(** One pass of the loop of [clear()] on slot [i]: the slot is marked
    free and linked to its successor; a trivially destructible object
    stays where it is. *)
Definition clear_entry (capacity i : N) (e : Entry) : Entry :=
  mkEntry (storage e) (free_link capacity i) false.

Definition clear (p : t) : t :=
  mk (foldl (fun m i => alter (clear_entry (capacity_ p) i) i m) (storage_ p)
            (N.of_nat <$> seq 0 (N.to_nat (capacity_ p))))
     (if (0 <? capacity_ p)%N then 0%N else INVALID_POOL_INDEX)
     (capacity_ p) 0%N.
End Pool.

(* ===================================================================== *)
(** ** lob/price_level.hpp *)
(* ===================================================================== *)

Module PriceLevel.
Record t := mk {
  price : Z;
  total_qty : Z;
  order_count : N;
  head_idx : N;
  tail_idx : N
}.

(** [PriceLevel(p)]. *)
Definition new (p : Z) : t :=
  mk p 0 0%N INVALID_POOL_INDEX INVALID_POOL_INDEX.

Definition empty (l : t) : bool := (order_count l =? 0)%N.

Definition front_idx (l : t) : N := head_idx l.

Definition reduce_qty (l : t) (filled_qty : Z) : t :=
  mk (price l) (wrap_i64 (total_qty l - filled_qty)) (order_count l)
     (head_idx l) (tail_idx l).

(** The order is a reference into the pool, so every field access goes
    through the current pool. *)
Definition push_back (pool : Pool.t) (l : t) (order_idx : N) : Pool.t * t :=
  let p1 := Pool.update pool order_idx (Order.set_prev_idx (tail_idx l)) in
  let p2 := Pool.update p1 order_idx (Order.set_next_idx INVALID_POOL_INDEX) in
  let p3 :=
    if (tail_idx l =? INVALID_POOL_INDEX)%N then p2
    else Pool.update p2 (tail_idx l) (Order.set_next_idx order_idx) in
  let head' :=
    if (tail_idx l =? INVALID_POOL_INDEX)%N then order_idx else head_idx l in
  (p3,
   mk (price l)
      (wrap_i64 (total_qty l + Order.qty_remaining (Pool.at_ p3 order_idx)))
      (incr_u32 (order_count l)) head' order_idx).

Definition remove (pool : Pool.t) (l : t) (order_idx : N) : Pool.t * t :=
  let o0 := Pool.at_ pool order_idx in
  let p1 :=
    if (Order.prev_idx o0 =? INVALID_POOL_INDEX)%N then pool
    else Pool.update pool (Order.prev_idx o0)
                     (Order.set_next_idx (Order.next_idx o0)) in
  let head' :=
    if (Order.prev_idx o0 =? INVALID_POOL_INDEX)%N
    then Order.next_idx o0 else head_idx l in
  let o1 := Pool.at_ p1 order_idx in
  let p2 :=
    if (Order.next_idx o1 =? INVALID_POOL_INDEX)%N then p1
    else Pool.update p1 (Order.next_idx o1)
                     (Order.set_prev_idx (Order.prev_idx o1)) in
  let tail' :=
    if (Order.next_idx o1 =? INVALID_POOL_INDEX)%N
    then Order.prev_idx o1 else tail_idx l in
  let o2 := Pool.at_ p2 order_idx in
  let p3 := Pool.update p2 order_idx (Order.set_prev_idx INVALID_POOL_INDEX) in
  let p4 := Pool.update p3 order_idx (Order.set_next_idx INVALID_POOL_INDEX) in
  (p4,
   mk (price l) (wrap_i64 (total_qty l - Order.qty_remaining o2))
      (decr_u32 (order_count l)) head' tail').

(** [front(pool)]: the front order, [None] standing for [nullptr]. *)
Definition front (pool : Pool.t) (l : t) : option Order.t :=
  if (head_idx l =? INVALID_POOL_INDEX)%N then None
  else Some (Pool.at_ pool (head_idx l)).
End PriceLevel.

(* ===================================================================== *)
(** ** lob/order_book.hpp, src/lob/order_book.cpp *)
(* ===================================================================== *)

(** The book.  [trade_log_] stands for the observer installed with
    [set_trade_callback]: it records, oldest first, every trade handed to
    [emit_trade] (the test fixture installs exactly such a recorder; the
    engine's observer is [on_trade] below, which never touches the book). *)
Record OrderBook := mkBook {
  order_pool_ : Pool.t;
  order_map_ : gmap N N;
  bids_ : list PriceLevel.t;
  asks_ : list PriceLevel.t;
  total_trades_ : N;
  total_volume_ : N;
  trade_log_ : list Trade.t
}.

(** [OrderBook(max_orders, ...)]. *)
Definition OrderBook_new (max_orders : N) : OrderBook :=
  mkBook (Pool.new max_orders) ∅ [] [] 0%N 0%N [].

(** [(side == Side::Buy) ? bids_ : asks_]. *)
Definition levels_of (s : Side) (b : OrderBook) : list PriceLevel.t :=
  match s with Buy => bids_ b | Sell => asks_ b end.

Definition set_levels (s : Side) (ls : list PriceLevel.t) (b : OrderBook) : OrderBook :=
  match s with
  | Buy => mkBook (order_pool_ b) (order_map_ b) ls (asks_ b)
                  (total_trades_ b) (total_volume_ b) (trade_log_ b)
  | Sell => mkBook (order_pool_ b) (order_map_ b) (bids_ b) ls
                   (total_trades_ b) (total_volume_ b) (trade_log_ b)
  end.

Definition set_pool (p : Pool.t) (b : OrderBook) : OrderBook :=
  mkBook p (order_map_ b) (bids_ b) (asks_ b)
         (total_trades_ b) (total_volume_ b) (trade_log_ b).

Definition set_map (m : gmap N N) (b : OrderBook) : OrderBook :=
  mkBook (order_pool_ b) m (bids_ b) (asks_ b)
         (total_trades_ b) (total_volume_ b) (trade_log_ b).

(** [emit_trade(trade); ++total_trades_; total_volume_ += fill_qty.get()]. *)
Definition record_trade (t : Trade.t) (b : OrderBook) : OrderBook :=
  mkBook (order_pool_ b) (order_map_ b) (bids_ b) (asks_ b)
         (incr_u64 (total_trades_ b))
         (add_i64_to_u64 (total_volume_ b) (Trade.qty t))
         (trade_log_ b ++ [t]).

(** The comparator handed to [std::lower_bound]. *)
Definition level_before (is_bid : bool) (l : PriceLevel.t) (p : Z) : bool :=
  if is_bid then PriceLevel.price l >? p else PriceLevel.price l <? p.

(** [std::lower_bound(levels.begin(), levels.end(), price, comp)]: the
    furthest position such that every element before it satisfies the
    comparator, as an offset from [begin()]. *)
Fixpoint lower_bound (is_bid : bool) (levels : list PriceLevel.t) (p : Z) : nat :=
  match levels with
  | [] => 0%nat
  | l :: rest =>
      if level_before is_bid l p then S (lower_bound is_bid rest p) else 0%nat
  end.

(** [levels.insert(levels.begin() + i, x)]. *)
Definition vector_insert {A} (i : nat) (x : A) (l : list A) : list A :=
  take i l ++ x :: drop i l.

(** Returns the offset of the level and the updated vector. *)
Definition find_or_create_level (levels : list PriceLevel.t) (p : Z) (is_bid : bool)
  : nat * list PriceLevel.t :=
  let it := lower_bound is_bid levels p in
  match levels !! it with
  | Some l =>
      if PriceLevel.price l =? p then (it, levels)
      else (it, vector_insert it (PriceLevel.new p) levels)
  | None => (it, vector_insert it (PriceLevel.new p) levels)
  end.

(** Returns the offset of the level, [length levels] standing for [end()]. *)
Definition find_level (levels : list PriceLevel.t) (p : Z) (is_bid : bool) : nat :=
  let it := lower_bound is_bid levels p in
  match levels !! it with
  | Some l => if PriceLevel.price l =? p then it else length levels
  | None => length levels
  end.

Definition remove_level_if_empty (levels : list PriceLevel.t) (it : nat)
  : list PriceLevel.t :=
  match levels !! it with
  | Some l => if PriceLevel.empty l then delete it levels else levels
  | None => levels
  end.

Definition remove_order_internal (b : OrderBook) (pool_idx : N) : OrderBook :=
  let order := Pool.at_ (order_pool_ b) pool_idx in
  let s := Order.side order in
  let levels := levels_of s b in
  let it := find_level levels (Order.price order) (is_buy s) in
  let b1 :=
    match levels !! it with
    | Some l =>
        let '(pool1, l1) := PriceLevel.remove (order_pool_ b) l pool_idx in
        set_levels s (remove_level_if_empty (<[it := l1]> levels) it)
                   (set_pool pool1 b)
    | None => b
    end in
  set_pool (Pool.deallocate (order_pool_ b1) pool_idx) b1.

(** The state threaded through the matching loops: the book, the taker's
    [remaining] quantity and the [trade_count] out-parameter. *)
Record MatchState := mkMatch {
  ms_book : OrderBook;
  ms_remaining : Z;
  ms_trades : N
}.

(** One execution of the body of the inner [while] of [match_order], for
    the level at offset [li] of the side opposite to the taker's. *)
Definition match_fill (taker_order_id taker_trader_id : N) (side : Side)
    (li : nat) (st : MatchState) : MatchState :=
  let b := ms_book st in
  let ms := opposite side in
  match levels_of ms b !! li with
  | None => st
  | Some lvl =>
      let maker_idx := PriceLevel.front_idx lvl in
      let maker := Pool.at_ (order_pool_ b) maker_idx in
      let fill_qty := Z.min (ms_remaining st) (Order.qty_remaining maker) in
      let trade :=
        Trade.mk (Order.order_id maker) taker_order_id
                 (Order.trader_id maker) taker_trader_id
                 (Order.price maker) fill_qty side in
      let pool1 :=
        Pool.update (order_pool_ b) maker_idx
          (fun o => Order.set_qty_remaining
                      (wrap_i64 (Order.qty_remaining o - fill_qty)) o) in
      let lvl1 := PriceLevel.reduce_qty lvl fill_qty in
      let remaining1 := wrap_i64 (ms_remaining st - fill_qty) in
      let b1 := record_trade trade (set_pool pool1 b) in
      let trades1 := incr_u64 (ms_trades st) in
      if Order.qty_remaining (Pool.at_ pool1 maker_idx) <=? 0 then
        let '(pool2, lvl2) := PriceLevel.remove pool1 lvl1 maker_idx in
        let map2 := delete (Order.order_id (Pool.at_ pool2 maker_idx)) (order_map_ b1) in
        let pool3 := Pool.deallocate pool2 maker_idx in
        mkMatch
          (set_levels ms (<[li := lvl2]> (levels_of ms b1))
                      (set_map map2 (set_pool pool3 b1)))
          remaining1 trades1
      else
        mkMatch (set_levels ms (<[li := lvl1]> (levels_of ms b1)) b1)
                remaining1 trades1
  end.

(** [while (remaining.get() > 0 && !level_it->empty())]. *)
Definition match_level_continues (side : Side) (li : nat) (st : MatchState) : bool :=
  match levels_of (opposite side) (ms_book st) !! li with
  | Some lvl => (ms_remaining st >? 0) && negb (PriceLevel.empty lvl)
  | None => false
  end.

Fixpoint match_level_loop (fuel : nat) (taker_order_id taker_trader_id : N)
    (side : Side) (li : nat) (st : MatchState) : MatchState :=
  match fuel with
  | O => st
  | S fuel' =>
      if match_level_continues side li st then
        match_level_loop fuel' taker_order_id taker_trader_id side li
          (match_fill taker_order_id taker_trader_id side li st)
      else st
  end.

(** Every pass of the inner loop either removes the head order, which
    lowers [order_count], or exhausts the taker; [order_count + 1] passes
    therefore always reach the loop's own exit test. *)
Definition match_level_fuel (side : Side) (li : nat) (st : MatchState) : nat :=
  match levels_of (opposite side) (ms_book st) !! li with
  | Some lvl => S (N.to_nat (PriceLevel.order_count lvl))
  | None => 0%nat
  end.

Definition match_level (taker_order_id taker_trader_id : N)
    (side : Side) (li : nat) (st : MatchState) : MatchState :=
  match_level_loop (match_level_fuel side li st)
                   taker_order_id taker_trader_id side li st.

(** The price test that breaks out of the outer loop for limit orders. *)
Definition price_stops (side : Side) (price : Z) (is_market : bool)
    (lvl : PriceLevel.t) : bool :=
  negb is_market &&
  (match side with
   | Buy => PriceLevel.price lvl >? price
   | Sell => PriceLevel.price lvl <? price
   end).

(** The outer [for] of [match_order]; [li] is [level_it - levels.begin()]. *)
Fixpoint match_levels_loop (fuel : nat) (taker_order_id taker_trader_id : N)
    (side : Side) (price : Z) (is_market : bool) (li : nat) (st : MatchState)
  : MatchState :=
  match fuel with
  | O => st
  | S fuel' =>
      match levels_of (opposite side) (ms_book st) !! li with
      | None => st
      | Some lvl =>
          if negb (ms_remaining st >? 0) then st
          else if price_stops side price is_market lvl then st
          else
            let st1 := match_level taker_order_id taker_trader_id side li st in
            let ms := opposite side in
            let levels1 := levels_of ms (ms_book st1) in
            match levels1 !! li with
            | Some lvl1 =>
                if PriceLevel.empty lvl1 then
                  match_levels_loop fuel' taker_order_id taker_trader_id
                    side price is_market li
                    (mkMatch (set_levels ms (delete li levels1) (ms_book st1))
                             (ms_remaining st1) (ms_trades st1))
                else
                  match_levels_loop fuel' taker_order_id taker_trader_id
                    side price is_market (S li) st1
            | None => st1
            end
      end
  end.

(** Each pass of the outer loop erases a level or advances the iterator. *)
Definition match_order (b : OrderBook) (taker_order_id taker_trader_id : N)
    (side : Side) (price qty : Z) (is_market : bool) : MatchState :=
  match_levels_loop (S (length (levels_of (opposite side) b)))
    taker_order_id taker_trader_id side price is_market 0%nat
    (mkMatch b qty 0%N).

Definition add_limit_internal (b : OrderBook) (order_id trader_id : N)
    (side : Side) (price qty : Z) : OrderBook * OrderResponse.t :=
  if bool_decide (is_Some (order_map_ b !! order_id)) then
    (b, OrderResponse.mk Rejected order_id 0 0 0%N)
  else
    let st := match_order b order_id trader_id side price qty false in
    let b1 := ms_book st in
    let remaining := ms_remaining st in
    let response :=
      OrderResponse.mk Rejected order_id (wrap_i64 (qty - remaining))
                       remaining (ms_trades st) in
    if remaining <=? 0 then
      (b1, OrderResponse.set_result FullyFilled response)
    else
      let '(pool_idx, pool1) :=
        Pool.allocate (order_pool_ b1)
                      (Order.make order_id trader_id side price remaining) in
      if (pool_idx =? INVALID_POOL_INDEX)%N then
        (set_pool pool1 b1, OrderResponse.set_result Rejected response)
      else
        let map1 := <[order_id := pool_idx]> (order_map_ b1) in
        let '(it, levels1) :=
          find_or_create_level (levels_of side b1) price (is_buy side) in
        let '(pool2, lvl) :=
          PriceLevel.push_back pool1
            (default (PriceLevel.new price) (levels1 !! it)) pool_idx in
        (set_levels side (<[it := lvl]> levels1)
                    (set_map map1 (set_pool pool2 b1)),
         OrderResponse.set_result
           (if (0 <? ms_trades st)%N then PartiallyFilled else Accepted)
           response)
  .

Definition add_limit := add_limit_internal.

Definition add_market (b : OrderBook) (order_id trader_id : N)
    (side : Side) (qty : Z) : OrderBook * OrderResponse.t :=
  let st := match_order b order_id trader_id side 0 qty true in
  let remaining := ms_remaining st in
  (ms_book st,
   OrderResponse.mk
     (if remaining <=? 0 then FullyFilled else PartiallyFilled)
     order_id (wrap_i64 (qty - remaining)) remaining (ms_trades st)).

Definition cancel (b : OrderBook) (order_id : N) : OrderBook * OrderResponse.t :=
  match order_map_ b !! order_id with
  | None => (b, OrderResponse.mk NotFound order_id 0 0 0%N)
  | Some pool_idx =>
      let order := Pool.at_ (order_pool_ b) pool_idx in
      let qty_left := Order.qty_remaining order in
      let b1 := remove_order_internal b pool_idx in
      (set_map (delete order_id (order_map_ b1)) b1,
       OrderResponse.mk Cancelled order_id 0 qty_left 0%N)
  end.

Definition modify (b : OrderBook) (order_id : N) (new_qty new_price : Z)
  : OrderBook * OrderResponse.t :=
  match order_map_ b !! order_id with
  | None => (b, OrderResponse.mk NotFound order_id 0 0 0%N)
  | Some pool_idx =>
      let order := Pool.at_ (order_pool_ b) pool_idx in
      if negb (new_price =? 0) && negb (new_price =? Order.price order) then
        let trader_id := Order.trader_id order in
        let side := Order.side order in
        let b1 := remove_order_internal b pool_idx in
        let b2 := set_map (delete order_id (order_map_ b1)) b1 in
        add_limit_internal b2 order_id trader_id side new_price new_qty
      else if new_qty <? Order.qty_remaining order then
        let s := Order.side order in
        let levels := levels_of s b in
        let level_it := find_level levels (Order.price order) (is_buy s) in
        let levels1 :=
          match levels !! level_it with
          | Some l =>
              let diff := wrap_i64 (Order.qty_remaining order - new_qty) in
              <[level_it := PriceLevel.reduce_qty l diff]> levels
          | None => levels
          end in
        let pool1 :=
          Pool.update (order_pool_ b) pool_idx (Order.set_qty_remaining new_qty) in
        (set_levels s levels1 (set_pool pool1 b),
         OrderResponse.mk Modified order_id 0 new_qty 0%N)
      else
        let trader_id := Order.trader_id order in
        let side := Order.side order in
        let price := Order.price order in
        let b1 := remove_order_internal b pool_idx in
        let b2 := set_map (delete order_id (order_map_ b1)) b1 in
        add_limit_internal b2 order_id trader_id side price new_qty
  end.

(* ===================================================================== *)
(** ** engine/accounts.hpp, src/engine/accounts.cpp *)
(* ===================================================================== *)

Module Account.
Record t := mk {
  trader_id : N;
  balance : Z;
  position : Z;
  trade_count : N;
  volume : N
}.

(** [Account(id, initial_balance)]. *)
Definition make (id : N) (initial_balance : Z) : t :=
  mk id initial_balance 0 0%N 0%N.

(** The atomic read-modify-write operations; they wrap on overflow. *)
Definition balance_fetch_add (d : Z) (a : t) : t :=
  mk (trader_id a) (wrap_i64 (balance a + d)) (position a)
     (trade_count a) (volume a).
Definition balance_fetch_sub (d : Z) (a : t) : t :=
  mk (trader_id a) (wrap_i64 (balance a - d)) (position a)
     (trade_count a) (volume a).
Definition position_fetch_add (d : Z) (a : t) : t :=
  mk (trader_id a) (balance a) (wrap_i64 (position a + d))
     (trade_count a) (volume a).
Definition position_fetch_sub (d : Z) (a : t) : t :=
  mk (trader_id a) (balance a) (wrap_i64 (position a - d))
     (trade_count a) (volume a).
Definition trade_count_fetch_add (d : N) (a : t) : t :=
  mk (trader_id a) (balance a) (position a)
     (wrap_u64 (trade_count a + d)) (volume a).
Definition volume_fetch_add (d : Z) (a : t) : t :=
  mk (trader_id a) (balance a) (position a)
     (trade_count a) (add_i64_to_u64 (volume a) d).
End Account.

Module Accounts.
(** The vector of accounts and [max_traders_]; the stripe mutexes are
    not modelled.  An [Account*] is the offset of the account in the
    vector, [None] standing for [nullptr]. *)
Record t := mk {
  accounts_ : list Account.t;
  max_traders_ : N
}.

Definition new (max_traders : N) : t := mk [] max_traders.

Fixpoint find_from (l : list Account.t) (trader_id : N) (pos : nat) : option nat :=
  match l with
  | [] => None
  | a :: rest =>
      if (Account.trader_id a =? trader_id)%N then Some pos
      else find_from rest trader_id (S pos)
  end.

Definition get (accs : t) (trader_id : N) : option nat :=
  find_from (accounts_ accs) trader_id 0%nat.

(** A write through an [Account*]. *)
Definition update (accs : t) (ptr : nat) (f : Account.t -> Account.t) : t :=
  mk (alter f ptr (accounts_ accs)) (max_traders_ accs).

Definition get_or_create (accs : t) (trader_id : N) (initial_balance : Z)
  : option nat * t :=
  match get accs trader_id with
  | Some ptr => (Some ptr, accs)
  | None =>
      if (max_traders_ accs <=? N.of_nat (length (accounts_ accs)))%N
      then (None, accs)
      else (Some (length (accounts_ accs)),
            mk (accounts_ accs ++ [Account.make trader_id initial_balance])
               (max_traders_ accs))
  end.

Definition apply_trade (accs : t) (maker_id taker_id : N) (taker_side : Side)
    (price qty : Z) : t :=
  match get accs maker_id, get accs taker_id with
  | Some maker, Some taker =>
      let notional := wrap_i64 (price * qty) in
      let qty_val := qty in
      let a4 :=
        match taker_side with
        | Buy =>
            let a1 := update accs taker (Account.balance_fetch_sub notional) in
            let a2 := update a1 taker (Account.position_fetch_add qty_val) in
            let a3 := update a2 maker (Account.balance_fetch_add notional) in
            update a3 maker (Account.position_fetch_sub qty_val)
        | Sell =>
            let a1 := update accs taker (Account.balance_fetch_add notional) in
            let a2 := update a1 taker (Account.position_fetch_sub qty_val) in
            let a3 := update a2 maker (Account.balance_fetch_sub notional) in
            update a3 maker (Account.position_fetch_add qty_val)
        end in
      let a5 := update a4 maker (Account.trade_count_fetch_add 1) in
      let a6 := update a5 maker (Account.volume_fetch_add qty_val) in
      let a7 := update a6 taker (Account.trade_count_fetch_add 1) in
      update a7 taker (Account.volume_fetch_add qty_val)
  | _, _ => accs
  end.

Definition has_sufficient_balance (accs : t) (trader_id : N)
    (required_amount : Z) : bool :=
  match get accs trader_id with
  | None => false
  | Some ptr =>
      match accounts_ accs !! ptr with
      | Some a => required_amount <=? Account.balance a
      | None => false
      end
  end.

Definition get_balance (accs : t) (trader_id : N) : Z :=
  match get accs trader_id with
  | None => 0
  | Some ptr => default 0 (Account.balance <$> accounts_ accs !! ptr)
  end.

Definition get_position (accs : t) (trader_id : N) : Z :=
  match get accs trader_id with
  | None => 0
  | Some ptr => default 0 (Account.position <$> accounts_ accs !! ptr)
  end.

Definition create_account (accs : t) (trader_id : N) (initial_balance : Z)
  : bool * t :=
  match get accs trader_id with
  | Some _ => (false, accs)
  | None =>
      if (max_traders_ accs <=? N.of_nat (length (accounts_ accs)))%N
      then (false, accs)
      else (true,
            mk (accounts_ accs ++ [Account.make trader_id initial_balance])
               (max_traders_ accs))
  end.

Definition adjust_balance (accs : t) (trader_id : N) (amount : Z) : bool * t :=
  match get accs trader_id with
  | None => (false, accs)
  | Some acc => (true, update accs acc (Account.balance_fetch_add amount))
  end.

Definition size (accs : t) : N := N.of_nat (length (accounts_ accs)).

Definition clear (accs : t) : t := mk [] (max_traders_ accs).
End Accounts.

(* ===================================================================== *)
(** ** engine/risk.hpp *)
(* ===================================================================== *)

Module RiskConfig.
Record t := mk {
  max_order_value : Z;
  max_position : Z;
  max_order_qty : Z;
  max_price : Z;
  min_price : Z;
  check_balance : bool
}.

Definition default : t := mk 1000000000 1000000 100000 1000000 1 true.
End RiskConfig.

Inductive RiskResult :=
  | Passed | InvalidPrice | InvalidQty | ExceedsMaxOrderValue
  | ExceedsMaxPosition | InsufficientBalance | UnknownTrader.

Global Instance RiskResult_eq_dec : EqDecision RiskResult.
Proof. solve_decision. Defined.

Module RiskChecker.
(** [config_] and the [accounts_] pointer ([None] for [nullptr]). *)
Record t := mk {
  config_ : RiskConfig.t;
  accounts_ : option Accounts.t
}.

Definition check (rc : t) (event : OrderEvent.t) : RiskResult :=
  let cfg := config_ rc in
  if bool_decide (OrderEvent.type event = Cancel) then Passed
  else if (bool_decide (OrderEvent.type event = NewLimit)
           || bool_decide (OrderEvent.type event = Modify))
          && ((OrderEvent.price event <? RiskConfig.min_price cfg)
              || (OrderEvent.price event >? RiskConfig.max_price cfg))
  then InvalidPrice
  else if (OrderEvent.qty event <=? 0)
          || (OrderEvent.qty event >? RiskConfig.max_order_qty cfg)
  then InvalidQty
  else
    let notional := wrap_i64 (OrderEvent.price event * OrderEvent.qty event) in
    if notional >? RiskConfig.max_order_value cfg then ExceedsMaxOrderValue
    else
      match accounts_ rc with
      | Some accs =>
          if RiskConfig.check_balance cfg
             && bool_decide (OrderEvent.side event = Buy)
             && negb (Accounts.has_sufficient_balance
                        accs (OrderEvent.trader_id event) notional)
          then InsufficientBalance
          else Passed
      | None => Passed
      end.
End RiskChecker.

(* ===================================================================== *)
(** ** metrics/stats.hpp, engine/matching_engine.hpp *)
(* ===================================================================== *)

Module EngineStats.
(** The atomic counters; the latency histogram is left out. *)
Record t := mk {
  trade_count : N;
  volume : N;
  orders_received : N;
  orders_accepted : N;
  orders_cancelled : N;
  orders_modified : N;
  rejected_count : N;
  filled_qty : N
}.

Definition new : t := mk 0 0 0 0 0 0 0 0.

Definition add_trade (qty : Z) (s : t) : t :=
  mk (incr_u64 (trade_count s)) (add_i64_to_u64 (volume s) qty)
     (orders_received s) (orders_accepted s) (orders_cancelled s)
     (orders_modified s) (rejected_count s) (filled_qty s).
Definition add_rejected (s : t) : t :=
  mk (trade_count s) (volume s)
     (orders_received s) (orders_accepted s) (orders_cancelled s)
     (orders_modified s) (incr_u64 (rejected_count s)) (filled_qty s).
Definition add_filled (qty : Z) (s : t) : t :=
  mk (trade_count s) (volume s)
     (orders_received s) (orders_accepted s) (orders_cancelled s)
     (orders_modified s) (rejected_count s)
     (add_i64_to_u64 (filled_qty s) qty).
End EngineStats.

Module EngineConfig.
(** Thread pinning and logging options are left out. *)
Record t := mk {
  max_orders : N;
  max_traders : N;
  initial_balance : Z;
  risk : RiskConfig.t
}.

Definition default : t := mk 1000000 1000 1000000000 RiskConfig.default.
End EngineConfig.

Module MatchingEngine.
(** The engine without its queue reference, logger and [running_] flag.
    The risk checker holds a pointer to the engine's own accounts, so
    it is rebuilt from the current accounts at each check. *)
Record t := mk {
  book_ : OrderBook;
  accounts_ : Accounts.t;
  stats_ : EngineStats.t;
  config_ : EngineConfig.t;
  events_processed_ : N
}.

Definition new (config : EngineConfig.t) : t :=
  mk (OrderBook_new (EngineConfig.max_orders config))
     (Accounts.new (EngineConfig.max_traders config))
     EngineStats.new config 0%N.

(** [on_trade], the observer the engine installs in its book. *)
Definition on_trade (st : Accounts.t * EngineStats.t) (trade : Trade.t)
  : Accounts.t * EngineStats.t :=
  (Accounts.apply_trade (fst st)
     (Trade.maker_trader_id trade) (Trade.taker_trader_id trade)
     (Trade.taker_side trade) (Trade.price trade) (Trade.qty trade),
   EngineStats.add_trade (Trade.qty trade) (snd st)).

(** The [switch] of [process_event]. *)
Definition dispatch (b : OrderBook) (event : OrderEvent.t)
  : OrderBook * OrderResponse.t :=
  match OrderEvent.type event with
  | NewLimit =>
      add_limit b (OrderEvent.order_id event) (OrderEvent.trader_id event)
                (OrderEvent.side event) (OrderEvent.price event)
                (OrderEvent.qty event)
  | NewMarket =>
      add_market b (OrderEvent.order_id event) (OrderEvent.trader_id event)
                 (OrderEvent.side event) (OrderEvent.qty event)
  | Cancel => cancel b (OrderEvent.order_id event)
  | Modify =>
      modify b (OrderEvent.order_id event) (OrderEvent.qty event)
             (OrderEvent.price event)
  end.

(** The trades a book operation handed to the observer. *)
Definition new_trades (before after : OrderBook) : list Trade.t :=
  drop (length (trade_log_ before)) (trade_log_ after).

Definition process_event (e : t) (event : OrderEvent.t) : t :=
  let accounts1 :=
    if bool_decide (OrderEvent.type event = Cancel) then accounts_ e
    else snd (Accounts.get_or_create (accounts_ e)
                (OrderEvent.trader_id event)
                (EngineConfig.initial_balance (config_ e))) in
  let risk_result :=
    RiskChecker.check
      (RiskChecker.mk (EngineConfig.risk (config_ e)) (Some accounts1)) event in
  if negb (bool_decide (risk_result = Passed)) then
    mk (book_ e) accounts1 (EngineStats.add_rejected (stats_ e))
       (config_ e) (events_processed_ e)
  else
    let '(book1, response) := dispatch (book_ e) event in
    let '(accounts2, stats2) :=
      fold_left on_trade (new_trades (book_ e) book1) (accounts1, stats_ e) in
    let stats3 :=
      if OrderResponse.success response
         && (OrderResponse.qty_filled response >? 0)
      then EngineStats.add_filled (OrderResponse.qty_filled response) stats2
      else stats2 in
    mk book1 accounts2 stats3 (config_ e) (incr_u64 (events_processed_ e)).

(** [run]: [dequeued] lists, in queue order, the events popped before
    the loop exits, those drained after the stop request included. *)
Definition run (e : t) (dequeued : list OrderEvent.t) : t :=
  fold_left process_event dequeued e.
End MatchingEngine.

(* ===================================================================== *)
(** ** Book operations and reachable states *)
(* ===================================================================== *)

Definition in_u32 (n : N) : Prop := (n < 2 ^ 32)%N.
Definition in_u64 (n : N) : Prop := (n < 2 ^ 64)%N.

(** The four mutating operations of the public interface. *)
Inductive BookOp :=
  | OpAddLimit (order_id trader_id : N) (side : Side) (price qty : Z)
  | OpAddMarket (order_id trader_id : N) (side : Side) (qty : Z)
  | OpCancel (order_id : N)
  | OpModify (order_id : N) (new_qty new_price : Z).

Definition apply_op (b : OrderBook) (op : BookOp) : OrderBook * OrderResponse.t :=
  match op with
  | OpAddLimit id tr s p q => add_limit b id tr s p q
  | OpAddMarket id tr s q => add_market b id tr s q
  | OpCancel id => cancel b id
  | OpModify id q p => modify b id q p
  end.

(** The arguments fit the C++ parameter types. *)
Definition well_typed_op (op : BookOp) : Prop :=
  match op with
  | OpAddLimit id tr _ p q => in_u64 id /\ in_u32 tr /\ in_i64 p /\ in_i64 q
  | OpAddMarket id tr _ q => in_u64 id /\ in_u32 tr /\ in_i64 q
  | OpCancel id => in_u64 id
  | OpModify id q p => in_u64 id /\ in_i64 q /\ in_i64 p
  end.

Definition run_ops (b : OrderBook) (ops : list BookOp) : OrderBook :=
  fold_left (fun b op => fst (apply_op b op)) ops b.

(** States reachable from a freshly constructed book. *)
Inductive reachable : OrderBook -> Prop :=
  | reachable_new (max_orders : N) :
      in_u32 max_orders -> reachable (OrderBook_new max_orders)
  | reachable_step (b : OrderBook) (op : BookOp) :
      reachable b -> well_typed_op op -> reachable (fst (apply_op b op)).

(* ===================================================================== *)
(** ** The representation invariant of the book *)
(* ===================================================================== *)

(** [lseg p prev c hd nxt lst]: following [next_idx] from [hd] visits
    exactly the slots [c], the back pointers mirror the walk starting from
    [prev], the walk leaves the segment at [nxt], and [lst] is the last
    slot visited ([prev] when the segment is empty). *)
Fixpoint lseg (p : Pool.t) (prev : N) (c : list N) (hd nxt lst : N) : Prop :=
  match c with
  | [] => hd = nxt /\ lst = prev
  | i :: c' =>
      hd = i /\ Order.prev_idx (Pool.at_ p i) = prev /\
      lseg p i c' (Order.next_idx (Pool.at_ p i)) nxt lst
  end.

(** The FIFO of a level holds exactly the slots [c], head first. *)
Definition linked (p : Pool.t) (l : PriceLevel.t) (c : list N) : Prop :=
  lseg p INVALID_POOL_INDEX c (PriceLevel.head_idx l) INVALID_POOL_INDEX
       (PriceLevel.tail_idx l).

Definition slot_live (p : Pool.t) (i : N) : Prop :=
  Pool.in_use (Pool.entry_at p i) = true.

Definition slot_free (p : Pool.t) (i : N) : Prop :=
  exists e, Pool.storage_ p !! i = Some e /\ Pool.in_use e = false.

(** Slot [i] holds a live order of side [s] at the price of level [l],
    and the order-id index points back at it. *)
Definition resting (b : OrderBook) (s : Side) (l : PriceLevel.t) (i : N) : Prop :=
  slot_live (order_pool_ b) i /\
  Order.side (Pool.at_ (order_pool_ b) i) = s /\
  Order.price (Pool.at_ (order_pool_ b) i) = PriceLevel.price l /\
  order_map_ b !! Order.order_id (Pool.at_ (order_pool_ b) i) = Some i.

Definition level_ok (b : OrderBook) (s : Side) (l : PriceLevel.t) (c : list N) : Prop :=
  linked (order_pool_ b) l c /\
  PriceLevel.order_count l = N.of_nat (length c) /\
  Forall (resting b s l) c.

(** The freelist threaded through [next_free]. *)
Fixpoint free_list (p : Pool.t) (hd : N) (fl : list N) : Prop :=
  match fl with
  | [] => hd = INVALID_POOL_INDEX
  | i :: fl' => hd = i /\ free_list p (Pool.next_free (Pool.entry_at p i)) fl'
  end.

Definition pool_ok (p : Pool.t) : Prop :=
  (Pool.capacity_ p <= INVALID_POOL_INDEX)%N /\
  (forall i, is_Some (Pool.storage_ p !! i) -> (i < Pool.capacity_ p)%N) /\
  exists fl, free_list p (Pool.free_head_ p) fl /\ NoDup fl /\
             Forall (slot_free p) fl.

(** Strict price order of a level array: descending for bids, ascending
    for asks. *)
Definition sorted_levels (is_bid : bool) (ls : list PriceLevel.t) : Prop :=
  StronglySorted
    (fun a b => level_before is_bid a (PriceLevel.price b) = true) ls.

(** The slots held by the levels of each side, head first (bids, asks). *)
Definition Chains : Type := list (list N) * list (list N).

Definition chains_of (s : Side) (ch : Chains) : list (list N) :=
  match s with Buy => fst ch | Sell => snd ch end.

Definition set_chains (s : Side) (c : list (list N)) (ch : Chains) : Chains :=
  match s with Buy => (c, snd ch) | Sell => (fst ch, c) end.

Definition all_slots (ch : Chains) : list N :=
  concat (fst ch) ++ concat (snd ch).

Definition book_inv (b : OrderBook) (ch : Chains) : Prop :=
  pool_ok (order_pool_ b) /\
  (forall s, Forall2 (level_ok b s) (levels_of s b) (chains_of s ch)) /\
  NoDup (all_slots ch) /\
  (forall id i, order_map_ b !! id = Some i ->
                i ∈ all_slots ch /\ Order.order_id (Pool.at_ (order_pool_ b) i) = id) /\
  (forall s, sorted_levels (is_buy s) (levels_of s b)).

Definition levels_nonempty (ls : list PriceLevel.t) : Prop :=
  Forall (fun l => PriceLevel.empty l = false) ls.

Definition Inv (b : OrderBook) : Prop :=
  (exists ch, book_inv b ch) /\
  forall s, levels_nonempty (levels_of s b).

(** The fields of an order that no book operation changes once it rests,
    and its intrusive links. *)
Definition ident (o : Order.t) : N * N * Side * Z :=
  (Order.order_id o, Order.trader_id o, Order.side o, Order.price o).

Definition links (o : Order.t) : N * N :=
  (Order.prev_idx o, Order.next_idx o).

Definition keeps_ident (f : Order.t -> Order.t) : Prop :=
  forall o, ident (f o) = ident o.

Definition keeps_links (f : Order.t -> Order.t) : Prop :=
  forall o, links (f o) = links o.

(** [p'] has the slots of [p], in the same allocation state, holding the
    same orders up to their quantities and links. *)
Definition same_slots (p p' : Pool.t) : Prop :=
  Pool.capacity_ p' = Pool.capacity_ p /\
  Pool.free_head_ p' = Pool.free_head_ p /\
  forall j,
    (is_Some (Pool.storage_ p' !! j) <-> is_Some (Pool.storage_ p !! j)) /\
    Pool.in_use (Pool.entry_at p' j) = Pool.in_use (Pool.entry_at p j) /\
    Pool.next_free (Pool.entry_at p' j) = Pool.next_free (Pool.entry_at p j) /\
    ident (Pool.at_ p' j) = ident (Pool.at_ p j).

(* ===================================================================== *)
(** ** Vocabulary of the specification *)
(* ===================================================================== *)

(** The trades a book operation hands to the observer. *)
Definition trades_since (before after : OrderBook) : list Trade.t :=
  drop (length (trade_log_ before)) (trade_log_ after).

(** The slots of a level in FIFO order, read off the intrusive list. *)
Fixpoint walk (p : Pool.t) (fuel : nat) (i : N) : list N :=
  match fuel with
  | O => []
  | S fuel' => i :: walk p fuel' (Order.next_idx (Pool.at_ p i))
  end.

Definition level_orders (p : Pool.t) (l : PriceLevel.t) : list N :=
  walk p (N.to_nat (PriceLevel.order_count l)) (PriceLevel.head_idx l).

(** The resting orders of one side in price-time priority: the levels in
    array order (best price first), each level from its head (earliest
    arrival first). *)
Definition priority_order (s : Side) (b : OrderBook) : list N :=
  concat (level_orders (order_pool_ b) <$> levels_of s b).

(** Trade [t] was made against the order resting in slot [j] of book [b]:
    the index of [b] sends the trade's maker id to [j], and the order in
    that slot has the trade's maker id, trader, price, and the side
    opposite to the taker's. *)
Definition made_by (b : OrderBook) (t : Trade.t) (j : N) : Prop :=
  slot_live (order_pool_ b) j /\
  order_map_ b !! Trade.maker_order_id t = Some j /\
  Order.order_id (Pool.at_ (order_pool_ b) j) = Trade.maker_order_id t /\
  Order.trader_id (Pool.at_ (order_pool_ b) j) = Trade.maker_trader_id t /\
  Order.price (Pool.at_ (order_pool_ b) j) = Trade.price t /\
  Order.side (Pool.at_ (order_pool_ b) j) = opposite (Trade.taker_side t).

(** The test of the outer [for] of [match_order] together with the price
    test that breaks out of it. *)
Definition match_levels_continues (side : Side) (price : Z) (is_market : bool)
    (li : nat) (st : MatchState) : bool :=
  match levels_of (opposite side) (ms_book st) !! li with
  | Some lvl => (ms_remaining st >? 0) && negb (price_stops side price is_market lvl)
  | None => false
  end.

(** The risk checks in the order of the specification, each paired with
    the variant reported when it fails. *)
Definition price_check_fails (cfg : RiskConfig.t) (ev : OrderEvent.t) : bool :=
  negb (bool_decide (OrderEvent.type ev = NewMarket)) &&
  negb ((RiskConfig.min_price cfg <=? OrderEvent.price ev) &&
        (OrderEvent.price ev <=? RiskConfig.max_price cfg)).

Definition qty_check_fails (cfg : RiskConfig.t) (ev : OrderEvent.t) : bool :=
  negb ((0 <? OrderEvent.qty ev) &&
        (OrderEvent.qty ev <=? RiskConfig.max_order_qty cfg)).

Definition value_check_fails (cfg : RiskConfig.t) (ev : OrderEvent.t) : bool :=
  negb (OrderEvent.price ev * OrderEvent.qty ev <=? RiskConfig.max_order_value cfg).

Definition balance_check_fails (rc : RiskChecker.t) (ev : OrderEvent.t) : bool :=
  match RiskChecker.accounts_ rc with
  | Some accs =>
      RiskConfig.check_balance (RiskChecker.config_ rc) &&
      bool_decide (OrderEvent.side ev = Buy) &&
      negb (Accounts.has_sufficient_balance accs (OrderEvent.trader_id ev)
              (OrderEvent.price ev * OrderEvent.qty ev))
  | None => false
  end.

Definition checks_in_order (rc : RiskChecker.t) (ev : OrderEvent.t)
  : list (bool * RiskResult) :=
  [ (price_check_fails (RiskChecker.config_ rc) ev, InvalidPrice);
    (qty_check_fails (RiskChecker.config_ rc) ev, InvalidQty);
    (value_check_fails (RiskChecker.config_ rc) ev, ExceedsMaxOrderValue);
    (balance_check_fails rc ev, InsufficientBalance) ].

Fixpoint first_failing (checks : list (bool * RiskResult)) : RiskResult :=
  match checks with
  | [] => Passed
  | (fails, variant) :: rest => if fails then variant else first_failing rest
  end.

(** The check as the specification words it. *)
Definition check_spec (rc : RiskChecker.t) (ev : OrderEvent.t) : RiskResult :=
  if bool_decide (OrderEvent.type ev = Cancel) then Passed
  else first_failing (checks_in_order rc ev).

(** Sign of the taker's position change. *)
Definition side_sign (s : Side) : Z :=
  match s with Buy => 1 | Sell => -1 end.

(* ===================================================================== *)
(** ** Sample scenarios *)
(* ===================================================================== *)

Definition sample_ops : list BookOp :=
  [ OpAddLimit 1 0 Sell 101 10; OpAddLimit 2 0 Sell 100 10;
    OpAddLimit 3 1 Buy 99 5; OpAddLimit 4 1 Buy 98 5;
    OpAddLimit 5 2 Buy 100 4; OpModify 3 7 97; OpCancel 4 ].

Definition sample_book : OrderBook := run_ops (OrderBook_new 8) sample_ops.

(** One resting bid: order 1, 10 units at 100. *)
Definition one_bid_book : OrderBook :=
  run_ops (OrderBook_new 4) [OpAddLimit 1 0 Buy 100 10].

(** Two asks at 100, order 1 then order 2, and a third at 101. *)
Definition two_asks_book : OrderBook :=
  run_ops (OrderBook_new 4)
    [OpAddLimit 1 0 Sell 100 10; OpAddLimit 2 1 Sell 100 7; OpAddLimit 3 1 Sell 101 5].

(** A pool of a single slot, taken by a resting ask. *)
Definition full_book : OrderBook :=
  run_ops (OrderBook_new 1) [OpAddLimit 1 0 Sell 100 10].

(** An engine with a small pool, and two events: one the risk check
    passes, one it rejects for its zero quantity. *)
Definition small_engine : MatchingEngine.t :=
  MatchingEngine.new (EngineConfig.mk 16 8 1000000 RiskConfig.default).

Definition good_event : OrderEvent.t := OrderEvent.new_limit 1 0 Buy 100 10.
Definition zero_qty_event : OrderEvent.t := OrderEvent.new_limit 2 0 Buy 100 0.

(** [n] applications of [++counter] on a 64-bit counter. *)
Definition incr_u64_times (n : nat) (counter : N) : N :=
  Nat.iter n incr_u64 counter.

(** [total_volume_] after the trades [ts]. *)
Definition add_volumes (ts : list Trade.t) (volume : N) : N :=
  fold_left (fun v t => add_i64_to_u64 v (Trade.qty t)) ts volume.

(** A risk checker with the default limits and no account table. *)
Definition default_checker : RiskChecker.t :=
  RiskChecker.mk RiskConfig.default None.

(** Every balance and position is a 64-bit value. *)
Definition accounts_well_typed (accs : Accounts.t) : Prop :=
  Forall (fun a => in_i64 (Account.balance a) /\ in_i64 (Account.position a))
         (Accounts.accounts_ accs).

(** None of the four updates of [apply_trade] overflows. *)
Definition trade_fits (accs : Accounts.t) (maker_id taker_id : N)
    (taker_side : Side) (price qty : Z) : Prop :=
  in_i64 (Accounts.get_balance accs taker_id - side_sign taker_side * (price * qty)) /\
  in_i64 (Accounts.get_position accs taker_id + side_sign taker_side * qty) /\
  in_i64 (Accounts.get_balance accs maker_id + side_sign taker_side * (price * qty)) /\
  in_i64 (Accounts.get_position accs maker_id - side_sign taker_side * qty).

(** Two traders with a balance of 1000 and no position. *)
Definition two_accounts : Accounts.t :=
  Accounts.mk [Account.make 7 1000; Account.make 9 1000] 8.

(** An update of an account that leaves its owner alone. *)
Definition keeps_trader (f : Account.t -> Account.t) : Prop :=
  forall a, Account.trader_id (f a) = Account.trader_id a.

(* ===================================================================== *)
(** ** Further vocabulary for the order book *)
(* ===================================================================== *)

(** No bid is priced at or above an ask. *)
Definition uncrossed (b : OrderBook) : Prop :=
  forall lb la, lb ∈ bids_ b -> la ∈ asks_ b ->
                PriceLevel.price lb < PriceLevel.price la.

(** Every price of [ls'] is a price of [ls]. *)
Definition prices_within (ls' ls : list PriceLevel.t) : Prop :=
  forall l', l' ∈ ls' -> exists l, l ∈ ls /\ PriceLevel.price l' = PriceLevel.price l.

(** A taker of side [side] with limit [price] may trade at [p]. *)
Definition within_limit (side : Side) (price p : Z) : Prop :=
  match side with Buy => p <= price | Sell => price <= p end.

(** The quantity traded by a list of trades. *)
Definition traded_qty (ts : list Trade.t) : Z :=
  foldr (fun t acc => Trade.qty t + acc) 0 ts.

(* ===================================================================== *)
(** ** src/lob/order_book.cpp: query operations *)
(* ===================================================================== *)

(** [for (const auto& level : levels) if (!level.empty()) return ...]:
    the first level that is not empty. *)
Fixpoint first_nonempty (levels : list PriceLevel.t) : option PriceLevel.t :=
  match levels with
  | [] => None
  | level :: rest =>
      if negb (PriceLevel.empty level) then Some level else first_nonempty rest
  end.

Definition best_bid (b : OrderBook) : option Z :=
  PriceLevel.price <$> first_nonempty (bids_ b).

Definition best_ask (b : OrderBook) : option Z :=
  PriceLevel.price <$> first_nonempty (asks_ b).

(** [ask->get() - bid->get()] on [std::int64_t]. *)
Definition spread (b : OrderBook) : option Z :=
  match best_bid b, best_ask b with
  | Some bid, Some ask => Some (wrap_i64 (ask - bid))
  | _, _ => None
  end.

Definition best_bid_qty (b : OrderBook) : Z :=
  match first_nonempty (bids_ b) with
  | Some level => PriceLevel.total_qty level
  | None => 0
  end.

Definition best_ask_qty (b : OrderBook) : Z :=
  match first_nonempty (asks_ b) with
  | Some level => PriceLevel.total_qty level
  | None => 0
  end.

(** [order_pool_.size()]. *)
Definition order_count (b : OrderBook) : N := Pool.size_ (order_pool_ b).

(** [for (...) if (!level.empty()) ++count;] on a [std::size_t]. *)
Fixpoint count_nonempty (levels : list PriceLevel.t) (count : N) : N :=
  match levels with
  | [] => count
  | level :: rest =>
      count_nonempty rest
        (if negb (PriceLevel.empty level) then incr_u64 count else count)
  end.

Definition bid_levels (b : OrderBook) : N := count_nonempty (bids_ b) 0%N.
Definition ask_levels (b : OrderBook) : N := count_nonempty (asks_ b) 0%N.

Definition trade_count (b : OrderBook) : N := total_trades_ b.
Definition total_volume (b : OrderBook) : N := total_volume_ b.

(** [order_map_.contains(order_id.get())]. *)
Definition has_order (b : OrderBook) (order_id : N) : bool :=
  bool_decide (is_Some (order_map_ b !! order_id)).

(** ** Prices compared by side *)

(** For an order of side [s], price [q] is strictly worse than price [p]:
    lower for a buy, higher for a sell. *)
Definition worse (s : Side) (q p : Z) : Prop :=
  match s with Buy => q < p | Sell => p < q end.

(** For an order of side [s], price [q] is at least as good as [p]. *)
Definition no_worse (s : Side) (q p : Z) : Prop :=
  match s with Buy => p <= q | Sell => q <= p end.

(** The order held by a pool slot of a book. *)
Definition order_at (b : OrderBook) (j : N) : Order.t :=
  Pool.at_ (order_pool_ b) j.

(** The slots linked in the levels of the book, bids first. *)
Definition linked_orders (b : OrderBook) : list N :=
  priority_order Buy b ++ priority_order Sell b.

(* ===================================================================== *)
(** ** concurrency/ring_buffer.hpp *)
(* ===================================================================== *)

Module RingBuffer.
(** [RingBuffer<T, Capacity>]: the array and the three [std::size_t]
    fields.  The template parameter [Capacity] is an argument of the
    operations. *)
Record t (T : Type) := mk {
  buffer_ : list T;
  head_ : N;
  tail_ : N;
  size_ : N
}.
Arguments mk {T}.
Arguments buffer_ {T}.
Arguments head_ {T}.
Arguments tail_ {T}.
Arguments size_ {T}.

(** [requires (Capacity > 0 && (Capacity & (Capacity - 1)) == 0)]. *)
Definition requires (Capacity : N) : bool :=
  ((0 <? Capacity) && (N.land Capacity (Capacity - 1) =? 0))%N.

Definition MASK (Capacity : N) : N := (Capacity - 1)%N.

(** The default constructor; [init] is the value-initialised [T{}]. *)
Definition new {T} (Capacity : N) (init : T) : t T :=
  mk (replicate (N.to_nat Capacity) init) 0%N 0%N 0%N.

(** [push(const T&)]; the overload taking [T&&] differs in the move
    only. *)
Definition push {T} (Capacity : N) (rb : t T) (value : T) : bool * t T :=
  if (Capacity <=? size_ rb)%N then (false, rb)
  else
    (true,
     mk (<[N.to_nat (head_ rb) := value]> (buffer_ rb))
        (N.land (wrap_u64 (head_ rb + 1)) (MASK Capacity))
        (tail_ rb)
        (wrap_u64 (size_ rb + 1))).

(** [pop()] returning [std::optional<T>].  The size is not 0 where it
    is decremented. *)
Definition pop {T} (Capacity : N) (rb : t T) : option T * t T :=
  if (size_ rb =? 0)%N then (None, rb)
  else
    (buffer_ rb !! N.to_nat (tail_ rb),
     mk (buffer_ rb) (head_ rb)
        (N.land (wrap_u64 (tail_ rb + 1)) (MASK Capacity))
        (size_ rb - 1)%N).

(** [peek()]: [None] stands for [nullptr]. *)
Definition peek {T} (rb : t T) : option T :=
  if (size_ rb =? 0)%N then None else buffer_ rb !! N.to_nat (tail_ rb).

Definition size {T} (rb : t T) : N := size_ rb.
Definition capacity (Capacity : N) : N := Capacity.
Definition empty {T} (rb : t T) : bool := (size_ rb =? 0)%N.
Definition full {T} (Capacity : N) (rb : t T) : bool := (Capacity <=? size_ rb)%N.

Definition clear {T} (rb : t T) : t T := mk (buffer_ rb) 0%N 0%N 0%N.
End RingBuffer.

(** *** The ring buffer seen through its interface *)

Inductive RingOp (T : Type) :=
  | RingPush (value : T)
  | RingPop
  | RingPeek
  | RingClear.
Arguments RingPush {T}.
Arguments RingPop {T}.
Arguments RingPeek {T}.
Arguments RingClear {T}.

(** What a call returns, followed by [size()], [empty()] and [full()]
    read after the call. *)
Inductive RingResult (T : Type) :=
  | Pushed (ok : bool)
  | Popped (value : option T)
  | Peeked (value : option T)
  | Cleared.
Arguments Pushed {T}.
Arguments Popped {T}.
Arguments Peeked {T}.
Arguments Cleared {T}.

Definition RingObs (T : Type) : Type := RingResult T * (N * bool * bool).

Definition ring_call {T} (Capacity : N) (rb : RingBuffer.t T) (op : RingOp T)
  : RingResult T * RingBuffer.t T :=
  match op with
  | RingPush value =>
      let '(ok, rb') := RingBuffer.push Capacity rb value in (Pushed ok, rb')
  | RingPop =>
      let '(value, rb') := RingBuffer.pop Capacity rb in (Popped value, rb')
  | RingPeek => (Peeked (RingBuffer.peek rb), rb)
  | RingClear => (Cleared, RingBuffer.clear rb)
  end.

Fixpoint ring_run {T} (Capacity : N) (rb : RingBuffer.t T) (ops : list (RingOp T))
  : list (RingObs T) :=
  match ops with
  | [] => []
  | op :: ops' =>
      let '(r, rb') := ring_call Capacity rb op in
      (r, (RingBuffer.size rb', RingBuffer.empty rb', RingBuffer.full Capacity rb'))
        :: ring_run Capacity rb' ops'
  end.

(** A first-in first-out queue holding at most [Capacity] elements. *)
Definition queue_call {T} (Capacity : N) (q : list T) (op : RingOp T)
  : RingResult T * list T :=
  match op with
  | RingPush value =>
      if (N.of_nat (length q) <? Capacity)%N then (Pushed true, q ++ [value])
      else (Pushed false, q)
  | RingPop =>
      match q with
      | [] => (Popped None, [])
      | x :: q' => (Popped (Some x), q')
      end
  | RingPeek => (Peeked (head q), q)
  | RingClear => (Cleared, [])
  end.

Fixpoint queue_run {T} (Capacity : N) (q : list T) (ops : list (RingOp T))
  : list (RingObs T) :=
  match ops with
  | [] => []
  | op :: ops' =>
      let '(r, q') := queue_call Capacity q op in
      (r, (N.of_nat (length q'), bool_decide (q' = []),
           bool_decide (Capacity <= N.of_nat (length q'))%N))
        :: queue_run Capacity q' ops'
  end.

(** The buffer [rb] holds the queue [q]: the elements of [q] sit in the
    array from [tail_] on, wrapping around, and [head_] is the cell after
    the last one. *)
Definition ring_holds {T} (Capacity : N) (rb : RingBuffer.t T) (q : list T) : Prop :=
  length (RingBuffer.buffer_ rb) = N.to_nat Capacity /\
  (RingBuffer.tail_ rb < Capacity)%N /\
  RingBuffer.size_ rb = N.of_nat (length q) /\
  (RingBuffer.size_ rb <= Capacity)%N /\
  RingBuffer.head_ rb = ((RingBuffer.tail_ rb + RingBuffer.size_ rb) mod Capacity)%N /\
  forall k x, q !! k = Some x ->
    RingBuffer.buffer_ rb
      !! N.to_nat ((RingBuffer.tail_ rb + N.of_nat k) mod Capacity) = Some x.

(* ===================================================================== *)
(** ** common/types.hpp: names of the enumerations *)
(* ===================================================================== *)

(** A [const char*] is given by the characters it points to; past the end
    of the Rocq string the terminator is read. *)
Definition is_nul (c : Ascii.ascii) : bool := Ascii.eqb c Ascii.zero.

(** The characters of a C string, up to its terminator. *)
Fixpoint c_str (s : string) : string :=
  match s with
  | EmptyString => EmptyString
  | String c s' => if is_nul c then EmptyString else String c (c_str s')
  end.

Definition to_string_Side (s : Side) : string :=
  match s with Buy => "Buy" | Sell => "Sell" end.

Definition to_string_OrderType (t : OrderType) : string :=
  match t with
  | NewLimit => "NewLimit"
  | NewMarket => "NewMarket"
  | Cancel => "Cancel"
  | Modify => "Modify"
  end.

Definition to_string_OrderResult (r : OrderResult) : string :=
  match r with
  | Accepted => "Accepted"
  | PartiallyFilled => "PartiallyFilled"
  | FullyFilled => "FullyFilled"
  | Cancelled => "Cancelled"
  | Modified => "Modified"
  | Rejected => "Rejected"
  | NotFound => "NotFound"
  end.

(** [detail::str_equal]: the loop runs while both characters are not the
    terminator; then [*a == *b] is returned. *)
Fixpoint str_equal (a b : string) : bool :=
  match a, b with
  | String x a', String y b' =>
      if negb (is_nul x) && negb (is_nul y) then
        if negb (Ascii.eqb x y) then false else str_equal a' b'
      else Ascii.eqb x y
  | String x _, EmptyString => Ascii.eqb x Ascii.zero
  | EmptyString, String y _ => Ascii.eqb Ascii.zero y
  | EmptyString, EmptyString => true
  end.

Definition parse_side (s : string) : Side :=
  if str_equal s "Buy" || str_equal s "B" then Buy else Sell.

Definition parse_order_type (s : string) : OrderType :=
  if str_equal s "NewLimit" || str_equal s "L" then NewLimit
  else if str_equal s "NewMarket" || str_equal s "M" then NewMarket
  else if str_equal s "Cancel" || str_equal s "C" then Cancel
  else if str_equal s "Modify" || str_equal s "X" then Modify
  else NewLimit.

(* ===================================================================== *)
(** ** memory/arena.hpp *)
(* ===================================================================== *)

(** [a - b] and [~a] on [std::size_t]. *)
Definition sub_u64 (a b : N) : N := wrap_u64 (a + (2 ^ 64 - wrap_u64 b)).
Definition not_u64 (a : N) : N := N.lnot (wrap_u64 a) 64.

Module Arena.
(** The bytes of [buffer_] are not modelled: an allocation is the
    offset of its first byte from [buffer_.get()]. *)
Record t := mk {
  capacity_ : N;
  offset_ : N
}.

Definition new (capacity : N) : t := mk capacity 0%N.

(** [allocate(size, alignment)]: [None] stands for [nullptr]. *)
Definition allocate (a : t) (size alignment : N) : option N * t :=
  let aligned_offset :=
    N.land (sub_u64 (wrap_u64 (offset_ a + alignment)) 1)
           (not_u64 (sub_u64 alignment 1)) in
  if (capacity_ a <? wrap_u64 (aligned_offset + size))%N then (None, a)
  else (Some aligned_offset, mk (capacity_ a) (wrap_u64 (aligned_offset + size))).

Definition reset (a : t) : t := mk (capacity_ a) 0%N.

Definition used (a : t) : N := offset_ a.
Definition capacity (a : t) : N := capacity_ a.
Definition remaining (a : t) : N := sub_u64 (capacity_ a) (offset_ a).
End Arena.

(** A request: [(size, alignment)]. *)
Definition ArenaRequest : Type := N * N.

(** The blocks [(offset, size)] handed out for a sequence of requests, in
    the order of the calls; refused requests hand out nothing. *)
Fixpoint arena_blocks (a : Arena.t) (reqs : list ArenaRequest) : list (N * N) :=
  match reqs with
  | [] => []
  | (size, alignment) :: reqs' =>
      match Arena.allocate a size alignment with
      | (Some p, a') => (p, size) :: arena_blocks a' reqs'
      | (None, a') => arena_blocks a' reqs'
      end
  end.

(** The least multiple of [alignment] that is not below [offset]. *)
Definition round_up (offset alignment : N) : N :=
  ((offset + alignment - 1) / alignment * alignment)%N.

(** A request the arithmetic of [allocate] handles without overflow: the
    alignment is a power of two and capacity, alignment and size together
    stay below 2^64. *)
Definition request_fits (capacity : N) (req : ArenaRequest) : Prop :=
  (exists k, req.2 = 2 ^ k)%N /\ (capacity + req.2 + req.1 < 2 ^ 64)%N.

(* ===================================================================== *)
(** ** The account table seen through its interface *)
(* ===================================================================== *)

(** The account an [Account*] returned by [get] points to. *)
Definition account_of (accs : Accounts.t) (trader_id : N) : option Account.t :=
  match Accounts.get accs trader_id with
  | Some ptr => Accounts.accounts_ accs !! ptr
  | None => None
  end.

Definition trader_ids (accs : Accounts.t) : list N :=
  Account.trader_id <$> Accounts.accounts_ accs.

(** The mutating calls of [Accounts]. *)
Inductive AccountOp :=
  | AccCreate (trader_id : N) (initial_balance : Z)
  | AccGetOrCreate (trader_id : N) (initial_balance : Z)
  | AccApplyTrade (maker_id taker_id : N) (taker_side : Side) (price qty : Z)
  | AccAdjust (trader_id : N) (amount : Z)
  | AccClear.

Definition account_call (accs : Accounts.t) (op : AccountOp) : Accounts.t :=
  match op with
  | AccCreate id b => (Accounts.create_account accs id b).2
  | AccGetOrCreate id b => (Accounts.get_or_create accs id b).2
  | AccApplyTrade m t s p q => Accounts.apply_trade accs m t s p q
  | AccAdjust id amount => (Accounts.adjust_balance accs id amount).2
  | AccClear => Accounts.clear accs
  end.

Definition account_run (accs : Accounts.t) (ops : list AccountOp) : Accounts.t :=
  fold_left account_call ops accs.

(** *** Counters *)

(** Book [b'] has logged the trades [ts] since book [b], and its counters
    have advanced by them. *)
Definition advances (b b' : OrderBook) (ts : list Trade.t) : Prop :=
  trade_log_ b' = trade_log_ b ++ ts /\
  total_trades_ b' = incr_u64_times (length ts) (total_trades_ b) /\
  total_volume_ b' = add_volumes ts (total_volume_ b).

(** *** Positive quantities *)

(** Every indexed order has something left to trade. *)
Definition quantities_positive (b : OrderBook) : Prop :=
  forall id i, order_map_ b !! id = Some i ->
               0 < Order.qty_remaining (order_at b i).

(** A [modify] that asks for a positive quantity; the other operations
    are not restricted. *)
Definition positive_op (op : BookOp) : Prop :=
  match op with
  | OpModify _ new_qty _ => 0 < new_qty
  | _ => True
  end.

(** *** The book behind the risk checks *)

(** Every indexed order has a price satisfying [R]. *)
Definition prices_satisfy (R : Z -> Prop) (b : OrderBook) : Prop :=
  forall id i, order_map_ b !! id = Some i -> R (Order.price (order_at b i)).

(** The prices an operation submits satisfy [R]; a [modify] with price 0
    keeps the price of the order. *)
Definition op_prices_satisfy (R : Z -> Prop) (op : BookOp) : Prop :=
  match op with
  | OpAddLimit _ _ _ price _ => R price
  | OpModify _ _ new_price => new_price <> 0 -> R new_price
  | _ => True
  end.

(** The fields of an event fit the C++ types. *)
Definition well_typed_event (ev : OrderEvent.t) : Prop :=
  in_u64 (OrderEvent.order_id ev) /\ in_u32 (OrderEvent.trader_id ev) /\
  in_i64 (OrderEvent.price ev) /\ in_i64 (OrderEvent.qty ev).

(** The price range of a risk configuration. *)
Definition price_allowed (cfg : RiskConfig.t) (p : Z) : Prop :=
  RiskConfig.min_price cfg <= p <= RiskConfig.max_price cfg.

(** *** Totals over the account table *)

Definition sum_balances (l : list Account.t) : Z :=
  foldr (fun a s => Account.balance a + s) 0 l.

Definition sum_positions (l : list Account.t) : Z :=
  foldr (fun a s => Account.position a + s) 0 l.

(** The sum of all balances, and of all positions, as 64-bit values. *)
Definition total_balance (accs : Accounts.t) : Z :=
  wrap_i64 (sum_balances (Accounts.accounts_ accs)).

Definition total_position (accs : Accounts.t) : Z :=
  wrap_i64 (sum_positions (Accounts.accounts_ accs)).

(** An update of an account that shifts its balance by [d] and its
    position by [e], up to 64-bit wrap-around. *)
Definition shifts (f : Account.t -> Account.t) (d e : Z) : Prop :=
  forall a, wrap_i64 (Account.balance (f a)) = wrap_i64 (Account.balance a + d) /\
            wrap_i64 (Account.position (f a)) = wrap_i64 (Account.position a + e).

(* ===================================================================== *)
(** ** The object pool seen through its interface *)
(* ===================================================================== *)

(** The mutating calls of [ObjectPool]. *)
Inductive PoolOp :=
  | PoolAllocate (o : Order.t)
  | PoolDeallocate (index : N)
  | PoolClear.

(** One call.  [deallocate] asserts that the index is below the capacity
    and in use; a call that breaks the assertion has no result. *)
Definition pool_call (p : Pool.t) (op : PoolOp) : option Pool.t :=
  match op with
  | PoolAllocate o => Some (Pool.allocate p o).2
  | PoolDeallocate index =>
      if Pool.is_valid p index then Some (Pool.deallocate p index) else None
  | PoolClear => Some (Pool.clear p)
  end.

Definition pool_run (p : Pool.t) (ops : list PoolOp) : option Pool.t :=
  foldl (fun r op => r ≫= fun p' => pool_call p' op) (Some p) ops.

(** The indices [0 .. capacity-1], and those of them [is_valid] accepts. *)
Definition indices (capacity : N) : list N :=
  N.of_nat <$> seq 0 (N.to_nat capacity).

Definition valid_indices (p : Pool.t) : list N :=
  filter (fun i => Pool.is_valid p i = true) (indices (Pool.capacity_ p)).

(** The freelist [fl] holds exactly the slots that are not in use, and
    [size_] counts the others. *)
Definition pool_acct (p : Pool.t) (fl : list N) : Prop :=
  (Pool.capacity_ p <= INVALID_POOL_INDEX)%N /\
  (forall i, is_Some (Pool.storage_ p !! i) <-> (i < Pool.capacity_ p)%N) /\
  free_list p (Pool.free_head_ p) fl /\ NoDup fl /\
  (forall i, i ∈ fl <-> slot_free p i) /\
  (Pool.size_ p + N.of_nat (length fl) = Pool.capacity_ p)%N.

(* ===================================================================== *)
(** ** Counting the resting orders *)
(* ===================================================================== *)

(** The pool holds as many objects as the index holds ids. *)
Definition counted (b : OrderBook) : Prop :=
  Pool.size_ (order_pool_ b) = N.of_nat (size (order_map_ b)).

(* ===================================================================== *)
(** ** concurrency/spsc_semaphore_queue.hpp *)
(* ===================================================================== *)

Module SpscSemaphoreQueue.
(** [SpscSemaphoreQueue<T, Capacity>]: the array, the two atomic
    [std::size_t] indices and the counters of the two semaphores.  The
    template parameter [Capacity] is an argument of the operations. *)
Record t (T : Type) := mk {
  buffer_ : list T;
  head_ : N;
  tail_ : N;
  free_slots_ : N;
  filled_slots_ : N
}.
Arguments mk {T}.
Arguments buffer_ {T}.
Arguments head_ {T}.
Arguments tail_ {T}.
Arguments free_slots_ {T}.
Arguments filled_slots_ {T}.

(** [requires (Capacity > 0 && (Capacity & (Capacity - 1)) == 0)]. *)
Definition requires (Capacity : N) : bool :=
  ((0 <? Capacity) && (N.land Capacity (Capacity - 1) =? 0))%N.

Definition MASK (Capacity : N) : N := (Capacity - 1)%N.

(** The constructor: [free_slots_{Capacity}], [filled_slots_{0}];
    [init] is the value-initialised [T{}]. *)
Definition new {T} (Capacity : N) (init : T) : t T :=
  mk (replicate (N.to_nat Capacity) init) 0%N 0%N Capacity 0%N.

(** [head - tail] on [std::size_t], for the two loads of [size_approx]
    reading the same state. *)
Definition size_approx {T} (q : t T) : N := sub_u64 (head_ q) (tail_ q).
Definition capacity (Capacity : N) : N := Capacity.
Definition empty_approx {T} (q : t T) : bool := (size_approx q =? 0)%N.
Definition full_approx {T} (Capacity : N) (q : t T) : bool :=
  (Capacity <=? size_approx q)%N.
End SpscSemaphoreQueue.

(** *** The two threads

    Where the producer stands inside [push] / [try_push], and the
    consumer inside [pop] / [try_pop]: one constructor for the point
    after each access to shared state, carrying the locals. *)
Inductive Producer (T : Type) :=
  | PIdle
  | PAcquired (value : T)
  | PLoaded (value : T) (head : N)
  | PWritten (head : N)
  | PStored.
Arguments PIdle {T}.
Arguments PAcquired {T}.
Arguments PLoaded {T}.
Arguments PWritten {T}.
Arguments PStored {T}.

Inductive Consumer (T : Type) :=
  | CIdle
  | CAcquired
  | CLoaded (tail : N)
  | CRead (tail : N) (out : T)
  | CStored (out : T).
Arguments CIdle {T}.
Arguments CAcquired {T}.
Arguments CLoaded {T}.
Arguments CRead {T}.
Arguments CStored {T}.

(** The queue, the two threads, and two histories: the values of the
    calls of [push] that got past the semaphore, and the values the
    calls of [pop] returned. *)
Record Spsc (T : Type) := mkSpsc {
  queue : SpscSemaphoreQueue.t T;
  producer : Producer T;
  consumer : Consumer T;
  pushed : list T;
  popped : list T
}.
Arguments mkSpsc {T}.
Arguments queue {T}.
Arguments producer {T}.
Arguments consumer {T}.
Arguments pushed {T}.
Arguments popped {T}.

Definition spsc_new {T} (Capacity : N) (init : T) : Spsc T :=
  mkSpsc (SpscSemaphoreQueue.new Capacity init) PIdle CIdle [] [].

(** The next access of the producer to shared state.  An idle producer
    calls [push(value)] or [try_push(value)]: with no free slot the
    first waits and the second returns false, and nothing changes. *)
Definition producer_step {T} (Capacity : N) (value : T) (s : Spsc T) : Spsc T :=
  let q := queue s in
  match producer s with
  | PIdle =>
      if (SpscSemaphoreQueue.free_slots_ q =? 0)%N then s
      else
        mkSpsc (SpscSemaphoreQueue.mk
                  (SpscSemaphoreQueue.buffer_ q) (SpscSemaphoreQueue.head_ q)
                  (SpscSemaphoreQueue.tail_ q)
                  (SpscSemaphoreQueue.free_slots_ q - 1)%N
                  (SpscSemaphoreQueue.filled_slots_ q))
               (PAcquired value) (consumer s) (pushed s ++ [value]) (popped s)
  | PAcquired v =>
      mkSpsc q (PLoaded v (SpscSemaphoreQueue.head_ q)) (consumer s)
             (pushed s) (popped s)
  | PLoaded v head =>
      mkSpsc (SpscSemaphoreQueue.mk
                (<[N.to_nat (N.land head (SpscSemaphoreQueue.MASK Capacity)) := v]>
                   (SpscSemaphoreQueue.buffer_ q))
                (SpscSemaphoreQueue.head_ q) (SpscSemaphoreQueue.tail_ q)
                (SpscSemaphoreQueue.free_slots_ q)
                (SpscSemaphoreQueue.filled_slots_ q))
             (PWritten head) (consumer s) (pushed s) (popped s)
  | PWritten head =>
      mkSpsc (SpscSemaphoreQueue.mk
                (SpscSemaphoreQueue.buffer_ q) (wrap_u64 (head + 1))
                (SpscSemaphoreQueue.tail_ q)
                (SpscSemaphoreQueue.free_slots_ q)
                (SpscSemaphoreQueue.filled_slots_ q))
             PStored (consumer s) (pushed s) (popped s)
  | PStored =>
      mkSpsc (SpscSemaphoreQueue.mk
                (SpscSemaphoreQueue.buffer_ q) (SpscSemaphoreQueue.head_ q)
                (SpscSemaphoreQueue.tail_ q)
                (SpscSemaphoreQueue.free_slots_ q)
                (SpscSemaphoreQueue.filled_slots_ q + 1)%N)
             PIdle (consumer s) (pushed s) (popped s)
  end.

(** The next access of the consumer to shared state.  An idle consumer
    calls [pop] or [try_pop]: with no filled slot the first waits and the
    second returns false, and nothing changes.  [tail & MASK] is below
    [Capacity], the length of the array. *)
Definition consumer_step {T} (Capacity : N) (s : Spsc T) : Spsc T :=
  let q := queue s in
  match consumer s with
  | CIdle =>
      if (SpscSemaphoreQueue.filled_slots_ q =? 0)%N then s
      else
        mkSpsc (SpscSemaphoreQueue.mk
                  (SpscSemaphoreQueue.buffer_ q) (SpscSemaphoreQueue.head_ q)
                  (SpscSemaphoreQueue.tail_ q)
                  (SpscSemaphoreQueue.free_slots_ q)
                  (SpscSemaphoreQueue.filled_slots_ q - 1)%N)
               (producer s) CAcquired (pushed s) (popped s)
  | CAcquired =>
      mkSpsc q (producer s) (CLoaded (SpscSemaphoreQueue.tail_ q))
             (pushed s) (popped s)
  | CLoaded tail =>
      match SpscSemaphoreQueue.buffer_ q
              !! N.to_nat (N.land tail (SpscSemaphoreQueue.MASK Capacity)) with
      | Some out => mkSpsc q (producer s) (CRead tail out) (pushed s) (popped s)
      | None => s
      end
  | CRead tail out =>
      mkSpsc (SpscSemaphoreQueue.mk
                (SpscSemaphoreQueue.buffer_ q) (SpscSemaphoreQueue.head_ q)
                (wrap_u64 (tail + 1))
                (SpscSemaphoreQueue.free_slots_ q)
                (SpscSemaphoreQueue.filled_slots_ q))
             (producer s) (CStored out) (pushed s) (popped s)
  | CStored out =>
      mkSpsc (SpscSemaphoreQueue.mk
                (SpscSemaphoreQueue.buffer_ q) (SpscSemaphoreQueue.head_ q)
                (SpscSemaphoreQueue.tail_ q)
                (SpscSemaphoreQueue.free_slots_ q + 1)%N
                (SpscSemaphoreQueue.filled_slots_ q))
             (producer s) CIdle (pushed s) (popped s ++ [out])
  end.

(** An interleaving: which thread takes its next step, with the value an
    idle producer would push. *)
Inductive SpscStep (T : Type) :=
  | StepProducer (value : T)
  | StepConsumer.
Arguments StepProducer {T}.
Arguments StepConsumer {T}.

Definition spsc_step {T} (Capacity : N) (s : Spsc T) (step : SpscStep T) : Spsc T :=
  match step with
  | StepProducer value => producer_step Capacity value s
  | StepConsumer => consumer_step Capacity s
  end.

Definition spsc_run {T} (Capacity : N) (s : Spsc T) (schedule : list (SpscStep T))
  : Spsc T :=
  fold_left (spsc_step Capacity) schedule s.

(** How far each thread is through its call, as 0 or 1: accepted but not
    yet written, stored, released; and read, stored, acquired. *)
Definition p_unwritten {T} (p : Producer T) : N :=
  match p with PAcquired _ | PLoaded _ _ => 1 | _ => 0 end.
Definition p_unstored {T} (p : Producer T) : N :=
  match p with PAcquired _ | PLoaded _ _ | PWritten _ => 1 | _ => 0 end.
Definition p_unreleased {T} (p : Producer T) : N :=
  match p with PIdle => 0 | _ => 1 end.
Definition c_read {T} (c : Consumer T) : N :=
  match c with CRead _ _ | CStored _ => 1 | _ => 0 end.
Definition c_stored {T} (c : Consumer T) : N :=
  match c with CStored _ => 1 | _ => 0 end.
Definition c_acquired {T} (c : Consumer T) : N :=
  match c with CIdle => 0 | _ => 1 end.

(** The locals of the two threads agree with the shared state. *)
Definition producer_ok {T} (s : Spsc T) : Prop :=
  match producer s with
  | PIdle | PStored => True
  | PAcquired v => last (pushed s) = Some v
  | PLoaded v head =>
      last (pushed s) = Some v /\ head = SpscSemaphoreQueue.head_ (queue s)
  | PWritten head => head = SpscSemaphoreQueue.head_ (queue s)
  end.

Definition consumer_ok {T} (s : Spsc T) : Prop :=
  match consumer s with
  | CIdle | CAcquired => True
  | CLoaded tail => tail = SpscSemaphoreQueue.tail_ (queue s)
  | CRead tail out =>
      tail = SpscSemaphoreQueue.tail_ (queue s) /\
      pushed s !! length (popped s) = Some out
  | CStored out => pushed s !! length (popped s) = Some out
  end.

(** The invariant of the protocol, with [A] values accepted and [R]
    returned: the indices count the stores, the semaphores count the
    slots, and the array holds the values written and not yet read. *)
Definition spsc_inv {T} (Capacity : N) (s : Spsc T) : Prop :=
  let q := queue s in
  let A := N.of_nat (length (pushed s)) in
  let R := N.of_nat (length (popped s)) in
  length (SpscSemaphoreQueue.buffer_ q) = N.to_nat Capacity /\
  (p_unreleased (producer s) <= A)%N /\
  SpscSemaphoreQueue.head_ q = wrap_u64 (A - p_unstored (producer s)) /\
  SpscSemaphoreQueue.tail_ q = wrap_u64 (R + c_stored (consumer s)) /\
  (SpscSemaphoreQueue.free_slots_ q + A = Capacity + R)%N /\
  (SpscSemaphoreQueue.filled_slots_ q + R + c_acquired (consumer s)
   = A - p_unreleased (producer s))%N /\
  (forall k x,
     (R + c_read (consumer s) <= k)%N -> (k < A - p_unwritten (producer s))%N ->
     pushed s !! N.to_nat k = Some x ->
     SpscSemaphoreQueue.buffer_ q !! N.to_nat (k mod Capacity) = Some x) /\
  popped s = take (length (popped s)) (pushed s) /\
  producer_ok s /\ consumer_ok s.

(* ===================================================================== *)
(** ** metrics/latency.hpp *)
(* ===================================================================== *)

Module LatencyHistogram.
(** [std::numeric_limits<Duration>::max()], [Duration] being
    [std::int64_t]. *)
Definition DURATION_MAX : Z := 2 ^ 63 - 1.

(** The sample array and the fields guarded by the mutex, which is not
    modelled. *)
Record t := mk {
  samples_ : list Z;
  capacity_ : N;
  write_pos_ : N;
  count_ : N;
  min_ : Z;
  max_ : Z;
  sum_ : Z
}.

(** [LatencyHistogram(capacity)]: [resize] fills the array with 0. *)
Definition new (capacity : N) : t :=
  mk (replicate (N.to_nat capacity) 0) capacity 0%N 0%N DURATION_MAX 0 0.

Definition record (h : t) (latency_ns : Z) : t :=
  mk (<[N.to_nat (write_pos_ h) := latency_ns]> (samples_ h))
     (capacity_ h)
     (wrap_u64 (write_pos_ h + 1) mod capacity_ h)%N
     (wrap_u64 (count_ h + 1))
     (Z.min (min_ h) latency_ns)
     (Z.max (max_ h) latency_ns)
     (wrap_i64 (sum_ h + latency_ns)).

Definition clear (h : t) : t :=
  mk (samples_ h) (capacity_ h) 0%N 0%N DURATION_MAX 0 0.

Definition count (h : t) : N := count_ h.

(** [compute_stats]: the fields [count], [min_ns] and [max_ns] of the
    result, and the vector it sorts, before the sort.  The mean and
    the percentiles are doubles and are not modelled. *)
Definition stats_bounds (h : t) : N * Z * Z :=
  if (count_ h =? 0)%N then (0%N, DURATION_MAX, 0)
  else (count_ h, min_ h, max_ h).

Definition sample_count (h : t) : N := N.min (count_ h) (capacity_ h).

Definition stats_samples (h : t) : list Z :=
  if (count_ h =? 0)%N then []
  else take (N.to_nat (sample_count h)) (samples_ h).
End LatencyHistogram.

(** *** The histogram seen through its interface *)

Inductive HistOp :=
  | HistRecord (latency_ns : Z)
  | HistClear.

Definition hist_call (h : LatencyHistogram.t) (op : HistOp) : LatencyHistogram.t :=
  match op with
  | HistRecord latency_ns => LatencyHistogram.record h latency_ns
  | HistClear => LatencyHistogram.clear h
  end.

Definition hist_run (h : LatencyHistogram.t) (ops : list HistOp)
  : LatencyHistogram.t :=
  fold_left hist_call ops h.

(** The samples recorded since the last [clear], oldest first. *)
Definition since_clear (ops : list HistOp) : list Z :=
  fold_left (fun xs op =>
               match op with
               | HistRecord latency_ns => xs ++ [latency_ns]
               | HistClear => []
               end) ops [].

(** The histogram [h] summarises the samples [xs]. *)
Definition summarises (capacity : N) (h : LatencyHistogram.t) (xs : list Z) : Prop :=
  let n := N.of_nat (length xs) in
  length (LatencyHistogram.samples_ h) = N.to_nat capacity /\
  LatencyHistogram.capacity_ h = capacity /\
  LatencyHistogram.count_ h = n /\
  LatencyHistogram.write_pos_ h = (n mod capacity)%N /\
  LatencyHistogram.min_ h = foldr Z.min LatencyHistogram.DURATION_MAX xs /\
  LatencyHistogram.max_ h = foldr Z.max 0 xs /\
  LatencyHistogram.sum_ h = wrap_i64 (foldr Z.add 0 xs) /\
  forall k : N,
    (k < n)%N -> (n <= k + capacity)%N ->
    LatencyHistogram.samples_ h !! N.to_nat (k mod capacity)%N = xs !! N.to_nat k.

(* ===================================================================== *)
(** ** Arithmetic helpers *)
(* ===================================================================== *)

Lemma wrap_i64_id z : in_i64 z -> wrap_i64 z = z.
Proof.
  unfold in_i64, wrap_i64. intros H.
  rewrite Z.mod_small by lia. lia.
Qed.

Lemma wrap_i64_0 : wrap_i64 0 = 0.
Proof. reflexivity. Qed.

Lemma wrap_i64_range z : in_i64 (wrap_i64 z).
Proof.
  unfold in_i64, wrap_i64.
  pose proof (Z.mod_pos_bound (z + 2 ^ 63) (2 ^ 64) ltac:(lia)). lia.
Qed.

Lemma incr_u32_small n : (n + 1 < 2 ^ 32)%N -> incr_u32 n = (n + 1)%N.
Proof. intros H. unfold incr_u32, wrap_u32. apply N.mod_small. exact H. Qed.

Lemma decr_u32_pos n : (0 < n < 2 ^ 32)%N -> decr_u32 n = (n - 1)%N.
Proof.
  intros H. unfold decr_u32, wrap_u32.
  replace (n + (2 ^ 32 - 1))%N with ((n - 1) + 1 * 2 ^ 32)%N by lia.
  rewrite N.Div0.mod_add. apply N.mod_small. lia.
Qed.

(* ===================================================================== *)
(** ** The object pool *)
(* ===================================================================== *)

Section PoolFacts.
Implicit Types (p : Pool.t) (i j : N) (f : Order.t -> Order.t).

Lemma update_entry_at p i f j :
  Pool.entry_at (Pool.update p i f) j =
  if decide (i = j)
  then Pool.mkEntry (match Pool.storage_ p !! i with
                     | Some _ => f (Pool.at_ p i)
                     | None => Order.default
                     end)
                    (Pool.next_free (Pool.entry_at p i))
                    (Pool.in_use (Pool.entry_at p i))
  else Pool.entry_at p j.
Proof.
  unfold Pool.entry_at, Pool.at_, Pool.entry_at, Pool.update; simpl.
  rewrite lookup_alter. case_decide; [subst j|done].
  destruct (Pool.storage_ p !! i); reflexivity.
Qed.

Lemma update_at_ne p i f j : i <> j -> Pool.at_ (Pool.update p i f) j = Pool.at_ p j.
Proof.
  intros H. unfold Pool.at_. rewrite update_entry_at.
  case_decide; [contradiction|done].
Qed.

Lemma update_at_eq p i f :
  is_Some (Pool.storage_ p !! i) ->
  Pool.at_ (Pool.update p i f) i = f (Pool.at_ p i).
Proof.
  intros [e He]. unfold Pool.at_ at 1. rewrite update_entry_at.
  case_decide; [|contradiction]. rewrite He. reflexivity.
Qed.

Lemma update_in_use p i f j :
  Pool.in_use (Pool.entry_at (Pool.update p i f) j) = Pool.in_use (Pool.entry_at p j).
Proof. rewrite update_entry_at. case_decide; [subst|]; reflexivity. Qed.

Lemma update_next_free p i f j :
  Pool.next_free (Pool.entry_at (Pool.update p i f) j) =
  Pool.next_free (Pool.entry_at p j).
Proof. rewrite update_entry_at. case_decide; [subst|]; reflexivity. Qed.

Lemma update_dom p i f j :
  is_Some (Pool.storage_ (Pool.update p i f) !! j) <-> is_Some (Pool.storage_ p !! j).
Proof.
  unfold Pool.update; simpl. rewrite lookup_alter.
  case_decide; [subst j|done]. rewrite fmap_is_Some. done.
Qed.

Lemma slot_live_dom p i : slot_live p i -> is_Some (Pool.storage_ p !! i).
Proof.
  unfold slot_live, Pool.entry_at.
  destruct (Pool.storage_ p !! i); [eauto|discriminate].
Qed.

Lemma slot_free_not_live p i : slot_free p i -> slot_live p i -> False.
Proof.
  intros (e & He & Hf). unfold slot_live, Pool.entry_at. rewrite He; simpl.
  congruence.
Qed.

Lemma update_slot_live p i f j : slot_live (Pool.update p i f) j <-> slot_live p j.
Proof. unfold slot_live. rewrite update_in_use. done. Qed.

Lemma update_slot_free p i f j : slot_free (Pool.update p i f) j <-> slot_free p j.
Proof.
  unfold slot_free, Pool.update; simpl. rewrite lookup_alter.
  case_decide; [subst j|done].
  destruct (Pool.storage_ p !! i) as [e|]; simpl.
  - split; intros (e' & He' & Hu); simplify_eq; eauto.
  - split; intros (e' & He' & Hu); simplify_eq.
Qed.

Lemma deallocate_at p i j : Pool.at_ (Pool.deallocate p i) j = Pool.at_ p j.
Proof.
  unfold Pool.at_, Pool.entry_at, Pool.deallocate; simpl.
  rewrite lookup_alter. case_decide; [subst j|done].
  destruct (Pool.storage_ p !! i); reflexivity.
Qed.

Lemma deallocate_live p i j :
  slot_live (Pool.deallocate p i) j <-> slot_live p j /\ i <> j.
Proof.
  unfold slot_live, Pool.entry_at, Pool.deallocate; simpl.
  rewrite lookup_alter. case_decide; [subst j|].
  - destruct (Pool.storage_ p !! i); simpl; split; intros; try discriminate;
      destruct_and?; congruence.
  - split; [intros; split; assumption|intros [? _]; assumption].
Qed.

Lemma deallocate_free p i j :
  slot_free (Pool.deallocate p i) j <->
  (i = j /\ is_Some (Pool.storage_ p !! i)) \/ (i <> j /\ slot_free p j).
Proof.
  unfold slot_free, Pool.deallocate; simpl. rewrite lookup_alter.
  case_decide; [subst j|].
  - destruct (Pool.storage_ p !! i) as [e|]; simpl; split.
    + intros _. left. eauto.
    + intros _. eauto.
    + intros (e & He & _). discriminate.
    + intros [[_ [e He]]|[Hne _]]; [discriminate|contradiction].
  - split; [intros H'; right; eauto|intros [[? _]|[_ ?]]; [contradiction|assumption]].
Qed.

Lemma deallocate_next_free p i j :
  is_Some (Pool.storage_ p !! i) ->
  Pool.next_free (Pool.entry_at (Pool.deallocate p i) j) =
  if decide (i = j) then Pool.free_head_ p else Pool.next_free (Pool.entry_at p j).
Proof.
  intros [e He]. unfold Pool.entry_at, Pool.deallocate; simpl.
  rewrite lookup_alter. case_decide; [subst j|done]. rewrite He. reflexivity.
Qed.

Lemma deallocate_dom p i j :
  is_Some (Pool.storage_ (Pool.deallocate p i) !! j) <-> is_Some (Pool.storage_ p !! j).
Proof.
  unfold Pool.deallocate; simpl. rewrite lookup_alter.
  case_decide; [subst j|done]. rewrite fmap_is_Some. done.
Qed.
End PoolFacts.

(* ===================================================================== *)
(** ** Intrusive list segments *)
(* ===================================================================== *)

Section Segments.
Implicit Types (p : Pool.t) (c : list N) (i j : N).

Lemma lseg_ext p p' prev c hd nxt lst :
  (forall j, j ∈ c -> links (Pool.at_ p' j) = links (Pool.at_ p j)) ->
  lseg p prev c hd nxt lst -> lseg p' prev c hd nxt lst.
Proof.
  revert prev hd. induction c as [|i c IH]; intros prev hd Hl; simpl; [done|].
  intros (-> & Hp & Hs).
  assert (Hi : links (Pool.at_ p' i) = links (Pool.at_ p i)) by (apply Hl; left).
  unfold links in Hi. injection Hi as Hi1 Hi2.
  split; [done|]. split; [congruence|]. rewrite Hi2.
  apply IH; [|assumption]. intros j Hj. apply Hl. by right.
Qed.

Lemma lseg_app p prev c1 c2 hd nxt lst :
  lseg p prev (c1 ++ c2) hd nxt lst <->
  exists mid l1, lseg p prev c1 hd mid l1 /\ lseg p l1 c2 mid nxt lst.
Proof.
  revert prev hd. induction c1 as [|i c1 IH]; intros prev hd; simpl.
  - split.
    + intros H. exists hd, prev. done.
    + intros (mid & l1 & [-> ->] & H). done.
  - split.
    + intros (-> & Hp & Hs). apply IH in Hs as (mid & l1 & H1 & H2).
      exists mid, l1. done.
    + intros (mid & l1 & (-> & Hp & H1) & H2).
      split; [done|]. split; [done|]. apply IH. eauto.
Qed.

Lemma lseg_last_elem p prev c hd nxt lst :
  c <> [] -> lseg p prev c hd nxt lst -> lst ∈ c.
Proof.
  revert prev hd. induction c as [|i c IH]; intros prev hd Hne; simpl; [done|].
  intros (-> & _ & Hs). destruct c as [|k c].
  - destruct Hs as [_ ->]. left.
  - right. eapply IH; [done|exact Hs].
Qed.

Lemma lseg_head p prev c hd nxt lst :
  lseg p prev c hd nxt lst -> hd = List.hd nxt c.
Proof. destruct c; simpl; [by intros [-> _]|by intros (-> & _)]. Qed.

(** Redirecting the pointer that leaves a segment. *)
Lemma lseg_set_next p p' prev c hd nxt lst x :
  NoDup c ->
  (forall j, j ∈ c -> j <> lst -> links (Pool.at_ p' j) = links (Pool.at_ p j)) ->
  (lst ∈ c -> links (Pool.at_ p' lst) = (Order.prev_idx (Pool.at_ p lst), x)) ->
  lseg p prev c hd nxt lst ->
  lseg p' prev c (match c with [] => x | _ => hd end) x lst.
Proof.
  revert prev hd. induction c as [|i c IH]; intros prev hd Hnd Ho Hl; simpl.
  - by intros [_ ->].
  - intros (-> & Hp & Hs). apply NoDup_cons in Hnd as [Hi Hnd].
    split; [done|].
    destruct c as [|k c].
    + destruct Hs as [_ ->].
      specialize (Hl ltac:(left)). unfold links in Hl. injection Hl as Hl1 Hl2.
      simpl. split; [congruence|]. split; [congruence|done].
    + assert (Hne : i <> lst).
      { intros ->. apply Hi. eapply lseg_last_elem; [|exact Hs]. done. }
      assert (Hli : links (Pool.at_ p' i) = links (Pool.at_ p i)).
      { apply Ho; [left|done]. }
      unfold links in Hli. injection Hli as Hli1 Hli2.
      split; [congruence|]. rewrite Hli2.
      assert (Hk : Order.next_idx (Pool.at_ p i) = k) by (by destruct Hs as [-> _]).
      specialize (IH i (Order.next_idx (Pool.at_ p i)) Hnd).
      simpl in IH. rewrite Hk in IH |- *. rewrite Hk in Hs.
      apply IH; [|intros; apply Hl; by right|exact Hs].
      intros j Hj Hjl. apply Ho; [by right|done].
Qed.

(** Redirecting the back pointer that enters a segment. *)
Lemma lseg_set_prev p p' prev c hd nxt lst x :
  NoDup c ->
  (forall j, j ∈ c -> j <> hd -> links (Pool.at_ p' j) = links (Pool.at_ p j)) ->
  (hd ∈ c -> links (Pool.at_ p' hd) = (x, Order.next_idx (Pool.at_ p hd))) ->
  lseg p prev c hd nxt lst ->
  lseg p' x c hd nxt (match c with [] => x | _ => lst end).
Proof.
  intros Hnd Ho Hh. destruct c as [|i c]; simpl.
  - by intros [-> _].
  - intros (-> & Hp & Hs). apply NoDup_cons in Hnd as [Hi Hnd].
    specialize (Hh ltac:(left)). unfold links in Hh. injection Hh as Hh1 Hh2.
    split; [done|]. split; [done|]. rewrite Hh2.
    eapply lseg_ext; [|exact Hs].
    intros j Hj. apply Ho; [by right|]. intros ->. done.
Qed.
End Segments.

(* ===================================================================== *)
(** ** Pools that differ only in quantities and links *)
(* ===================================================================== *)

Section SameSlots.
Implicit Types (p : Pool.t) (i j : N).

Lemma keeps_ident_set_next n : keeps_ident (Order.set_next_idx n).
Proof. intros o. reflexivity. Qed.
Lemma keeps_ident_set_prev n : keeps_ident (Order.set_prev_idx n).
Proof. intros o. reflexivity. Qed.
Lemma keeps_ident_set_qty (g : Order.t -> Z) :
  keeps_ident (fun o => Order.set_qty_remaining (g o) o).
Proof. intros o. reflexivity. Qed.

Lemma same_slots_refl p : same_slots p p.
Proof. repeat split; done. Qed.

Lemma same_slots_trans p1 p2 p3 :
  same_slots p1 p2 -> same_slots p2 p3 -> same_slots p1 p3.
Proof.
  intros (Hc1 & Hf1 & H1) (Hc2 & Hf2 & H2).
  split; [congruence|]. split; [congruence|].
  intros j. destruct (H1 j) as (Ha & Hb & Hc & Hd).
  destruct (H2 j) as (Ha' & Hb' & Hc' & Hd').
  split; [by rewrite Ha'|]. split; [congruence|]. split; congruence.
Qed.

Lemma same_slots_update p i f : keeps_ident f -> same_slots p (Pool.update p i f).
Proof.
  intros Hf. split; [done|]. split; [done|]. intros j.
  split; [apply update_dom|]. split; [apply update_in_use|].
  split; [apply update_next_free|].
  destruct (decide (i = j)) as [->|Hne]; [|by rewrite update_at_ne].
  unfold Pool.at_. rewrite update_entry_at. case_decide; [|done]. simpl.
  unfold Pool.at_, Pool.entry_at.
  destruct (Pool.storage_ p !! j); simpl; [apply Hf|done].
Qed.

Lemma same_slots_live p p' j : same_slots p p' -> slot_live p' j <-> slot_live p j.
Proof.
  intros (_ & _ & H). destruct (H j) as (_ & Hu & _).
  unfold slot_live. by rewrite Hu.
Qed.

Lemma same_slots_free p p' j : same_slots p p' -> slot_free p' j <-> slot_free p j.
Proof.
  intros (_ & _ & H). destruct (H j) as (Hd & Hu & _).
  unfold slot_free. unfold Pool.entry_at in Hu.
  split; intros (e & He & Hf).
  - destruct Hd as [Hd _]. destruct (Hd ltac:(eauto)) as [e' He'].
    exists e'. split; [done|]. rewrite He, He' in Hu. simpl in Hu. congruence.
  - destruct Hd as [_ Hd]. destruct (Hd ltac:(eauto)) as [e' He'].
    exists e'. split; [done|]. rewrite He, He' in Hu. simpl in Hu. congruence.
Qed.

Lemma free_list_ext p p' hd fl :
  (forall j, Pool.next_free (Pool.entry_at p' j) = Pool.next_free (Pool.entry_at p j)) ->
  free_list p hd fl -> free_list p' hd fl.
Proof.
  intros H. revert hd. induction fl as [|i fl IH]; intros hd; simpl; [done|].
  intros [-> Hl]. split; [done|]. rewrite H. by apply IH.
Qed.

Lemma pool_ok_same_slots p p' : same_slots p p' -> pool_ok p -> pool_ok p'.
Proof.
  intros Hs (Hcap & Hdom & fl & Hfl & Hnd & Hfree).
  pose proof Hs as (Hc & Hf & H).
  split; [by rewrite Hc|]. split.
  { intros i Hi. rewrite Hc. apply Hdom. by apply (H i). }
  exists fl. split; [|split; [done|]].
  - rewrite Hf. eapply free_list_ext; [|exact Hfl]. intros j. apply (H j).
  - eapply Forall_impl; [exact Hfree|]. intros j Hj. by apply (same_slots_free p p').
Qed.

Lemma pool_ok_live_bound p i :
  pool_ok p -> slot_live p i -> (i < Pool.capacity_ p)%N /\ i <> INVALID_POOL_INDEX.
Proof.
  intros (Hcap & Hdom & _) Hl. apply slot_live_dom in Hl. apply Hdom in Hl.
  split; [done|]. lia.
Qed.

Lemma pool_ok_deallocate p i :
  pool_ok p -> slot_live p i -> pool_ok (Pool.deallocate p i).
Proof.
  intros (Hcap & Hdom & fl & Hfl & Hnd & Hfree) Hl.
  pose proof (slot_live_dom _ _ Hl) as Hsome.
  split; [done|]. split.
  { intros j Hj. apply Hdom. by apply deallocate_dom in Hj. }
  assert (Hni : i ∉ fl).
  { intros Hi. rewrite Forall_forall in Hfree.
    eapply slot_free_not_live; [apply Hfree; exact Hi|exact Hl]. }
  exists (i :: fl). split; [|split].
  - simpl. split; [done|]. rewrite deallocate_next_free by done.
    case_decide; [|done]. clear Hfree Hnd.
    revert Hfl Hni. generalize (Pool.free_head_ p).
    induction fl as [|k fl IH]; intros hd; simpl; [done|].
    intros [-> Hl'] Hnk. apply not_elem_of_cons in Hnk as [Hik Hnk].
    split; [done|]. rewrite deallocate_next_free by done.
    case_decide; [congruence|]. by apply IH.
  - by apply NoDup_cons.
  - apply Forall_cons. split.
    + apply deallocate_free. left. done.
    + rewrite Forall_forall in Hfree |- *. intros j Hj.
      apply deallocate_free. right. split; [|by apply Hfree].
      intros ->. contradiction.
Qed.
End SameSlots.

Section Allocate.
Implicit Types (p : Pool.t) (i j : N).

Lemma allocate_fail p o p' :
  Pool.allocate p o = (INVALID_POOL_INDEX, p') ->
  p' = p /\ Pool.free_head_ p = INVALID_POOL_INDEX.
Proof.
  unfold Pool.allocate.
  destruct (N.eqb_spec (Pool.free_head_ p) INVALID_POOL_INDEX) as [He|Hne].
  - intros [= <-]. done.
  - intros [= Hf _]. contradiction.
Qed.

Lemma allocate_ok p o idx p' :
  pool_ok p -> Pool.allocate p o = (idx, p') -> idx <> INVALID_POOL_INDEX ->
  pool_ok p' /\ slot_free p idx /\ slot_live p' idx /\ Pool.at_ p' idx = o /\
  (forall j, j <> idx ->
     Pool.at_ p' j = Pool.at_ p j /\ (slot_live p' j <-> slot_live p j)).
Proof.
  intros (Hcap & Hdom & fl & Hfl & Hnd & Hfree). unfold Pool.allocate.
  destruct (N.eqb_spec (Pool.free_head_ p) INVALID_POOL_INDEX) as [He|Hne];
    [intros [= <- _]; contradiction|].
  intros [= <- <-] _.
  destruct fl as [|i fl]; simpl in Hfl; [contradiction|].
  destruct Hfl as [Hi Hfl]. rewrite Hi in *.
  apply NoDup_cons in Hnd as [Hni Hnd].
  apply Forall_cons in Hfree as [Hfi Hfree].
  pose proof Hfi as (e & He & Hu).
  assert (Hlk : forall j,
    alter (fun e0 => Pool.mkEntry o (Pool.next_free e0) true) i
          (Pool.storage_ p) !! j =
    if decide (i = j) then Some (Pool.mkEntry o (Pool.next_free e) true)
    else Pool.storage_ p !! j).
  { intros j. rewrite lookup_alter. case_decide; [subst j|done].
    rewrite He. reflexivity. }
  split; [|split; [done|split; [|split]]].
  - split; [done|]. split.
    { simpl. intros j. rewrite Hlk. case_decide; [subst j|apply Hdom].
      intros _. apply Hdom. eauto. }
    exists fl. split; [|split; [done|]].
    + simpl. eapply free_list_ext; [|exact Hfl].
      intros j. unfold Pool.entry_at; simpl. rewrite Hlk.
      case_decide; [subst j; by rewrite He|done].
    + rewrite Forall_forall in Hfree |- *. intros j Hj.
      destruct (Hfree j Hj) as (ej & Hej & Huj).
      exists ej. split; [|done]. simpl. rewrite Hlk.
      case_decide; [subst j; contradiction|done].
  - unfold slot_live, Pool.entry_at; simpl. rewrite Hlk.
    case_decide; [done|contradiction].
  - unfold Pool.at_, Pool.entry_at; simpl. rewrite Hlk.
    case_decide; [done|contradiction].
  - intros j Hj. unfold Pool.at_, slot_live, Pool.entry_at; simpl. rewrite Hlk.
    case_decide; [congruence|done].
Qed.
End Allocate.

(* ===================================================================== *)
(** ** The FIFO operations of a price level *)
(* ===================================================================== *)

Ltac solve_elem :=
  repeat (rewrite ?elem_of_app, ?elem_of_cons, ?elem_of_nil in * );
  first [done | tauto | naive_solver].

Section LevelOps.
Implicit Types (p : Pool.t) (l : PriceLevel.t) (c : list N) (i j : N).

Lemma live_chain_facts p c :
  pool_ok p -> Forall (slot_live p) c ->
  forall j, j ∈ c ->
    j <> INVALID_POOL_INDEX /\ is_Some (Pool.storage_ p !! j).
Proof.
  intros Hp Hc j Hj. rewrite Forall_forall in Hc. specialize (Hc j Hj).
  split; [by apply (pool_ok_live_bound p)|by apply slot_live_dom].
Qed.

Lemma remove_spec p l c1 idx c2 p' l' :
  pool_ok p ->
  linked p l (c1 ++ idx :: c2) ->
  NoDup (c1 ++ idx :: c2) ->
  Forall (slot_live p) (c1 ++ idx :: c2) ->
  PriceLevel.remove p l idx = (p', l') ->
  linked p' l' (c1 ++ c2) /\
  same_slots p p' /\
  PriceLevel.price l' = PriceLevel.price l /\
  PriceLevel.order_count l' = decr_u32 (PriceLevel.order_count l) /\
  (forall j, Order.qty_remaining (Pool.at_ p' j) = Order.qty_remaining (Pool.at_ p j)) /\
  (forall j, j ∉ c1 ++ idx :: c2 -> links (Pool.at_ p' j) = links (Pool.at_ p j)).
Proof.
  intros Hp Hl Hnd Hlive Hrm.
  pose proof (live_chain_facts p _ Hp Hlive) as Hfacts.
  unfold linked in Hl. apply lseg_app in Hl as (mid & l1 & Hs1 & Hs2).
  simpl in Hs2. destruct Hs2 as (Hmid & Hprev & Hs2). subst mid.
  set (prev0 := Order.prev_idx (Pool.at_ p idx)) in *.
  set (next0 := Order.next_idx (Pool.at_ p idx)) in *.
  apply NoDup_app in Hnd as (Hnd1 & Hdisj & Hnd2').
  apply NoDup_cons in Hnd2' as [Hidx2 Hnd2].
  assert (Hidx1 : idx ∉ c1) by (intros H; eapply Hdisj; [exact H|left]).
  (* where the neighbours are *)
  assert (Hl1 : (c1 = [] /\ l1 = INVALID_POOL_INDEX) \/ (c1 <> [] /\ l1 ∈ c1)).
  { destruct c1 as [|k c1]; [left; by destruct Hs1 as [_ ->]|right].
    split; [done|]. eapply lseg_last_elem; [done|exact Hs1]. }
  assert (Hn0 : (c2 = [] /\ next0 = INVALID_POOL_INDEX) \/
                (exists k c2', c2 = k :: c2' /\ next0 = k)).
  { destruct c2 as [|k c2']; [left; by destruct Hs2 as [-> _]|right].
    exists k, c2'. by destruct Hs2 as [-> _]. }
  assert (Hp_idx : prev0 <> idx).
  { rewrite Hprev. destruct Hl1 as [[_ ->]|[_ Hin]].
    - intros Heq. destruct (Hfacts idx) as [Hx _]; [solve_elem|congruence].
    - intros ->. contradiction. }
  assert (Hn_idx : next0 <> idx).
  { destruct Hn0 as [[_ ->]|(k & c2' & -> & ->)].
    - intros Heq. destruct (Hfacts idx) as [Hx _]; [solve_elem|congruence].
    - intros ->. apply Hidx2. left. }
  assert (Hpn : prev0 <> INVALID_POOL_INDEX -> next0 <> INVALID_POOL_INDEX ->
                prev0 <> next0).
  { rewrite Hprev. intros Ha Hb Heq.
    destruct Hl1 as [[_ ->]|[_ Hin]]; [done|].
    destruct Hn0 as [[_ Hx]|(k & c2' & -> & Hk)]; [done|].
    eapply Hdisj; [exact Hin|]. right. rewrite Heq, Hk. left. }
  (* the pool after the call *)
  unfold PriceLevel.remove in Hrm. fold prev0 next0 in Hrm.
  set (p1 := if (prev0 =? INVALID_POOL_INDEX)%N then p
             else Pool.update p prev0 (Order.set_next_idx next0)) in *.
  assert (H1 : Pool.at_ p1 idx = Pool.at_ p idx).
  { unfold p1. destruct (prev0 =? _)%N; [done|]. by rewrite update_at_ne. }
  rewrite H1 in Hrm. fold prev0 next0 in Hrm.
  set (p2 := if (next0 =? INVALID_POOL_INDEX)%N then p1
             else Pool.update p1 next0 (Order.set_prev_idx prev0)) in *.
  assert (H2 : Pool.at_ p2 idx = Pool.at_ p idx).
  { unfold p2. destruct (next0 =? _)%N; [done|]. by rewrite update_at_ne. }
  rewrite H2 in Hrm. injection Hrm as <- <-.
  set (p3 := Pool.update p2 idx (Order.set_prev_idx INVALID_POOL_INDEX)).
  set (p4 := Pool.update p3 idx (Order.set_next_idx INVALID_POOL_INDEX)).
  assert (Hs12 : same_slots p p2).
  { eapply same_slots_trans with p1.
    - unfold p1. destruct (prev0 =? _)%N; [apply same_slots_refl|].
      apply same_slots_update, keeps_ident_set_next.
    - unfold p2. destruct (next0 =? _)%N; [apply same_slots_refl|].
      apply same_slots_update, keeps_ident_set_prev. }
  assert (Hs : same_slots p p4).
  { eapply same_slots_trans; [exact Hs12|].
    eapply same_slots_trans; apply same_slots_update;
      [apply keeps_ident_set_prev|apply keeps_ident_set_next]. }
  assert (Hother : forall j, j <> idx -> Pool.at_ p4 j = Pool.at_ p2 j).
  { intros j Hj. unfold p4, p3. by rewrite !update_at_ne. }
  assert (Hfar : forall j, j <> idx ->
                   (prev0 = INVALID_POOL_INDEX \/ j <> prev0) ->
                   (next0 = INVALID_POOL_INDEX \/ j <> next0) ->
                   Pool.at_ p4 j = Pool.at_ p j).
  { intros j Hj Hjp Hjn. rewrite Hother by done. unfold p2, p1.
    destruct (N.eqb_spec next0 INVALID_POOL_INDEX),
             (N.eqb_spec prev0 INVALID_POOL_INDEX);
      rewrite ?update_at_ne; try done; naive_solver. }
  assert (Hatp : l1 ∈ c1 ->
                 Pool.at_ p4 l1 = Order.set_next_idx next0 (Pool.at_ p l1)).
  { intros Hin. rewrite <- Hprev in Hin |- *.
    destruct (Hfacts prev0) as [Hne Hsome]; [solve_elem|].
    rewrite Hother by done. unfold p2.
    destruct (N.eqb_spec next0 INVALID_POOL_INDEX) as [Hnx|Hnx].
    - unfold p1. destruct (N.eqb_spec prev0 INVALID_POOL_INDEX); [done|].
      by rewrite update_at_eq.
    - rewrite update_at_ne by (intros Heq; by apply Hpn).
      unfold p1. destruct (N.eqb_spec prev0 INVALID_POOL_INDEX); [done|].
      by rewrite update_at_eq. }
  assert (Hatn : next0 ∈ c2 ->
                 Pool.at_ p4 next0 = Order.set_prev_idx prev0 (Pool.at_ p next0)).
  { intros Hin. destruct (Hfacts next0) as [Hne Hsome]; [solve_elem|].
    rewrite Hother by done. unfold p2.
    destruct (N.eqb_spec next0 INVALID_POOL_INDEX) as [Hnx|Hnx]; [done|].
    rewrite update_at_eq.
    - f_equal. unfold p1.
      destruct (N.eqb_spec prev0 INVALID_POOL_INDEX); [done|].
      rewrite update_at_ne; [done|]. by apply Hpn.
    - unfold p1. destruct (prev0 =? _)%N; [done|]. by apply update_dom. }
  split; [|split; [exact Hs|split; [done|split; [done|split]]]].
  - (* the remaining chain *)
    unfold linked; simpl. apply lseg_app.
    exists next0, l1. split.
    + assert (Hh : (if (prev0 =? INVALID_POOL_INDEX)%N then next0
                    else PriceLevel.head_idx l) =
                   match c1 with [] => next0 | _ => PriceLevel.head_idx l end).
      { rewrite Hprev. destruct Hl1 as [[-> ->]|[Hne Hin]]; [done|].
        destruct (Hfacts l1) as [Hx _]; [solve_elem|].
        destruct (N.eqb_spec l1 INVALID_POOL_INDEX); [done|].
        destruct c1; done. }
      rewrite Hh. eapply lseg_set_next; [exact Hnd1| | |exact Hs1].
      * intros j Hj Hjl. f_equal. apply Hfar.
        -- intros ->. contradiction.
        -- right. by rewrite Hprev.
        -- destruct Hn0 as [[_ ->]|(k & c2' & -> & ->)]; [by left|right].
           intros ->. eapply Hdisj; [exact Hj|]. right. left.
      * intros Hin. rewrite Hatp by done. reflexivity.
    + assert (Ht : (if (next0 =? INVALID_POOL_INDEX)%N then prev0
                    else PriceLevel.tail_idx l) =
                   match c2 with [] => l1 | _ => PriceLevel.tail_idx l end).
      { destruct Hn0 as [[-> ->]|(k & c2' & -> & Hk)]; [by rewrite Hprev|].
        destruct (Hfacts next0) as [Hx _]; [rewrite Hk; solve_elem|].
        destruct (N.eqb_spec next0 INVALID_POOL_INDEX); done. }
      rewrite Ht. eapply lseg_set_prev; [exact Hnd2| | |exact Hs2].
      * intros j Hj Hjn. f_equal. apply Hfar; [| |by right].
        -- intros ->. contradiction.
        -- rewrite Hprev. destruct Hl1 as [[_ ->]|[_ Hin]]; [by left|right].
           intros ->. eapply Hdisj; [exact Hin|]. by right.
      * intros Hin. rewrite Hatn by done. rewrite Hprev. reflexivity.
  - intros j.
    destruct (decide (j = idx)) as [->|Hj].
    { unfold p4, p3.
      assert (Hsome : is_Some (Pool.storage_ p2 !! idx)).
      { destruct Hs12 as (_ & _ & Hd). apply (Hd idx).
        apply (Hfacts idx). solve_elem. }
      rewrite update_at_eq by (by apply update_dom).
      rewrite update_at_eq by done. simpl. by rewrite H2. }
    rewrite Hother by done. unfold p2, p1.
    destruct (N.eqb_spec next0 INVALID_POOL_INDEX) as [Hnx|Hnx],
             (N.eqb_spec prev0 INVALID_POOL_INDEX) as [Hpx|Hpx]; [done|..].
    + destruct (decide (prev0 = j)) as [<-|]; [|by rewrite update_at_ne].
      destruct (Pool.storage_ p !! prev0) eqn:E.
      * by rewrite update_at_eq.
      * unfold Pool.at_. rewrite update_entry_at. case_decide; [|done].
        unfold Pool.entry_at. rewrite E. reflexivity.
    + destruct (decide (next0 = j)) as [<-|]; [|by rewrite update_at_ne].
      destruct (Pool.storage_ p !! next0) eqn:E.
      * by rewrite update_at_eq.
      * unfold Pool.at_. rewrite update_entry_at. case_decide; [|done].
        unfold Pool.entry_at. rewrite E. reflexivity.
    + assert (Hq : forall q x f,
        (forall o, Order.qty_remaining (f o) = Order.qty_remaining o) ->
        Order.qty_remaining (Pool.at_ (Pool.update q x f) j) =
        Order.qty_remaining (Pool.at_ q j)).
      { intros q x f Hf. destruct (decide (x = j)) as [<-|]; [|by rewrite update_at_ne].
        destruct (Pool.storage_ q !! x) eqn:E.
        * by rewrite update_at_eq.
        * unfold Pool.at_. rewrite update_entry_at. case_decide; [|done].
          unfold Pool.entry_at. rewrite E. reflexivity. }
      rewrite !Hq; done.
  - intros j Hj. f_equal. apply Hfar.
    + intros ->. solve_elem.
    + rewrite Hprev. destruct Hl1 as [[_ ->]|[_ Hin]]; [by left|right].
      intros ->. solve_elem.
    + destruct Hn0 as [[_ ->]|(k & c2' & -> & ->)]; [by left|right].
      intros ->. solve_elem.
Qed.
End LevelOps.

Section LevelPush.
Implicit Types (p : Pool.t) (l : PriceLevel.t) (c : list N) (i j : N).

Lemma update_qty_same p i f j :
  (forall o, Order.qty_remaining (f o) = Order.qty_remaining o) ->
  Order.qty_remaining (Pool.at_ (Pool.update p i f) j) =
  Order.qty_remaining (Pool.at_ p j).
Proof.
  intros Hf. destruct (decide (i = j)) as [<-|]; [|by rewrite update_at_ne].
  destruct (Pool.storage_ p !! i) eqn:E.
  - by rewrite update_at_eq.
  - unfold Pool.at_. rewrite update_entry_at. case_decide; [|done].
    unfold Pool.entry_at. rewrite E. reflexivity.
Qed.

Lemma push_back_spec p l c idx p' l' :
  pool_ok p ->
  linked p l c ->
  NoDup c ->
  Forall (slot_live p) c ->
  slot_live p idx ->
  idx ∉ c ->
  PriceLevel.push_back p l idx = (p', l') ->
  linked p' l' (c ++ [idx]) /\
  same_slots p p' /\
  PriceLevel.price l' = PriceLevel.price l /\
  PriceLevel.order_count l' = incr_u32 (PriceLevel.order_count l) /\
  (forall j, Order.qty_remaining (Pool.at_ p' j) = Order.qty_remaining (Pool.at_ p j)) /\
  (forall j, j ∉ c ++ [idx] -> links (Pool.at_ p' j) = links (Pool.at_ p j)).
Proof.
  intros Hp Hl Hnd Hlive Hidx Hni Hpb.
  pose proof (live_chain_facts p _ Hp Hlive) as Hfacts.
  pose proof (slot_live_dom _ _ Hidx) as Hsome.
  unfold linked in Hl.
  set (tl := PriceLevel.tail_idx l) in *.
  assert (Htl : (c = [] /\ tl = INVALID_POOL_INDEX) \/ (c <> [] /\ tl ∈ c)).
  { destruct c as [|k c]; [left; by destruct Hl as [_ ->]|right].
    split; [done|]. eapply lseg_last_elem; [done|exact Hl]. }
  unfold PriceLevel.push_back in Hpb. fold tl in Hpb.
  set (p1 := Pool.update p idx (Order.set_prev_idx tl)) in *.
  set (p2 := Pool.update p1 idx (Order.set_next_idx INVALID_POOL_INDEX)) in *.
  set (p3 := if (tl =? INVALID_POOL_INDEX)%N then p2
             else Pool.update p2 tl (Order.set_next_idx idx)) in *.
  injection Hpb as <- <-.
  assert (Hs : same_slots p p3).
  { eapply same_slots_trans; [apply same_slots_update, keeps_ident_set_prev|].
    eapply same_slots_trans; [apply same_slots_update, keeps_ident_set_next|].
    unfold p3. destruct (tl =? _)%N; [apply same_slots_refl|].
    apply same_slots_update, keeps_ident_set_next. }
  assert (Htl_idx : tl ∈ c -> tl <> idx) by (intros H ->; contradiction).
  assert (Hat_idx : Pool.at_ p3 idx =
            Order.set_next_idx INVALID_POOL_INDEX
              (Order.set_prev_idx tl (Pool.at_ p idx))).
  { assert (Pool.at_ p2 idx =
            Order.set_next_idx INVALID_POOL_INDEX
              (Order.set_prev_idx tl (Pool.at_ p idx))) as H2.
    { unfold p2, p1. rewrite update_at_eq by (by apply update_dom).
      by rewrite update_at_eq. }
    unfold p3. destruct (N.eqb_spec tl INVALID_POOL_INDEX); [done|].
    rewrite update_at_ne; [done|].
    destruct Htl as [[_ ?]|[_ Hin]]; [done|by apply Htl_idx]. }
  assert (Hfar : forall j, j <> idx -> (tl = INVALID_POOL_INDEX \/ j <> tl) ->
                           Pool.at_ p3 j = Pool.at_ p j).
  { intros j Hj Hjt. unfold p3, p2, p1.
    destruct (N.eqb_spec tl INVALID_POOL_INDEX);
      rewrite ?update_at_ne; try done; naive_solver. }
  assert (Hat_tl : tl ∈ c ->
            Pool.at_ p3 tl = Order.set_next_idx idx (Pool.at_ p tl)).
  { intros Hin. destruct (Hfacts tl Hin) as [Hne Hst].
    unfold p3. destruct (N.eqb_spec tl INVALID_POOL_INDEX); [done|].
    rewrite update_at_eq.
    - unfold p2, p1. rewrite !update_at_ne; [done|..];
        intros Heq; by apply Htl_idx.
    - unfold p2, p1. by apply update_dom, update_dom. }
  split; [|split; [exact Hs|split; [done|split; [done|split]]]].
  - unfold linked; simpl. apply lseg_app. exists idx, tl. split.
    + assert (Hh : (if (tl =? INVALID_POOL_INDEX)%N then idx
                    else PriceLevel.head_idx l) =
                   match c with [] => idx | _ => PriceLevel.head_idx l end).
      { destruct Htl as [[-> ->]|[Hne Hin]]; [done|].
        destruct (Hfacts tl Hin) as [Hx _].
        destruct (N.eqb_spec tl INVALID_POOL_INDEX); [done|].
        destruct c; done. }
      rewrite Hh. eapply lseg_set_next; [exact Hnd| | |exact Hl].
      * intros j Hj Hjt. f_equal. apply Hfar; [|by right].
        intros ->. contradiction.
      * intros Hin. rewrite Hat_tl by done. reflexivity.
    + simpl. rewrite Hat_idx. simpl. done.
  - intros j. unfold p3, p2, p1.
    destruct (tl =? _)%N; rewrite !update_qty_same; done.
  - intros j Hj. f_equal. apply Hfar.
    + intros ->. apply Hj. apply elem_of_app. right. left.
    + destruct Htl as [[_ ->]|[_ Hin]]; [by left|right].
      intros ->. apply Hj. apply elem_of_app. by left.
Qed.
End LevelPush.

(* ===================================================================== *)
(** ** Projections of the book after field updates *)
(* ===================================================================== *)

Section BookProjections.
Implicit Types (b : OrderBook) (s : Side) (ls : list PriceLevel.t).

Lemma levels_of_set_levels s ls b : levels_of s (set_levels s ls b) = ls.
Proof. by destruct s. Qed.

Lemma levels_of_set_levels_ne s s' ls b :
  s <> s' -> levels_of s' (set_levels s ls b) = levels_of s' b.
Proof. by destruct s, s'. Qed.

Lemma levels_of_set_levels_opp s ls b :
  levels_of s (set_levels (opposite s) ls b) = levels_of s b.
Proof. by destruct s. Qed.

Lemma levels_of_set_pool s p b : levels_of s (set_pool p b) = levels_of s b.
Proof. by destruct s. Qed.

Lemma levels_of_set_map s m b : levels_of s (set_map m b) = levels_of s b.
Proof. by destruct s. Qed.

Lemma levels_of_record_trade s t b : levels_of s (record_trade t b) = levels_of s b.
Proof. by destruct s. Qed.

Lemma order_pool_set_levels s ls b : order_pool_ (set_levels s ls b) = order_pool_ b.
Proof. by destruct s. Qed.

Lemma order_map_set_levels s ls b : order_map_ (set_levels s ls b) = order_map_ b.
Proof. by destruct s. Qed.

Lemma trade_log_set_levels s ls b : trade_log_ (set_levels s ls b) = trade_log_ b.
Proof. by destruct s. Qed.

Lemma total_trades_set_levels s ls b :
  total_trades_ (set_levels s ls b) = total_trades_ b.
Proof. by destruct s. Qed.

Lemma total_volume_set_levels s ls b :
  total_volume_ (set_levels s ls b) = total_volume_ b.
Proof. by destruct s. Qed.

Lemma opposite_ne s : opposite s <> s.
Proof. by destruct s. Qed.

Lemma opposite_involutive s : opposite (opposite s) = s.
Proof. by destruct s. Qed.

Lemma chains_of_set_chains s c ch : chains_of s (set_chains s c ch) = c.
Proof. by destruct s. Qed.

Lemma chains_of_set_chains_ne s s' c ch :
  s <> s' -> chains_of s' (set_chains s c ch) = chains_of s' ch.
Proof. by destruct s, s'. Qed.
End BookProjections.

Create Rewrite HintDb book.

#[local] Hint Rewrite levels_of_set_levels levels_of_set_levels_opp
  levels_of_set_pool levels_of_set_map levels_of_record_trade
  order_pool_set_levels order_map_set_levels trade_log_set_levels
  total_trades_set_levels total_volume_set_levels
  chains_of_set_chains opposite_involutive : book.

(* ===================================================================== *)
(** ** Lists of chains *)
(* ===================================================================== *)

Section ChainLists.
Implicit Types (cs : list (list N)) (c : list N) (x : N).

Lemma elem_of_concat x cs : x ∈ concat cs <-> exists c, c ∈ cs /\ x ∈ c.
Proof.
  rewrite list_elem_of_In, in_concat. split.
  - intros (c & Hc & Hx). exists c. by rewrite !list_elem_of_In.
  - intros (c & Hc & Hx). exists c. by rewrite <- !list_elem_of_In.
Qed.

Lemma concat_insert cs i c c' :
  cs !! i = Some c ->
  concat cs = concat (take i cs) ++ c ++ concat (drop (S i) cs) /\
  concat (<[i := c']> cs) = concat (take i cs) ++ c' ++ concat (drop (S i) cs).
Proof.
  intros Hi. split.
  - rewrite <- (take_drop_middle cs i c Hi) at 1.
    rewrite concat_app. reflexivity.
  - rewrite insert_take_drop by (eapply lookup_lt_Some; exact Hi).
    rewrite concat_app. reflexivity.
Qed.

Lemma concat_delete cs i c :
  cs !! i = Some c ->
  concat (delete i cs) = concat (take i cs) ++ concat (drop (S i) cs).
Proof. intros Hi. rewrite delete_take_drop, concat_app. reflexivity. Qed.

Lemma concat_vector_insert_nil cs i :
  concat (vector_insert i [] cs) = concat cs.
Proof.
  unfold vector_insert. rewrite concat_app. simpl.
  rewrite <- concat_app, take_drop. reflexivity.
Qed.

Lemma vector_insert_lookup {A} (l : list A) i (a : A) :
  (i <= length l)%nat -> vector_insert i a l !! i = Some a.
Proof.
  intros Hi. unfold vector_insert.
  rewrite lookup_app_r by (rewrite length_take; lia).
  rewrite length_take. replace (i - i `min` length l)%nat with 0%nat by lia.
  reflexivity.
Qed.

Lemma vector_insert_length {A} (l : list A) i (a : A) :
  length (vector_insert i a l) = S (length l).
Proof.
  unfold vector_insert. rewrite length_app; simpl.
  rewrite length_take, length_drop. lia.
Qed.

Lemma Forall2_vector_insert {A B} (P : A -> B -> Prop) l k i (a : A) (y : B) :
  Forall2 P l k -> P a y -> Forall2 P (vector_insert i a l) (vector_insert i y k).
Proof.
  intros H Hxy. unfold vector_insert. apply Forall2_app.
  - by apply Forall2_take.
  - constructor; [done|]. by apply Forall2_drop.
Qed.

Lemma bounded_NoDup_length (l : list N) (n : N) :
  NoDup l -> (forall x, x ∈ l -> (x < n)%N) -> (N.of_nat (length l) <= n)%N.
Proof.
  intros Hnd Hb.
  assert (Hsub : l ⊆+ (N.of_nat <$> seq 0 (N.to_nat n))).
  { apply NoDup_submseteq; [done|]. intros x Hx.
    apply list_elem_of_fmap. exists (N.to_nat x). split; [lia|].
    apply elem_of_seq. specialize (Hb x Hx). lia. }
  apply submseteq_length in Hsub.
  rewrite length_fmap, length_seq in Hsub. lia.
Qed.
End ChainLists.

(* ===================================================================== *)
(** ** Sorted level arrays *)
(* ===================================================================== *)

Section SortedLevels.
Implicit Types (ls : list PriceLevel.t) (l : PriceLevel.t) (p : Z).

Lemma level_before_price is_bid l l' p :
  PriceLevel.price l = PriceLevel.price l' ->
  level_before is_bid l p = level_before is_bid l' p.
Proof. unfold level_before. by intros ->. Qed.

Lemma level_before_trans is_bid l1 l2 p :
  level_before is_bid l1 (PriceLevel.price l2) = true ->
  level_before is_bid l2 p = true ->
  level_before is_bid l1 p = true.
Proof. unfold level_before. destruct is_bid; lia. Qed.

Lemma level_before_irrefl is_bid l : level_before is_bid l (PriceLevel.price l) = false.
Proof. unfold level_before. destruct is_bid; lia. Qed.

Lemma sorted_levels_insert_same is_bid ls i l l' :
  ls !! i = Some l -> PriceLevel.price l' = PriceLevel.price l ->
  sorted_levels is_bid ls -> sorted_levels is_bid (<[i := l']> ls).
Proof.
  unfold sorted_levels. intros Hi Hp Hs. revert i Hi.
  induction Hs as [|a ls Hs IH Hall]; intros i Hi; [done|].
  destruct i as [|i]; simpl in *.
  - injection Hi as ->. constructor; [done|].
    eapply Forall_impl; [exact Hall|]. intros x Hx. simpl in *.
    by rewrite (level_before_price _ l' l).
  - constructor; [by apply IH|].
    rewrite Forall_forall in Hall |- *. intros x Hx.
    apply list_elem_of_lookup in Hx as [k Hk].
    destruct (decide (k = i)) as [->|Hne].
    + rewrite list_lookup_insert_eq in Hk by (eapply lookup_lt_Some; exact Hi).
      injection Hk as <-. rewrite Hp. apply Hall.
      eapply list_elem_of_lookup_2. exact Hi.
    + rewrite list_lookup_insert_ne in Hk by done.
      apply Hall. eapply list_elem_of_lookup_2. exact Hk.
Qed.

Lemma sorted_levels_delete is_bid ls i :
  sorted_levels is_bid ls -> sorted_levels is_bid (delete i ls).
Proof.
  unfold sorted_levels. intros Hs. revert i.
  induction Hs as [|a ls Hs IH Hall]; intros i; [destruct i; simpl; constructor|].
  destruct i as [|i]; simpl; [done|].
  constructor; [apply IH|].
  rewrite Forall_forall in Hall |- *. intros x Hx. apply Hall.
  eapply elem_of_sublist; [exact Hx|apply sublist_delete].
Qed.

Lemma lower_bound_insert_sorted is_bid ls p :
  sorted_levels is_bid ls ->
  (forall l, ls !! lower_bound is_bid ls p = Some l -> PriceLevel.price l <> p) ->
  sorted_levels is_bid (vector_insert (lower_bound is_bid ls p) (PriceLevel.new p) ls).
Proof.
  unfold sorted_levels, vector_insert. intros Hs.
  induction Hs as [|a ls Hs IH Hall]; intros Hne; cbn [lower_bound] in *.
  - repeat constructor.
  - destruct (level_before is_bid a p) eqn:Ha; simpl.
    + constructor.
      * apply IH. intros l Hl. apply Hne. done.
      * apply Forall_app. split; [by apply Forall_take|].
        constructor; [done|by apply Forall_drop].
    + specialize (Hne a eq_refl).
      assert (Hpa : level_before is_bid (PriceLevel.new p) (PriceLevel.price a) = true).
      { unfold level_before in *; simpl. destruct is_bid; lia. }
      constructor; [by constructor|]. constructor; [done|].
      eapply Forall_impl; [exact Hall|]. intros x Hx. simpl in Hx.
      unfold level_before in *; simpl. destruct is_bid; lia.
Qed.

Lemma lower_bound_le is_bid ls p : (lower_bound is_bid ls p <= length ls)%nat.
Proof. induction ls as [|a ls IH]; simpl; [done|]. destruct (level_before _ _ _); simpl; lia. Qed.

Lemma lower_bound_found is_bid ls p k l :
  sorted_levels is_bid ls -> ls !! k = Some l -> PriceLevel.price l = p ->
  lower_bound is_bid ls p = k.
Proof.
  unfold sorted_levels. intros Hs. revert k.
  induction Hs as [|a ls Hs IH Hall]; intros k Hk Hp; [done|].
  destruct k as [|k]; simpl in *.
  - injection Hk as ->. rewrite <- Hp, level_before_irrefl. done.
  - rewrite Forall_forall in Hall.
    rewrite <- Hp, Hall by (eapply list_elem_of_lookup_2; exact Hk).
    f_equal. rewrite Hp. by apply IH.
Qed.

Lemma find_level_found is_bid ls p k l :
  sorted_levels is_bid ls -> ls !! k = Some l -> PriceLevel.price l = p ->
  find_level ls p is_bid = k.
Proof.
  intros Hs Hk Hp. unfold find_level.
  rewrite (lower_bound_found is_bid ls p k l) by done.
  rewrite Hk. by rewrite (proj2 (Z.eqb_eq _ _) Hp).
Qed.
End SortedLevels.

(* ===================================================================== *)
(** ** Consequences of the book invariant *)
(* ===================================================================== *)

Section ChainDisjoint.
Implicit Types (cs : list (list N)) (c : list N) (x : N).

Lemma elem_concat_lookup cs i c x : cs !! i = Some c -> x ∈ c -> x ∈ concat cs.
Proof.
  intros Hi Hx. apply elem_of_concat. exists c. split; [|done].
  eapply list_elem_of_lookup_2. exact Hi.
Qed.

Lemma concat_lookup_NoDup cs i c : NoDup (concat cs) -> cs !! i = Some c -> NoDup c.
Proof.
  intros Hnd Hi. destruct (concat_insert cs i c c Hi) as [Heq _].
  rewrite Heq in Hnd. apply NoDup_app in Hnd as (_ & _ & Hnd).
  by apply NoDup_app in Hnd as (Hnd & _ & _).
Qed.

Lemma concat_lookup_disjoint cs i k c c' x :
  NoDup (concat cs) -> cs !! i = Some c -> cs !! k = Some c' -> i <> k ->
  x ∈ c -> x ∉ c'.
Proof.
  intros Hnd Hi Hk Hne Hx Hx'.
  destruct (concat_insert cs i c c Hi) as [Heq _].
  rewrite Heq in Hnd. apply NoDup_app in Hnd as (_ & Hd1 & Hnd).
  apply NoDup_app in Hnd as (_ & Hd2 & _).
  destruct (decide (k < i)%nat) as [Hlt|Hge].
  - apply (Hd1 x); [|apply elem_of_app; by left].
    eapply elem_concat_lookup; [|exact Hx'].
    rewrite lookup_take_lt by done. exact Hk.
  - apply (Hd2 x Hx). eapply (elem_concat_lookup _ (k - S i)); [|exact Hx'].
    rewrite lookup_drop. replace (S i + (k - S i))%nat with k by lia. exact Hk.
Qed.
End ChainDisjoint.

Section InvFacts.
Implicit Types (b : OrderBook) (ch : Chains) (s : Side) (c : list N) (j : N).

Lemma all_slots_side s ch j :
  j ∈ all_slots ch <->
  j ∈ concat (chains_of s ch) \/ j ∈ concat (chains_of (opposite s) ch).
Proof. unfold all_slots. rewrite elem_of_app. destruct s; simpl; tauto. Qed.

Lemma chain_in_all_slots s ch li c j :
  chains_of s ch !! li = Some c -> j ∈ c -> j ∈ all_slots ch.
Proof.
  intros Hc Hj. apply (all_slots_side s). left.
  eapply elem_concat_lookup; [exact Hc|exact Hj].
Qed.

Lemma all_slots_NoDup_side s ch :
  NoDup (all_slots ch) -> NoDup (concat (chains_of s ch)).
Proof.
  unfold all_slots. intros H. apply NoDup_app in H as (H1 & _ & H2).
  by destruct s.
Qed.

Lemma all_slots_sides_disjoint s ch j :
  NoDup (all_slots ch) ->
  j ∈ concat (chains_of s ch) -> j ∉ concat (chains_of (opposite s) ch).
Proof.
  unfold all_slots. intros H Hj Hj'. apply NoDup_app in H as (_ & Hd & _).
  destruct s; simpl in *.
  - by apply (Hd j).
  - by apply (Hd j).
Qed.

Lemma inv_level_chain b ch s li l :
  book_inv b ch -> levels_of s b !! li = Some l ->
  exists c, chains_of s ch !! li = Some c /\ level_ok b s l c.
Proof.
  intros (_ & Hlv & _) Hl. specialize (Hlv s).
  destruct (Forall2_lookup_l _ _ _ _ _ Hlv Hl) as (c & Hc & Hok). eauto.
Qed.

Lemma inv_slot_resting b ch j :
  book_inv b ch -> j ∈ all_slots ch ->
  exists s li l c,
    levels_of s b !! li = Some l /\ chains_of s ch !! li = Some c /\
    j ∈ c /\ resting b s l j.
Proof.
  intros (_ & Hlv & _) Hj.
  assert (Hside : exists s, j ∈ concat (chains_of s ch)).
  { unfold all_slots in Hj. apply elem_of_app in Hj as [Hj|Hj];
      [exists Buy|exists Sell]; done. }
  destruct Hside as [s Hs]. apply elem_of_concat in Hs as (c & Hc & Hjc).
  apply list_elem_of_lookup in Hc as [li Hli].
  destruct (Forall2_lookup_r _ _ _ _ _ (Hlv s) Hli) as (l & Hl & Hok).
  exists s, li, l, c. split; [done|]. split; [done|]. split; [done|].
  destruct Hok as (_ & _ & Hr). rewrite Forall_forall in Hr. by apply Hr.
Qed.

Lemma inv_slot_live b ch j :
  book_inv b ch -> j ∈ all_slots ch -> slot_live (order_pool_ b) j.
Proof.
  intros Hinv Hj.
  destruct (inv_slot_resting b ch j Hinv Hj) as (s & li & l & c & _ & _ & _ & Hr).
  apply Hr.
Qed.

Lemma inv_chain_length b ch s li c :
  book_inv b ch -> chains_of s ch !! li = Some c ->
  (N.of_nat (length c) <= Pool.capacity_ (order_pool_ b))%N.
Proof.
  intros Hinv Hc. pose proof Hinv as (Hp & _ & Hnd & _).
  apply bounded_NoDup_length.
  - eapply concat_lookup_NoDup; [|exact Hc]. by apply all_slots_NoDup_side.
  - intros x Hx. eapply pool_ok_live_bound; [exact Hp|].
    eapply inv_slot_live; [exact Hinv|]. eapply chain_in_all_slots; eauto.
Qed.

(** A fresh slot leaves room in every chain. *)
Lemma inv_chain_length_fresh b ch s li c idx :
  book_inv b ch -> chains_of s ch !! li = Some c ->
  idx ∉ all_slots ch -> (idx < Pool.capacity_ (order_pool_ b))%N ->
  (N.of_nat (S (length c)) <= Pool.capacity_ (order_pool_ b))%N.
Proof.
  intros Hinv Hc Hfresh Hidx. pose proof Hinv as (Hp & _ & Hnd & _).
  change (S (length c)) with (length (idx :: c)).
  apply bounded_NoDup_length.
  - apply NoDup_cons. split.
    + intros Hin. apply Hfresh. eapply chain_in_all_slots; eauto.
    + eapply concat_lookup_NoDup; [|exact Hc]. by apply all_slots_NoDup_side.
  - intros x Hx. apply elem_of_cons in Hx as [->|Hx]; [done|].
    eapply pool_ok_live_bound; [exact Hp|].
    eapply inv_slot_live; [exact Hinv|]. eapply chain_in_all_slots; eauto.
Qed.

Lemma level_ok_frame b b' s l l' c :
  PriceLevel.price l' = PriceLevel.price l ->
  PriceLevel.order_count l' = PriceLevel.order_count l ->
  PriceLevel.head_idx l' = PriceLevel.head_idx l ->
  PriceLevel.tail_idx l' = PriceLevel.tail_idx l ->
  (forall j, j ∈ c ->
     slot_live (order_pool_ b') j /\
     ident (Pool.at_ (order_pool_ b') j) = ident (Pool.at_ (order_pool_ b) j) /\
     links (Pool.at_ (order_pool_ b') j) = links (Pool.at_ (order_pool_ b) j) /\
     order_map_ b' !! Order.order_id (Pool.at_ (order_pool_ b) j) = Some j) ->
  level_ok b s l c -> level_ok b' s l' c.
Proof.
  intros Hpr Hcnt Hhd Htl Hfr (Hlk & Hn & Hr). split; [|split].
  - unfold linked in *. rewrite Hhd, Htl.
    eapply lseg_ext; [|exact Hlk]. intros j Hj. by apply Hfr.
  - congruence.
  - rewrite Forall_forall in Hr |- *. intros j Hj.
    destruct (Hfr j Hj) as (Hlive & Hid & _ & Hmap).
    destruct (Hr j Hj) as (_ & Hside & Hprice & _).
    unfold ident in Hid. injection Hid as Hi1 Hi2 Hi3 Hi4.
    split; [done|]. split; [congruence|]. split; [congruence|].
    by rewrite Hi1.
Qed.
End InvFacts.

Section LocalUpdate.
Implicit Types (b : OrderBook) (ch : Chains) (s : Side) (c : list N) (j : N).

Lemma all_slots_decompose s ch li c :
  chains_of s ch !! li = Some c ->
  exists A B,
    all_slots ch = A ++ c ++ B /\
    forall c',
      all_slots (set_chains s (<[li := c']> (chains_of s ch)) ch) = A ++ c' ++ B.
Proof.
  intros Hc. destruct ch as [bc ac]. destruct s; simpl in *.
  - exists (concat (take li bc)), (concat (drop (S li) bc) ++ concat ac).
    unfold all_slots; simpl. split.
    + destruct (concat_insert bc li c c Hc) as [-> _]. by rewrite <- !app_assoc.
    + intros c'. destruct (concat_insert bc li c c' Hc) as [_ ->].
      by rewrite <- !app_assoc.
  - exists (concat bc ++ concat (take li ac)), (concat (drop (S li) ac)).
    unfold all_slots; simpl. split.
    + destruct (concat_insert ac li c c Hc) as [-> _]. by rewrite <- !app_assoc.
    + intros c'. destruct (concat_insert ac li c c' Hc) as [_ ->].
      by rewrite <- !app_assoc.
Qed.

Lemma NoDup_replace_middle (A c c' B : list N) :
  NoDup (A ++ c ++ B) -> NoDup c' ->
  (forall j, j ∈ c' -> j ∈ c \/ j ∉ A ++ c ++ B) ->
  NoDup (A ++ c' ++ B).
Proof.
  intros Hnd Hc' Hnew.
  apply NoDup_app in Hnd as (HA & HdA & Hnd).
  apply NoDup_app in Hnd as (Hc & Hdc & HB).
  apply NoDup_app. split; [done|]. split.
  - intros x Hx Hx'. apply elem_of_app in Hx' as [Hx'|Hx'].
    + destruct (Hnew x Hx') as [Hin|Hnin].
      * apply (HdA x Hx). apply elem_of_app. by left.
      * apply Hnin. apply elem_of_app. by left.
    + apply (HdA x Hx). apply elem_of_app. by right.
  - apply NoDup_app. split; [done|]. split; [|done].
    intros x Hx Hx'. destruct (Hnew x Hx) as [Hin|Hnin].
    + by apply (Hdc x).
    + apply Hnin. rewrite !elem_of_app. by right; right.
Qed.

Lemma book_inv_local b ch b' s li l c l' c' :
  book_inv b ch ->
  levels_of s b !! li = Some l ->
  chains_of s ch !! li = Some c ->
  levels_of s b' = <[li := l']> (levels_of s b) ->
  levels_of (opposite s) b' = levels_of (opposite s) b ->
  PriceLevel.price l' = PriceLevel.price l ->
  pool_ok (order_pool_ b') ->
  level_ok b' s l' c' ->
  NoDup c' ->
  (forall j, j ∈ c' -> j ∈ c \/ j ∉ all_slots ch) ->
  (forall j, j ∈ all_slots ch -> j ∉ c ->
     slot_live (order_pool_ b') j /\
     ident (Pool.at_ (order_pool_ b') j) = ident (Pool.at_ (order_pool_ b) j) /\
     links (Pool.at_ (order_pool_ b') j) = links (Pool.at_ (order_pool_ b) j) /\
     order_map_ b' !! Order.order_id (Pool.at_ (order_pool_ b) j) = Some j) ->
  (forall id i, order_map_ b' !! id = Some i ->
     (i ∈ c' \/ (i ∈ all_slots ch /\ i ∉ c)) /\
     Order.order_id (Pool.at_ (order_pool_ b') i) = id) ->
  book_inv b' (set_chains s (<[li := c']> (chains_of s ch)) ch).
Proof.
  intros Hinv Hl Hc Hlv Hopp Hprice Hpool Hok Hnd' Hnew Hframe Hmap.
  pose proof Hinv as (_ & Hlevels & Hnd & _ & Hsorted).
  destruct (all_slots_decompose s ch li c Hc) as (A & B & Hall & Hall').
  split; [done|]. split; [|split; [|split]].
  - intros s0. destruct (decide (s0 = s)) as [->|Hs0].
    + rewrite Hlv, chains_of_set_chains.
      pose proof (Hlevels s) as Hf2.
      apply Forall2_same_length_lookup. split.
      { rewrite !length_insert. by eapply Forall2_length. }
      intros k x y Hx Hy.
      destruct (decide (k = li)) as [->|Hk].
      * rewrite list_lookup_insert_eq in Hx by (eapply lookup_lt_Some; exact Hl).
        rewrite list_lookup_insert_eq in Hy by (eapply lookup_lt_Some; exact Hc).
        by simplify_eq.
      * rewrite list_lookup_insert_ne in Hx by done.
        rewrite list_lookup_insert_ne in Hy by done.
        eapply level_ok_frame; try reflexivity;
          [|eapply Forall2_lookup_lr; [exact Hf2|exact Hx|exact Hy]].
        intros j Hj. apply Hframe.
        -- eapply chain_in_all_slots; eauto.
        -- eapply concat_lookup_disjoint;
             [eapply (all_slots_NoDup_side s); exact Hnd|exact Hy|exact Hc|done|done].
    + assert (s0 = opposite s) as -> by (destruct s0, s; done).
      rewrite Hopp, chains_of_set_chains_ne by (destruct s; done).
      pose proof (Hlevels (opposite s)) as Hf2.
      apply Forall2_same_length_lookup. split; [by eapply Forall2_length|].
      intros k x y Hx Hy.
      eapply level_ok_frame; try reflexivity;
        [|eapply Forall2_lookup_lr; [exact Hf2|exact Hx|exact Hy]].
      intros j Hj. apply Hframe.
      * eapply chain_in_all_slots; eauto.
      * intros Hjc.
        eapply (all_slots_sides_disjoint s ch j Hnd);
          eapply elem_concat_lookup; eauto.
  - rewrite Hall'. rewrite Hall in Hnd.
    apply (NoDup_replace_middle A c c' B); [done|done|].
    intros j Hj. rewrite <- Hall. by apply Hnew.
  - intros id i Hi. destruct (Hmap id i Hi) as [Hin Hid]. split; [|done].
    rewrite Hall'. destruct Hin as [Hin|[Hin Hnin]].
    + rewrite !elem_of_app. by right; left.
    + rewrite Hall in Hin. rewrite !elem_of_app in Hin |- *. tauto.
  - intros s0. destruct (decide (s0 = s)) as [->|Hs0].
    + rewrite Hlv. eapply sorted_levels_insert_same; [exact Hl|done|].
      apply Hsorted.
    + assert (s0 = opposite s) as -> by (destruct s0, s; done).
      rewrite Hopp. apply Hsorted.
Qed.
End LocalUpdate.

(* ===================================================================== *)
(** ** One fill of the matching loop *)
(* ===================================================================== *)

Ltac book_simpl :=
  cbn [ms_book ms_remaining ms_trades] in *;
  repeat (progress
    (autorewrite with book;
     cbn [order_pool_ order_map_ bids_ asks_ total_trades_ total_volume_
          trade_log_ set_pool set_map record_trade])).

Section MatchFill.
Variables (taker_order_id taker_trader_id : N) (side : Side).

Local Abbreviation ms := (opposite side).
Local Abbreviation fill_of := (match_fill taker_order_id taker_trader_id side).

Lemma same_slots_ident p p' j :
  same_slots p p' -> ident (Pool.at_ p' j) = ident (Pool.at_ p j).
Proof. intros (_ & _ & H). apply (H j). Qed.

Lemma ident_order_id o o' : ident o = ident o' -> Order.order_id o = Order.order_id o'.
Proof. unfold ident. congruence. Qed.

Lemma update_links_same p i f j :
  keeps_links f -> links (Pool.at_ (Pool.update p i f) j) = links (Pool.at_ p j).
Proof.
  intros Hf. destruct (decide (i = j)) as [<-|]; [|by rewrite update_at_ne].
  destruct (Pool.storage_ p !! i) eqn:E.
  - by rewrite update_at_eq.
  - unfold Pool.at_. rewrite update_entry_at. case_decide; [|done].
    unfold Pool.entry_at. rewrite E. reflexivity.
Qed.

Lemma set_chains_insert_id s ch li c :
  chains_of s ch !! li = Some c ->
  set_chains s (<[li := c]> (chains_of s ch)) ch = ch.
Proof.
  intros H. rewrite list_insert_id by done. by destruct ch, s.
Qed.

Lemma level_chain_head b s l c :
  level_ok b s l c -> PriceLevel.empty l = false ->
  exists m c', c = m :: c' /\ PriceLevel.head_idx l = m.
Proof.
  intros (Hlk & Hn & _) He. unfold PriceLevel.empty in He.
  destruct c as [|m c'].
  - simpl in Hn. rewrite Hn in He. done.
  - exists m, c'. split; [done|]. by destruct Hlk as [-> _].
Qed.

(** The shape of the state after a fill, under the invariant: either
    the head order survives (and the taker is exhausted) or it is
    unlinked, dropped from the index and its slot is freed. *)
Lemma match_fill_inv li st ch lvl :
  book_inv (ms_book st) ch ->
  levels_of ms (ms_book st) !! li = Some lvl ->
  PriceLevel.empty lvl = false ->
  exists m c c' lvl',
    chains_of ms ch !! li = Some (m :: c) /\
    PriceLevel.head_idx lvl = m /\
    book_inv (ms_book (fill_of li st))
             (set_chains ms (<[li := c']> (chains_of ms ch)) ch) /\
    levels_of ms (ms_book (fill_of li st)) = <[li := lvl']> (levels_of ms (ms_book st)) /\
    levels_of side (ms_book (fill_of li st)) = levels_of side (ms_book st) /\
    PriceLevel.price lvl' = PriceLevel.price lvl /\
    ((c' = m :: c /\ PriceLevel.order_count lvl' = PriceLevel.order_count lvl /\
      ms_remaining (fill_of li st) = 0 /\
      Pool.free_head_ (order_pool_ (ms_book (fill_of li st))) =
      Pool.free_head_ (order_pool_ (ms_book st)) /\
      ms_remaining st < Order.qty_remaining (Pool.at_ (order_pool_ (ms_book st)) m))
     \/
     (c' = c /\ PriceLevel.order_count lvl' = N.of_nat (length c) /\
      Pool.free_head_ (order_pool_ (ms_book (fill_of li st))) = m /\
      m <> INVALID_POOL_INDEX)).
Proof.
  intros Hinv Hl Hne. set (b := ms_book st) in *.
  destruct (inv_level_chain b ch ms li lvl Hinv Hl) as (c0 & Hc0 & Hok).
  destruct (level_chain_head b ms lvl c0 Hok Hne) as (m & c & -> & Hhd).
  pose proof Hinv as (Hpool & _ & Hnd & Hmap & _).
  pose proof Hok as (Hlk & Hcnt & Hrest).
  assert (Hndc : NoDup (m :: c)).
  { eapply concat_lookup_NoDup; [|exact Hc0]. by apply all_slots_NoDup_side. }
  assert (Hlive : Forall (slot_live (order_pool_ b)) (m :: c)).
  { eapply Forall_impl; [exact Hrest|]. intros j Hj. apply Hj. }
  assert (Hm_live : slot_live (order_pool_ b) m).
  { rewrite Forall_forall in Hlive. apply Hlive. left. }
  pose proof (slot_live_dom _ _ Hm_live) as Hm_dom.
  destruct (pool_ok_live_bound _ _ Hpool Hm_live) as [Hm_cap Hm_ne].
  assert (Hm_rest : resting b ms lvl m).
  { rewrite Forall_forall in Hrest. apply Hrest. left. }
  exists m, c.
  unfold match_fill. fold b. rewrite Hl. unfold PriceLevel.front_idx. rewrite Hhd.
  set (maker := Pool.at_ (order_pool_ b) m).
  set (fill_qty := Z.min (ms_remaining st) (Order.qty_remaining maker)).
  set (trade := Trade.mk _ _ _ _ _ _ _).
  set (f := fun o => Order.set_qty_remaining
                       (wrap_i64 (Order.qty_remaining o - fill_qty)) o).
  set (pool1 := Pool.update (order_pool_ b) m f).
  set (lvl1 := PriceLevel.reduce_qty lvl fill_qty).
  assert (Hs1 : same_slots (order_pool_ b) pool1).
  { apply same_slots_update. intros o. reflexivity. }
  assert (Hlinks1 : forall j, links (Pool.at_ pool1 j) = links (Pool.at_ (order_pool_ b) j)).
  { intros j. apply update_links_same. intros o. reflexivity. }
  assert (Hpool1 : pool_ok pool1) by (eapply pool_ok_same_slots; eauto).
  assert (Hat1 : Order.qty_remaining (Pool.at_ pool1 m) =
                 wrap_i64 (Order.qty_remaining maker - fill_qty)).
  { unfold pool1. rewrite update_at_eq by done. reflexivity. }
  assert (Hmapin : forall id i, order_map_ b !! id = Some i ->
            i ∈ m :: c \/ (i ∈ all_slots ch /\ i ∉ m :: c)).
  { intros id i Hi. destruct (Hmap id i Hi) as [Hin _].
    destruct (decide (i ∈ m :: c)); [by left|by right]. }
  destruct (Order.qty_remaining (Pool.at_ pool1 m) <=? 0) eqn:Hfilled.
  - (* the maker is filled and removed *)
    destruct (PriceLevel.remove pool1 lvl1 m) as [pool2 lvl2] eqn:Hrm.
    destruct (remove_spec pool1 lvl1 [] m c pool2 lvl2) as
      (Hlk2 & Hs2 & Hpr2 & Hcnt2 & Hqty2 & Hfr2); try done.
    { unfold linked. eapply (lseg_ext (order_pool_ b)); [|exact Hlk].
      intros j _. apply Hlinks1. }
    { eapply Forall_impl; [exact Hlive|]. intros j Hj.
      by apply (same_slots_live (order_pool_ b) pool1). }
    simpl in Hlk2.
    assert (Hpr : PriceLevel.price lvl2 = PriceLevel.price lvl) by (by rewrite Hpr2).
    assert (Hs12 : same_slots (order_pool_ b) pool2) by (eapply same_slots_trans; eauto).
    assert (Hid3 : forall j, ident (Pool.at_ (Pool.deallocate pool2 m) j) =
                             ident (Pool.at_ (order_pool_ b) j)).
    { intros j. rewrite deallocate_at. by apply same_slots_ident. }
    assert (Hidm : Order.order_id (Pool.at_ pool2 m) = Order.order_id maker).
    { apply ident_order_id. by apply same_slots_ident. }
    assert (Hlen : (N.of_nat (length (m :: c)) <= Pool.capacity_ (order_pool_ b))%N).
    { eapply inv_chain_length; eauto. }
    assert (Hcount2 : PriceLevel.order_count lvl2 = N.of_nat (length c)).
    { rewrite Hcnt2. unfold lvl1; simpl. rewrite Hcnt.
      destruct Hpool as (Hcap & _). unfold INVALID_POOL_INDEX in Hcap.
      simpl length in *. rewrite decr_u32_pos by lia. lia. }
    assert (Hother_id : forall j, j <> m -> order_map_ b !! Order.order_id (Pool.at_ (order_pool_ b) j) = Some j ->
               Order.order_id (Pool.at_ (order_pool_ b) j) <> Order.order_id maker).
    { intros j Hjm Hj Heq. rewrite Heq in Hj.
      destruct Hm_rest as (_ & _ & _ & Hmm). fold maker in Hmm. congruence. }
    exists c, lvl2. split; [done|]. split; [done|]. split; [|split; [|split; [|split]]].
    + eapply (book_inv_local b ch _ ms li lvl (m :: c) lvl2 c); try done.
      * book_simpl. reflexivity.
      * by book_simpl.
      * book_simpl.
        apply pool_ok_deallocate; [by eapply pool_ok_same_slots; eauto|].
        apply (same_slots_live (order_pool_ b) pool2); done.
      * split; [|split].
        -- book_simpl. unfold linked.
           eapply lseg_ext; [|exact Hlk2]. intros j _. by rewrite deallocate_at.
        -- done.
        -- apply NoDup_cons in Hndc as [Hmc Hndc].
           rewrite Forall_forall in Hrest |- *. intros j Hj.
           assert (Hjm : j <> m) by (intros ->; contradiction).
           destruct (Hrest j ltac:(by right)) as (Hjl & Hjs & Hjp & Hjmap).
           unfold resting. book_simpl.
           specialize (Hid3 j). unfold ident in Hid3.
           injection Hid3 as Hi1 Hi2 Hi3 Hi4.
           split; [|split; [congruence|split; [congruence|]]].
           ++ apply deallocate_live. split; [|done].
              by apply (same_slots_live (order_pool_ b) pool2).
           ++ rewrite Hi1, Hidm. rewrite lookup_delete_ne; [done|].
              intros Heq. by apply (Hother_id j).
      * by apply NoDup_cons in Hndc as [_ ?].
      * intros j Hj. left. by right.
      * intros j Hj Hjc. book_simpl.
        assert (Hjm : j <> m) by (intros ->; apply Hjc; left).
        destruct (inv_slot_resting b ch j Hinv Hj) as
          (s0 & k & l0 & c0 & _ & _ & _ & (Hjl & _ & _ & Hjmap)).
        split; [|split; [by apply Hid3|split]].
        -- apply deallocate_live. split; [|done].
           by apply (same_slots_live (order_pool_ b) pool2).
        -- rewrite deallocate_at. rewrite Hfr2 by done. apply Hlinks1.
        -- rewrite Hidm. rewrite lookup_delete_ne; [done|].
           intros Heq. by apply (Hother_id j).
      * intros id i. book_simpl. rewrite Hidm.
        intros Hi. apply lookup_delete_Some in Hi as [Hid Hi].
        destruct (Hmap id i Hi) as [Hin Hoid].
        assert (Him : i <> m).
        { intros ->. apply Hid. by rewrite <- Hoid. }
        split.
        -- destruct (decide (i ∈ c)); [by left|right].
           split; [done|]. intros Hx. apply elem_of_cons in Hx as [?|?]; done.
        -- rewrite <- Hoid. apply ident_order_id, Hid3.
    + book_simpl. reflexivity.
    + by book_simpl.
    + done.
    + right. split; [done|]. split; [done|]. split; [|done].
      book_simpl. reflexivity.
  - (* the maker survives: the taker is exhausted *)
    assert (Hrem0 : wrap_i64 (ms_remaining st - fill_qty) = 0).
    { rewrite Hat1 in Hfilled. apply Z.leb_gt in Hfilled.
      unfold fill_qty in *.
      destruct (Z.min_spec (ms_remaining st) (Order.qty_remaining maker))
        as [[_ Hmin]|[_ Hmin]]; rewrite Hmin in *.
      - by rewrite Z.sub_diag.
      - rewrite Z.sub_diag in Hfilled. done. }
    exists (m :: c), lvl1. split; [done|]. split; [done|].
    split; [|split; [|split; [|split]]].
    + eapply (book_inv_local b ch _ ms li lvl (m :: c) lvl1 (m :: c)); try done.
      * book_simpl. reflexivity.
      * by book_simpl.
      * by book_simpl.
      * eapply (level_ok_frame b); try reflexivity; [|exact Hok].
        intros j Hj. book_simpl.
        rewrite Forall_forall in Hrest.
        destruct (Hrest j Hj) as (Hjl & _ & _ & Hjmap).
        split; [by apply (same_slots_live (order_pool_ b) pool1)|].
        split; [by apply same_slots_ident|]. split; [apply Hlinks1|done].
      * intros j Hj. by left.
      * intros j Hj Hjc. book_simpl.
        destruct (inv_slot_resting b ch j Hinv Hj) as
          (s0 & k & l0 & c0 & _ & _ & _ & (Hjl & _ & _ & Hjmap)).
        split; [by apply (same_slots_live (order_pool_ b) pool1)|].
        split; [by apply same_slots_ident|]. split; [apply Hlinks1|done].
      * intros id i. book_simpl. intros Hi.
        split; [by eapply Hmapin|].
        destruct (Hmap id i Hi) as [_ Hoid]. rewrite <- Hoid.
        apply ident_order_id. by apply same_slots_ident.
    + book_simpl. reflexivity.
    + by book_simpl.
    + done.
    + left. split; [done|]. split; [done|]. split; [done|].
      split; [book_simpl; reflexivity|].
      rewrite Hat1 in Hfilled. apply Z.leb_gt in Hfilled.
      unfold fill_qty in Hfilled. fold b. fold maker.
      destruct (Z.min_spec (ms_remaining st) (Order.qty_remaining maker))
        as [[Hlt Hmin]|[_ Hmin]]; rewrite Hmin in Hfilled; [exact Hlt|].
      rewrite Z.sub_diag in Hfilled. done.
Qed.
End MatchFill.

(* ===================================================================== *)
(** ** Structural changes of a level array *)
(* ===================================================================== *)

Section LevelArrays.
Implicit Types (b : OrderBook) (ch : Chains) (s : Side) (c : list N).

Lemma level_ok_proj b b' s l c :
  order_pool_ b' = order_pool_ b -> order_map_ b' = order_map_ b ->
  level_ok b s l c -> level_ok b' s l c.
Proof.
  intros Hp Hm (Hlk & Hn & Hr). split; [by rewrite Hp|]. split; [done|].
  eapply Forall_impl; [exact Hr|]. intros j. unfold resting. by rewrite Hp, Hm.
Qed.

(** The invariant only reads the pool, the index and the two arrays. *)
Lemma book_inv_proj b b' ch :
  order_pool_ b' = order_pool_ b -> order_map_ b' = order_map_ b ->
  (forall s, levels_of s b' = levels_of s b) ->
  book_inv b ch -> book_inv b' ch.
Proof.
  intros Hp Hm Hl (Hpool & Hlv & Hnd & Hmap & Hs).
  split; [by rewrite Hp|]. split; [|split; [done|split]].
  - intros s. rewrite Hl. eapply Forall2_impl; [apply Hlv|].
    intros l c. by apply level_ok_proj.
  - intros id i. rewrite Hp, Hm. apply Hmap.
  - intros s. rewrite Hl. apply Hs.
Qed.

Lemma level_ok_empty_chain b s l c :
  level_ok b s l c -> PriceLevel.empty l = true -> c = [].
Proof.
  intros (_ & Hn & _) He. unfold PriceLevel.empty in He.
  apply N.eqb_eq in He. rewrite He in Hn. destruct c; [done|simpl in Hn; lia].
Qed.

Lemma all_slots_delete_nil s ch li :
  chains_of s ch !! li = Some [] ->
  all_slots (set_chains s (delete li (chains_of s ch)) ch) = all_slots ch.
Proof.
  intros Hc. destruct ch as [bc ac]. unfold all_slots.
  destruct s; simpl in *.
  - rewrite (concat_delete bc li [] Hc).
    destruct (concat_insert bc li [] [] Hc) as [-> _]. done.
  - rewrite (concat_delete ac li [] Hc).
    destruct (concat_insert ac li [] [] Hc) as [-> _]. done.
Qed.

Lemma erase_level_inv b ch s li l :
  book_inv b ch -> levels_of s b !! li = Some l -> PriceLevel.empty l = true ->
  book_inv (set_levels s (delete li (levels_of s b)) b)
           (set_chains s (delete li (chains_of s ch)) ch).
Proof.
  intros Hinv Hl He.
  destruct (inv_level_chain b ch s li l Hinv Hl) as (c & Hc & Hok).
  pose proof (level_ok_empty_chain b s l c Hok He) as ->.
  destruct Hinv as (Hpool & Hlv & Hnd & Hmap & Hs).
  split; [by rewrite order_pool_set_levels|].
  split; [|split; [|split]].
  - intros s0. destruct (decide (s0 = s)) as [->|Hne].
    + rewrite levels_of_set_levels, chains_of_set_chains.
      apply Forall2_delete. eapply Forall2_impl; [apply Hlv|].
      intros l0 c0. apply level_ok_proj.
      * apply order_pool_set_levels.
      * apply order_map_set_levels.
    + rewrite levels_of_set_levels_ne, chains_of_set_chains_ne by done.
      eapply Forall2_impl; [apply Hlv|].
      intros l0 c0. apply level_ok_proj.
      * apply order_pool_set_levels.
      * apply order_map_set_levels.
  - by rewrite all_slots_delete_nil.
  - intros id i. rewrite order_pool_set_levels, order_map_set_levels.
    rewrite all_slots_delete_nil by done. apply Hmap.
  - intros s0. destruct (decide (s0 = s)) as [->|Hne].
    + rewrite levels_of_set_levels. apply sorted_levels_delete, Hs.
    + rewrite levels_of_set_levels_ne by done. apply Hs.
Qed.

Lemma all_slots_vector_insert_nil s ch i :
  all_slots (set_chains s (vector_insert i [] (chains_of s ch)) ch) = all_slots ch.
Proof.
  destruct ch as [bc ac]. unfold all_slots.
  destruct s; simpl; by rewrite concat_vector_insert_nil.
Qed.

Lemma level_ok_new b s p : level_ok b s (PriceLevel.new p) [].
Proof. split; [done|]. split; [done|]. constructor. Qed.

(** [find_or_create_level] returns a level of the requested price and
    keeps the invariant; a created level is still empty. *)
Lemma find_or_create_inv b ch s p it levels1 :
  book_inv b ch ->
  find_or_create_level (levels_of s b) p (is_buy s) = (it, levels1) ->
  exists ch1 l c,
    book_inv (set_levels s levels1 b) ch1 /\
    levels1 !! it = Some l /\ PriceLevel.price l = p /\
    chains_of s ch1 !! it = Some c /\
    all_slots ch1 = all_slots ch /\
    (levels_nonempty (levels_of s b) ->
     forall k l', k <> it -> levels1 !! k = Some l' -> PriceLevel.empty l' = false) /\
    (forall s0, concat (chains_of s0 ch1) = concat (chains_of s0 ch)).
Proof.
  intros Hinv. unfold find_or_create_level.
  set (lb := lower_bound (is_buy s) (levels_of s b) p).
  assert (Hfound : forall l, levels_of s b !! lb = Some l -> PriceLevel.price l = p ->
            (lb, levels_of s b) = (it, levels1) ->
            exists ch1 l c,
              book_inv (set_levels s levels1 b) ch1 /\
              levels1 !! it = Some l /\ PriceLevel.price l = p /\
              chains_of s ch1 !! it = Some c /\
              all_slots ch1 = all_slots ch /\
              (levels_nonempty (levels_of s b) ->
               forall k l', k <> it -> levels1 !! k = Some l' ->
                            PriceLevel.empty l' = false) /\
              (forall s0, concat (chains_of s0 ch1) = concat (chains_of s0 ch))).
  { intros l Hl Hp [= <- <-].
    destruct (inv_level_chain b ch s lb l Hinv Hl) as (c & Hc & _).
    exists ch, l, c. split; [|split; [done|split; [done|split; [done|split; [done|]]]]].
    - eapply book_inv_proj; [..|exact Hinv].
      + apply order_pool_set_levels.
      + apply order_map_set_levels.
      + intros s0. destruct (decide (s0 = s)) as [->|Hne].
        * by rewrite levels_of_set_levels.
        * by rewrite levels_of_set_levels_ne.
    - split; [|done]. intros Hne k l' _ Hk. unfold levels_nonempty in Hne.
      rewrite Forall_forall in Hne. apply Hne.
      eapply list_elem_of_lookup_2. exact Hk. }
  assert (Hnew : (forall l, levels_of s b !! lb = Some l -> PriceLevel.price l <> p) ->
            (lb, vector_insert lb (PriceLevel.new p) (levels_of s b)) = (it, levels1) ->
            exists ch1 l c,
              book_inv (set_levels s levels1 b) ch1 /\
              levels1 !! it = Some l /\ PriceLevel.price l = p /\
              chains_of s ch1 !! it = Some c /\
              all_slots ch1 = all_slots ch /\
              (levels_nonempty (levels_of s b) ->
               forall k l', k <> it -> levels1 !! k = Some l' ->
                            PriceLevel.empty l' = false) /\
              (forall s0, concat (chains_of s0 ch1) = concat (chains_of s0 ch))).
  { intros Hnp [= <- <-].
    pose proof Hinv as (Hpool & Hlv & Hnd & Hmap & Hs).
    pose proof (lower_bound_le (is_buy s) (levels_of s b) p) as Hle. fold lb in Hle.
    exists (set_chains s (vector_insert lb [] (chains_of s ch)) ch),
           (PriceLevel.new p), [].
    split; [|split; [|split; [done|split; [|split]]]].
    - split; [by rewrite order_pool_set_levels|]. split; [|split; [|split]].
      + intros s0. destruct (decide (s0 = s)) as [->|Hne].
        * rewrite levels_of_set_levels, chains_of_set_chains.
          apply Forall2_vector_insert; [|apply level_ok_new].
          eapply Forall2_impl; [apply Hlv|]. intros l0 c0. apply level_ok_proj.
          -- apply order_pool_set_levels.
          -- apply order_map_set_levels.
        * rewrite levels_of_set_levels_ne, chains_of_set_chains_ne by done.
          eapply Forall2_impl; [apply Hlv|]. intros l0 c0. apply level_ok_proj.
          -- apply order_pool_set_levels.
          -- apply order_map_set_levels.
      + by rewrite all_slots_vector_insert_nil.
      + intros id i. rewrite order_pool_set_levels, order_map_set_levels.
        rewrite all_slots_vector_insert_nil. apply Hmap.
      + intros s0. destruct (decide (s0 = s)) as [->|Hne].
        * rewrite levels_of_set_levels. by apply lower_bound_insert_sorted.
        * rewrite levels_of_set_levels_ne by done. apply Hs.
    - by apply vector_insert_lookup.
    - rewrite chains_of_set_chains. apply vector_insert_lookup.
      rewrite <- (Forall2_length _ _ _ (Hlv s)). done.
    - apply all_slots_vector_insert_nil.
    - split.
      2:{ intros s0. destruct (decide (s0 = s)) as [->|Hs0].
          - rewrite chains_of_set_chains. apply concat_vector_insert_nil.
          - by rewrite chains_of_set_chains_ne. }
      intros Hne k l' Hk Hl'. unfold levels_nonempty in Hne.
      rewrite Forall_forall in Hne. apply Hne. unfold vector_insert in Hl'.
      destruct (decide (k < lb)%nat) as [Hlt|Hge].
      + rewrite lookup_app_l in Hl' by (rewrite length_take; lia).
        rewrite lookup_take_lt in Hl' by done.
        eapply list_elem_of_lookup_2. exact Hl'.
      + rewrite lookup_app_r in Hl' by (rewrite length_take; lia).
        rewrite length_take in Hl'.
        replace (k - lb `min` length (levels_of s b))%nat
          with (S (k - S lb)) in Hl' by lia.
        simpl in Hl'. rewrite lookup_drop in Hl'.
        eapply list_elem_of_lookup_2. exact Hl'. }
  destruct (levels_of s b !! lb) as [l|] eqn:Hl.
  - destruct (Z.eqb_spec (PriceLevel.price l) p) as [Hp|Hp].
    + by apply (Hfound l).
    + apply Hnew. intros l0 [= <-]. done.
  - apply Hnew. intros l0 [=].
Qed.
End LevelArrays.

(* ===================================================================== *)
(** ** Resting a new order *)
(* ===================================================================== *)

Section RestOrder.
Implicit Types (b : OrderBook) (ch : Chains) (s : Side) (c : list N).

Lemma levels_nonempty_lookup ls :
  levels_nonempty ls <->
  forall k l, ls !! k = Some l -> PriceLevel.empty l = false.
Proof. unfold levels_nonempty. apply Forall_lookup. Qed.

(** Resting an order: it is linked behind the orders of its level, and
    every other order keeps its place. *)
Lemma rest_order_chains b ch id tr s p q idx pool1 it levels1 pool2 lvl :
  book_inv b ch ->
  (forall s0, levels_nonempty (levels_of s0 b)) ->
  order_map_ b !! id = None ->
  Pool.allocate (order_pool_ b) (Order.make id tr s p q) = (idx, pool1) ->
  idx <> INVALID_POOL_INDEX ->
  find_or_create_level (levels_of s b) p (is_buy s) = (it, levels1) ->
  PriceLevel.push_back pool1 (default (PriceLevel.new p) (levels1 !! it)) idx
    = (pool2, lvl) ->
  let b' := set_levels s (<[it := lvl]> levels1)
              (set_map (<[id := idx]> (order_map_ b)) (set_pool pool2 b)) in
  (exists ch' c,
     book_inv b' ch' /\
     chains_of s ch' !! it = Some (c ++ [idx]) /\
     PriceLevel.price lvl = p /\
     concat (chains_of s ch)
     = concat (take it (chains_of s ch')) ++ c
       ++ concat (drop (S it) (chains_of s ch')) /\
     concat (chains_of (opposite s) ch') = concat (chains_of (opposite s) ch) /\
     ident (Pool.at_ (order_pool_ b') idx) = (id, tr, s, p) /\
     Order.qty_remaining (Pool.at_ (order_pool_ b') idx) = q /\
     idx ∉ all_slots ch /\
     (forall j, j <> idx ->
        ident (Pool.at_ (order_pool_ b') j) = ident (Pool.at_ (order_pool_ b) j) /\
        Order.qty_remaining (Pool.at_ (order_pool_ b') j)
        = Order.qty_remaining (Pool.at_ (order_pool_ b) j))) /\
  forall s0, levels_nonempty (levels_of s0 b').
Proof.
  intros Hinv Hne Hfresh_id Halloc Hidx Hfc Hpb. cbv zeta.
  pose proof Hinv as (Hpool & _ & _ & Hmap & _).
  destruct (allocate_ok _ _ _ _ Hpool Halloc Hidx) as
    (Hpool1 & Hfree & Hlive1 & Hat1 & Hoth1).
  assert (Hidx_fresh : idx ∉ all_slots ch).
  { intros Hin. eapply slot_free_not_live; [exact Hfree|].
    eapply inv_slot_live; eauto. }
  assert (Hidx_cap : (idx < Pool.capacity_ (order_pool_ b))%N).
  { destruct Hpool as (_ & Hdom & _). apply Hdom.
    destruct Hfree as (e & He & _). eauto. }
  destruct (find_or_create_inv b ch s p it levels1 Hinv Hfc) as
    (ch1 & l & c & Hinv1 & Hl & Hprice & Hc & Hall & Hne1 & Hcat1).
  set (ba := set_levels s levels1 b) in *.
  rewrite Hl in Hpb. simpl in Hpb.
  pose proof Hinv1 as (_ & Hlv1 & Hnd1 & Hmap1 & _).
  assert (Hla : levels_of s ba !! it = Some l).
  { unfold ba. by rewrite levels_of_set_levels. }
  destruct (inv_level_chain ba ch1 s it l Hinv1 Hla) as (c0 & Hc0 & Hok).
  assert (c0 = c) as -> by congruence.
  assert (Hpa : order_pool_ ba = order_pool_ b) by apply order_pool_set_levels.
  assert (Hma : order_map_ ba = order_map_ b) by apply order_map_set_levels.
  pose proof Hok as (Hlk & Hcnt & Hrest). rewrite Hpa in Hlk.
  assert (Hndc : NoDup c).
  { eapply concat_lookup_NoDup; [|exact Hc]. by apply all_slots_NoDup_side. }
  assert (Hidx_c : idx ∉ c).
  { intros Hin. apply Hidx_fresh. rewrite <- Hall.
    eapply chain_in_all_slots; eauto. }
  assert (Hlive_all : forall j, j ∈ all_slots ch1 ->
            j <> idx /\ slot_live pool1 j /\
            Pool.at_ pool1 j = Pool.at_ (order_pool_ b) j).
  { intros j Hj. assert (Hji : j <> idx).
    { intros ->. apply Hidx_fresh. by rewrite <- Hall. }
    split; [done|]. destruct (Hoth1 j Hji) as [Hat Hlv]. split; [|done].
    apply Hlv. rewrite <- Hpa. eapply inv_slot_live; eauto. }
  assert (Hin_c : forall j, j ∈ c -> j ∈ all_slots ch1).
  { intros j Hj. eapply chain_in_all_slots; eauto. }
  destruct (push_back_spec pool1 l c idx pool2 lvl) as
    (Hlk2 & Hs2 & Hpr2 & Hcnt2 & Hqty2 & Hfr2); try done.
  { unfold linked in *. eapply lseg_ext; [|exact Hlk].
    intros j Hj. f_equal. by apply Hlive_all, Hin_c. }
  { rewrite Forall_forall. intros j Hj. by apply Hlive_all, Hin_c. }
  assert (Hid2 : forall j, j ∈ all_slots ch1 ->
            ident (Pool.at_ pool2 j) = ident (Pool.at_ (order_pool_ b) j)).
  { intros j Hj. rewrite (same_slots_ident pool1 pool2) by done.
    f_equal. by apply Hlive_all. }
  assert (Hmap_other : forall j, j ∈ all_slots ch1 ->
            <[id := idx]> (order_map_ b) !! Order.order_id (Pool.at_ (order_pool_ b) j)
            = Some j).
  { intros j Hj.
    destruct (inv_slot_resting ba ch1 j Hinv1 Hj) as
      (s0 & k & l0 & c0 & _ & _ & _ & (_ & _ & _ & Hjmap)).
    rewrite Hpa, Hma in Hjmap.
    rewrite lookup_insert_ne; [done|]. intros Heq. rewrite <- Heq in Hjmap.
    congruence. }
  assert (Hcount : PriceLevel.order_count lvl = N.of_nat (length (c ++ [idx]))).
  { rewrite Hcnt2, Hcnt.
    pose proof (inv_chain_length_fresh ba ch1 s it c idx Hinv1 Hc) as Hlen.
    rewrite Hall, Hpa in Hlen. specialize (Hlen Hidx_fresh Hidx_cap).
    destruct Hpool as (Hcap & _). unfold INVALID_POOL_INDEX in Hcap.
    rewrite length_app; simpl length.
    rewrite incr_u32_small by lia. lia. }
  set (b' := set_levels s (<[it := lvl]> levels1) _).
  assert (Hinv' : book_inv b' (set_chains s (<[it := c ++ [idx]]> (chains_of s ch1)) ch1)).
  { eapply (book_inv_local ba ch1 b' s it l c lvl (c ++ [idx]));
      [exact Hinv1|exact Hla|exact Hc| | |exact Hpr2| | | | | |].
    - unfold b', ba. by rewrite !levels_of_set_levels.
    - unfold b', ba. rewrite !levels_of_set_levels_ne by (destruct s; done).
      by book_simpl.
    - unfold b'. book_simpl. by eapply pool_ok_same_slots.
    - split; [|split; [done|]].
      + unfold b'. by book_simpl.
      + rewrite Forall_forall. intros j Hj. unfold resting, b'. book_simpl.
        apply elem_of_app in Hj as [Hj|Hj].
        * pose proof (Hin_c j Hj) as Hja.
          rewrite Forall_forall in Hrest.
          destruct (Hrest j Hj) as (_ & Hjs & Hjp & _).
          rewrite Hpa in Hjs, Hjp.
          pose proof (Hid2 j Hja) as Hid. unfold ident in Hid.
          injection Hid as Hi1 Hi2 Hi3 Hi4.
          split; [|split; [congruence|split; [congruence|]]].
          -- apply (same_slots_live pool1 pool2); [done|]. by apply Hlive_all.
          -- rewrite Hi1. by apply Hmap_other.
        * apply list_elem_of_singleton in Hj as ->.
          pose proof (same_slots_ident pool1 pool2 idx Hs2) as Hid.
          rewrite Hat1 in Hid. unfold ident in Hid; simpl in Hid.
          injection Hid as Hi1 Hi2 Hi3 Hi4.
          split; [by apply (same_slots_live pool1 pool2)|].
          split; [done|]. split; [congruence|].
          rewrite Hi1. apply lookup_insert_eq.
    - apply NoDup_app. split; [done|]. split; [|apply NoDup_singleton].
      intros j Hj Hj'. apply list_elem_of_singleton in Hj' as ->. contradiction.
    - intros j Hj. apply elem_of_app in Hj as [Hj|Hj]; [by left|right].
      apply list_elem_of_singleton in Hj as ->. by rewrite Hall.
    - intros j Hj Hjc. unfold b'. book_simpl. rewrite Hpa.
      destruct (Hlive_all j Hj) as (Hji & Hjl & Hjat).
      split; [by apply (same_slots_live pool1 pool2)|].
      split; [by apply Hid2|]. split; [|by apply Hmap_other].
      rewrite Hfr2, Hjat; [done|].
      intros Hx. apply elem_of_app in Hx as [Hx|Hx]; [done|].
      by apply list_elem_of_singleton in Hx.
    - intros id0 i. unfold b'. book_simpl. intros Hi.
      apply lookup_insert_Some in Hi as [[<- <-]|[Hne0 Hi]].
      + split; [left; apply elem_of_app; right; by left|].
        pose proof (same_slots_ident pool1 pool2 idx Hs2) as Hid.
        rewrite Hat1 in Hid. by apply ident_order_id in Hid.
      + destruct (Hmap id0 i Hi) as [Hin Hoid].
        rewrite <- Hall in Hin. split.
        * destruct (decide (i ∈ c)); [left; apply elem_of_app; by left|by right].
        * rewrite <- Hoid. apply ident_order_id. by apply Hid2. }
  split.
  { exists (set_chains s (<[it := c ++ [idx]]> (chains_of s ch1)) ch1), c.
    split; [exact Hinv'|]. rewrite chains_of_set_chains.
    assert (Hit : (it < length (chains_of s ch1))%nat) by (by eapply lookup_lt_Some).
    split; [by apply list_lookup_insert_eq|]. split; [congruence|].
    split; [|split; [|split; [|split; [|split]]]].
    - rewrite take_insert_ge by lia. rewrite drop_insert_lt by lia.
      rewrite <- (Hcat1 s).
      destruct (concat_insert (chains_of s ch1) it c c Hc) as [-> _]. done.
    - rewrite chains_of_set_chains_ne by (by destruct s). apply Hcat1.
    - unfold b'. book_simpl.
      rewrite (same_slots_ident pool1 pool2 idx Hs2), Hat1. reflexivity.
    - unfold b'. book_simpl. rewrite Hqty2, Hat1. reflexivity.
    - done.
    - intros j Hj. unfold b'. book_simpl.
      destruct (Hoth1 j Hj) as [Hatj _].
      rewrite (same_slots_ident pool1 pool2 j Hs2), Hqty2, Hatj. done. }
  intros s0. destruct (decide (s0 = s)) as [->|Hs0].
  - unfold b'. rewrite levels_of_set_levels.
    apply levels_nonempty_lookup. intros k l' Hk.
    destruct (decide (k = it)) as [->|Hki].
    + rewrite list_lookup_insert_eq in Hk by (eapply lookup_lt_Some; exact Hl).
      injection Hk as <-. unfold PriceLevel.empty. rewrite Hcount.
      rewrite length_app; simpl. apply N.eqb_neq. lia.
    + rewrite list_lookup_insert_ne in Hk by done.
      eapply Hne1; [apply Hne|exact Hki|exact Hk].
  - unfold b'. rewrite levels_of_set_levels_ne by done. book_simpl. apply Hne.
Qed.

Lemma rest_order_inv b ch id tr s p q idx pool1 it levels1 pool2 lvl :
  book_inv b ch ->
  (forall s0, levels_nonempty (levels_of s0 b)) ->
  order_map_ b !! id = None ->
  Pool.allocate (order_pool_ b) (Order.make id tr s p q) = (idx, pool1) ->
  idx <> INVALID_POOL_INDEX ->
  find_or_create_level (levels_of s b) p (is_buy s) = (it, levels1) ->
  PriceLevel.push_back pool1 (default (PriceLevel.new p) (levels1 !! it)) idx
    = (pool2, lvl) ->
  Inv (set_levels s (<[it := lvl]> levels1)
         (set_map (<[id := idx]> (order_map_ b)) (set_pool pool2 b))).
Proof.
  intros Hinv Hne Hid Halloc Hidx Hfc Hpb.
  destruct (rest_order_chains b ch id tr s p q idx pool1 it levels1 pool2 lvl
              Hinv Hne Hid Halloc Hidx Hfc Hpb) as [(ch' & c & Hinv' & _) Hne'].
  split; [eauto|done].
Qed.
End RestOrder.

(* ===================================================================== *)
(** ** Removing a resting order *)
(* ===================================================================== *)

Section RemoveOrder.
Implicit Types (b : OrderBook) (ch : Chains) (s : Side) (c : list N).

Lemma lookup_delete_insert_same {A} (l : list A) i (a : A) k :
  delete i (<[i := a]> l) !! k = delete i l !! k.
Proof.
  destruct (decide (k < i)%nat) as [Hlt|Hge].
  - rewrite !list_lookup_delete_lt by done.
    rewrite list_lookup_insert_ne by lia. done.
  - rewrite !list_lookup_delete_ge by lia.
    rewrite list_lookup_insert_ne by lia. done.
Qed.

Lemma levels_nonempty_delete ls i :
  levels_nonempty ls -> levels_nonempty (delete i ls).
Proof.
  unfold levels_nonempty. intros H. rewrite Forall_forall in H |- *.
  intros l Hl. apply H. eapply elem_of_sublist; [exact Hl|apply sublist_delete].
Qed.

Lemma levels_nonempty_insert ls i l :
  levels_nonempty ls -> PriceLevel.empty l = false ->
  levels_nonempty (<[i := l]> ls).
Proof.
  intros H Hl. apply levels_nonempty_lookup. intros k l' Hk.
  apply list_lookup_insert_Some in Hk as [(-> & <- & _)|[_ Hk]]; [done|].
  rewrite levels_nonempty_lookup in H. eapply H. exact Hk.
Qed.

Lemma concat_delete_nil (cs : list (list N)) i :
  cs !! i = Some [] -> concat (delete i cs) = concat cs.
Proof.
  intros Hi. destruct (concat_insert cs i [] [] Hi) as [-> _].
  rewrite delete_take_drop, concat_app. reflexivity.
Qed.

(** Unlinking an order: it leaves the queue of its side, and every other
    order keeps its place, its identity and its quantity. *)
Lemma remove_order_chains b ch id idx :
  book_inv b ch ->
  (forall s, levels_nonempty (levels_of s b)) ->
  order_map_ b !! id = Some idx ->
  let b1 := remove_order_internal b idx in
  let b2 := set_map (delete id (order_map_ b1)) b1 in
  (exists ch2 A B,
     book_inv b2 ch2 /\
     concat (chains_of (Order.side (Pool.at_ (order_pool_ b) idx)) ch)
     = A ++ idx :: B /\
     concat (chains_of (Order.side (Pool.at_ (order_pool_ b) idx)) ch2)
     = A ++ B /\
     concat (chains_of (opposite (Order.side (Pool.at_ (order_pool_ b) idx))) ch2)
     = concat (chains_of (opposite (Order.side (Pool.at_ (order_pool_ b) idx))) ch) /\
     order_map_ b2 = delete id (order_map_ b) /\
     (forall j,
        ident (Pool.at_ (order_pool_ b2) j) = ident (Pool.at_ (order_pool_ b) j) /\
        Order.qty_remaining (Pool.at_ (order_pool_ b2) j)
        = Order.qty_remaining (Pool.at_ (order_pool_ b) j)) /\
     (forall j, slot_live (order_pool_ b2) j <->
                slot_live (order_pool_ b) j /\ j <> idx)) /\
  (forall s, levels_nonempty (levels_of s b2)) /\
  Pool.free_head_ (order_pool_ b2) = idx /\ idx <> INVALID_POOL_INDEX /\
  order_map_ b2 !! id = None /\
  trade_log_ b2 = trade_log_ b /\
  total_trades_ b2 = total_trades_ b /\ total_volume_ b2 = total_volume_ b.
Proof.
  intros Hinv Hne Hid.
  pose proof Hinv as (Hpool & _ & Hnd & Hmap & Hsorted).
  destruct (Hmap id idx Hid) as [Hin Hoid].
  destruct (inv_slot_resting b ch idx Hinv Hin) as
    (s & li & l & c & Hl & Hc & Hic & (Hlive & Hside & Hprice & _)).
  destruct (inv_level_chain b ch s li l Hinv Hl) as (c0 & Hc0 & Hok).
  assert (c0 = c) as -> by congruence.
  pose proof Hok as (Hlk & Hcnt & Hrest).
  apply list_elem_of_split in Hic as (c1 & c2 & ->).
  assert (Hndc : NoDup (c1 ++ idx :: c2)).
  { eapply concat_lookup_NoDup; [|exact Hc]. by apply all_slots_NoDup_side. }
  assert (Hlivec : Forall (slot_live (order_pool_ b)) (c1 ++ idx :: c2)).
  { eapply Forall_impl; [exact Hrest|]. intros j Hj. apply Hj. }
  destruct (pool_ok_live_bound _ _ Hpool Hlive) as [Hidx_cap Hidx_ne].
  destruct (PriceLevel.remove (order_pool_ b) l idx) as [pool1 l1] eqn:Hrm.
  destruct (remove_spec _ l c1 idx c2 pool1 l1 Hpool Hlk Hndc Hlivec Hrm) as
    (Hlk1 & Hs1 & Hpr1 & Hcnt1 & Hqty1 & Hfr1).
  assert (Hidx_c : idx ∉ c1 ++ c2).
  { apply NoDup_app in Hndc as (_ & Hd & Hnd2).
    apply NoDup_cons in Hnd2 as [Hi2 _].
    intros Hx. apply elem_of_app in Hx as [Hx|Hx]; [|done].
    apply (Hd idx Hx). left. }
  assert (Hid3 : forall j, ident (Pool.at_ (Pool.deallocate pool1 idx) j) =
                           ident (Pool.at_ (order_pool_ b) j)).
  { intros j. rewrite deallocate_at. by apply same_slots_ident. }
  assert (Hother_id : forall j, j <> idx ->
             order_map_ b !! Order.order_id (Pool.at_ (order_pool_ b) j) = Some j ->
             Order.order_id (Pool.at_ (order_pool_ b) j) <> id).
  { intros j Hj Hjm Heq. rewrite Heq in Hjm. congruence. }
  assert (Hcount1 : PriceLevel.order_count l1 = N.of_nat (length (c1 ++ c2))).
  { rewrite Hcnt1, Hcnt.
    pose proof (inv_chain_length b ch s li _ Hinv Hc) as Hlen.
    destruct Hpool as (Hcap & _). unfold INVALID_POOL_INDEX in Hcap.
    rewrite !length_app in *. simpl length in *.
    rewrite decr_u32_pos by lia. lia. }
  set (bm := set_levels s (<[li := l1]> (levels_of s b))
               (set_map (delete id (order_map_ b))
                  (set_pool (Pool.deallocate pool1 idx) b))).
  set (chm := set_chains s (<[li := c1 ++ c2]> (chains_of s ch)) ch).
  assert (Hinvm : book_inv bm chm).
  { eapply (book_inv_local b ch bm s li l (c1 ++ idx :: c2) l1 (c1 ++ c2));
      [exact Hinv|exact Hl|exact Hc| | |exact Hpr1| | | | | |].
    - unfold bm. by rewrite levels_of_set_levels.
    - unfold bm. rewrite levels_of_set_levels_ne by (destruct s; done).
      by book_simpl.
    - unfold bm. book_simpl. apply pool_ok_deallocate.
      + by eapply pool_ok_same_slots.
      + by apply (same_slots_live (order_pool_ b) pool1).
    - split; [|split; [done|]].
      + unfold bm. book_simpl. unfold linked in *.
        eapply lseg_ext; [|exact Hlk1]. intros j _. by rewrite deallocate_at.
      + rewrite Forall_forall in Hrest |- *. intros j Hj.
        assert (Hji : j <> idx) by (intros ->; contradiction).
        assert (Hjc : j ∈ c1 ++ idx :: c2).
        { rewrite elem_of_app, elem_of_cons. apply elem_of_app in Hj. tauto. }
        destruct (Hrest j Hjc) as (Hjl & Hjs & Hjp & Hjmap).
        unfold resting, bm. book_simpl.
        specialize (Hid3 j). unfold ident in Hid3.
        injection Hid3 as Hi1 Hi2 Hi3 Hi4.
        split; [|split; [congruence|split; [congruence|]]].
        * apply deallocate_live. split; [|done].
          by apply (same_slots_live (order_pool_ b) pool1).
        * rewrite Hi1. rewrite lookup_delete_ne; [done|].
          intros Heq. by apply (Hother_id j).
    - apply NoDup_app in Hndc as (Hn1 & Hd & Hn2).
      apply NoDup_cons in Hn2 as [_ Hn2].
      apply NoDup_app. split; [done|]. split; [|done].
      intros x Hx Hx'. apply (Hd x Hx). by right.
    - intros j Hj. left. rewrite elem_of_app, elem_of_cons.
      apply elem_of_app in Hj. tauto.
    - intros j Hj Hjc. unfold bm. book_simpl.
      assert (Hji : j <> idx).
      { intros ->. apply Hjc. rewrite elem_of_app, elem_of_cons. tauto. }
      destruct (inv_slot_resting b ch j Hinv Hj) as
        (s0 & k & l0 & c0 & _ & _ & _ & (Hjl & _ & _ & Hjmap)).
      split; [|split; [by apply Hid3|split]].
      + apply deallocate_live. split; [|done].
        by apply (same_slots_live (order_pool_ b) pool1).
      + rewrite deallocate_at. by apply Hfr1.
      + rewrite lookup_delete_ne; [done|]. intros Heq. by apply (Hother_id j).
    - intros id0 i. unfold bm. book_simpl. intros Hi.
      apply lookup_delete_Some in Hi as [Hne0 Hi].
      destruct (Hmap id0 i Hi) as [Hiin Hioid].
      assert (Hii : i <> idx) by (intros ->; congruence).
      split.
      + destruct (decide (i ∈ c1 ++ c2)); [by left|right].
        split; [done|]. rewrite elem_of_app, elem_of_cons.
        rewrite elem_of_app in n. tauto.
      + rewrite <- Hioid. apply ident_order_id, Hid3. }
  (* the state computed by the code *)
  unfold remove_order_internal. rewrite Hside, Hprice.
  rewrite (find_level_found (is_buy s) (levels_of s b) (PriceLevel.price l) li l)
    by (try done; apply Hsorted).
  rewrite Hl, Hrm. unfold remove_level_if_empty.
  rewrite list_lookup_insert_eq by (eapply lookup_lt_Some; exact Hl).
  book_simpl.
  assert (Hcat : concat (chains_of s ch)
                 = (concat (take li (chains_of s ch)) ++ c1)
                   ++ idx :: c2 ++ concat (drop (S li) (chains_of s ch)) /\
                 concat (chains_of s chm)
                 = (concat (take li (chains_of s ch)) ++ c1)
                   ++ c2 ++ concat (drop (S li) (chains_of s ch))).
  { unfold chm. rewrite chains_of_set_chains.
    destruct (concat_insert (chains_of s ch) li (c1 ++ idx :: c2) (c1 ++ c2) Hc)
      as [-> ->].
    rewrite <- !app_assoc. done. }
  destruct Hcat as [HcatA HcatB].
  assert (Hopp : chains_of (opposite s) chm = chains_of (opposite s) ch).
  { unfold chm. apply chains_of_set_chains_ne. by destruct s. }
  assert (Hpoolfacts : forall pl, pl = Pool.deallocate pool1 idx ->
            (forall j,
               ident (Pool.at_ pl j) = ident (Pool.at_ (order_pool_ b) j) /\
               Order.qty_remaining (Pool.at_ pl j)
               = Order.qty_remaining (Pool.at_ (order_pool_ b) j)) /\
            (forall j, slot_live pl j <-> slot_live (order_pool_ b) j /\ j <> idx)).
  { intros pl ->. split.
    - intros j. split; [apply Hid3|]. rewrite deallocate_at. apply Hqty1.
    - intros j. rewrite deallocate_live.
      split; intros [Hj Hji]; (split; [|done]).
      + by apply (same_slots_live (order_pool_ b) pool1).
      + by apply (same_slots_live (order_pool_ b) pool1).  }
  split; [|split; [|split; [|split; [done|split; [|split; [|split]]]]]].
  - destruct (PriceLevel.empty l1) eqn:He1.
    + exists (set_chains s (delete li (chains_of s chm)) chm),
        (concat (take li (chains_of s ch)) ++ c1),
        (c2 ++ concat (drop (S li) (chains_of s ch))).
      assert (Hnil : c1 ++ c2 = []).
      { apply length_zero_iff_nil. unfold PriceLevel.empty in He1.
        apply N.eqb_eq in He1. lia. }
      split; [|split; [exact HcatA|split; [|split; [|split; [done|]]]]].
      * eapply book_inv_proj;
          [| |
           |eapply (erase_level_inv bm chm s li l1); [exact Hinvm| |exact He1]].
        -- unfold bm. by book_simpl.
        -- unfold bm. by book_simpl.
        -- intros s0. destruct (decide (s0 = s)) as [->|Hs0].
           ++ unfold bm. book_simpl.
              apply list_eq. intros k. by rewrite !lookup_delete_insert_same.
           ++ unfold bm. rewrite levels_of_set_map, levels_of_set_pool.
              rewrite !levels_of_set_levels_ne by done.
              by book_simpl.
        -- unfold bm. rewrite levels_of_set_levels.
           apply list_lookup_insert_eq. eapply lookup_lt_Some; exact Hl.
      * rewrite chains_of_set_chains. rewrite concat_delete_nil.
        -- exact HcatB.
        -- unfold chm. rewrite chains_of_set_chains, <- Hnil.
           apply list_lookup_insert_eq. eapply lookup_lt_Some; exact Hc.
      * rewrite chains_of_set_chains_ne by (by destruct s). by rewrite Hopp.
      * apply Hpoolfacts. by book_simpl.
    + exists chm, (concat (take li (chains_of s ch)) ++ c1),
        (c2 ++ concat (drop (S li) (chains_of s ch))).
      split; [|split; [exact HcatA|split; [exact HcatB|split;
               [by rewrite Hopp|split; [by book_simpl|]]]]].
      * eapply book_inv_proj; [| | |exact Hinvm].
        -- unfold bm. by book_simpl.
        -- unfold bm. by book_simpl.
        -- intros s0. destruct (decide (s0 = s)) as [->|Hs0].
           ++ unfold bm. by book_simpl.
           ++ unfold bm. rewrite levels_of_set_map, levels_of_set_pool.
              rewrite !levels_of_set_levels_ne by done. by book_simpl.
      * apply Hpoolfacts. by book_simpl.
  - destruct (PriceLevel.empty l1) eqn:He1.
    + intros s0. destruct (decide (s0 = s)) as [->|Hs0].
      * book_simpl. apply levels_nonempty_lookup. intros k l' Hk.
        rewrite lookup_delete_insert_same in Hk.
        pose proof (levels_nonempty_delete _ li (Hne s)) as Hd.
        rewrite levels_nonempty_lookup in Hd. eapply Hd. exact Hk.
      * rewrite levels_of_set_map, levels_of_set_pool,
          levels_of_set_levels_ne by done.
        book_simpl. apply Hne.
    + intros s0. destruct (decide (s0 = s)) as [->|Hs0].
      * book_simpl. by apply levels_nonempty_insert.
      * rewrite levels_of_set_map, levels_of_set_pool,
          levels_of_set_levels_ne by done.
        book_simpl. apply Hne.
  - by destruct (PriceLevel.empty l1).
  - destruct (PriceLevel.empty l1); book_simpl; apply lookup_delete_eq.
  - by destruct (PriceLevel.empty l1); book_simpl.
  - by destruct (PriceLevel.empty l1); book_simpl.
  - by destruct (PriceLevel.empty l1); book_simpl.
Qed.

Lemma remove_order_inv b ch id idx :
  book_inv b ch ->
  (forall s, levels_nonempty (levels_of s b)) ->
  order_map_ b !! id = Some idx ->
  let b1 := remove_order_internal b idx in
  let b2 := set_map (delete id (order_map_ b1)) b1 in
  Inv b2 /\
  Pool.free_head_ (order_pool_ b2) = idx /\ idx <> INVALID_POOL_INDEX /\
  order_map_ b2 !! id = None /\
  trade_log_ b2 = trade_log_ b /\
  total_trades_ b2 = total_trades_ b /\ total_volume_ b2 = total_volume_ b.
Proof.
  intros Hinv Hne Hid.
  destruct (remove_order_chains b ch id idx Hinv Hne Hid) as
    ((ch2 & A & B & Hinv2 & _) & Hne2 & Hrest).
  split; [|exact Hrest]. split; [eauto|exact Hne2].
Qed.
End RemoveOrder.

(* ===================================================================== *)
(** ** Reducing the quantity of a resting order in place *)
(* ===================================================================== *)

Section ModifyReduce.
Implicit Types (b : OrderBook) (ch : Chains) (s : Side) (c : list N).

(** Reducing in place relinks nothing: the queues stay as they are. *)
Lemma modify_reduce_chains b ch id idx new_qty :
  book_inv b ch ->
  (forall s, levels_nonempty (levels_of s b)) ->
  order_map_ b !! id = Some idx ->
  let order := Pool.at_ (order_pool_ b) idx in
  let s := Order.side order in
  let levels := levels_of s b in
  let level_it := find_level levels (Order.price order) (is_buy s) in
  let levels1 :=
    match levels !! level_it with
    | Some l =>
        <[level_it :=
            PriceLevel.reduce_qty l
              (wrap_i64 (Order.qty_remaining order - new_qty))]> levels
    | None => levels
    end in
  let pool1 :=
    Pool.update (order_pool_ b) idx (Order.set_qty_remaining new_qty) in
  book_inv (set_levels s levels1 (set_pool pool1 b)) ch /\
  (forall s0, levels_nonempty (levels_of s0 (set_levels s levels1 (set_pool pool1 b)))) /\
  exists li l,
    levels !! li = Some l /\ level_it = li /\
    PriceLevel.price l = Order.price order.
Proof.
  intros Hinv Hne Hid. cbv zeta.
  pose proof Hinv as (Hpool & _ & Hnd & Hmap & Hsorted).
  destruct (Hmap id idx Hid) as [Hin Hoid].
  destruct (inv_slot_resting b ch idx Hinv Hin) as
    (s & li & l & c & Hl & Hc & Hic & (Hlive & Hside & Hprice & _)).
  destruct (inv_level_chain b ch s li l Hinv Hl) as (c0 & Hc0 & Hok).
  assert (c0 = c) as -> by congruence.
  rewrite Hside, Hprice.
  rewrite (find_level_found (is_buy s) (levels_of s b) (PriceLevel.price l) li l)
    by (try done; apply Hsorted).
  rewrite Hl.
  set (pool1 := Pool.update (order_pool_ b) idx (Order.set_qty_remaining new_qty)).
  set (l1 := PriceLevel.reduce_qty l _).
  set (b' := set_levels s (<[li := l1]> (levels_of s b)) (set_pool pool1 b)).
  assert (Hs1 : same_slots (order_pool_ b) pool1).
  { apply same_slots_update. intros o. reflexivity. }
  assert (Hlinks1 : forall j, links (Pool.at_ pool1 j) = links (Pool.at_ (order_pool_ b) j)).
  { intros j. apply update_links_same. intros o. reflexivity. }
  assert (Hframe : forall j, j ∈ all_slots ch ->
     slot_live (order_pool_ b') j /\
     ident (Pool.at_ (order_pool_ b') j) = ident (Pool.at_ (order_pool_ b) j) /\
     links (Pool.at_ (order_pool_ b') j) = links (Pool.at_ (order_pool_ b) j) /\
     order_map_ b' !! Order.order_id (Pool.at_ (order_pool_ b) j) = Some j).
  { intros j Hj. unfold b'. book_simpl.
    destruct (inv_slot_resting b ch j Hinv Hj) as
      (s0 & k & l0 & c0 & _ & _ & _ & (Hjl & _ & _ & Hjmap)).
    split; [by apply (same_slots_live (order_pool_ b) pool1)|].
    split; [by apply same_slots_ident|]. split; [apply Hlinks1|done]. }
  split; [|split].
  - rewrite <- (set_chains_insert_id s ch li c Hc).
    eapply (book_inv_local b ch b' s li l c l1 c);
      [exact Hinv|exact Hl|exact Hc| | |reflexivity| | | | | |].
    + unfold b'. by rewrite levels_of_set_levels.
    + unfold b'. rewrite levels_of_set_levels_ne by (destruct s; done).
      by book_simpl.
    + unfold b'. book_simpl. by eapply pool_ok_same_slots.
    + eapply (level_ok_frame b); try reflexivity; [|exact Hok].
      intros j Hj. apply Hframe. eapply chain_in_all_slots; eauto.
    + eapply concat_lookup_NoDup; [|exact Hc]. by apply all_slots_NoDup_side.
    + intros j Hj. by left.
    + intros j Hj _. by apply Hframe.
    + intros id0 i. unfold b'. book_simpl. intros Hi.
      destruct (Hmap id0 i Hi) as [Hiin Hioid]. split.
      * destruct (decide (i ∈ c)); [by left|by right].
      * rewrite <- Hioid. apply ident_order_id. by apply same_slots_ident.
  - intros s0. unfold b'. destruct (decide (s0 = s)) as [->|Hs0].
    + rewrite levels_of_set_levels. apply levels_nonempty_insert; [apply Hne|].
      specialize (Hne s). rewrite levels_nonempty_lookup in Hne.
      unfold l1, PriceLevel.empty; simpl. by apply (Hne li l).
    + rewrite levels_of_set_levels_ne by done. book_simpl. apply Hne.
  - by exists li, l.
Qed.

Lemma modify_reduce_inv b ch id idx new_qty :
  book_inv b ch ->
  (forall s, levels_nonempty (levels_of s b)) ->
  order_map_ b !! id = Some idx ->
  let order := Pool.at_ (order_pool_ b) idx in
  let s := Order.side order in
  let levels := levels_of s b in
  let level_it := find_level levels (Order.price order) (is_buy s) in
  let levels1 :=
    match levels !! level_it with
    | Some l =>
        <[level_it :=
            PriceLevel.reduce_qty l
              (wrap_i64 (Order.qty_remaining order - new_qty))]> levels
    | None => levels
    end in
  let pool1 :=
    Pool.update (order_pool_ b) idx (Order.set_qty_remaining new_qty) in
  Inv (set_levels s levels1 (set_pool pool1 b)).
Proof.
  intros Hinv Hne Hid.
  destruct (modify_reduce_chains b ch id idx new_qty Hinv Hne Hid) as (H1 & H2 & _).
  split; [eauto|exact H2].
Qed.
End ModifyReduce.

(* ===================================================================== *)
(** ** The matching loops *)
(* ===================================================================== *)

Section MatchLoops.
Variables (taker_order_id taker_trader_id : N) (side : Side).

Local Abbreviation ms := (opposite side).
Local Abbreviation fill_of := (match_fill taker_order_id taker_trader_id side).

(** Induction over the inner loop. *)
Lemma match_level_loop_ind (P : MatchState -> Prop) li :
  (forall st, P st -> match_level_continues side li st = true -> P (fill_of li st)) ->
  forall fuel st, P st ->
    P (match_level_loop fuel taker_order_id taker_trader_id side li st).
Proof.
  intros Hstep fuel. induction fuel as [|fuel IH]; intros st Hst; simpl; [done|].
  destruct (match_level_continues side li st) eqn:Hc; [|done].
  apply IH. by apply Hstep.
Qed.

Lemma match_level_ind (P : MatchState -> Prop) li :
  (forall st, P st -> match_level_continues side li st = true -> P (fill_of li st)) ->
  forall st, P st -> P (match_level taker_order_id taker_trader_id side li st).
Proof. intros Hstep st. apply match_level_loop_ind. exact Hstep. Qed.

(** Induction over the whole of [match_order]: [Q] holds between two
    passes of the outer loop, [P li] while the inner loop works on the
    level at offset [li]. *)
Lemma match_levels_loop_ind2 (Q : MatchState -> Prop)
    (P : nat -> MatchState -> Prop) price is_market :
  (forall li st, Q st -> P li st) ->
  (forall li st, P li st -> match_level_continues side li st = true ->
                 P li (fill_of li st)) ->
  (forall li st lvl,
     P li st -> levels_of ms (ms_book st) !! li = Some lvl ->
     PriceLevel.empty lvl = true ->
     Q (mkMatch (set_levels ms (delete li (levels_of ms (ms_book st))) (ms_book st))
                (ms_remaining st) (ms_trades st))) ->
  (forall li st lvl,
     P li st -> levels_of ms (ms_book st) !! li = Some lvl ->
     PriceLevel.empty lvl = false -> Q st) ->
  (forall li st, P li st -> levels_of ms (ms_book st) !! li = None -> Q st) ->
  forall fuel li st, Q st ->
    Q (match_levels_loop fuel taker_order_id taker_trader_id side price
                         is_market li st).
Proof.
  intros Henter Hfill Herase Hadv Hvan fuel.
  induction fuel as [|fuel IH]; intros li st Hst; simpl; [done|].
  destruct (levels_of ms (ms_book st) !! li) as [lvl|] eqn:Hl; [|done].
  destruct (ms_remaining st >? 0); simpl; [|done].
  destruct (price_stops side price is_market lvl); [done|].
  set (st1 := match_level taker_order_id taker_trader_id side li st).
  assert (H1 : P li st1).
  { apply (match_level_ind (P li)); [apply Hfill|by apply Henter]. }
  destruct (levels_of ms (ms_book st1) !! li) as [lvl1|] eqn:Hl1.
  - destruct (PriceLevel.empty lvl1) eqn:He.
    + apply IH. by eapply Herase.
    + apply IH. by eapply Hadv.
  - by eapply Hvan.
Qed.

Lemma match_order_ind2 (Q : MatchState -> Prop)
    (P : nat -> MatchState -> Prop) b price qty is_market :
  (forall li st, Q st -> P li st) ->
  (forall li st, P li st -> match_level_continues side li st = true ->
                 P li (fill_of li st)) ->
  (forall li st lvl,
     P li st -> levels_of ms (ms_book st) !! li = Some lvl ->
     PriceLevel.empty lvl = true ->
     Q (mkMatch (set_levels ms (delete li (levels_of ms (ms_book st))) (ms_book st))
                (ms_remaining st) (ms_trades st))) ->
  (forall li st lvl,
     P li st -> levels_of ms (ms_book st) !! li = Some lvl ->
     PriceLevel.empty lvl = false -> Q st) ->
  (forall li st, P li st -> levels_of ms (ms_book st) !! li = None -> Q st) ->
  Q (mkMatch b qty 0%N) ->
  Q (match_order b taker_order_id taker_trader_id side price qty is_market).
Proof.
  intros Henter Hfill Herase Hadv Hvan H0. unfold match_order.
  by apply (match_levels_loop_ind2 Q P).
Qed.

(** The same with a single property. *)
Lemma match_order_ind (P : MatchState -> Prop) b price qty is_market :
  (forall li st, P st -> match_level_continues side li st = true -> P (fill_of li st)) ->
  (forall li st lvl,
     P st -> levels_of ms (ms_book st) !! li = Some lvl ->
     PriceLevel.empty lvl = true ->
     P (mkMatch (set_levels ms (delete li (levels_of ms (ms_book st))) (ms_book st))
                (ms_remaining st) (ms_trades st))) ->
  P (mkMatch b qty 0%N) ->
  P (match_order b taker_order_id taker_trader_id side price qty is_market).
Proof.
  intros Hfill Herase H0.
  apply (match_order_ind2 P (fun _ => P)); try done.
Qed.

Lemma match_level_continues_spec li st :
  match_level_continues side li st = true ->
  exists lvl, levels_of ms (ms_book st) !! li = Some lvl /\
              ms_remaining st > 0 /\ PriceLevel.empty lvl = false.
Proof.
  unfold match_level_continues.
  destruct (levels_of ms (ms_book st) !! li) as [lvl|]; [|done].
  intros H. apply andb_true_iff in H as [H1 H2].
  exists lvl. split; [done|]. split; [lia|]. by apply negb_true_iff.
Qed.

(** [match_order] keeps the invariant, empty levels included. *)
Lemma match_order_Inv b price qty is_market :
  Inv b ->
  Inv (ms_book (match_order b taker_order_id taker_trader_id side
                            price qty is_market)).
Proof.
  intros Hb.
  apply (match_order_ind2
           (fun st => Inv (ms_book st))
           (fun li st =>
              (exists ch, book_inv (ms_book st) ch) /\
              levels_nonempty (levels_of side (ms_book st)) /\
              forall k l, k <> li -> levels_of ms (ms_book st) !! k = Some l ->
                          PriceLevel.empty l = false)); [| | | | |exact Hb].
  - intros li st [Hinv Hne]. split; [done|]. split; [apply Hne|].
    intros k l _ Hk. specialize (Hne ms).
    rewrite levels_nonempty_lookup in Hne. by apply (Hne k).
  - intros li st ([ch Hinv] & Hside & Hoth) Hc.
    apply match_level_continues_spec in Hc as (lvl & Hl & _ & Hne).
    destruct (match_fill_inv taker_order_id taker_trader_id side li st ch lvl
                Hinv Hl Hne) as
      (m & c & c' & lvl' & _ & _ & Hinv' & Hlv' & Hsd' & _ & _).
    split; [eauto|]. split; [by rewrite Hsd'|].
    intros k l Hk. rewrite Hlv', list_lookup_insert_ne by done. by apply Hoth.
  - intros li st lvl ([ch Hinv] & Hside & Hoth) Hl He. cbn [ms_book].
    split.
    + eexists. by eapply erase_level_inv.
    + intros s0. destruct (decide (s0 = ms)) as [->|Hs0].
      * rewrite levels_of_set_levels. apply levels_nonempty_lookup.
        intros k l Hk. destruct (decide (k < li)%nat).
        -- rewrite list_lookup_delete_lt in Hk by done. apply (Hoth k); [lia|done].
        -- rewrite list_lookup_delete_ge in Hk by lia. apply (Hoth (S k)); [lia|done].
      * assert (s0 = side) as -> by (destruct s0, side; done).
        by rewrite levels_of_set_levels_opp.
  - intros li st lvl ([ch Hinv] & Hside & Hoth) Hl He.
    split; [eauto|]. intros s0. destruct (decide (s0 = ms)) as [->|Hs0].
    + apply levels_nonempty_lookup. intros k l Hk.
      destruct (decide (k = li)) as [->|Hne]; [congruence|by apply (Hoth k)].
    + assert (s0 = side) as -> by (destruct s0, side; done). done.
  - intros li st ([ch Hinv] & Hside & Hoth) Hl.
    split; [eauto|]. intros s0. destruct (decide (s0 = ms)) as [->|Hs0].
    + apply levels_nonempty_lookup. intros k l Hk.
      destruct (decide (k = li)) as [->|Hne]; [congruence|by apply (Hoth k)].
    + assert (s0 = side) as -> by (destruct s0, side; done). done.
Qed.
End MatchLoops.

(* ===================================================================== *)
(** ** Facts about [match_order] that need no invariant *)
(* ===================================================================== *)

Section MatchFacts.
Variables (taker_order_id taker_trader_id : N) (side : Side).

Local Abbreviation ms := (opposite side).
Local Abbreviation fill_of := (match_fill taker_order_id taker_trader_id side).

Lemma match_fill_map_sub li st id i :
  order_map_ (ms_book (fill_of li st)) !! id = Some i ->
  order_map_ (ms_book st) !! id = Some i.
Proof.
  unfold match_fill.
  destruct (levels_of ms (ms_book st) !! li) as [lvl|]; [|done].
  destruct (_ <=? 0).
  - destruct (PriceLevel.remove _ _ _) as [pool2 lvl2]. book_simpl.
    intros H. by apply lookup_delete_Some in H as [_ H].
  - by book_simpl.
Qed.

(** Matching only ever erases entries of the order-id index. *)
Lemma match_order_map_sub b price qty is_market id i :
  order_map_ (ms_book (match_order b taker_order_id taker_trader_id side
                                   price qty is_market)) !! id = Some i ->
  order_map_ b !! id = Some i.
Proof.
  apply (match_order_ind taker_order_id taker_trader_id side
           (fun st => order_map_ (ms_book st) !! id = Some i ->
                      order_map_ b !! id = Some i)).
  - intros li st IH _ H. by apply IH, (match_fill_map_sub li).
  - intros li st lvl IH _ _. by book_simpl.
  - done.
Qed.

Lemma match_fill_live li st j :
  slot_live (order_pool_ (ms_book (fill_of li st))) j ->
  slot_live (order_pool_ (ms_book st)) j.
Proof.
  unfold match_fill.
  destruct (levels_of ms (ms_book st) !! li) as [lvl|]; [|done].
  set (pool1 := Pool.update _ _ _).
  assert (H1 : slot_live pool1 j -> slot_live (order_pool_ (ms_book st)) j).
  { unfold pool1. by rewrite update_slot_live. }
  destruct (_ <=? 0).
  - unfold PriceLevel.remove. book_simpl. intros H.
    apply deallocate_live in H as [H _]. apply H1.
    repeat (match type of H with
            | slot_live (if ?c then _ else _) _ => destruct c
            | slot_live (Pool.update _ _ _) _ => apply update_slot_live in H
            end); done.
  - by book_simpl.
Qed.

(** Matching allocates nothing. *)
Lemma match_order_live b price qty is_market j :
  slot_live (order_pool_ (ms_book (match_order b taker_order_id taker_trader_id
                                               side price qty is_market))) j ->
  slot_live (order_pool_ b) j.
Proof.
  apply (match_order_ind taker_order_id taker_trader_id side
           (fun st => slot_live (order_pool_ (ms_book st)) j ->
                      slot_live (order_pool_ b) j)).
  - intros li st IH _ H. by apply IH, (match_fill_live li).
  - intros li st lvl IH _ _. by book_simpl.
  - done.
Qed.

(** The side of the taker is left alone. *)
Lemma match_order_own_side b price qty is_market :
  levels_of side (ms_book (match_order b taker_order_id taker_trader_id side
                                       price qty is_market))
  = levels_of side b.
Proof.
  apply (match_order_ind taker_order_id taker_trader_id side
           (fun st => levels_of side (ms_book st) = levels_of side b)).
  - intros li st IH _. rewrite <- IH. unfold match_fill.
    destruct (levels_of ms (ms_book st) !! li) as [lvl|]; [|done].
    destruct (_ <=? 0).
    + destruct (PriceLevel.remove _ _ _) as [pool2 lvl2]. by book_simpl.
    + by book_simpl.
  - intros li st lvl IH _ _. by book_simpl.
  - done.
Qed.
End MatchFacts.

(* ===================================================================== *)
(** ** A fresh book *)
(* ===================================================================== *)

Section FreshBook.
Lemma pool_new_lookup capacity i :
  Pool.storage_ (Pool.new capacity) !! i =
  if (i <? capacity)%N
  then Some (Pool.mkEntry Order.default (Pool.free_link capacity i) false)
  else None.
Proof.
  unfold Pool.new; simpl.
  set (keys := N.of_nat <$> seq 0 (N.to_nat capacity)).
  assert (Hk : forall k, k ∈ keys <-> (k < capacity)%N).
  { intros k. unfold keys. rewrite list_elem_of_fmap. split.
    - intros (n & -> & Hn). apply elem_of_seq in Hn. lia.
    - intros Hlt. exists (N.to_nat k). split; [lia|]. apply elem_of_seq. lia. }
  assert (Hfst : (Pool.initial_entry capacity <$> keys).*1 = keys).
  { rewrite <- list_fmap_compose. apply list_fmap_id. }
  destruct (N.ltb_spec i capacity) as [Hlt|Hge].
  - apply elem_of_list_to_map_1.
    + rewrite Hfst. unfold keys. apply NoDup_fmap; [|apply NoDup_seq].
      intros x y. lia.
    + apply list_elem_of_fmap. exists i. split; [done|]. by apply Hk.
  - apply not_elem_of_list_to_map_1. rewrite Hfst. rewrite Hk. lia.
Qed.

Lemma pool_new_ok capacity : in_u32 capacity -> pool_ok (Pool.new capacity).
Proof.
  intros Hcap. unfold in_u32 in Hcap.
  split; [simpl; unfold INVALID_POOL_INDEX; lia|]. split.
  { intros i [e He]. rewrite pool_new_lookup in He. simpl.
    destruct (N.ltb_spec i capacity); [done|discriminate]. }
  exists (N.of_nat <$> seq 0 (N.to_nat capacity)). split; [|split].
  - assert (Hgen : forall n start,
              (start + n)%nat = N.to_nat capacity ->
              free_list (Pool.new capacity)
                (match n with O => INVALID_POOL_INDEX | _ => N.of_nat start end)
                (N.of_nat <$> seq start n)).
    { induction n as [|n IH]; intros start Hs; simpl; [done|].
      split; [done|].
      unfold Pool.entry_at. rewrite pool_new_lookup.
      destruct (N.ltb_spec (N.of_nat start) capacity); [|lia]. simpl.
      specialize (IH (S start) ltac:(lia)).
      unfold Pool.free_link. destruct n as [|n].
      - destruct (N.ltb_spec (N.of_nat start + 1) capacity); [lia|done].
      - destruct (N.ltb_spec (N.of_nat start + 1) capacity); [|lia].
        replace (N.of_nat start + 1)%N with (N.of_nat (S start)) by lia. done. }
    specialize (Hgen (N.to_nat capacity) 0%nat eq_refl). simpl Pool.free_head_.
    destruct (N.ltb_spec 0 capacity).
    + destruct (N.to_nat capacity) eqn:E; [lia|done].
    + replace (N.to_nat capacity) with 0%nat in * by lia. done.
  - apply NoDup_fmap; [|apply NoDup_seq]. intros x y. lia.
  - rewrite Forall_forall. intros i Hi.
    apply list_elem_of_fmap in Hi as (n & -> & Hn). apply elem_of_seq in Hn.
    eexists. rewrite pool_new_lookup.
    destruct (N.ltb_spec (N.of_nat n) capacity); [|lia]. done.
Qed.

Lemma OrderBook_new_Inv max_orders : in_u32 max_orders -> Inv (OrderBook_new max_orders).
Proof.
  intros Hcap. split.
  - exists ([], []). split; [by apply pool_new_ok|].
    split; [intros []; constructor|]. split; [constructor|].
    split; [intros id i H; simpl in H; by rewrite lookup_empty in H|].
    intros []; constructor.
  - intros []; constructor.
Qed.
End FreshBook.

(* ===================================================================== *)
(** ** Every operation keeps the invariant *)
(* ===================================================================== *)

Section OperationsKeepInv.
Implicit Types (b : OrderBook).

Lemma Inv_proj b b' :
  order_pool_ b' = order_pool_ b -> order_map_ b' = order_map_ b ->
  (forall s, levels_of s b' = levels_of s b) ->
  Inv b -> Inv b'.
Proof.
  intros Hp Hm Hl [[ch Hinv] Hne]. split.
  - exists ch. by apply (book_inv_proj b).
  - intros s. rewrite Hl. apply Hne.
Qed.

Lemma add_limit_internal_Inv b id tr s p q :
  Inv b -> Inv (fst (add_limit_internal b id tr s p q)).
Proof.
  intros Hb. unfold add_limit_internal.
  case_bool_decide as Hdup; [done|].
  set (st := match_order b id tr s p q false).
  pose proof (match_order_Inv id tr s b p q false Hb) as H1. fold st in H1.
  destruct (ms_remaining st <=? 0); [done|].
  destruct (Pool.allocate _ _) as [idx pool1] eqn:Ha.
  destruct (N.eqb_spec idx INVALID_POOL_INDEX) as [->|Hidx].
  - apply allocate_fail in Ha as [-> _]. simpl.
    eapply Inv_proj; [..|exact H1]; try done; try (by intros []).
  - destruct (find_or_create_level _ _ _) as [it levels1] eqn:Hfc.
    destruct (PriceLevel.push_back _ _ _) as [pool2 lvl] eqn:Hpb. simpl.
    destruct H1 as [[ch Hinv] Hne].
    eapply rest_order_inv; eauto.
    destruct (order_map_ (ms_book st) !! id) as [i|] eqn:Hi; [|done].
    apply match_order_map_sub in Hi. exfalso. apply Hdup. eauto.
Qed.

Lemma add_market_Inv b id tr s q : Inv b -> Inv (fst (add_market b id tr s q)).
Proof. intros Hb. unfold add_market; simpl. by apply match_order_Inv. Qed.

Lemma cancel_Inv b id : Inv b -> Inv (fst (cancel b id)).
Proof.
  intros [[ch Hinv] Hne]. unfold cancel.
  destruct (order_map_ b !! id) as [idx|] eqn:Hid; [|simpl; split; eauto]. simpl.
  by destruct (remove_order_inv b ch id idx Hinv Hne Hid) as [H _].
Qed.

Lemma modify_Inv b id q p : Inv b -> Inv (fst (modify b id q p)).
Proof.
  intros Hb. pose proof Hb as [[ch Hinv] Hne]. unfold modify.
  destruct (order_map_ b !! id) as [idx|] eqn:Hid; [|done].
  destruct (remove_order_inv b ch id idx Hinv Hne Hid) as [Hrm _].
  destruct (_ && _).
  - by apply add_limit_internal_Inv.
  - destruct (q <? _).
    + simpl. by eapply modify_reduce_inv.
    + by apply add_limit_internal_Inv.
Qed.

Lemma apply_op_Inv b op : Inv b -> Inv (fst (apply_op b op)).
Proof.
  destruct op; simpl.
  - apply add_limit_internal_Inv.
  - apply add_market_Inv.
  - apply cancel_Inv.
  - apply modify_Inv.
Qed.

Lemma reachable_Inv b : reachable b -> Inv b.
Proof.
  induction 1 as [max_orders Hcap|b op _ IH _].
  - by apply OrderBook_new_Inv.
  - by apply apply_op_Inv.
Qed.
End OperationsKeepInv.

(* ===================================================================== *)
(** ** Reachable states *)
(* ===================================================================== *)

Section Reachability.
Lemma reachable_run_from b ops :
  reachable b -> Forall well_typed_op ops -> reachable (run_ops b ops).
Proof.
  intros Hb Hops. revert b Hb.
  induction Hops as [|op ops Hop _ IH]; intros b Hb; [done|].
  apply IH. by apply reachable_step.
Qed.

Lemma reachable_run_ops max_orders ops :
  in_u32 max_orders -> Forall well_typed_op ops ->
  reachable (run_ops (OrderBook_new max_orders) ops).
Proof. intros Hc Hops. apply reachable_run_from; [by constructor|done]. Qed.

Lemma StronglySorted_lookup {A} (R : A -> A -> Prop) (l : list A) i j x y :
  StronglySorted R l -> (i < j)%nat -> l !! i = Some x -> l !! j = Some y -> R x y.
Proof.
  intros Hs. revert i j. induction Hs as [|a l Hs IH Hall]; intros i j Hij Hi Hj; [done|].
  destruct j as [|j]; [lia|]. destruct i as [|i]; simpl in *.
  - injection Hi as ->. rewrite Forall_forall in Hall. apply Hall.
    eapply list_elem_of_lookup_2. exact Hj.
  - eapply (IH i j); [lia|done|done].
Qed.

(** Matching frees slots and never takes one. *)
Lemma match_order_free_head id tr side b price qty is_market :
  (exists ch, book_inv b ch) ->
  Pool.free_head_ (order_pool_ b) <> INVALID_POOL_INDEX ->
  (exists ch, book_inv (ms_book (match_order b id tr side price qty is_market)) ch) /\
  Pool.free_head_ (order_pool_ (ms_book (match_order b id tr side price qty is_market)))
    <> INVALID_POOL_INDEX.
Proof.
  intros Hinv Hfh.
  apply (match_order_ind id tr side
           (fun st => (exists ch, book_inv (ms_book st) ch) /\
                      Pool.free_head_ (order_pool_ (ms_book st)) <> INVALID_POOL_INDEX)).
  - intros li st [[ch Hi] Hf] Hc.
    apply match_level_continues_spec in Hc as (lvl & Hl & _ & Hne).
    destruct (match_fill_inv id tr side li st ch lvl Hi Hl Hne) as
      (m & c & c' & lvl' & _ & _ & Hinv' & _ & _ & _ & Hcase).
    split; [eauto|].
    destruct Hcase as [(_ & _ & _ & -> & _)|(_ & _ & -> & Hm)]; done.
  - intros li st lvl [[ch Hi] Hf] Hl He. cbn [ms_book]. split.
    + eexists. by eapply erase_level_inv.
    + by rewrite order_pool_set_levels.
  - done.
Qed.

Lemma add_limit_internal_result b id tr s p q :
  (exists ch, book_inv b ch) ->
  order_map_ b !! id = None ->
  Pool.free_head_ (order_pool_ b) <> INVALID_POOL_INDEX ->
  OrderResponse.result (snd (add_limit_internal b id tr s p q))
    ∈ [Accepted; PartiallyFilled; FullyFilled].
Proof.
  intros Hinv Hid Hfh. unfold add_limit_internal.
  case_bool_decide as Hdup; [rewrite Hid in Hdup; by destruct Hdup|].
  destruct (match_order_free_head id tr s b p q false Hinv Hfh) as [_ Hfh'].
  set (st := match_order b id tr s p q false) in *.
  destruct (ms_remaining st <=? 0); [simpl; set_solver|].
  unfold Pool.allocate.
  destruct (N.eqb_spec (Pool.free_head_ (order_pool_ (ms_book st)))
                       INVALID_POOL_INDEX) as [He|_]; [done|].
  destruct (N.eqb_spec (Pool.free_head_ (order_pool_ (ms_book st)))
                       INVALID_POOL_INDEX) as [He|_]; [done|].
  destruct (find_or_create_level _ _ _) as [it levels1].
  destruct (PriceLevel.push_back _ _ _) as [pool2 lvl]. simpl.
  destruct (0 <? ms_trades st)%N; set_solver.
Qed.
End Reachability.

(* ===================================================================== *)
(** ** The properties of the specification *)
(* ===================================================================== *)

(** C6.  In every reachable state the bid array is strictly decreasing in
    price, the ask array strictly increasing, and no level of either
    array is empty ([order_count = 0]). *)
Theorem levels_sorted_and_nonempty (b : OrderBook) :
  reachable b ->
  (forall i j x y, (i < j)%nat -> bids_ b !! i = Some x -> bids_ b !! j = Some y ->
                   PriceLevel.price x > PriceLevel.price y) /\
  (forall i j x y, (i < j)%nat -> asks_ b !! i = Some x -> asks_ b !! j = Some y ->
                   PriceLevel.price x < PriceLevel.price y) /\
  (forall l, l ∈ bids_ b ++ asks_ b -> PriceLevel.order_count l <> 0%N).
Proof.
  intros Hr. destruct (reachable_Inv b Hr) as [[ch Hinv] Hne].
  destruct Hinv as (_ & _ & _ & _ & Hsorted).
  split; [|split].
  - intros i j x y Hij Hi Hj.
    pose proof (StronglySorted_lookup _ _ i j x y (Hsorted Buy) Hij Hi Hj) as H.
    unfold level_before in H; simpl in H. lia.
  - intros i j x y Hij Hi Hj.
    pose proof (StronglySorted_lookup _ _ i j x y (Hsorted Sell) Hij Hi Hj) as H.
    unfold level_before in H; simpl in H. lia.
  - intros l Hl. apply elem_of_app in Hl as [Hl|Hl].
    + pose proof (Hne Buy) as H. unfold levels_nonempty in H.
      rewrite Forall_forall in H. specialize (H l Hl).
      unfold PriceLevel.empty in H. by apply N.eqb_neq.
    + pose proof (Hne Sell) as H. unfold levels_nonempty in H.
      rewrite Forall_forall in H. specialize (H l Hl).
      unfold PriceLevel.empty in H. by apply N.eqb_neq.
Qed.

Lemma sample_ops_well_typed : Forall well_typed_op sample_ops.
Proof.
  unfold sample_ops, well_typed_op, in_u64, in_u32, in_i64.
  repeat constructor; lia.
Qed.

Lemma sample_book_reachable : reachable sample_book.
Proof.
  apply reachable_run_ops; [unfold in_u32; lia|apply sample_ops_well_typed].
Qed.

Lemma one_bid_book_reachable : reachable one_bid_book.
Proof.
  apply reachable_run_ops; [unfold in_u32; lia|].
  unfold well_typed_op, in_u64, in_u32, in_i64. repeat constructor; lia.
Qed.

Lemma two_asks_book_reachable : reachable two_asks_book.
Proof.
  apply reachable_run_ops; [unfold in_u32; lia|].
  unfold well_typed_op, in_u64, in_u32, in_i64. repeat constructor; lia.
Qed.

Lemma full_book_reachable : reachable full_book.
Proof.
  apply reachable_run_ops; [unfold in_u32; lia|].
  unfold well_typed_op, in_u64, in_u32, in_i64. repeat constructor; lia.
Qed.

Lemma levels_sorted_and_nonempty_witness :
  reachable sample_book /\
  (forall i j x y, (i < j)%nat ->
     bids_ sample_book !! i = Some x -> bids_ sample_book !! j = Some y ->
     PriceLevel.price x > PriceLevel.price y) /\
  (forall i j x y, (i < j)%nat ->
     asks_ sample_book !! i = Some x -> asks_ sample_book !! j = Some y ->
     PriceLevel.price x < PriceLevel.price y) /\
  (forall l, l ∈ bids_ sample_book ++ asks_ sample_book ->
     PriceLevel.order_count l <> 0%N).
Proof.
  split; [exact sample_book_reachable|].
  apply (levels_sorted_and_nonempty sample_book). exact sample_book_reachable.
Defined.

(** C1 (as amended).  On every reachable book, [modify] answers Modified,
    Accepted, PartiallyFilled, FullyFilled or NotFound: a modification that
    re-enters the order returns the answer of the re-entry, which is
    Accepted when nothing matches; it is never Rejected or Cancelled. *)
Theorem modify_result_codes (b : OrderBook) (order_id : N) (new_qty new_price : Z) :
  reachable b ->
  OrderResponse.result (snd (modify b order_id new_qty new_price))
    ∈ [Modified; Accepted; PartiallyFilled; FullyFilled; NotFound].
Proof.
  intros Hr. destruct (reachable_Inv b Hr) as [[ch Hinv] Hne]. unfold modify.
  destruct (order_map_ b !! order_id) as [idx|] eqn:Hid; [|simpl; set_solver].
  destruct (remove_order_inv b ch order_id idx Hinv Hne Hid) as
    ([Hinv2 _] & Hfh & Hidx & Hnone & _).
  assert (Hre : forall tr s p,
    OrderResponse.result
      (snd (add_limit_internal
              (set_map (delete order_id (order_map_ (remove_order_internal b idx)))
                       (remove_order_internal b idx))
              order_id tr s p new_qty))
      ∈ [Modified; Accepted; PartiallyFilled; FullyFilled; NotFound]).
  { intros tr s p.
    pose proof (add_limit_internal_result _ order_id tr s p new_qty Hinv2 Hnone
                  ltac:(by rewrite Hfh)) as H.
    set_solver. }
  destruct (_ && _); [apply Hre|].
  destruct (new_qty <? _); [simpl; set_solver|apply Hre].
Qed.

Lemma modify_result_codes_witness :
  reachable one_bid_book /\
  OrderResponse.result (snd (modify one_bid_book 1 10 101))
    ∈ [Modified; Accepted; PartiallyFilled; FullyFilled; NotFound].
Proof.
  split; [exact one_bid_book_reachable|].
  apply (modify_result_codes one_bid_book 1 10 101). exact one_bid_book_reachable.
Defined.

(** C1 as stated fails: moving the only resting order to a new price
    re-enters it against an empty opposite side, and the answer is
    Accepted. *)
Lemma modify_returns_Accepted :
  ~ (OrderResponse.result (snd (modify one_bid_book 1 10 101))
       ∈ [Modified; PartiallyFilled; FullyFilled; NotFound]).
Proof.
  assert (H : OrderResponse.result (snd (modify one_bid_book 1 10 101)) = Accepted)
    by (vm_compute; reflexivity).
  rewrite H. intros Hin.
  repeat (apply elem_of_cons in Hin as [Hin|Hin]; [discriminate|]).
  by apply elem_of_nil in Hin.
Qed.

(** C3 fails on the code.  Reducing the only resting order to quantity 0
    through [modify] answers Modified and leaves the order linked at its
    level and present in the index with [qty_remaining = 0]; the next
    crossing order then trades a quantity of 0 against it. *)
Theorem modify_to_zero_keeps_order_linked :
  let b := fst (modify one_bid_book 1 0 0) in
  reachable b /\
  OrderResponse.result (snd (modify one_bid_book 1 0 0)) = Modified /\
  order_map_ b !! 1%N = Some 0%N /\
  bids_ b = [PriceLevel.mk 100 0 1 0 0] /\
  Order.qty_remaining (Pool.at_ (order_pool_ b) 0) = 0 /\
  Order.qty_original (Pool.at_ (order_pool_ b) 0) = 10 /\
  trades_since b (fst (add_limit b 2 1 Sell 100 5)) = [Trade.mk 1 2 0 1 100 0 Sell].
Proof.
  split.
  - apply (reachable_step one_bid_book (OpModify 1 0 0)).
    + exact one_bid_book_reachable.
    + unfold well_typed_op, in_u64, in_i64. lia.
  - vm_compute. repeat split; reflexivity.
Qed.

(** The same path with a negative quantity leaves [qty_remaining] below 0
    (a debug build stops at the assertion of [reduce_qty] instead). *)
Lemma modify_to_negative_keeps_order_linked :
  let b := fst (modify one_bid_book 1 (-5) 0) in
  order_map_ b !! 1%N = Some 0%N /\
  Order.qty_remaining (Pool.at_ (order_pool_ b) 0) = -5.
Proof. vm_compute. split; reflexivity. Qed.

(** C2 fails on the code.  An event rejected by the risk check leaves
    [events_processed] where it was and is counted in [rejected_count]
    only, so after two dequeued events, one of them rejected, the counter
    is 1. *)
Theorem rejected_event_is_not_counted :
  RiskChecker.check
    (RiskChecker.mk RiskConfig.default
       (Some (snd (Accounts.get_or_create (MatchingEngine.accounts_ small_engine)
                     0 1000000))))
    zero_qty_event = InvalidQty /\
  MatchingEngine.events_processed_
    (MatchingEngine.process_event small_engine zero_qty_event) = 0%N /\
  EngineStats.rejected_count
    (MatchingEngine.stats_
       (MatchingEngine.process_event small_engine zero_qty_event)) = 1%N /\
  MatchingEngine.events_processed_
    (MatchingEngine.run small_engine [good_event; zero_qty_event]) = 1%N.
Proof. vm_compute. repeat split; reflexivity. Qed.

(** What [process_event] does to the two counters, for every event. *)
Lemma process_event_counters (e : MatchingEngine.t) (event : OrderEvent.t) :
  let accounts1 :=
    if bool_decide (OrderEvent.type event = Cancel) then MatchingEngine.accounts_ e
    else snd (Accounts.get_or_create (MatchingEngine.accounts_ e)
                (OrderEvent.trader_id event)
                (EngineConfig.initial_balance (MatchingEngine.config_ e))) in
  let passed :=
    bool_decide
      (RiskChecker.check
         (RiskChecker.mk (EngineConfig.risk (MatchingEngine.config_ e))
                         (Some accounts1)) event = Passed) in
  MatchingEngine.events_processed_ (MatchingEngine.process_event e event) =
    (if passed then incr_u64 (MatchingEngine.events_processed_ e)
     else MatchingEngine.events_processed_ e) /\
  EngineStats.rejected_count
    (MatchingEngine.stats_ (MatchingEngine.process_event e event)) =
    (if passed
     then EngineStats.rejected_count (MatchingEngine.stats_ e)
     else incr_u64 (EngineStats.rejected_count (MatchingEngine.stats_ e))).
Proof.
  cbv zeta. unfold MatchingEngine.process_event.
  set (accounts1 := if bool_decide _ then _ else _).
  case_bool_decide as Hp; simpl.
  - destruct (MatchingEngine.dispatch _ _) as [book1 response].
    set (l := MatchingEngine.new_trades _ _).
    assert (Hrej : forall st,
      EngineStats.rejected_count (snd (fold_left MatchingEngine.on_trade l st)) =
      EngineStats.rejected_count (snd st)).
    { induction l as [|t l IH]; intros st; [done|]. simpl. by rewrite IH. }
    specialize (Hrej (accounts1, MatchingEngine.stats_ e)).
    destruct (fold_left _ _ _) as [accounts2 stats2]. simpl in *.
    split; [done|]. by destruct (_ && _).
  - done.
Qed.

Section MatchLog.
Variables (taker_order_id taker_trader_id : N) (side : Side).

Lemma incr_u64_times_S n c : incr_u64_times (S n) c = incr_u64 (incr_u64_times n c).
Proof. reflexivity. Qed.

Lemma add_volumes_snoc ts t v :
  add_volumes (ts ++ [t]) v = add_i64_to_u64 (add_volumes ts v) (Trade.qty t).
Proof. unfold add_volumes. by rewrite fold_left_app. Qed.

(** The trades of one call extend the log, and the counters advance by
    one step per trade. *)
Lemma match_order_log b price qty is_market :
  let st := match_order b taker_order_id taker_trader_id side price qty is_market in
  exists ts,
    trade_log_ (ms_book st) = trade_log_ b ++ ts /\
    ms_trades st = incr_u64_times (length ts) 0%N /\
    total_trades_ (ms_book st) = incr_u64_times (length ts) (total_trades_ b) /\
    total_volume_ (ms_book st) = add_volumes ts (total_volume_ b) /\
    Forall (fun t => Trade.taker_order_id t = taker_order_id /\
                     Trade.taker_trader_id t = taker_trader_id /\
                     Trade.taker_side t = side) ts.
Proof.
  cbv zeta.
  apply (match_order_ind taker_order_id taker_trader_id side
    (fun st => exists ts,
       trade_log_ (ms_book st) = trade_log_ b ++ ts /\
       ms_trades st = incr_u64_times (length ts) 0%N /\
       total_trades_ (ms_book st) = incr_u64_times (length ts) (total_trades_ b) /\
       total_volume_ (ms_book st) = add_volumes ts (total_volume_ b) /\
       Forall (fun t => Trade.taker_order_id t = taker_order_id /\
                        Trade.taker_trader_id t = taker_trader_id /\
                        Trade.taker_side t = side) ts)).
  - intros li st (ts & Hlog & Htr & Htt & Htv & Hall) _. unfold match_fill.
    destruct (levels_of (opposite side) (ms_book st) !! li) as [lvl|];
      [|by exists ts].
    set (t := Trade.mk _ _ _ _ _ _ _).
    exists (ts ++ [t]).
    assert (Hlen : length (ts ++ [t]) = S (length ts))
      by (rewrite length_app; simpl; lia).
    rewrite Hlen, !incr_u64_times_S, add_volumes_snoc.
    destruct (_ <=? 0).
    + destruct (PriceLevel.remove _ _ _) as [pool2 lvl2]. book_simpl.
      rewrite Hlog, Htr, Htt, Htv, app_assoc.
      repeat split; try done. apply Forall_app. split; [done|].
      apply Forall_singleton. done.
    + book_simpl. rewrite Hlog, Htr, Htt, Htv, app_assoc.
      repeat split; try done. apply Forall_app. split; [done|].
      apply Forall_singleton. done.
  - intros li st lvl (ts & Hlog & Htr & Htt & Htv & Hall) _ _.
    exists ts. by book_simpl.
  - exists []. simpl. by rewrite app_nil_r.
Qed.

Lemma match_order_no_levels b price qty is_market :
  levels_of (opposite side) b = [] ->
  match_order b taker_order_id taker_trader_id side price qty is_market
  = mkMatch b qty 0%N.
Proof. intros H. unfold match_order. rewrite H. simpl. by rewrite H. Qed.
End MatchLog.


(** C10 (as amended).  [add_market] answers FullyFilled exactly when the
    quantity left after matching is at most 0 and PartiallyFilled
    otherwise, never Accepted or Rejected; it rests nothing: the index and
    the live slots only shrink and the taker's own side is untouched.
    Against an empty opposite side nothing trades and the book is
    unchanged; the answer is then PartiallyFilled for a positive quantity
    and FullyFilled for a quantity of 0 or less. *)
Theorem add_market_result (b : OrderBook) (order_id trader_id : N) (side : Side) (qty : Z) :
  let st := match_order b order_id trader_id side 0 qty true in
  let b' := fst (add_market b order_id trader_id side qty) in
  let r := snd (add_market b order_id trader_id side qty) in
  OrderResponse.qty_remaining r = ms_remaining st /\
  (OrderResponse.result r = FullyFilled <-> ms_remaining st <= 0) /\
  (OrderResponse.result r = PartiallyFilled <-> ms_remaining st > 0) /\
  OrderResponse.result r <> Accepted /\
  OrderResponse.result r <> Rejected /\
  (forall id i, order_map_ b' !! id = Some i -> order_map_ b !! id = Some i) /\
  (forall j, slot_live (order_pool_ b') j -> slot_live (order_pool_ b) j) /\
  levels_of side b' = levels_of side b /\
  (levels_of (opposite side) b = [] ->
     b' = b /\
     OrderResponse.qty_filled r = 0 /\ OrderResponse.trade_count r = 0%N /\
     (0 < qty -> OrderResponse.result r = PartiallyFilled) /\
     (qty <= 0 -> OrderResponse.result r = FullyFilled)).
Proof.
  cbv zeta. unfold add_market. simpl.
  split; [done|].
  split; [destruct (Z.leb_spec (ms_remaining (match_order b order_id trader_id side 0 qty true)) 0);
          split; intros; try done; try lia|].
  split; [destruct (Z.leb_spec (ms_remaining (match_order b order_id trader_id side 0 qty true)) 0);
          split; intros; try done; try lia|].
  split; [by destruct (_ <=? 0)|]. split; [by destruct (_ <=? 0)|].
  split; [intros id i; apply match_order_map_sub|].
  split; [intros j; apply match_order_live|].
  split; [apply match_order_own_side|].
  intros Hempty. rewrite (match_order_no_levels _ _ _ _ _ _ _ Hempty). simpl.
  split; [done|]. split; [by rewrite Z.sub_diag|]. split; [done|].
  split; intros Hq.
  - destruct (Z.leb_spec qty 0); [lia|done].
  - destruct (Z.leb_spec qty 0); [done|lia].
Qed.

Lemma add_market_result_witness :
  levels_of (opposite Buy) one_bid_book = [] /\
  0 < 5 /\
  OrderResponse.result (snd (add_market one_bid_book 2 1 Buy 5)) = PartiallyFilled /\
  OrderResponse.qty_filled (snd (add_market one_bid_book 2 1 Buy 5)) = 0 /\
  OrderResponse.trade_count (snd (add_market one_bid_book 2 1 Buy 5)) = 0%N.
Proof.
  pose proof (add_market_result one_bid_book 2 1 Buy 5) as H. cbv zeta in H.
  destruct H as (_ & _ & _ & _ & _ & _ & _ & _ & H).
  assert (He : levels_of (opposite Buy) one_bid_book = []) by reflexivity.
  destruct (H He) as (_ & Hf & Ht & Hp & _).
  split; [exact He|]. split; [lia|]. split; [apply Hp; lia|]. split; assumption.
Defined.

(** C10 as stated fails for a market order of quantity 0 against an empty
    opposite side: the answer is FullyFilled. *)
Lemma add_market_zero_qty_is_FullyFilled :
  levels_of (opposite Buy) (OrderBook_new 4) = [] /\
  OrderResponse.result (snd (add_market (OrderBook_new 4) 1 0 Buy 0)) = FullyFilled /\
  ~ (OrderResponse.result (snd (add_market (OrderBook_new 4) 1 0 Buy 0))
     = PartiallyFilled).
Proof.
  split; [reflexivity|].
  assert (H : OrderResponse.result (snd (add_market (OrderBook_new 4) 1 0 Buy 0))
              = FullyFilled) by (vm_compute; reflexivity).
  split; [exact H|]. rewrite H. discriminate.
Qed.


(** C9 (as amended).  [check] passes every Cancel; for any other event,
    provided price times quantity fits in 64 bits, it reports the first
    failing check in the order price (limit and modify events only),
    quantity, order value, balance (when enabled, with an account table,
    for buys).  A zero quantity is reported as InvalidQty when the price
    check passes or is skipped, and a price equal to [min_price] or
    [max_price] passes the price check when [min_price <= max_price]. *)
Theorem risk_check_in_order (rc : RiskChecker.t) (ev : OrderEvent.t) :
  in_i64 (OrderEvent.price ev * OrderEvent.qty ev) ->
  RiskChecker.check rc ev = check_spec rc ev /\
  (OrderEvent.type ev = Cancel -> RiskChecker.check rc ev = Passed) /\
  (OrderEvent.type ev <> Cancel -> OrderEvent.qty ev = 0 ->
   price_check_fails (RiskChecker.config_ rc) ev = false ->
   RiskChecker.check rc ev = InvalidQty) /\
  (OrderEvent.type ev <> Cancel ->
   RiskConfig.min_price (RiskChecker.config_ rc)
     <= RiskConfig.max_price (RiskChecker.config_ rc) ->
   OrderEvent.price ev = RiskConfig.min_price (RiskChecker.config_ rc) \/
   OrderEvent.price ev = RiskConfig.max_price (RiskChecker.config_ rc) ->
   price_check_fails (RiskChecker.config_ rc) ev = false /\
   RiskChecker.check rc ev <> InvalidPrice).
Proof.
  intros Hfit.
  assert (Hspec : RiskChecker.check rc ev = check_spec rc ev).
  { unfold RiskChecker.check, check_spec, checks_in_order, first_failing,
      price_check_fails, qty_check_fails, value_check_fails, balance_check_fails.
    rewrite (wrap_i64_id _ Hfit).
    case_bool_decide as Hc; [done|].
    assert (Hprice :
      (bool_decide (OrderEvent.type ev = NewLimit)
       || bool_decide (OrderEvent.type ev = Modify))
      && ((OrderEvent.price ev <? RiskConfig.min_price (RiskChecker.config_ rc))
          || (OrderEvent.price ev >? RiskConfig.max_price (RiskChecker.config_ rc)))
      = negb (bool_decide (OrderEvent.type ev = NewMarket))
        && negb ((RiskConfig.min_price (RiskChecker.config_ rc) <=? OrderEvent.price ev)
                 && (OrderEvent.price ev <=? RiskConfig.max_price (RiskChecker.config_ rc)))).
    { destruct (OrderEvent.type ev); try done; repeat case_bool_decide; try done; simpl;
        destruct (Z.ltb_spec (OrderEvent.price ev) (RiskConfig.min_price (RiskChecker.config_ rc)));
        destruct (Z.leb_spec (RiskConfig.min_price (RiskChecker.config_ rc)) (OrderEvent.price ev));
        destruct (Z.gtb_spec (OrderEvent.price ev) (RiskConfig.max_price (RiskChecker.config_ rc)));
        destruct (Z.leb_spec (OrderEvent.price ev) (RiskConfig.max_price (RiskChecker.config_ rc)));
        simpl; try done; lia. }
    rewrite Hprice. destruct (negb _ && negb _); [done|].
    assert (Hqty :
      (OrderEvent.qty ev <=? 0)
      || (OrderEvent.qty ev >? RiskConfig.max_order_qty (RiskChecker.config_ rc))
      = negb ((0 <? OrderEvent.qty ev)
              && (OrderEvent.qty ev <=? RiskConfig.max_order_qty (RiskChecker.config_ rc)))).
    { destruct (Z.leb_spec (OrderEvent.qty ev) 0);
        destruct (Z.ltb_spec 0 (OrderEvent.qty ev));
        destruct (Z.gtb_spec (OrderEvent.qty ev) (RiskConfig.max_order_qty (RiskChecker.config_ rc)));
        destruct (Z.leb_spec (OrderEvent.qty ev) (RiskConfig.max_order_qty (RiskChecker.config_ rc)));
        simpl; try done; lia. }
    rewrite Hqty. destruct (negb (_ && _)); [done|].
    assert (Hval :
      (OrderEvent.price ev * OrderEvent.qty ev
         >? RiskConfig.max_order_value (RiskChecker.config_ rc))
      = negb (OrderEvent.price ev * OrderEvent.qty ev
                <=? RiskConfig.max_order_value (RiskChecker.config_ rc))).
    { destruct (Z.gtb_spec (OrderEvent.price ev * OrderEvent.qty ev)
                           (RiskConfig.max_order_value (RiskChecker.config_ rc)));
        destruct (Z.leb_spec (OrderEvent.price ev * OrderEvent.qty ev)
                             (RiskConfig.max_order_value (RiskChecker.config_ rc)));
        simpl; try done; lia. }
    rewrite Hval. destruct (negb _); [done|].
    destruct (RiskChecker.accounts_ rc); [|done].
    by destruct (_ && _ && _). }
  split; [exact Hspec|]. split; [|split].
  - intros Hc. unfold RiskChecker.check. by rewrite bool_decide_eq_true_2.
  - intros Hc Hq Hp. rewrite Hspec. unfold check_spec.
    rewrite bool_decide_eq_false_2 by done.
    unfold checks_in_order, first_failing. rewrite Hp.
    unfold qty_check_fails. rewrite Hq. reflexivity.
  - intros Hc Hmm Hpr.
    assert (Hp : price_check_fails (RiskChecker.config_ rc) ev = false).
    { unfold price_check_fails. apply andb_false_iff. right.
      apply negb_false_iff, andb_true_iff.
      split; apply Z.leb_le; destruct Hpr as [-> | ->]; lia. }
    split; [exact Hp|]. rewrite Hspec. unfold check_spec.
    rewrite bool_decide_eq_false_2 by done.
    unfold checks_in_order, first_failing. rewrite Hp.
    repeat (match goal with |- context [if ?c then _ else _] => destruct c end);
      discriminate.
Qed.

Lemma risk_check_in_order_witness :
  in_i64 (OrderEvent.price (OrderEvent.new_limit 1 0 Buy 1 0)
          * OrderEvent.qty (OrderEvent.new_limit 1 0 Buy 1 0)) /\
  RiskChecker.check default_checker (OrderEvent.new_limit 1 0 Buy 1 0) = InvalidQty.
Proof.
  assert (Hfit : in_i64 (OrderEvent.price (OrderEvent.new_limit 1 0 Buy 1 0)
                         * OrderEvent.qty (OrderEvent.new_limit 1 0 Buy 1 0)))
    by (unfold in_i64; simpl; lia).
  split; [exact Hfit|].
  destruct (risk_check_in_order default_checker (OrderEvent.new_limit 1 0 Buy 1 0) Hfit)
    as (_ & _ & Hzero & _).
  apply Hzero; [discriminate|reflexivity|reflexivity].
Defined.

(** C9 as stated fails for a zero-quantity limit event whose price is
    below [min_price]: the price check comes first and the answer is
    InvalidPrice. *)
Lemma zero_qty_bad_price_is_InvalidPrice :
  OrderEvent.type (OrderEvent.new_limit 1 0 Buy 0 0) <> Cancel /\
  OrderEvent.qty (OrderEvent.new_limit 1 0 Buy 0 0) = 0 /\
  RiskChecker.check default_checker (OrderEvent.new_limit 1 0 Buy 0 0) = InvalidPrice /\
  ~ (RiskChecker.check default_checker (OrderEvent.new_limit 1 0 Buy 0 0) = InvalidQty).
Proof.
  split; [discriminate|]. split; [reflexivity|].
  assert (H : RiskChecker.check default_checker (OrderEvent.new_limit 1 0 Buy 0 0)
              = InvalidPrice) by (vm_compute; reflexivity).
  split; [exact H|]. rewrite H. discriminate.
Qed.

(* ===================================================================== *)
(** ** The account table *)
(* ===================================================================== *)

Section AccountFacts.
Implicit Types (accs : Accounts.t) (l : list Account.t) (f : Account.t -> Account.t).

Lemma find_from_lookup l id pos i :
  Accounts.find_from l id pos = Some i ->
  exists a, (pos <= i)%nat /\ l !! (i - pos)%nat = Some a /\ Account.trader_id a = id.
Proof.
  revert pos. induction l as [|a l IH]; intros pos; simpl; [done|].
  destruct (N.eqb_spec (Account.trader_id a) id) as [He|Hne].
  - intros [= <-]. exists a. rewrite Nat.sub_diag. done.
  - intros H. destruct (IH _ H) as (a' & Hle & Hl & Hid).
    exists a'. split; [lia|]. split; [|done].
    replace (i - pos)%nat with (S (i - S pos)) by lia. done.
Qed.

Lemma find_from_alter l id pos k f :
  keeps_trader f ->
  Accounts.find_from (alter f k l) id pos = Accounts.find_from l id pos.
Proof.
  intros Hf. revert pos k. induction l as [|a l IH]; intros pos k; [done|].
  destruct k as [|k]; simpl.
  - by rewrite Hf.
  - destruct (_ =? _)%N; [done|]. apply IH.
Qed.

Lemma get_update accs k f id :
  keeps_trader f -> Accounts.get (Accounts.update accs k f) id = Accounts.get accs id.
Proof. intros Hf. unfold Accounts.get, Accounts.update; simpl. by apply find_from_alter. Qed.

Lemma get_lookup accs id i :
  Accounts.get accs id = Some i ->
  exists a, Accounts.accounts_ accs !! i = Some a /\ Account.trader_id a = id.
Proof.
  intros H. apply find_from_lookup in H as (a & _ & Hl & Hid).
  rewrite Nat.sub_0_r in Hl. eauto.
Qed.

Lemma get_injective accs id1 id2 i :
  Accounts.get accs id1 = Some i -> Accounts.get accs id2 = Some i -> id1 = id2.
Proof.
  intros H1 H2. apply get_lookup in H1 as (a1 & Hl1 & <-).
  apply get_lookup in H2 as (a2 & Hl2 & <-). congruence.
Qed.

Lemma wrap_i64_add_l a c : wrap_i64 (wrap_i64 a + c) = wrap_i64 (a + c).
Proof.
  unfold wrap_i64. f_equal.
  replace ((a + 2 ^ 63) mod 2 ^ 64 - 2 ^ 63 + c + 2 ^ 63)
    with ((a + 2 ^ 63) mod 2 ^ 64 + c) by lia.
  rewrite Z.add_mod_idemp_l by lia. f_equal. lia.
Qed.

Lemma wrap_i64_sub_l a c : wrap_i64 (wrap_i64 a - c) = wrap_i64 (a - c).
Proof. unfold Z.sub. apply wrap_i64_add_l. Qed.

(** Two wrapped updates by opposite amounts change the sum by a multiple
    of 2^64. *)
Lemma wrap_i64_pair_mod x y x0 y0 :
  x + y = x0 + y0 ->
  (wrap_i64 x - x0 + (wrap_i64 y - y0)) mod 2 ^ 64 = 0.
Proof.
  intros Hsum. unfold wrap_i64.
  rewrite (Z.mod_eq (x + 2 ^ 63) (2 ^ 64)), (Z.mod_eq (y + 2 ^ 63) (2 ^ 64)) by lia.
  replace (x + 2 ^ 63 - 2 ^ 64 * ((x + 2 ^ 63) / 2 ^ 64) - 2 ^ 63 - x0 +
           (y + 2 ^ 63 - 2 ^ 64 * ((y + 2 ^ 63) / 2 ^ 64) - 2 ^ 63 - y0))
    with (0 + (- ((x + 2 ^ 63) / 2 ^ 64) - ((y + 2 ^ 63) / 2 ^ 64)) * 2 ^ 64) by lia.
  by rewrite Z_mod_plus_full.
Qed.
End AccountFacts.

(** C8 (as amended).  For a trade applied between two existing accounts
    whose balances and positions are 64-bit values, with price times
    quantity fitting in 64 bits: the two balance changes sum to zero
    modulo 2^64 and so do the two position changes; both sums are exactly
    zero when no update overflows or when maker and taker are the same
    account.  When maker and taker are different accounts and no update
    overflows, the taker's balance falls by price times quantity and its
    position rises by the quantity for a buying taker (the reverse for a
    selling taker) and the maker's move the opposite way.  When maker and
    taker are the same account the four updates cancel and the trade
    leaves its balance and position unchanged. *)
Theorem apply_trade_conserves (accs : Accounts.t) (maker_id taker_id : N)
    (taker_side : Side) (price qty : Z) :
  accounts_well_typed accs ->
  is_Some (Accounts.get accs maker_id) ->
  is_Some (Accounts.get accs taker_id) ->
  in_i64 (price * qty) ->
  let accs' := Accounts.apply_trade accs maker_id taker_id taker_side price qty in
  let d_balance id := Accounts.get_balance accs' id - Accounts.get_balance accs id in
  let d_position id := Accounts.get_position accs' id - Accounts.get_position accs id in
  (maker_id <> taker_id ->
   trade_fits accs maker_id taker_id taker_side price qty ->
   d_balance taker_id = - side_sign taker_side * (price * qty) /\
   d_position taker_id = side_sign taker_side * qty /\
   d_balance maker_id = side_sign taker_side * (price * qty) /\
   d_position maker_id = - side_sign taker_side * qty) /\
  (maker_id = taker_id \/ trade_fits accs maker_id taker_id taker_side price qty ->
   d_balance taker_id + d_balance maker_id = 0 /\
   d_position taker_id + d_position maker_id = 0) /\
  (maker_id = taker_id -> d_balance taker_id = 0 /\ d_position taker_id = 0) /\
  ((d_balance taker_id + d_balance maker_id) mod 2 ^ 64 = 0 /\
   (d_position taker_id + d_position maker_id) mod 2 ^ 64 = 0).
Proof.
  intros Hwt [mi Hm] [ti Ht] Hn. cbv zeta.
  destruct (get_lookup accs maker_id mi Hm) as (m & Hlm & Hidm).
  destruct (get_lookup accs taker_id ti Ht) as (t & Hlt & Hidt).
  unfold accounts_well_typed in Hwt. rewrite Forall_lookup in Hwt.
  destruct (Hwt mi m Hlm) as [Hmb Hmp]. destruct (Hwt ti t Hlt) as [Htb Htp].
  assert (Hgb : forall id i a, Accounts.get accs id = Some i ->
            Accounts.accounts_ accs !! i = Some a ->
            Accounts.get_balance accs id = Account.balance a /\
            Accounts.get_position accs id = Account.position a).
  { intros id i a Hg Hl. unfold Accounts.get_balance, Accounts.get_position.
    rewrite Hg, Hl. done. }
  destruct (Hgb _ _ _ Hm Hlm) as [Hbm Hpm]. destruct (Hgb _ _ _ Ht Hlt) as [Hbt Hpt].
  set (accs' := Accounts.apply_trade accs maker_id taker_id taker_side price qty).
  assert (Hget' : forall id, Accounts.get accs' id = Accounts.get accs id).
  { intros id. unfold accs', Accounts.apply_trade. rewrite Hm, Ht.
    destruct taker_side; rewrite !get_update; try done; intros a; reflexivity. }
  assert (Hdistinct : maker_id <> taker_id -> mi <> ti).
  { intros Hne ->. apply Hne. by eapply get_injective. }
  assert (Hsame : maker_id = taker_id -> mi = ti) by (intros ->; congruence).
  assert (Hval : forall id i, Accounts.get accs id = Some i ->
            Accounts.get_balance accs' id =
              default 0 (Account.balance <$> Accounts.accounts_ accs' !! i) /\
            Accounts.get_position accs' id =
              default 0 (Account.position <$> Accounts.accounts_ accs' !! i)).
  { intros id i Hg. unfold Accounts.get_balance, Accounts.get_position.
    rewrite Hget', Hg. done. }
  destruct (Hval _ _ Hm) as [Hbm' Hpm']. destruct (Hval _ _ Ht) as [Hbt' Hpt'].
  assert (Hcase_ne : mi <> ti ->
    trade_fits accs maker_id taker_id taker_side price qty ->
    Accounts.get_balance accs' taker_id
      = Account.balance t - side_sign taker_side * (price * qty) /\
    Accounts.get_position accs' taker_id
      = Account.position t + side_sign taker_side * qty /\
    Accounts.get_balance accs' maker_id
      = Account.balance m + side_sign taker_side * (price * qty) /\
    Accounts.get_position accs' maker_id
      = Account.position m - side_sign taker_side * qty).
  { intros Hne (F1 & F2 & F3 & F4). rewrite Hbt, Hpt, Hbm, Hpm in *.
    rewrite Hbt', Hpt', Hbm', Hpm'.
    unfold accs', Accounts.apply_trade. rewrite Hm, Ht.
    rewrite (wrap_i64_id _ Hn).
    destruct taker_side; unfold Accounts.update; simpl Accounts.accounts_;
      rewrite !list_lookup_alter; repeat case_decide; try congruence;
      rewrite ?Hlt, ?Hlm; simpl in *;
      rewrite !wrap_i64_id; try done; repeat split; try lia;
      unfold in_i64 in *; lia. }
  assert (Hcase_eq : mi = ti ->
    Accounts.get_balance accs' taker_id = Account.balance t /\
    Accounts.get_position accs' taker_id = Account.position t).
  { intros ->. assert (m = t) as -> by congruence.
    rewrite Hbt', Hpt'. unfold accs', Accounts.apply_trade. rewrite Hm, Ht.
    destruct taker_side; unfold Accounts.update; simpl Accounts.accounts_;
      rewrite !list_lookup_alter; repeat case_decide; try congruence;
      rewrite Hlt; simpl; rewrite ?wrap_i64_add_l, ?wrap_i64_sub_l;
      (split;
       [transitivity (wrap_i64 (Account.balance t));
          [f_equal; lia|by apply wrap_i64_id]
       |transitivity (wrap_i64 (Account.position t));
          [f_equal; lia|by apply wrap_i64_id]]). }
  assert (Hcase_wrap : mi <> ti ->
    Accounts.get_balance accs' taker_id
      = wrap_i64 (Account.balance t - side_sign taker_side * (price * qty)) /\
    Accounts.get_position accs' taker_id
      = wrap_i64 (Account.position t + side_sign taker_side * qty) /\
    Accounts.get_balance accs' maker_id
      = wrap_i64 (Account.balance m + side_sign taker_side * (price * qty)) /\
    Accounts.get_position accs' maker_id
      = wrap_i64 (Account.position m - side_sign taker_side * qty)).
  { intros Hne. rewrite Hbt', Hpt', Hbm', Hpm'.
    unfold accs', Accounts.apply_trade. rewrite Hm, Ht.
    rewrite (wrap_i64_id _ Hn).
    destruct taker_side; unfold Accounts.update; simpl Accounts.accounts_;
      rewrite !list_lookup_alter; repeat case_decide; try congruence;
      rewrite ?Hlt, ?Hlm; simpl; repeat split; f_equal; lia. }
  split; [|split; [|split]].
  4: { destruct (decide (mi = ti)) as [Heq|Hne].
       - assert (Hid : maker_id = taker_id).
         { rewrite Heq in Hm. by eapply get_injective. }
         destruct (Hcase_eq Heq) as [E1 E2].
         rewrite ?Hid. rewrite E1, E2, Hbt, Hpt.
         rewrite !Z.sub_diag. done.
       - destruct (Hcase_wrap Hne) as (E1 & E2 & E3 & E4).
         rewrite E1, E2, E3, E4, Hbt, Hpt, Hbm, Hpm.
         split; apply wrap_i64_pair_mod; lia. }
  - intros Hne Hfit. destruct (Hcase_ne (Hdistinct Hne) Hfit) as (E1 & E2 & E3 & E4).
    rewrite E1, E2, E3, E4, Hbt, Hpt, Hbm, Hpm.
    unfold side_sign; destruct taker_side; repeat split; lia.
  - intros [Heq|Hfit].
    + destruct (Hcase_eq (Hsame Heq)) as [E1 E2].
      rewrite ?Heq. rewrite E1, E2, Hbt, Hpt. lia.
    + destruct (decide (mi = ti)) as [Heq|Hne].
      * assert (Hid : maker_id = taker_id).
        { rewrite Heq in Hm. by eapply get_injective. }
        destruct (Hcase_eq Heq) as [E1 E2].
        rewrite ?Hid. rewrite E1, E2, Hbt, Hpt. lia.
      * destruct (Hcase_ne Hne Hfit) as (E1 & E2 & E3 & E4).
        rewrite E1, E2, E3, E4, Hbt, Hpt, Hbm, Hpm.
        unfold side_sign; destruct taker_side; lia.
  - intros Heq. destruct (Hcase_eq (Hsame Heq)) as [E1 E2].
    rewrite E1, E2, Hbt, Hpt. lia.
Qed.

(** The statement of [apply_trade_conserves] at a trade of one unit at
    100 between the two traders of [two_accounts]. *)
Lemma apply_trade_conserves_witness :
  let accs' := Accounts.apply_trade two_accounts 7 9 Buy 100 1 in
  (Accounts.get_balance accs' 9 - Accounts.get_balance two_accounts 9
     = - side_sign Buy * (100 * 1) /\
   Accounts.get_position accs' 9 - Accounts.get_position two_accounts 9
     = side_sign Buy * 1 /\
   Accounts.get_balance accs' 7 - Accounts.get_balance two_accounts 7
     = side_sign Buy * (100 * 1) /\
   Accounts.get_position accs' 7 - Accounts.get_position two_accounts 7
     = - side_sign Buy * 1) /\
  (Accounts.get_balance accs' 9 - Accounts.get_balance two_accounts 9)
    + (Accounts.get_balance accs' 7 - Accounts.get_balance two_accounts 7) = 0 /\
  (Accounts.get_position accs' 9 - Accounts.get_position two_accounts 9)
    + (Accounts.get_position accs' 7 - Accounts.get_position two_accounts 7) = 0.
Proof.
  assert (Hwt : accounts_well_typed two_accounts).
  { unfold accounts_well_typed, two_accounts, in_i64. simpl.
    repeat constructor; simpl; lia. }
  assert (Hm : is_Some (Accounts.get two_accounts 7)) by (vm_compute; eauto).
  assert (Ht : is_Some (Accounts.get two_accounts 9)) by (vm_compute; eauto).
  assert (Hn : in_i64 (100 * 1)) by (unfold in_i64; lia).
  assert (Hfit : trade_fits two_accounts 7 9 Buy 100 1).
  { unfold trade_fits, in_i64. vm_compute. repeat split; intros; discriminate. }
  destruct (apply_trade_conserves two_accounts 7 9 Buy 100 1 Hwt Hm Ht Hn)
    as (Hexact & Hcons & _).
  intros accs'. split.
  - apply Hexact; [lia|exact Hfit].
  - apply Hcons. right. exact Hfit.
Defined.

(** C8 as stated fails for a trade of an account with itself: maker and
    taker are the same account, the four updates cancel, and the taker's
    balance does not fall by the notional although it is the buyer.  It
    also fails between two accounts when an update wraps: a buyer whose
    balance is 5 above the least 64-bit value pays 10, its balance wraps
    to 5 below the greatest one, and the two balance changes sum to 2^64,
    not to zero. *)
Lemma self_trade_leaves_balance :
  is_Some (Accounts.get two_accounts 7) /\
  (let accs' := Accounts.apply_trade two_accounts 7 7 Buy 100 1 in
   Accounts.get_balance accs' 7 = 1000 /\
   Accounts.get_position accs' 7 = 0 /\
   ~ (Accounts.get_balance accs' 7 - Accounts.get_balance two_accounts 7
        = - (100 * 1)) /\
   ~ (Accounts.get_position accs' 7 - Accounts.get_position two_accounts 7 = 1)) /\
  (let accs := Accounts.mk [Account.make 7 1000; Account.make 9 (- 2 ^ 63 + 5)] 8 in
   let accs' := Accounts.apply_trade accs 7 9 Buy 10 1 in
   Accounts.get_balance accs' 7 = 1010 /\
   Accounts.get_balance accs' 9 = 2 ^ 63 - 5 /\
   (Accounts.get_balance accs' 9 - Accounts.get_balance accs 9)
   + (Accounts.get_balance accs' 7 - Accounts.get_balance accs 7) = 2 ^ 64 /\
   ~ ((Accounts.get_balance accs' 9 - Accounts.get_balance accs 9)
      + (Accounts.get_balance accs' 7 - Accounts.get_balance accs 7) = 0)).
Proof.
  split; [vm_compute; eauto|]. split.
  - vm_compute. repeat split; intros; discriminate.
  - vm_compute. repeat split; intros; discriminate.
Qed.

(* ===================================================================== *)
(** ** What one fill changes *)
(* ===================================================================== *)

Section FillFacts.
Variables (taker_order_id taker_trader_id : N) (side : Side).

Local Abbreviation ms := (opposite side).
Local Abbreviation fill_of := (match_fill taker_order_id taker_trader_id side).

Lemma update_ident p i f j :
  keeps_ident f -> ident (Pool.at_ (Pool.update p i f) j) = ident (Pool.at_ p j).
Proof. intros Hf. apply same_slots_ident. by apply same_slots_update. Qed.

Lemma update_qty p i f j :
  (forall o, Order.qty_remaining (f o) = Order.qty_remaining o) ->
  Order.qty_remaining (Pool.at_ (Pool.update p i f) j)
  = Order.qty_remaining (Pool.at_ p j).
Proof.
  intros Hf. unfold Pool.at_. rewrite update_entry_at.
  case_decide as Hij; [|done]. subst j. simpl.
  unfold Pool.entry_at.
  destruct (Pool.storage_ p !! i) as [e|] eqn:He; simpl; [|done].
  rewrite Hf. unfold Pool.at_, Pool.entry_at. by rewrite He.
Qed.

(** Unlinking an order rewrites links only. *)
Lemma remove_ident p l i j :
  ident (Pool.at_ (PriceLevel.remove p l i).1 j) = ident (Pool.at_ p j).
Proof.
  unfold PriceLevel.remove. cbn [fst].
  repeat match goal with
         | |- context [Pool.update _ _ (Order.set_next_idx ?n)] =>
             rewrite (update_ident _ _ (Order.set_next_idx n))
               by apply keeps_ident_set_next
         | |- context [Pool.update _ _ (Order.set_prev_idx ?n)] =>
             rewrite (update_ident _ _ (Order.set_prev_idx n))
               by apply keeps_ident_set_prev
         | |- context [if ?c then _ else _] => destruct c
         end; done.
Qed.

Lemma remove_qty p l i j :
  Order.qty_remaining (Pool.at_ (PriceLevel.remove p l i).1 j)
  = Order.qty_remaining (Pool.at_ p j).
Proof.
  unfold PriceLevel.remove. cbn [fst].
  repeat match goal with
         | |- context [Pool.update _ _ (Order.set_next_idx ?n)] =>
             rewrite (update_qty _ _ (Order.set_next_idx n)) by done
         | |- context [Pool.update _ _ (Order.set_prev_idx ?n)] =>
             rewrite (update_qty _ _ (Order.set_prev_idx n)) by done
         | |- context [if ?c then _ else _] => destruct c
         end; done.
Qed.

(** A fill leaves the identity of every order alone. *)
Lemma match_fill_ident li st j :
  ident (Pool.at_ (order_pool_ (ms_book (fill_of li st))) j)
  = ident (Pool.at_ (order_pool_ (ms_book st)) j).
Proof.
  unfold match_fill.
  destruct (levels_of ms (ms_book st) !! li) as [lvl|]; [|done].
  set (pool1 := Pool.update _ _ _).
  assert (H1 : ident (Pool.at_ pool1 j) = ident (Pool.at_ (order_pool_ (ms_book st)) j)).
  { unfold pool1. apply update_ident. intros o. reflexivity. }
  destruct (_ <=? 0).
  - destruct (PriceLevel.remove pool1 _ _) as [pool2 lvl2] eqn:Hrm. book_simpl.
    rewrite deallocate_at.
    replace pool2 with (PriceLevel.remove pool1
      (PriceLevel.reduce_qty lvl
         (Z.min (ms_remaining st)
            (Order.qty_remaining
               (Pool.at_ (order_pool_ (ms_book st)) (PriceLevel.front_idx lvl)))))
      (PriceLevel.front_idx lvl)).1 by (by rewrite Hrm).
    by rewrite remove_ident.
  - by book_simpl.
Qed.

(** A fill changes the quantity of the head order only. *)
Lemma match_fill_qty_other li st lvl j :
  levels_of ms (ms_book st) !! li = Some lvl ->
  j <> PriceLevel.head_idx lvl ->
  Order.qty_remaining (Pool.at_ (order_pool_ (ms_book (fill_of li st))) j)
  = Order.qty_remaining (Pool.at_ (order_pool_ (ms_book st)) j).
Proof.
  intros Hl Hj. unfold match_fill. rewrite Hl. unfold PriceLevel.front_idx.
  set (pool1 := Pool.update _ _ _).
  assert (H1 : Order.qty_remaining (Pool.at_ pool1 j)
               = Order.qty_remaining (Pool.at_ (order_pool_ (ms_book st)) j)).
  { unfold pool1. by rewrite update_at_ne. }
  destruct (_ <=? 0).
  - destruct (PriceLevel.remove pool1 _ _) as [pool2 lvl2] eqn:Hrm. book_simpl.
    rewrite deallocate_at.
    replace pool2 with (PriceLevel.remove pool1
      (PriceLevel.reduce_qty lvl
         (Z.min (ms_remaining st)
            (Order.qty_remaining
               (Pool.at_ (order_pool_ (ms_book st)) (PriceLevel.head_idx lvl)))))
      (PriceLevel.head_idx lvl)).1 by (by rewrite Hrm).
    by rewrite remove_qty.
  - by book_simpl.
Qed.

(** A fill hands exactly one trade to the observer: against the head
    order of the level, at that order's price, for the smaller of the
    two quantities. *)
Lemma match_fill_log li st lvl :
  levels_of ms (ms_book st) !! li = Some lvl ->
  let maker := Pool.at_ (order_pool_ (ms_book st)) (PriceLevel.head_idx lvl) in
  let fill_qty := Z.min (ms_remaining st) (Order.qty_remaining maker) in
  trade_log_ (ms_book (fill_of li st))
  = trade_log_ (ms_book st)
    ++ [Trade.mk (Order.order_id maker) taker_order_id
                 (Order.trader_id maker) taker_trader_id
                 (Order.price maker) fill_qty side] /\
  ms_remaining (fill_of li st) = wrap_i64 (ms_remaining st - fill_qty) /\
  ms_trades (fill_of li st) = incr_u64 (ms_trades st).
Proof.
  intros Hl. cbv zeta. unfold match_fill. rewrite Hl. unfold PriceLevel.front_idx.
  destruct (_ <=? 0).
  - destruct (PriceLevel.remove _ _ _) as [pool2 lvl2]. by book_simpl.
  - by book_simpl.
Qed.
End FillFacts.

(* ===================================================================== *)
(** ** The loops leave through their own tests *)
(* ===================================================================== *)

Section MatchExit.
Variables (taker_order_id taker_trader_id : N) (side : Side).

Local Abbreviation ms := (opposite side).
Local Abbreviation fill_of := (match_fill taker_order_id taker_trader_id side).

Lemma match_level_stops_exhausted li st :
  ms_remaining st <= 0 -> match_level_continues side li st = false.
Proof.
  intros H. unfold match_level_continues.
  destruct (levels_of ms (ms_book st) !! li); [|done].
  destruct (Z.gtb_spec (ms_remaining st) 0); [lia|done].
Qed.

Lemma match_level_stops_nonempty li st lvl :
  match_level_continues side li st = false ->
  levels_of ms (ms_book st) !! li = Some lvl ->
  PriceLevel.empty lvl = false ->
  ms_remaining st <= 0.
Proof.
  unfold match_level_continues. intros H Hl He. rewrite Hl, He in H.
  simpl in H. rewrite andb_true_r in H.
  destruct (Z.gtb_spec (ms_remaining st) 0); [done|lia].
Qed.

(** Every fill exhausts the taker or shortens the level by one order:
    with more passes than the level has orders, the inner loop ends
    because its test fails. *)
Lemma match_level_loop_exits li fuel st :
  (exists ch, book_inv (ms_book st) ch) ->
  (ms_remaining st <= 0 \/
   forall lvl, levels_of ms (ms_book st) !! li = Some lvl ->
               (N.to_nat (PriceLevel.order_count lvl) < fuel)%nat) ->
  match_level_continues side li
    (match_level_loop fuel taker_order_id taker_trader_id side li st) = false.
Proof.
  revert st. induction fuel as [|fuel IH]; intros st [ch Hinv] Hm; simpl.
  - destruct Hm as [Hr|Hc]; [by apply match_level_stops_exhausted|].
    unfold match_level_continues.
    destruct (levels_of ms (ms_book st) !! li) as [lvl|] eqn:Hl; [|done].
    specialize (Hc lvl eq_refl). lia.
  - destruct (match_level_continues side li st) eqn:Hcont; [|done].
    apply match_level_continues_spec in Hcont as (lvl & Hl & Hrem & Hne).
    destruct (match_fill_inv taker_order_id taker_trader_id side li st ch lvl
                Hinv Hl Hne) as
      (m & c & c' & lvl' & Hc & Hhd & Hinv' & Hlv' & _ & _ & Hcase).
    apply IH; [eauto|].
    destruct Hcase as [(_ & _ & Hr0 & _)|(-> & Hcnt & _)]; [left; lia|].
    right. intros l Hl'. rewrite Hlv' in Hl'.
    rewrite list_lookup_insert_eq in Hl' by (by eapply lookup_lt_Some).
    injection Hl' as <-. rewrite Hcnt.
    destruct Hm as [?|Hm]; [lia|]. specialize (Hm lvl Hl).
    destruct (inv_level_chain _ ch ms li lvl Hinv Hl) as (c0 & Hc0 & (_ & Hcount & _)).
    assert (c0 = m :: c) as -> by congruence.
    rewrite Hcount in Hm. simpl in Hm. lia.
Qed.

Lemma match_level_exits li st :
  (exists ch, book_inv (ms_book st) ch) ->
  match_level_continues side li
    (match_level taker_order_id taker_trader_id side li st) = false.
Proof.
  intros Hinv. unfold match_level. apply match_level_loop_exits; [done|].
  right. intros lvl Hl. unfold match_level_fuel. rewrite Hl. lia.
Qed.

(** Once the test fails, further passes change nothing. *)
Lemma match_level_loop_stable li fuel k st :
  match_level_continues side li
    (match_level_loop fuel taker_order_id taker_trader_id side li st) = false ->
  match_level_loop (fuel + k) taker_order_id taker_trader_id side li st
  = match_level_loop fuel taker_order_id taker_trader_id side li st.
Proof.
  revert st. induction fuel as [|fuel IH]; intros st H; simpl in *.
  - destruct k; simpl; [done|]. by rewrite H.
  - destruct (match_level_continues side li st) eqn:E; [by apply IH|done].
Qed.

(** The result of the inner loop does not depend on the bound on its
    passes, as long as the bound is at least the one [match_level] uses. *)
Lemma match_level_fuel_enough li st fuel :
  (exists ch, book_inv (ms_book st) ch) ->
  (match_level_fuel side li st <= fuel)%nat ->
  match_level_loop fuel taker_order_id taker_trader_id side li st
  = match_level taker_order_id taker_trader_id side li st.
Proof.
  intros Hinv Hle.
  replace fuel with
    (match_level_fuel side li st + (fuel - match_level_fuel side li st))%nat by lia.
  apply match_level_loop_stable. by apply match_level_exits.
Qed.

Lemma match_level_book_inv li st :
  (exists ch, book_inv (ms_book st) ch) ->
  exists ch, book_inv (ms_book (match_level taker_order_id taker_trader_id
                                            side li st)) ch.
Proof.
  apply (match_level_ind taker_order_id taker_trader_id side
           (fun st => exists ch, book_inv (ms_book st) ch)).
  intros st0 [ch Hinv] Hc.
  apply match_level_continues_spec in Hc as (lvl & Hl & _ & Hne).
  destruct (match_fill_inv taker_order_id taker_trader_id side li st0 ch lvl
              Hinv Hl Hne) as (m & c & c' & lvl' & _ & _ & Hinv' & _).
  eauto.
Qed.

(** Induction over [match_order] that follows the iterator: [Q li]
    holds when the outer loop tests its condition with the iterator at
    offset [li], [P li] while the inner loop works on that level, and
    the inner loop is known to have left through its test. *)
Lemma match_levels_loop_ind3 (Q P : nat -> MatchState -> Prop) price is_market :
  (forall li st, P li st -> exists ch, book_inv (ms_book st) ch) ->
  (forall li st, Q li st ->
     match_levels_continues side price is_market li st = true -> P li st) ->
  (forall li st, P li st -> match_level_continues side li st = true ->
                 P li (fill_of li st)) ->
  (forall li st lvl,
     P li st -> match_level_continues side li st = false ->
     levels_of ms (ms_book st) !! li = Some lvl ->
     PriceLevel.empty lvl = true ->
     Q li (mkMatch (set_levels ms (delete li (levels_of ms (ms_book st))) (ms_book st))
                   (ms_remaining st) (ms_trades st))) ->
  (forall li st lvl,
     P li st -> match_level_continues side li st = false ->
     levels_of ms (ms_book st) !! li = Some lvl ->
     PriceLevel.empty lvl = false -> Q (S li) st) ->
  (forall li st, P li st -> levels_of ms (ms_book st) !! li = None -> Q li st) ->
  forall fuel li st, Q li st ->
    exists li', Q li' (match_levels_loop fuel taker_order_id taker_trader_id side
                                         price is_market li st).
Proof.
  intros Hbook Henter Hfill Herase Hadv Hvan fuel.
  induction fuel as [|fuel IH]; intros li st Hst; simpl; [eauto|].
  destruct (levels_of ms (ms_book st) !! li) as [lvl|] eqn:Hl; [|eauto].
  destruct (ms_remaining st >? 0) eqn:Hrem; simpl; [|eauto].
  destruct (price_stops side price is_market lvl) eqn:Hstop; [eauto|].
  assert (H0 : P li st).
  { apply Henter; [done|]. unfold match_levels_continues.
    by rewrite Hl, Hrem, Hstop. }
  set (st1 := match_level taker_order_id taker_trader_id side li st).
  assert (H1 : P li st1).
  { apply (match_level_ind taker_order_id taker_trader_id side (P li));
      [apply Hfill|done]. }
  assert (Hexit : match_level_continues side li st1 = false).
  { apply match_level_exits. by eapply Hbook. }
  destruct (levels_of ms (ms_book st1) !! li) as [lvl1|] eqn:Hl1.
  - destruct (PriceLevel.empty lvl1) eqn:He.
    + apply IH. by eapply Herase.
    + apply IH. by eapply Hadv.
  - exists li. by eapply Hvan.
Qed.

Lemma match_order_ind3 (Q P : nat -> MatchState -> Prop) b price qty is_market :
  (forall li st, P li st -> exists ch, book_inv (ms_book st) ch) ->
  (forall li st, Q li st ->
     match_levels_continues side price is_market li st = true -> P li st) ->
  (forall li st, P li st -> match_level_continues side li st = true ->
                 P li (fill_of li st)) ->
  (forall li st lvl,
     P li st -> match_level_continues side li st = false ->
     levels_of ms (ms_book st) !! li = Some lvl ->
     PriceLevel.empty lvl = true ->
     Q li (mkMatch (set_levels ms (delete li (levels_of ms (ms_book st))) (ms_book st))
                   (ms_remaining st) (ms_trades st))) ->
  (forall li st lvl,
     P li st -> match_level_continues side li st = false ->
     levels_of ms (ms_book st) !! li = Some lvl ->
     PriceLevel.empty lvl = false -> Q (S li) st) ->
  (forall li st, P li st -> levels_of ms (ms_book st) !! li = None -> Q li st) ->
  Q 0%nat (mkMatch b qty 0%N) ->
  exists li, Q li (match_order b taker_order_id taker_trader_id side
                               price qty is_market).
Proof.
  intros Hbook Henter Hfill Herase Hadv Hvan H0. unfold match_order.
  by apply (match_levels_loop_ind3 Q P).
Qed.

Lemma match_levels_continues_spec price is_market li st :
  match_levels_continues side price is_market li st = true ->
  exists lvl, levels_of ms (ms_book st) !! li = Some lvl /\
              ms_remaining st > 0 /\
              price_stops side price is_market lvl = false.
Proof.
  unfold match_levels_continues.
  destruct (levels_of ms (ms_book st) !! li) as [lvl|]; [|done].
  intros H. apply andb_true_iff in H as [H1 H2].
  exists lvl. split; [done|]. split; [lia|]. by apply negb_true_iff.
Qed.
End MatchExit.

(* ===================================================================== *)
(** ** The trades of a matching pass, in priority order *)
(* ===================================================================== *)

Section PriorityOrder.
Lemma walk_lseg p prev c hd nxt lst :
  lseg p prev c hd nxt lst -> walk p (length c) hd = c.
Proof.
  revert prev hd. induction c as [|i c IH]; intros prev hd H; simpl in *; [done|].
  destruct H as (-> & _ & H). f_equal. by eapply IH.
Qed.

Lemma level_orders_chain b s l c :
  level_ok b s l c -> level_orders (order_pool_ b) l = c.
Proof.
  intros (Hlk & Hcnt & _). unfold level_orders.
  rewrite Hcnt, Nat2N.id. eapply walk_lseg, Hlk.
Qed.

(** Under the invariant the priority order read off the links is the
    concatenation of the chains. *)
Lemma priority_order_chains b ch s :
  book_inv b ch -> priority_order s b = concat (chains_of s ch).
Proof.
  intros (_ & Hlv & _). specialize (Hlv s). unfold priority_order. f_equal.
  induction Hlv as [|l c ls cs Hok _ IH]; simpl; [done|].
  f_equal; [by eapply level_orders_chain|done].
Qed.
End PriorityOrder.

Section MatchTrace.
Variables (taker_order_id taker_trader_id : N) (side : Side).

Local Abbreviation ms := (opposite side).
Local Abbreviation fill_of := (match_fill taker_order_id taker_trader_id side).

(** The trades of one matching pass: each is made against a resting
    order of the opposite side of the book the pass started from, and
    the makers are taken in priority order, without skipping any. *)
Lemma match_order_trace b ch price qty is_market :
  book_inv b ch ->
  let st := match_order b taker_order_id taker_trader_id side price qty is_market in
  exists ts,
    trade_log_ (ms_book st) = trade_log_ b ++ ts /\
    Forall (fun t => Trade.taker_order_id t = taker_order_id /\
                     Trade.taker_trader_id t = taker_trader_id /\
                     Trade.taker_side t = side) ts /\
    Forall2 (made_by b) ts (take (length ts) (concat (chains_of ms ch))).
Proof.
  intros Hinv0. cbv zeta.
  set (prio := concat (chains_of ms ch)).
  set (G := fun st : MatchState =>
    exists ch' ts,
      book_inv (ms_book st) ch' /\
      (forall j, ident (Pool.at_ (order_pool_ (ms_book st)) j)
                 = ident (Pool.at_ (order_pool_ b) j)) /\
      trade_log_ (ms_book st) = trade_log_ b ++ ts /\
      Forall (fun t => Trade.taker_order_id t = taker_order_id /\
                       Trade.taker_trader_id t = taker_trader_id /\
                       Trade.taker_side t = side) ts /\
      Forall2 (made_by b) ts (take (length ts) prio) /\
      (ms_remaining st <= 0 \/
       concat (chains_of ms ch') = drop (length ts) prio)).
  destruct (match_order_ind3 taker_order_id taker_trader_id side
              (fun li st => (li = 0%nat \/ ms_remaining st <= 0) /\ G st)
              (fun li st => li = 0%nat /\ G st)
              b price qty is_market) as (li & _ & HG).
  - intros li st (_ & ch' & ts & Hinv & _). eauto.
  - intros li st [Hli HG] Hc.
    apply match_levels_continues_spec in Hc as (lvl & _ & Hrem & _).
    split; [|done]. destruct Hli; [done|lia].
  - intros li st (-> & ch' & ts & Hinv & Hid & Hlog & Htk & Hmk & Hprio) Hc.
    split; [done|].
    apply match_level_continues_spec in Hc as (lvl & Hl & Hrem & Hne).
    destruct Hprio as [?|Hprio]; [lia|].
    destruct (match_fill_inv taker_order_id taker_trader_id side 0 st ch' lvl
                Hinv Hl Hne) as
      (m & c & c' & lvl' & Hc & Hhd & Hinv' & _ & _ & _ & Hcase).
    destruct (match_fill_log taker_order_id taker_trader_id side 0 st lvl Hl)
      as (Hlog' & _ & _).
    rewrite Hhd in Hlog'.
    set (maker := Pool.at_ (order_pool_ (ms_book st)) m) in *.
    set (t := Trade.mk _ _ _ _ _ _ _) in Hlog'.
    destruct (chains_of ms ch') as [|c0 rest] eqn:Hchs; [done|].
    simpl in Hc. injection Hc as ->. simpl in Hprio.
    assert (Hnth : prio !! length ts = Some m).
    { pose proof (lookup_drop prio (length ts) 0) as Hd.
      rewrite <- Hprio in Hd. simpl in Hd. by rewrite Nat.add_0_r in Hd. }
    assert (Hm_in : m ∈ all_slots ch).
    { apply (all_slots_side ms). left. by eapply list_elem_of_lookup_2. }
    destruct (inv_slot_resting b ch m Hinv0 Hm_in) as
      (s0 & k & l0 & c0 & _ & _ & _ & (Hlive0 & _ & _ & Hmap0)).
    destruct (inv_level_chain _ ch' ms 0 lvl Hinv Hl) as (c1 & Hc1 & (_ & _ & Hrest)).
    rewrite Hchs in Hc1. simpl in Hc1. injection Hc1 as <-.
    apply Forall_cons in Hrest as [(_ & Hside & _) _].
    pose proof (Hid m) as Hidm. fold maker in Hidm. unfold ident in Hidm.
    injection Hidm as Hi1 Hi2 Hi3 Hi4. fold maker in Hside.
    exists (set_chains ms (<[0%nat := c']> (c0 :: rest)) ch'), (ts ++ [t]).
    assert (Hlen : length (ts ++ [t]) = S (length ts))
      by (rewrite length_app; simpl; lia).
    rewrite Hlen, (take_S_r _ _ _ Hnth).
    split; [done|]. split.
    { intros j. rewrite match_fill_ident. apply Hid. }
    split; [by rewrite Hlog', Hlog, app_assoc|]. split.
    { apply Forall_app. split; [done|]. by apply Forall_singleton. }
    split.
    { apply Forall2_app; [done|]. constructor; [|constructor].
      unfold made_by, t; simpl.
      rewrite <- Hi1, <- Hi2, <- Hi3, <- Hi4.
      split; [done|]. split; [by rewrite Hi1|]. done. }
    destruct Hcase as [(_ & _ & Hr0 & _)|(-> & _)]; [left; lia|].
    right. rewrite chains_of_set_chains. simpl.
    replace (S (length ts)) with (length ts + 1)%nat by lia.
    rewrite <- drop_drop, <- Hprio. reflexivity.
  - intros li st lvl (-> & ch' & ts & Hinv & Hid & Hlog & Htk & Hmk & Hprio)
           _ Hl He.
    split; [by left|]. cbn [ms_book ms_remaining].
    destruct (inv_level_chain _ ch' ms 0 lvl Hinv Hl) as (c & Hc & Hok).
    assert (c = []) as -> by (by eapply level_ok_empty_chain).
    exists (set_chains ms (delete 0%nat (chains_of ms ch')) ch'), ts.
    cbn [ms_book ms_remaining].
    split; [by eapply erase_level_inv|].
    split; [by rewrite order_pool_set_levels|].
    split; [by rewrite trade_log_set_levels|].
    split; [done|]. split; [done|].
    destruct Hprio as [?|Hprio]; [by left|right].
    rewrite chains_of_set_chains, <- Hprio.
    destruct (chains_of ms ch') as [|c0 rest]; [done|].
    simpl in Hc. injection Hc as ->. reflexivity.
  - intros li st lvl (-> & HG) Hexit Hl He. split; [|done].
    right. by eapply match_level_stops_nonempty.
  - intros li st (-> & HG) _. split; [by left|done].
  - split; [by left|]. exists ch, []. simpl.
    rewrite app_nil_r. split; [done|]. split; [done|]. split; [done|].
    split; [constructor|]. split; [constructor|]. by right.
  - destruct HG as (ch' & ts & _ & _ & Hlog & Htk & Hmk & _). eauto.
Qed.
End MatchTrace.

Section ExactFill.
Variables (taker_order_id taker_trader_id : N) (side : Side).

Local Abbreviation ms := (opposite side).
Local Abbreviation fill_of := (match_fill taker_order_id taker_trader_id side).

Lemma pool_ok_free_head p :
  pool_ok p -> Pool.free_head_ p <> INVALID_POOL_INDEX ->
  slot_free p (Pool.free_head_ p).
Proof.
  intros (_ & _ & fl & Hfl & _ & Hfree) Hne.
  destruct fl as [|i fl]; simpl in Hfl; [done|].
  destruct Hfl as [-> _]. by apply Forall_cons in Hfree as [? _].
Qed.

Lemma match_level_loop_stopped li fuel st :
  match_level_continues side li st = false ->
  match_level_loop fuel taker_order_id taker_trader_id side li st = st.
Proof. intros H. destruct fuel; simpl; [done|]. by rewrite H. Qed.

Lemma match_levels_loop_exhausted fuel price is_market li st :
  ms_remaining st <= 0 ->
  match_levels_loop fuel taker_order_id taker_trader_id side price is_market li st
  = st.
Proof.
  intros H. destruct fuel; simpl; [done|].
  destruct (levels_of ms (ms_book st) !! li); [|done].
  destruct (Z.gtb_spec (ms_remaining st) 0); [lia|done].
Qed.

(** A taker for exactly the quantity of the head order of the best
    level, when that level holds a second order: the pass consists of
    one fill, which removes the head and nothing else. *)
Lemma match_order_exact_head b ch lvl a c price is_market :
  book_inv b ch ->
  levels_of ms b !! 0%nat = Some lvl ->
  chains_of ms ch !! 0%nat = Some (a :: c) ->
  c <> [] ->
  price_stops side price is_market lvl = false ->
  let qty := Order.qty_remaining (Pool.at_ (order_pool_ b) a) in
  0 < qty ->
  let st := match_order b taker_order_id taker_trader_id side price qty is_market in
  st = fill_of 0%nat (mkMatch b qty 0%N) /\
  ms_remaining st = 0 /\
  book_inv (ms_book st) (set_chains ms (<[0%nat := c]> (chains_of ms ch)) ch) /\
  Pool.free_head_ (order_pool_ (ms_book st)) = a /\
  a <> INVALID_POOL_INDEX.
Proof.
  intros Hinv Hl Hc Hc_ne Hstop qty Hqty. cbv zeta.
  set (st0 := mkMatch b qty 0%N).
  destruct (inv_level_chain b ch ms 0 lvl Hinv Hl) as (c0 & Hc0 & Hok).
  assert (c0 = a :: c) as -> by congruence.
  assert (Hne : PriceLevel.empty lvl = false).
  { destruct Hok as (_ & Hcnt & _). unfold PriceLevel.empty. rewrite Hcnt.
    apply N.eqb_neq. simpl length. lia. }
  assert (Hcont : match_level_continues side 0 st0 = true).
  { unfold match_level_continues. simpl. rewrite Hl, Hne.
    destruct (Z.gtb_spec qty 0); [done|lia]. }
  destruct (match_fill_inv taker_order_id taker_trader_id side 0 st0 ch lvl
              Hinv Hl Hne) as
    (m & c1 & c' & lvl' & Hc1 & Hhd & Hinv' & Hlv' & _ & _ & Hcase).
  simpl in Hc1. rewrite Hc in Hc1. injection Hc1 as <- <-.
  destruct Hcase as [(_ & _ & _ & _ & Hlt)|(-> & Hcnt' & Hfree & Ha)];
    [simpl in Hlt; unfold qty in Hlt; lia|].
  destruct (match_fill_log taker_order_id taker_trader_id side 0 st0 lvl Hl)
    as (_ & Hrem & _).
  rewrite Hhd in Hrem. simpl in Hrem. fold qty in Hrem.
  rewrite Z.min_id, Z.sub_diag, wrap_i64_0 in Hrem.
  assert (Hst1 : match_level taker_order_id taker_trader_id side 0 st0
                 = fill_of 0%nat st0).
  { unfold match_level, match_level_fuel. simpl ms_book. rewrite Hl.
    simpl match_level_loop. rewrite Hcont.
    apply match_level_loop_stopped, match_level_stops_exhausted. lia. }
  assert (Hmo : match_order b taker_order_id taker_trader_id side price qty is_market
                = fill_of 0%nat st0).
  { unfold match_order. simpl match_levels_loop. fold st0. simpl ms_book.
    rewrite Hl. simpl ms_remaining.
    destruct (Z.gtb_spec qty 0); [|lia]. simpl negb. cbv iota.
    rewrite Hstop, Hst1, Hlv'. simpl ms_book.
    rewrite list_lookup_insert_eq by (by eapply lookup_lt_Some).
    assert (He' : PriceLevel.empty lvl' = false).
    { unfold PriceLevel.empty. rewrite Hcnt'. apply N.eqb_neq.
      destruct c; [done|]. simpl length. lia. }
    rewrite He'. apply match_levels_loop_exhausted. lia. }
  rewrite Hmo. done.
Qed.
End ExactFill.

(* ===================================================================== *)
(** ** The bounds on the passes of the loops are never reached *)
(* ===================================================================== *)

Section LoopBounds.
Variables (taker_order_id taker_trader_id : N) (side : Side).

Local Abbreviation ms := (opposite side).

Lemma match_level_length li st :
  (exists ch, book_inv (ms_book st) ch) ->
  length (levels_of ms (ms_book (match_level taker_order_id taker_trader_id
                                             side li st)))
  = length (levels_of ms (ms_book st)).
Proof.
  intros Hinv.
  apply (match_level_ind taker_order_id taker_trader_id side
           (fun st' => (exists ch, book_inv (ms_book st') ch) /\
                       length (levels_of ms (ms_book st'))
                       = length (levels_of ms (ms_book st)))); [|done].
  intros st0 [[ch Hi] Hlen] Hc.
  apply match_level_continues_spec in Hc as (lvl & Hl & _ & Hne).
  destruct (match_fill_inv taker_order_id taker_trader_id side li st0 ch lvl
              Hi Hl Hne) as (m & c & c' & lvl' & _ & _ & Hinv' & Hlv' & _).
  split; [eauto|]. by rewrite Hlv', length_insert.
Qed.

(** Every pass of the outer loop erases a level or exhausts the taker:
    passes beyond the number of levels left change nothing. *)
Lemma match_levels_loop_stable price is_market fuel k li st :
  (exists ch, book_inv (ms_book st) ch) ->
  (ms_remaining st <= 0 \/
   (length (levels_of ms (ms_book st)) - li < fuel)%nat) ->
  match_levels_loop (fuel + k) taker_order_id taker_trader_id side
                    price is_market li st
  = match_levels_loop fuel taker_order_id taker_trader_id side
                      price is_market li st.
Proof.
  revert li st. induction fuel as [|fuel IH]; intros li st Hinv Hm.
  - destruct Hm as [Hr|?]; [|lia]. simpl.
    by apply match_levels_loop_exhausted.
  - simpl.
    destruct (levels_of ms (ms_book st) !! li) as [lvl|] eqn:Hl; [|done].
    destruct (Z.gtb_spec (ms_remaining st) 0) as [Hrem|]; simpl; [|done].
    destruct (price_stops side price is_market lvl); [done|].
    destruct Hm as [?|Hm]; [lia|].
    pose proof (match_level_book_inv taker_order_id taker_trader_id side li st Hinv)
      as [ch1 Hinv1].
    pose proof (match_level_length li st Hinv) as Hlen.
    pose proof (match_level_exits taker_order_id taker_trader_id side li st Hinv)
      as Hexit.
    set (st1 := match_level taker_order_id taker_trader_id side li st) in *.
    destruct (levels_of ms (ms_book st1) !! li) as [lvl1|] eqn:Hl1; [|done].
    destruct (PriceLevel.empty lvl1) eqn:He.
    + apply IH.
      * cbn [ms_book]. eexists. by eapply erase_level_inv.
      * right. cbn [ms_book]. rewrite levels_of_set_levels.
        apply lookup_lt_Some in Hl1.
        rewrite length_delete by (by apply lookup_lt_is_Some_2).
        lia.
    + apply IH; [eauto|]. left. by eapply match_level_stops_nonempty.
Qed.

(** The result of [match_order] does not depend on the bound on the
    passes of the outer loop, as long as there is one pass more than the
    opposite side has levels. *)
Lemma match_order_fuel_enough b price qty is_market fuel :
  (exists ch, book_inv b ch) ->
  (S (length (levels_of ms b)) <= fuel)%nat ->
  match_levels_loop fuel taker_order_id taker_trader_id side price is_market
                    0%nat (mkMatch b qty 0%N)
  = match_order b taker_order_id taker_trader_id side price qty is_market.
Proof.
  intros Hinv Hle. unfold match_order.
  replace fuel with
    (S (length (levels_of ms b)) + (fuel - S (length (levels_of ms b))))%nat by lia.
  apply match_levels_loop_stable; [done|]. right. simpl. lia.
Qed.
End LoopBounds.

Section Exhaustion.
Variables (taker_order_id taker_trader_id : N) (side : Side).

(** A fill exhausts the taker or frees the slot of the maker: a pass
    that leaves a remainder and an exhausted pool has traded nothing. *)
Lemma match_order_remainder_has_slot b price qty is_market :
  (exists ch, book_inv b ch) ->
  let st := match_order b taker_order_id taker_trader_id side price qty is_market in
  ms_remaining st > 0 ->
  Pool.free_head_ (order_pool_ (ms_book st)) = INVALID_POOL_INDEX ->
  trades_since b (ms_book st) = [] /\ ms_trades st = 0%N.
Proof.
  intros Hinv. cbv zeta.
  apply (match_order_ind taker_order_id taker_trader_id side
           (fun st => (exists ch, book_inv (ms_book st) ch) /\
                      (ms_remaining st > 0 ->
                       Pool.free_head_ (order_pool_ (ms_book st))
                       = INVALID_POOL_INDEX ->
                       trades_since b (ms_book st) = [] /\ ms_trades st = 0%N))).
  - intros li st [[ch Hi] _] Hc.
    apply match_level_continues_spec in Hc as (lvl & Hl & _ & Hne).
    destruct (match_fill_inv taker_order_id taker_trader_id side li st ch lvl
                Hi Hl Hne) as
      (m & c & c' & lvl' & _ & _ & Hinv' & _ & _ & _ & Hcase).
    split; [eauto|]. intros Hrem Hfull.
    destruct Hcase as [(_ & _ & Hr0 & _)|(_ & _ & Hfree & Hm)]; [lia|congruence].
  - intros li st lvl [[ch Hi] IH] Hl He. cbn [ms_book ms_remaining ms_trades].
    split; [eexists; by eapply erase_level_inv|].
    intros Hrem Hfull. rewrite order_pool_set_levels in Hfull.
    unfold trades_since in *. rewrite trade_log_set_levels. by apply IH.
  - split; [done|]. intros _ _. simpl. split; [|done].
    unfold trades_since. apply drop_all.
Qed.
End Exhaustion.

Section OperationLogs.
Lemma trades_since_app b b' ts :
  trade_log_ b' = trade_log_ b ++ ts -> trades_since b b' = ts.
Proof. intros H. unfold trades_since. by rewrite H, drop_app_length. Qed.

Lemma trades_since_same b b' :
  trade_log_ b' = trade_log_ b -> trades_since b b' = [].
Proof. intros H. apply trades_since_app. by rewrite app_nil_r. Qed.

(** Resting the remainder hands nothing to the observer: the trades of
    [add_limit] are those of its matching pass. *)
Lemma add_limit_internal_log b id tr s p q :
  order_map_ b !! id = None ->
  trade_log_ (add_limit_internal b id tr s p q).1
  = trade_log_ (ms_book (match_order b id tr s p q false)).
Proof.
  intros Hid. unfold add_limit_internal.
  case_bool_decide as Hdup; [rewrite Hid in Hdup; by destruct Hdup|].
  set (st := match_order b id tr s p q false).
  destruct (ms_remaining st <=? 0); [done|].
  destruct (Pool.allocate _ _) as [pool_idx pool1].
  destruct (pool_idx =? INVALID_POOL_INDEX)%N; [done|].
  destruct (find_or_create_level _ _ _) as [it levels1].
  destruct (PriceLevel.push_back _ _ _) as [pool2 lvl]. simpl.
  by rewrite trade_log_set_levels.
Qed.

Lemma add_limit_internal_duplicate b id tr s p q :
  is_Some (order_map_ b !! id) ->
  add_limit_internal b id tr s p q = (b, OrderResponse.mk Rejected id 0 0 0%N).
Proof. intros Hid. unfold add_limit_internal. by rewrite bool_decide_eq_true_2. Qed.
End OperationLogs.

(** C7.  Every trade a matching pass hands to the observer, for a limit
    taker and for a market taker alike, is made against an order that was
    resting in the book the pass started from: the trade carries that
    order's id and trader and, whatever limit the taker came with, that
    order's price; its [taker_side] is the side of the incoming order, and
    the maker rests on the opposite side.  The trades of [add_limit] and of
    [add_market] are the trades of their matching pass. *)
Theorem trade_carries_maker_price (b : OrderBook) (taker_order_id taker_trader_id : N)
    (side : Side) (price qty : Z) (is_market : bool) :
  reachable b ->
  Forall (fun t =>
            Trade.taker_side t = side /\
            exists j, made_by b t j /\
                      Trade.price t = Order.price (Pool.at_ (order_pool_ b) j) /\
                      Order.side (Pool.at_ (order_pool_ b) j) = opposite side)
         (trades_since b
            (ms_book (match_order b taker_order_id taker_trader_id side
                                  price qty is_market))) /\
  (order_map_ b !! taker_order_id = None ->
   trades_since b (add_limit b taker_order_id taker_trader_id side price qty).1
   = trades_since b (ms_book (match_order b taker_order_id taker_trader_id side
                                          price qty false))) /\
  (is_Some (order_map_ b !! taker_order_id) ->
   trades_since b (add_limit b taker_order_id taker_trader_id side price qty).1 = []) /\
  trades_since b (add_market b taker_order_id taker_trader_id side qty).1
  = trades_since b (ms_book (match_order b taker_order_id taker_trader_id side
                                         0 qty true)).
Proof.
  intros Hr. destruct (reachable_Inv b Hr) as [[ch Hinv] _].
  split; [|split; [|split]].
  - destruct (match_order_trace taker_order_id taker_trader_id side b ch
                price qty is_market Hinv) as (ts & Hlog & Htk & Hmk).
    rewrite (trades_since_app _ _ ts Hlog).
    rewrite Forall_forall. intros t Ht.
    apply list_elem_of_lookup_1 in Ht as [i Hi].
    destruct (Forall2_lookup_l _ _ _ _ _ Hmk Hi) as (j & _ & Hj).
    rewrite Forall_forall in Htk.
    destruct (Htk t ltac:(by eapply list_elem_of_lookup_2)) as (_ & _ & Hside).
    split; [done|]. exists j. split; [done|].
    destruct Hj as (_ & _ & _ & _ & Hp & Hs). by rewrite Hp, Hs, Hside.
  - intros Hid. unfold trades_since, add_limit.
    by rewrite add_limit_internal_log.
  - intros Hid. unfold add_limit.
    by rewrite add_limit_internal_duplicate, trades_since_same.
  - reflexivity.
Qed.

(** A buy with a limit of 105 for 12 units against [two_asks_book]: the
    two trades are made at 100, the price of the resting sells. *)
Lemma trade_carries_maker_price_witness :
  reachable two_asks_book /\
  Forall (fun t =>
            Trade.taker_side t = Buy /\
            exists j, made_by two_asks_book t j /\
                      Trade.price t
                      = Order.price (Pool.at_ (order_pool_ two_asks_book) j) /\
                      Order.side (Pool.at_ (order_pool_ two_asks_book) j) = Sell)
         (trades_since two_asks_book
            (ms_book (match_order two_asks_book 4 2 Buy 105 12 false))) /\
  trades_since two_asks_book (ms_book (match_order two_asks_book 4 2 Buy 105 12 false))
  = [Trade.mk 1 4 0 2 100 10 Buy; Trade.mk 2 4 1 2 100 2 Buy].
Proof.
  split; [exact two_asks_book_reachable|]. split.
  - apply (trade_carries_maker_price two_asks_book 4 2 Buy 105 12 false).
    exact two_asks_book_reachable.
  - vm_compute. reflexivity.
Defined.

(** C5 (as amended).  The makers of the trades of a matching pass are, in
    the order of the trades, the first resting orders of the opposite side
    in price-time priority (best level first, each level from its head):
    every fill takes the head order of the best-priced opposite level.
    In particular, with makers A then B at the head of the best opposite
    level, a crossing taker of positive quantity for exactly A's remaining
    quantity trades once, with A, for that quantity: A leaves the index
    and its slot is freed, while B keeps its identity and its remaining
    quantity and is now the first order in priority, the orders behind it
    following as before. *)
Theorem matching_keeps_time_priority (b : OrderBook)
    (taker_order_id taker_trader_id : N) (side : Side) (price qty : Z)
    (is_market : bool) :
  reachable b ->
  let st := match_order b taker_order_id taker_trader_id side price qty is_market in
  let trades := trades_since b (ms_book st) in
  Forall2 (made_by b) trades
          (take (length trades) (priority_order (opposite side) b)) /\
  forall lvl a bi,
    levels_of (opposite side) b !! 0%nat = Some lvl ->
    PriceLevel.head_idx lvl = a ->
    Order.next_idx (Pool.at_ (order_pool_ b) a) = bi ->
    bi <> INVALID_POOL_INDEX ->
    price_stops side price is_market lvl = false ->
    qty = Order.qty_remaining (Pool.at_ (order_pool_ b) a) ->
    0 < qty ->
    let A := Pool.at_ (order_pool_ b) a in
    let B := Pool.at_ (order_pool_ b) bi in
    Order.price B = Order.price A /\
    trades = [Trade.mk (Order.order_id A) taker_order_id (Order.trader_id A)
                       taker_trader_id (Order.price A) qty side] /\
    ms_remaining st = 0 /\
    order_map_ (ms_book st) !! Order.order_id A = None /\
    ~ slot_live (order_pool_ (ms_book st)) a /\
    order_map_ (ms_book st) !! Order.order_id B = Some bi /\
    slot_live (order_pool_ (ms_book st)) bi /\
    ident (Pool.at_ (order_pool_ (ms_book st)) bi) = ident B /\
    Order.qty_remaining (Pool.at_ (order_pool_ (ms_book st)) bi)
    = Order.qty_remaining B /\
    priority_order (opposite side) b
    = a :: priority_order (opposite side) (ms_book st) /\
    head (priority_order (opposite side) (ms_book st)) = Some bi.
Proof.
  intros Hr. destruct (reachable_Inv b Hr) as [[ch Hinv] Hnonempty]. cbv zeta.
  split.
  { destruct (match_order_trace taker_order_id taker_trader_id side b ch
                price qty is_market Hinv) as (ts & Hlog & _ & Hmk).
    rewrite (trades_since_app _ _ ts Hlog).
    by rewrite (priority_order_chains b ch (opposite side) Hinv). }
  intros lvl a bi Hl Hhd Hnext Hbi Hstop -> Hqty.
  set (ms := opposite side) in *.
  (* the chain of the best level is a :: bi :: ... *)
  destruct (inv_level_chain b ch ms 0 lvl Hinv Hl) as (c0 & Hc0 & Hok).
  assert (Hne : PriceLevel.empty lvl = false).
  { specialize (Hnonempty ms). rewrite levels_nonempty_lookup in Hnonempty.
    by apply (Hnonempty 0%nat). }
  destruct (level_chain_head b ms lvl c0 Hok Hne) as (a' & c & -> & Hhd').
  assert (a' = a) as -> by congruence.
  pose proof Hok as (Hlk & _ & Hrest).
  unfold linked in Hlk. simpl in Hlk. destruct Hlk as (_ & _ & Hlk).
  rewrite Hnext in Hlk.
  destruct c as [|bi' c2]; [simpl in Hlk; by destruct Hlk|].
  pose proof Hlk as Hlk'. simpl in Hlk'. destruct Hlk' as (<- & _).
  assert (Hndc : NoDup (a :: bi :: c2)).
  { eapply concat_lookup_NoDup; [|exact Hc0]. apply all_slots_NoDup_side, Hinv. }
  assert (Hab : bi <> a).
  { intros ->. apply NoDup_cons in Hndc as [Hn _]. apply Hn. left. }
  apply Forall_cons in Hrest as [(_ & _ & HpA & HmapA) Hrest].
  apply Forall_cons in Hrest as [(_ & _ & HpB & _) _].
  (* the pass is one fill *)
  destruct (match_order_exact_head taker_order_id taker_trader_id side b ch lvl a
              (bi :: c2) price is_market Hinv Hl Hc0 ltac:(done) Hstop Hqty)
    as (Hst & Hrem & Hinv' & Hfree & Ha).
  set (st := match_order _ _ _ _ _ _ _) in *.
  set (ch' := set_chains ms (<[0%nat := bi :: c2]> (chains_of ms ch)) ch) in *.
  assert (Hc' : chains_of ms ch' !! 0%nat = Some (bi :: c2)).
  { unfold ch'. rewrite chains_of_set_chains.
    apply list_lookup_insert_eq. by eapply lookup_lt_Some. }
  assert (Hdead : ~ slot_live (order_pool_ (ms_book st)) a).
  { intros Hlive. eapply slot_free_not_live; [|exact Hlive].
    rewrite <- Hfree. apply pool_ok_free_head; [apply Hinv'|by rewrite Hfree]. }
  assert (Hbi_in : bi ∈ all_slots ch').
  { eapply chain_in_all_slots; [exact Hc'|left]. }
  destruct (inv_slot_resting _ ch' bi Hinv' Hbi_in) as
    (s0 & k & l0 & c0 & _ & _ & _ & (HliveB & _ & _ & HmapB)).
  assert (HidB : ident (Pool.at_ (order_pool_ (ms_book st)) bi)
                 = ident (Pool.at_ (order_pool_ b) bi)).
  { rewrite Hst. apply match_fill_ident. }
  destruct (match_fill_log taker_order_id taker_trader_id side 0
              (mkMatch b (Order.qty_remaining (Pool.at_ (order_pool_ b) a)) 0%N)
              lvl Hl) as (Hlog & _ & _).
  rewrite <- Hst, Hhd in Hlog. simpl in Hlog. rewrite Z.min_id in Hlog.
  split; [congruence|].
  split; [by apply trades_since_app|].
  split; [done|]. split.
  { destruct (order_map_ (ms_book st)
                !! Order.order_id (Pool.at_ (order_pool_ b) a)) as [i|] eqn:Hi;
      [exfalso|done].
    pose proof Hinv' as (_ & _ & _ & Hmap' & _).
    destruct (Hmap' _ _ Hi) as [Hin _].
    rewrite Hst in Hi. apply match_fill_map_sub in Hi. simpl in Hi.
    assert (i = a) as -> by congruence.
    apply Hdead. by eapply inv_slot_live. }
  split; [done|]. split.
  { rewrite <- (ident_order_id _ _ HidB). exact HmapB. }
  split; [done|]. split; [done|]. split.
  { rewrite Hst. eapply match_fill_qty_other; [exact Hl|]. simpl. congruence. }
  rewrite (priority_order_chains b ch ms Hinv).
  rewrite (priority_order_chains _ ch' ms Hinv').
  unfold ch' in *. rewrite chains_of_set_chains in *.
  destruct (chains_of ms ch) as [|c0' rest]; [done|].
  simpl in Hc0. injection Hc0 as ->. simpl. done.
Qed.

(** A buy at 100 for 10 units against [two_asks_book], where the orders 1
    (10 units) and 2 (7 units) rest at 100 in that order: one trade with
    order 1, and order 2 heads the queue with its 7 units. *)
Lemma matching_keeps_time_priority_witness :
  reachable two_asks_book /\
  let st := match_order two_asks_book 4 2 Buy 100 10 false in
  trades_since two_asks_book (ms_book st) = [Trade.mk 1 4 0 2 100 10 Buy] /\
  priority_order Sell two_asks_book = [0; 1; 2]%N /\
  priority_order Sell (ms_book st) = [1; 2]%N /\
  order_map_ (ms_book st) !! 1%N = None /\
  order_map_ (ms_book st) !! 2%N = Some 1%N /\
  Order.qty_remaining (Pool.at_ (order_pool_ (ms_book st)) 1) = 7.
Proof.
  split; [exact two_asks_book_reachable|].
  destruct (matching_keeps_time_priority two_asks_book 4 2 Buy 100 10 false
              two_asks_book_reachable) as [_ H].
  destruct (H (PriceLevel.mk 100 17 2 0 1) 0%N 1%N) as
    (_ & Htr & _ & HA & _ & HB & _ & _ & Hq & Hp & _);
    [vm_compute; reflexivity|reflexivity|vm_compute; reflexivity|done
    |reflexivity|vm_compute; reflexivity|lia|].
  cbv zeta. split; [exact Htr|].
  split; [vm_compute; reflexivity|].
  split; [vm_compute; reflexivity|].
  split; [exact HA|]. split; [exact HB|]. exact Hq.
Defined.

(** C5 as stated fails for a taker of quantity 0.  Orders 1 and 2 rest at
    100 in that order and a modify has brought order 1 down to 0 units
    while leaving it at the head of the level; a crossing buy for exactly
    these 0 units trades nothing, and order 1 is neither filled nor
    removed: it stays indexed and first in priority. *)
Lemma zero_quantity_taker_fills_nothing :
  let b := run_ops (OrderBook_new 4)
             [OpAddLimit 1 0 Sell 100 10; OpAddLimit 2 1 Sell 100 7;
              OpModify 1 0 100] in
  let st := match_order b 3 2 Buy 100 0 false in
  reachable b /\
  levels_of (opposite Buy) b !! 0%nat = Some (PriceLevel.mk 100 7 2 0 1) /\
  Order.next_idx (Pool.at_ (order_pool_ b) 0) = 1%N /\
  price_stops Buy 100 false (PriceLevel.mk 100 7 2 0 1) = false /\
  Order.qty_remaining (Pool.at_ (order_pool_ b) 0) = 0 /\
  trades_since b (ms_book st) = [] /\
  ~ (trades_since b (ms_book st) = [Trade.mk 1 3 0 2 100 0 Buy]) /\
  order_map_ (ms_book st) !! 1%N = Some 0%N /\
  priority_order Sell (ms_book st) = [0; 1]%N /\
  OrderResponse.result (add_limit b 3 2 Buy 100 0).2 = FullyFilled /\
  priority_order Sell (add_limit b 3 2 Buy 100 0).1 = [0; 1]%N.
Proof.
  cbv zeta. split.
  { apply reachable_run_ops; [unfold in_u32; lia|].
    unfold well_typed_op, in_u64, in_u32, in_i64. repeat constructor; lia. }
  repeat (split; [vm_compute; reflexivity|]).
  split; [|repeat (split; [vm_compute; reflexivity|]); vm_compute; reflexivity].
  assert (H : trades_since
                (run_ops (OrderBook_new 4)
                   [OpAddLimit 1 0 Sell 100 10; OpAddLimit 2 1 Sell 100 7;
                    OpModify 1 0 100])
                (ms_book
                   (match_order
                      (run_ops (OrderBook_new 4)
                         [OpAddLimit 1 0 Sell 100 10; OpAddLimit 2 1 Sell 100 7;
                          OpModify 1 0 100]) 3 2 Buy 100 0 false)) = [])
    by (vm_compute; reflexivity).
  rewrite H. discriminate.
Qed.

(* ===================================================================== *)
(** ** Prices of the levels: where they come from *)
(* ===================================================================== *)

Section LevelPrices.
Implicit Types (ls : list PriceLevel.t) (l : PriceLevel.t) (b : OrderBook).

Lemma prices_within_refl ls : prices_within ls ls.
Proof. intros l Hl. by exists l. Qed.

Lemma prices_within_trans ls1 ls2 ls3 :
  prices_within ls1 ls2 -> prices_within ls2 ls3 -> prices_within ls1 ls3.
Proof.
  intros H12 H23 l1 Hl1. destruct (H12 l1 Hl1) as (l2 & Hl2 & E2).
  destruct (H23 l2 Hl2) as (l3 & Hl3 & E3). exists l3. split; [done|congruence].
Qed.

Lemma prices_within_insert ls i l l' :
  ls !! i = Some l -> PriceLevel.price l' = PriceLevel.price l ->
  prices_within (<[i := l']> ls) ls.
Proof.
  intros Hi Hp x Hx. apply list_elem_of_lookup_1 in Hx as [j Hj].
  apply list_lookup_insert_Some in Hj as [(-> & <- & _)|[_ Hj]].
  - exists l. split; [by eapply list_elem_of_lookup_2|done].
  - exists x. split; [by eapply list_elem_of_lookup_2|done].
Qed.

Lemma prices_within_delete ls i : prices_within (delete i ls) ls.
Proof. intros x Hx. exists x. split; [by eapply list_elem_of_delete_inv|done]. Qed.

Lemma remove_price p l idx :
  PriceLevel.price (PriceLevel.remove p l idx).2 = PriceLevel.price l.
Proof. reflexivity. Qed.

Lemma push_back_price p l idx :
  PriceLevel.price (PriceLevel.push_back p l idx).2 = PriceLevel.price l.
Proof. reflexivity. Qed.
End LevelPrices.

Section MatchPrices.
Variables (taker_order_id taker_trader_id : N) (side : Side).

Local Abbreviation ms := (opposite side).
Local Abbreviation fill_of := (match_fill taker_order_id taker_trader_id side).

(** A fill rewrites one level in place, at its price. *)
Lemma match_fill_prices li st s :
  prices_within (levels_of s (ms_book (fill_of li st))) (levels_of s (ms_book st)).
Proof.
  unfold match_fill.
  destruct (levels_of ms (ms_book st) !! li) as [lvl|] eqn:Hl;
    [|apply prices_within_refl].
  destruct (decide (s = ms)) as [->|Hs].
  - destruct (_ <=? 0).
    + destruct (PriceLevel.remove _ _ _) as [pool2 lvl2] eqn:Hrm. book_simpl.
      eapply prices_within_insert; [exact Hl|].
      replace lvl2 with (PriceLevel.remove
        (Pool.update (order_pool_ (ms_book st)) (PriceLevel.front_idx lvl)
           (fun o => Order.set_qty_remaining
              (wrap_i64 (Order.qty_remaining o -
                 Z.min (ms_remaining st)
                   (Order.qty_remaining
                      (Pool.at_ (order_pool_ (ms_book st))
                                (PriceLevel.front_idx lvl))))) o))
        (PriceLevel.reduce_qty lvl
           (Z.min (ms_remaining st)
              (Order.qty_remaining
                 (Pool.at_ (order_pool_ (ms_book st)) (PriceLevel.front_idx lvl)))))
        (PriceLevel.front_idx lvl)).2 by (by rewrite Hrm).
      reflexivity.
    + book_simpl. eapply prices_within_insert; [exact Hl|reflexivity].
  - assert (s = side) as -> by (destruct s, side; done).
    destruct (_ <=? 0).
    + destruct (PriceLevel.remove _ _ _) as [pool2 lvl2]. book_simpl.
      apply prices_within_refl.
    + book_simpl. apply prices_within_refl.
Qed.

(** Matching creates no price. *)
Lemma match_order_prices b price qty is_market s :
  prices_within
    (levels_of s (ms_book (match_order b taker_order_id taker_trader_id side
                                       price qty is_market)))
    (levels_of s b).
Proof.
  apply (match_order_ind taker_order_id taker_trader_id side
           (fun st => prices_within (levels_of s (ms_book st)) (levels_of s b))).
  - intros li st IH _. eapply prices_within_trans; [apply match_fill_prices|done].
  - intros li st lvl IH _ _. cbn [ms_book].
    destruct (decide (s = ms)) as [->|Hs].
    + rewrite levels_of_set_levels.
      eapply prices_within_trans; [apply prices_within_delete|done].
    + assert (s = side) as -> by (destruct s, side; done).
      by rewrite levels_of_set_levels_opp.
  - apply prices_within_refl.
Qed.
End MatchPrices.

(* ===================================================================== *)
(** ** How a matching pass ends *)
(* ===================================================================== *)

Section MatchEnds.
Variables (taker_order_id taker_trader_id : N) (side : Side).

Local Abbreviation ms := (opposite side).
Local Abbreviation fill_of := (match_fill taker_order_id taker_trader_id side).

(** Induction over [match_order] as [match_levels_loop_ind3], which
    also hands over the test that ended the outer loop. *)
Lemma match_levels_loop_ind4 (Q P : nat -> MatchState -> Prop) price is_market :
  (forall li st, Q li st -> exists ch, book_inv (ms_book st) ch) ->
  (forall li st, P li st -> exists ch, book_inv (ms_book st) ch) ->
  (forall li st, Q li st ->
     match_levels_continues side price is_market li st = true -> P li st) ->
  (forall li st, P li st -> match_level_continues side li st = true ->
                 P li (fill_of li st)) ->
  (forall li st lvl,
     P li st -> match_level_continues side li st = false ->
     levels_of ms (ms_book st) !! li = Some lvl ->
     PriceLevel.empty lvl = true ->
     Q li (mkMatch (set_levels ms (delete li (levels_of ms (ms_book st))) (ms_book st))
                   (ms_remaining st) (ms_trades st))) ->
  (forall li st lvl,
     P li st -> match_level_continues side li st = false ->
     levels_of ms (ms_book st) !! li = Some lvl ->
     PriceLevel.empty lvl = false -> Q (S li) st) ->
  (forall li st, P li st -> levels_of ms (ms_book st) !! li = None -> Q li st) ->
  forall fuel li st, Q li st ->
    (ms_remaining st <= 0 \/
     (length (levels_of ms (ms_book st)) - li < fuel)%nat) ->
    exists li',
      Q li' (match_levels_loop fuel taker_order_id taker_trader_id side
                               price is_market li st) /\
      match_levels_continues side price is_market li'
        (match_levels_loop fuel taker_order_id taker_trader_id side
                           price is_market li st) = false.
Proof.
  intros HbookQ HbookP Henter Hfill Herase Hadv Hvan fuel.
  assert (Hstop : forall li st, ms_remaining st <= 0 ->
            match_levels_continues side price is_market li st = false).
  { intros li st H. unfold match_levels_continues.
    destruct (levels_of ms (ms_book st) !! li); [|done].
    destruct (Z.gtb_spec (ms_remaining st) 0); [lia|done]. }
  induction fuel as [|fuel IH]; intros li st Hst Hm; simpl.
  { destruct Hm as [Hr|?]; [|lia]. exists li. split; [done|by apply Hstop]. }
  destruct (levels_of ms (ms_book st) !! li) as [lvl|] eqn:Hl.
  2:{ exists li. split; [done|]. unfold match_levels_continues. by rewrite Hl. }
  destruct (ms_remaining st >? 0) eqn:Hrem; simpl.
  2:{ exists li. split; [done|]. unfold match_levels_continues.
      by rewrite Hl, Hrem. }
  destruct (price_stops side price is_market lvl) eqn:Hstp.
  { exists li. split; [done|]. unfold match_levels_continues.
    by rewrite Hl, Hrem, Hstp. }
  destruct Hm as [?|Hm]; [lia|].
  assert (H0 : P li st).
  { apply Henter; [done|]. unfold match_levels_continues.
    by rewrite Hl, Hrem, Hstp. }
  pose proof (HbookP _ _ H0) as Hinv.
  pose proof (match_level_length taker_order_id taker_trader_id side li st Hinv)
    as Hlen.
  pose proof (match_level_exits taker_order_id taker_trader_id side li st Hinv)
    as Hexit.
  assert (H1 : P li (match_level taker_order_id taker_trader_id side li st)).
  { apply (match_level_ind taker_order_id taker_trader_id side (P li));
      [apply Hfill|done]. }
  set (st1 := match_level taker_order_id taker_trader_id side li st) in *.
  destruct (levels_of ms (ms_book st1) !! li) as [lvl1|] eqn:Hl1.
  - destruct (PriceLevel.empty lvl1) eqn:He.
    + apply IH; [by eapply Herase|]. right. cbn [ms_book].
      rewrite levels_of_set_levels.
      apply lookup_lt_Some in Hl1.
      rewrite length_delete by (by apply lookup_lt_is_Some_2). lia.
    + apply IH; [by eapply Hadv|]. left.
      by eapply match_level_stops_nonempty.
  - exists li. split; [by eapply Hvan|].
    unfold match_levels_continues. by rewrite Hl1.
Qed.

(** While the taker has quantity left, fills only happen at the first
    level.  So a pass that leaves a remainder has stopped in front of
    the first level, or has emptied the side. *)
Lemma match_order_ends b price qty is_market :
  Inv b ->
  let st := match_order b taker_order_id taker_trader_id side price qty is_market in
  ms_remaining st <= 0 \/
  match_levels_continues side price is_market 0%nat st = false.
Proof.
  intros [[ch Hinv] _]. cbv zeta. unfold match_order.
  destruct (match_levels_loop_ind4
              (fun li st => (exists ch, book_inv (ms_book st) ch) /\
                            (li = 0%nat \/ ms_remaining st <= 0))
              (fun li st => (exists ch, book_inv (ms_book st) ch) /\ li = 0%nat)
              price is_market) with
    (fuel := S (length (levels_of ms b))) (li := 0%nat) (st := mkMatch b qty 0%N)
    as (li & [_ Hli] & Hend).
  - by intros li st [? _].
  - by intros li st [? _].
  - intros li st [Hi Hli] Hc.
    apply match_levels_continues_spec in Hc as (lvl & _ & Hrem & _).
    split; [done|]. destruct Hli; [done|lia].
  - intros li st [[ch' Hi] ->] Hc. split; [|done].
    apply match_level_continues_spec in Hc as (lvl & Hl & _ & Hne).
    destruct (match_fill_inv taker_order_id taker_trader_id side 0 st ch' lvl
                Hi Hl Hne) as (m & c & c' & lvl' & _ & _ & Hinv' & _).
    eauto.
  - intros li st lvl [[ch' Hi] ->] _ Hl He. cbn [ms_book ms_remaining].
    split; [|by left]. eexists. by eapply erase_level_inv.
  - intros li st lvl [Hi ->] Hexit Hl He. split; [done|]. right.
    by eapply match_level_stops_nonempty.
  - intros li st [Hi ->] _. split; [done|by left].
  - split; [eauto|by left].
  - right. simpl. lia.
  - destruct Hli as [->|?]; [by right|by left].
Qed.
End MatchEnds.

(* ===================================================================== *)
(** ** The book is never crossed *)
(* ===================================================================== *)

Section Uncrossed.
Implicit Types (ls : list PriceLevel.t) (l : PriceLevel.t) (b : OrderBook).

(** What is left on the opposite side after a limit order kept a
    remainder is out of its reach. *)
Lemma match_order_remainder_stops b id tr side price qty l :
  Inv b ->
  let st := match_order b id tr side price qty false in
  ms_remaining st > 0 ->
  l ∈ levels_of (opposite side) (ms_book st) ->
  price_stops side price false l = true.
Proof.
  intros Hb. cbv zeta. intros Hrem Hl.
  destruct (match_order_ends id tr side b price qty false Hb) as [?|Hend]; [lia|].
  pose proof (match_order_Inv id tr side b price qty false Hb) as [[ch Hinv] _].
  set (st := match_order b id tr side price qty false) in *.
  unfold match_levels_continues in Hend.
  apply list_elem_of_lookup_1 in Hl as [k Hk].
  destruct (levels_of (opposite side) (ms_book st) !! 0%nat) as [lvl|] eqn:H0.
  2:{ destruct (levels_of (opposite side) (ms_book st)); done. }
  destruct (Z.gtb_spec (ms_remaining st) 0); [|lia]. simpl in Hend.
  apply negb_false_iff in Hend.
  destruct k as [|k]; [congruence|].
  destruct Hinv as (_ & _ & _ & _ & Hsorted).
  pose proof (StronglySorted_lookup _ _ 0 (S k) lvl l
                (Hsorted (opposite side)) ltac:(lia) H0 Hk) as Hlt.
  unfold price_stops, level_before in *. simpl in *.
  destruct side; simpl in *; lia.
Qed.

Lemma find_or_create_level_spec ls p is_bid it ls1 :
  find_or_create_level ls p is_bid = (it, ls1) ->
  (exists l, ls1 !! it = Some l /\ PriceLevel.price l = p) /\
  (forall l', l' ∈ ls1 -> l' ∈ ls \/ PriceLevel.price l' = p).
Proof.
  unfold find_or_create_level.
  set (k := lower_bound is_bid ls p).
  assert (Hk : (k <= length ls)%nat) by apply lower_bound_le.
  assert (Hins : forall l', l' ∈ vector_insert k (PriceLevel.new p) ls ->
                   l' ∈ ls \/ PriceLevel.price l' = p).
  { intros l' Hl'. unfold vector_insert in Hl'.
    apply elem_of_app in Hl' as [Hl'|Hl'].
    - left. rewrite <- (take_drop k ls). apply elem_of_app. by left.
    - apply elem_of_cons in Hl' as [->|Hl']; [by right|].
      left. rewrite <- (take_drop k ls). apply elem_of_app. by right. }
  destruct (ls !! k) as [l|] eqn:Hl.
  - destruct (Z.eqb_spec (PriceLevel.price l) p) as [Hp|Hp]; intros [= <- <-].
    + split; [by exists l|]. intros l' ?. by left.
    + split; [|done]. exists (PriceLevel.new p).
      split; [by apply vector_insert_lookup|done].
  - intros [= <- <-]. split; [|done]. exists (PriceLevel.new p).
    split; [by apply vector_insert_lookup|done].
Qed.

Lemma uncrossed_within b b' :
  uncrossed b ->
  (forall s, prices_within (levels_of s b') (levels_of s b)) ->
  uncrossed b'.
Proof.
  intros Hu Hw lb la Hlb Hla.
  destruct (Hw Buy lb Hlb) as (lb0 & Hlb0 & ->).
  destruct (Hw Sell la Hla) as (la0 & Hla0 & ->).
  by apply Hu.
Qed.

Lemma remove_level_if_empty_prices ls it : prices_within (remove_level_if_empty ls it) ls.
Proof.
  unfold remove_level_if_empty. destruct (ls !! it) as [l|]; [|apply prices_within_refl].
  destruct (PriceLevel.empty l); [apply prices_within_delete|apply prices_within_refl].
Qed.

Lemma remove_order_internal_prices b idx s :
  prices_within (levels_of s (remove_order_internal b idx)) (levels_of s b).
Proof.
  unfold remove_order_internal.
  set (s0 := Order.side (Pool.at_ (order_pool_ b) idx)).
  set (it := find_level _ _ _).
  destruct (levels_of s0 b !! it) as [l|] eqn:Hl; [|apply prices_within_refl].
  destruct (PriceLevel.remove (order_pool_ b) l idx) as [pool1 l1] eqn:Hrm.
  cbn [order_pool_ set_pool]. rewrite levels_of_set_pool.
  destruct (decide (s = s0)) as [->|Hs].
  - rewrite levels_of_set_levels.
    eapply prices_within_trans; [apply remove_level_if_empty_prices|].
    eapply prices_within_insert; [exact Hl|].
    replace l1 with (PriceLevel.remove (order_pool_ b) l idx).2 by (by rewrite Hrm).
    reflexivity.
  - rewrite levels_of_set_levels_ne by done. rewrite levels_of_set_pool.
    apply prices_within_refl.
Qed.

Lemma add_limit_internal_uncrossed b id tr s p q :
  Inv b -> uncrossed b -> uncrossed (add_limit_internal b id tr s p q).1.
Proof.
  intros Hb Hu. unfold add_limit_internal.
  case_bool_decide as Hdup; [done|].
  pose proof (match_order_prices id tr s b p q false) as Hw.
  pose proof (match_order_remainder_stops b id tr s p q) as Hstops.
  specialize (fun l => Hstops l Hb). cbv zeta in Hstops.
  pose proof (match_order_own_side id tr s b p q false) as Hown.
  set (st := match_order b id tr s p q false) in *.
  assert (Hu1 : uncrossed (ms_book st)) by (by eapply uncrossed_within).
  destruct (Z.leb_spec (ms_remaining st) 0) as [|Hrem]; [done|].
  destruct (Pool.allocate _ _) as [pool_idx pool1].
  destruct (pool_idx =? INVALID_POOL_INDEX)%N; [done|].
  destruct (find_or_create_level _ _ _) as [it levels1] eqn:Hfc.
  destruct (find_or_create_level_spec _ _ _ _ _ Hfc) as [(l0 & Hl0 & Hp0) Hold].
  destruct (PriceLevel.push_back _ _ _) as [pool2 lvl] eqn:Hpb. cbn [fst].
  rewrite Hl0 in Hpb. simpl in Hpb.
  assert (Hlvl : PriceLevel.price lvl = p).
  { replace lvl with (PriceLevel.push_back pool1 l0 pool_idx).2 by (by rewrite Hpb).
    by rewrite push_back_price. }
  (* the prices of the taker's side: the old ones and [p] *)
  assert (Hside : forall l', l' ∈ <[it := lvl]> levels1 ->
            l' ∈ levels_of s (ms_book st) \/ PriceLevel.price l' = p).
  { intros l' Hl'. apply list_elem_of_lookup_1 in Hl' as [j Hj].
    apply list_lookup_insert_Some in Hj as [(_ & <- & _)|[_ Hj]]; [by right|].
    apply Hold. by eapply list_elem_of_lookup_2. }
  intros lb la Hlb Hla. destruct s; simpl in *.
  - (* a resting buy *)
    assert (Hla' : la ∈ asks_ (ms_book st)) by done.
    destruct (Hside lb Hlb) as [Hlb'|Hlb'].
    + by apply Hu1.
    + specialize (Hstops la ltac:(lia) Hla').
      unfold price_stops in Hstops; simpl in Hstops. lia.
  - assert (Hlb' : lb ∈ bids_ (ms_book st)) by done.
    destruct (Hside la Hla) as [Hla'|Hla'].
    + by apply Hu1.
    + specialize (Hstops lb ltac:(lia) Hlb').
      unfold price_stops in Hstops; simpl in Hstops. lia.
Qed.

Lemma set_map_uncrossed b m : uncrossed b -> uncrossed (set_map m b).
Proof. done. Qed.

Lemma apply_op_uncrossed b op :
  Inv b -> uncrossed b -> uncrossed (apply_op b op).1.
Proof.
  intros Hb Hu. pose proof Hb as [[ch Hinv] Hne].
  destruct op as [id tr s p q|id tr s q|id|id q p]; simpl.
  - by apply add_limit_internal_uncrossed.
  - unfold add_market. cbn [fst].
    eapply uncrossed_within; [exact Hu|]. intros s0. apply match_order_prices.
  - unfold cancel. destruct (order_map_ b !! id) as [idx|]; [|done]. cbn [fst].
    apply set_map_uncrossed.
    eapply uncrossed_within; [exact Hu|]. intros s0.
    apply remove_order_internal_prices.
  - unfold modify. destruct (order_map_ b !! id) as [idx|] eqn:Hid; [|done].
    destruct (remove_order_inv b ch id idx Hinv Hne Hid) as (Hinv2 & _).
    assert (Hu2 : uncrossed (set_map (delete id (order_map_ (remove_order_internal b idx)))
                                     (remove_order_internal b idx))).
    { apply set_map_uncrossed. eapply uncrossed_within; [exact Hu|].
      intros s0. apply remove_order_internal_prices. }
    destruct (_ && _); [by apply add_limit_internal_uncrossed|].
    destruct (q <? _); [|by apply add_limit_internal_uncrossed].
    cbn [fst]. eapply uncrossed_within; [exact Hu|]. intros s0.
    set (s := Order.side (Pool.at_ (order_pool_ b) idx)).
    destruct (decide (s0 = s)) as [->|Hs].
    + rewrite levels_of_set_levels.
      destruct (levels_of s b !! _) as [l|] eqn:Hl; [|apply prices_within_refl].
      eapply prices_within_insert; [exact Hl|reflexivity].
    + rewrite levels_of_set_levels_ne by done. apply prices_within_refl.
Qed.

Lemma reachable_uncrossed b : reachable b -> uncrossed b.
Proof.
  induction 1 as [max_orders Hc|b op Hr IH Hop].
  - intros lb la Hlb. simpl in Hlb. by apply elem_of_nil in Hlb.
  - apply apply_op_uncrossed; [by apply reachable_Inv|done].
Qed.
End Uncrossed.

(* ===================================================================== *)
(** ** The queries of the book *)
(* ===================================================================== *)

Section Queries.
Implicit Types (ls : list PriceLevel.t) (l : PriceLevel.t) (b : OrderBook).

(** Without empty levels the scan stops at the first level. *)
Lemma first_nonempty_head ls : levels_nonempty ls -> first_nonempty ls = head ls.
Proof.
  intros H. destruct ls as [|l ls]; [done|]. simpl.
  apply Forall_cons in H as [-> _]. done.
Qed.

Lemma count_nonempty_all ls count :
  levels_nonempty ls ->
  count_nonempty ls count = Nat.iter (length ls) incr_u64 count.
Proof.
  intros H. revert count. induction H as [|l ls Hl _ IH]; intros count; [done|].
  simpl count_nonempty. rewrite Hl. simpl negb. cbv iota. rewrite IH.
  simpl length. by rewrite Nat.iter_succ_r.
Qed.

Lemma incr_u64_iter n count :
  (count + N.of_nat n < 2 ^ 64)%N ->
  Nat.iter n incr_u64 count = (count + N.of_nat n)%N.
Proof.
  induction n as [|n IH]; intros Hb; simpl; [lia|].
  rewrite IH by lia. unfold incr_u64, wrap_u64. rewrite N.mod_small; lia.
Qed.

(** Each level holds an order of its own, so a side has no more
    levels than the pool has slots. *)
Lemma length_le_concat (cs : list (list N)) :
  Forall (fun c => c <> []) cs -> (length cs <= length (concat cs))%nat.
Proof.
  induction 1 as [|c cs Hc _ IH]; simpl; [lia|].
  rewrite length_app. destruct c; [done|]. simpl. lia.
Qed.

Lemma levels_length_bound b s :
  Inv b -> (N.of_nat (length (levels_of s b)) <= Pool.capacity_ (order_pool_ b))%N.
Proof.
  intros [[ch Hinv] Hne].
  pose proof Hinv as (Hpool & Hlv & Hnd & _).
  specialize (Hlv s). specialize (Hne s).
  assert (Hnonnil : Forall (fun c => c <> []) (chains_of s ch)).
  { clear -Hlv Hne. induction Hlv as [|l c ls cs Hok _ IH]; [constructor|].
    apply Forall_cons in Hne as [He Hne]. constructor; [|by apply IH].
    intros ->. destruct Hok as (_ & Hcnt & _).
    unfold PriceLevel.empty in He. rewrite Hcnt in He. done. }
  rewrite (Forall2_length _ _ _ Hlv).
  pose proof (length_le_concat _ Hnonnil) as Hle.
  assert (Hb : (N.of_nat (length (concat (chains_of s ch)))
                <= Pool.capacity_ (order_pool_ b))%N).
  { apply bounded_NoDup_length; [by apply all_slots_NoDup_side|].
    intros x Hx. eapply pool_ok_live_bound; [exact Hpool|].
    eapply inv_slot_live; [exact Hinv|]. apply (all_slots_side s). by left. }
  lia.
Qed.
End Queries.

Section RestingOrders.
(** An indexed order is linked at a level of its side, at its price. *)
Lemma indexed_order_level b id i :
  Inv b -> order_map_ b !! id = Some i ->
  slot_live (order_pool_ b) i /\
  Order.order_id (Pool.at_ (order_pool_ b) i) = id /\
  exists l, l ∈ levels_of (Order.side (Pool.at_ (order_pool_ b) i)) b /\
            PriceLevel.price l = Order.price (Pool.at_ (order_pool_ b) i).
Proof.
  intros [[ch Hinv] _] Hid.
  pose proof Hinv as (_ & _ & _ & Hmap & _).
  destruct (Hmap id i Hid) as [Hin Hoid].
  destruct (inv_slot_resting b ch i Hinv Hin) as
    (s & li & l & c & Hl & _ & _ & (Hlive & Hside & Hprice & _)).
  split; [done|]. split; [done|]. exists l. rewrite Hside.
  split; [by eapply list_elem_of_lookup_2|done].
Qed.
End RestingOrders.

(** X1.  The book is never crossed: in every reachable state each bid
    level is priced strictly below each ask level, so every resting buy
    order is priced strictly below every resting sell order, the best bid
    is below the best ask, and the spread, when it fits 64 bits, is their
    positive difference. *)
Theorem book_never_crossed (b : OrderBook) :
  reachable b ->
  (forall lb la, lb ∈ bids_ b -> la ∈ asks_ b ->
                 PriceLevel.price lb < PriceLevel.price la) /\
  (forall idb ida i j,
     order_map_ b !! idb = Some i -> order_map_ b !! ida = Some j ->
     Order.side (Pool.at_ (order_pool_ b) i) = Buy ->
     Order.side (Pool.at_ (order_pool_ b) j) = Sell ->
     Order.price (Pool.at_ (order_pool_ b) i)
     < Order.price (Pool.at_ (order_pool_ b) j)) /\
  (forall bid ask,
     best_bid b = Some bid -> best_ask b = Some ask ->
     bid < ask /\
     (in_i64 (ask - bid) -> spread b = Some (ask - bid) /\ 0 < ask - bid)).
Proof.
  intros Hr. pose proof (reachable_uncrossed b Hr) as Hu.
  pose proof (reachable_Inv b Hr) as Hb.
  split; [exact Hu|]. split.
  - intros idb ida i j Hi Hj Hsi Hsj.
    destruct (indexed_order_level b idb i Hb Hi) as (_ & _ & lb & Hlb & <-).
    destruct (indexed_order_level b ida j Hb Hj) as (_ & _ & la & Hla & <-).
    rewrite Hsi in Hlb. rewrite Hsj in Hla. by apply Hu.
  - intros bid ask Hbid Hask.
    assert (Hlt : bid < ask).
    { destruct Hb as [_ Hne]. unfold best_bid, best_ask in *.
      rewrite (first_nonempty_head (bids_ b) (Hne Buy)) in Hbid.
      rewrite (first_nonempty_head (asks_ b) (Hne Sell)) in Hask. simpl in *.
      destruct (bids_ b) as [|lb ?] eqn:Eb; [done|].
      destruct (asks_ b) as [|la ?] eqn:Ea; [done|].
      simpl in *. injection Hbid as <-. injection Hask as <-.
      apply Hu; rewrite ?Eb, ?Ea; left. }
    split; [done|]. intros Hfit. unfold spread. rewrite Hbid, Hask.
    rewrite wrap_i64_id by done. split; [done|lia].
Qed.

Lemma book_never_crossed_witness :
  reachable sample_book /\
  best_bid sample_book = Some 97 /\ best_ask sample_book = Some 100 /\
  97 < 100 /\ spread sample_book = Some 3.
Proof.
  split; [exact sample_book_reachable|].
  assert (Hb : best_bid sample_book = Some 97) by (vm_compute; reflexivity).
  assert (Ha : best_ask sample_book = Some 100) by (vm_compute; reflexivity).
  split; [exact Hb|]. split; [exact Ha|].
  destruct (book_never_crossed sample_book sample_book_reachable) as (_ & _ & H).
  destruct (H 97 100 Hb Ha) as [Hlt Hs]. split; [exact Hlt|].
  apply Hs. unfold in_i64. lia.
Defined.

(** X2.  In every reachable state [best_bid] is the highest price of a
    resting buy order and [best_ask] the lowest price of a resting sell
    order; each is absent exactly when its side holds no level, and the
    best quantities are the totals of those first levels.  No level is
    empty, so [bid_levels] and [ask_levels] count every level. *)
Theorem best_prices_are_extreme (b : OrderBook) :
  reachable b ->
  (best_bid b = None <-> bids_ b = []) /\
  (best_ask b = None <-> asks_ b = []) /\
  (forall p, best_bid b = Some p ->
     (exists l, bids_ b !! 0%nat = Some l /\ PriceLevel.price l = p /\
                best_bid_qty b = PriceLevel.total_qty l) /\
     forall id i, order_map_ b !! id = Some i ->
                  Order.side (Pool.at_ (order_pool_ b) i) = Buy ->
                  Order.price (Pool.at_ (order_pool_ b) i) <= p) /\
  (forall p, best_ask b = Some p ->
     (exists l, asks_ b !! 0%nat = Some l /\ PriceLevel.price l = p /\
                best_ask_qty b = PriceLevel.total_qty l) /\
     forall id i, order_map_ b !! id = Some i ->
                  Order.side (Pool.at_ (order_pool_ b) i) = Sell ->
                  p <= Order.price (Pool.at_ (order_pool_ b) i)) /\
  bid_levels b = N.of_nat (length (bids_ b)) /\
  ask_levels b = N.of_nat (length (asks_ b)).
Proof.
  intros Hr. pose proof (reachable_Inv b Hr) as Hb.
  pose proof Hb as [[ch Hinv] Hne].
  pose proof Hinv as (Hpool & _ & _ & _ & Hsorted).
  assert (Hfirst : forall s, first_nonempty (levels_of s b) = head (levels_of s b)).
  { intros s. apply first_nonempty_head, Hne. }
  assert (Hbest : forall s l0 l,
            head (levels_of s b) = Some l0 -> l ∈ levels_of s b ->
            match s with
            | Buy => PriceLevel.price l <= PriceLevel.price l0
            | Sell => PriceLevel.price l0 <= PriceLevel.price l
            end).
  { intros s l0 l H0 Hl. apply list_elem_of_lookup_1 in Hl as [k Hk].
    rewrite head_lookup in H0.
    destruct k as [|k]; [assert (l = l0) as -> by congruence; destruct s; lia|].
    pose proof (StronglySorted_lookup _ _ 0 (S k) l0 l (Hsorted s)
                  ltac:(lia) H0 Hk) as Hlt.
    unfold level_before in Hlt. destruct s; simpl in Hlt; lia. }
  assert (Hcount : forall s,
            count_nonempty (levels_of s b) 0%N = N.of_nat (length (levels_of s b))).
  { intros s. rewrite count_nonempty_all by apply Hne.
    pose proof (levels_length_bound b s Hb) as Hle.
    destruct Hpool as (Hcap & _). unfold INVALID_POOL_INDEX in Hcap.
    rewrite incr_u64_iter; lia. }
  pose proof (Hfirst Buy) as HfB. pose proof (Hfirst Sell) as HfS.
  simpl in HfB, HfS.
  split; [|split; [|split; [|split; [|split]]]].
  - unfold best_bid. rewrite HfB. by destruct (bids_ b).
  - unfold best_ask. rewrite HfS. by destruct (asks_ b).
  - intros p Hp. unfold best_bid, best_bid_qty in *. rewrite HfB in *.
    pose proof (Hbest Buy) as HbB. pose proof (Hcount Buy) as HcB.
    simpl in HbB. destruct (head (bids_ b)) as [l0|] eqn:H0; [|done].
    simpl in Hp. injection Hp as <-. split.
    + exists l0. by rewrite <- head_lookup.
    + intros id i Hi Hs.
      destruct (indexed_order_level b id i Hb Hi) as (_ & _ & l & Hl & <-).
      rewrite Hs in Hl. apply (HbB l0 l eq_refl Hl).
  - intros p Hp. unfold best_ask, best_ask_qty in *. rewrite HfS in *.
    pose proof (Hbest Sell) as HbS. simpl in HbS. destruct (head (asks_ b)) as [l0|] eqn:H0; [|done].
    simpl in Hp. injection Hp as <-. split.
    + exists l0. by rewrite <- head_lookup.
    + intros id i Hi Hs.
      destruct (indexed_order_level b id i Hb Hi) as (_ & _ & l & Hl & <-).
      rewrite Hs in Hl. apply (HbS l0 l eq_refl Hl).
  - apply (Hcount Buy).
  - apply (Hcount Sell).
Qed.

Lemma best_prices_are_extreme_witness :
  reachable sample_book /\
  best_ask sample_book = Some 100 /\
  order_map_ sample_book !! 1%N = Some 0%N /\
  100 <= Order.price (Pool.at_ (order_pool_ sample_book) 0) /\
  ask_levels sample_book = 2%N.
Proof.
  split; [exact sample_book_reachable|].
  assert (Ha : best_ask sample_book = Some 100) by (vm_compute; reflexivity).
  assert (Hi : order_map_ sample_book !! 1%N = Some 0%N) by (vm_compute; reflexivity).
  destruct (best_prices_are_extreme sample_book sample_book_reachable)
    as (_ & _ & _ & Hask & _ & Hlev).
  split; [exact Ha|]. split; [exact Hi|]. split.
  - destruct (Hask 100 Ha) as [_ H]. apply (H 1%N 0%N Hi). vm_compute. reflexivity.
  - rewrite Hlev. vm_compute. reflexivity.
Defined.

(* ===================================================================== *)
(** ** Prices and quantities of the trades of a pass *)
(* ===================================================================== *)

Section TradePrices.
Variables (taker_order_id taker_trader_id : N) (side : Side).

Local Abbreviation ms := (opposite side).
Local Abbreviation fill_of := (match_fill taker_order_id taker_trader_id side).

Lemma price_stops_within price lvl :
  price_stops side price false lvl = false ->
  within_limit side price (PriceLevel.price lvl).
Proof. unfold price_stops, within_limit. destruct side; simpl; lia. Qed.

Lemma price_stops_price price is_market lvl lvl' :
  PriceLevel.price lvl' = PriceLevel.price lvl ->
  price_stops side price is_market lvl' = price_stops side price is_market lvl.
Proof. unfold price_stops. by intros ->. Qed.

(** A limit taker trades at the prices of levels within its limit. *)
Lemma match_order_within_limit b price qty :
  Inv b ->
  exists ts,
    trade_log_ (ms_book (match_order b taker_order_id taker_trader_id side
                                     price qty false))
    = trade_log_ b ++ ts /\
    Forall (fun t => within_limit side price (Trade.price t)) ts.
Proof.
  intros [[ch0 Hinv0] _].
  set (G := fun st : MatchState =>
    (exists ch, book_inv (ms_book st) ch) /\
    exists ts, trade_log_ (ms_book st) = trade_log_ b ++ ts /\
               Forall (fun t => within_limit side price (Trade.price t)) ts).
  destruct (match_order_ind3 taker_order_id taker_trader_id side
              (fun _ st => G st)
              (fun li st => G st /\
                 exists lvl, levels_of ms (ms_book st) !! li = Some lvl /\
                             price_stops side price false lvl = false)
              b price qty false) as (li & _ & HG); [| | | | | | |exact HG].
  - intros li st [[Hi _] _]. exact Hi.
  - intros li st HG Hc.
    apply match_levels_continues_spec in Hc as (lvl & Hl & _ & Hstop). eauto.
  - intros li st [[[ch Hi] (ts & Hlog & Hts)] (lvl0 & Hl0 & Hstop)] Hc.
    apply match_level_continues_spec in Hc as (lvl & Hl & _ & Hne).
    assert (lvl0 = lvl) as -> by congruence.
    destruct (match_fill_inv taker_order_id taker_trader_id side li st ch lvl
                Hi Hl Hne) as
      (m & c & c' & lvl' & Hc & Hhd & Hinv' & Hlv' & _ & Hpr & _).
    destruct (match_fill_log taker_order_id taker_trader_id side li st lvl Hl)
      as (Hlog' & _ & _).
    destruct (inv_level_chain _ ch ms li lvl Hi Hl) as (c1 & Hc1 & (_ & _ & Hrest)).
    assert (c1 = m :: c) as -> by congruence.
    apply Forall_cons in Hrest as [(_ & _ & Hprice & _) _].
    split; [split; [eauto|]|].
    + eexists. split; [by rewrite Hlog', Hlog, <- app_assoc|].
      apply Forall_app. split; [done|]. apply Forall_singleton. simpl.
      rewrite Hhd, Hprice. by apply price_stops_within.
    + exists lvl'. split.
      * rewrite Hlv'. apply list_lookup_insert_eq. by eapply lookup_lt_Some.
      * by rewrite (price_stops_price _ _ _ _ Hpr).
  - intros li st lvl [[[ch Hi] (ts & Hlog & Hts)] _] _ Hl He.
    split; [cbn [ms_book]; eexists; by eapply erase_level_inv|].
    exists ts. cbn [ms_book]. by rewrite trade_log_set_levels.
  - by intros li st lvl [HG _] _ _ _.
  - by intros li st [HG _] _.
  - split; [eauto|]. exists []. by rewrite app_nil_r.
Qed.
End TradePrices.

Section TradeQuantities.
Variables (taker_order_id taker_trader_id : N) (side : Side).

Lemma traded_qty_snoc ts t : traded_qty (ts ++ [t]) = traded_qty ts + Trade.qty t.
Proof.
  unfold traded_qty. induction ts as [|t0 ts IH]; simpl; [lia|].
  rewrite IH. lia.
Qed.

(** Every fill takes from the taker what it gives to the trade. *)
Lemma match_order_quantities b price qty is_market :
  in_i64 qty ->
  exists ts,
    trade_log_ (ms_book (match_order b taker_order_id taker_trader_id side
                                     price qty is_market))
    = trade_log_ b ++ ts /\
    ms_remaining (match_order b taker_order_id taker_trader_id side
                              price qty is_market)
    = wrap_i64 (qty - traded_qty ts).
Proof.
  intros Hq.
  apply (match_order_ind taker_order_id taker_trader_id side
           (fun st => exists ts,
              trade_log_ (ms_book st) = trade_log_ b ++ ts /\
              ms_remaining st = wrap_i64 (qty - traded_qty ts))).
  - intros li st (ts & Hlog & Hrem) Hc.
    apply match_level_continues_spec in Hc as (lvl & Hl & _).
    destruct (match_fill_log taker_order_id taker_trader_id side li st lvl Hl)
      as (Hlog' & Hrem' & _).
    eexists. split; [by rewrite Hlog', Hlog, <- app_assoc|].
    rewrite Hrem', Hrem, traded_qty_snoc. simpl.
    rewrite wrap_i64_sub_l. f_equal. lia.
  - intros li st lvl (ts & Hlog & Hrem) _ _. exists ts.
    cbn [ms_book ms_remaining]. by rewrite trade_log_set_levels.
  - exists []. simpl. rewrite app_nil_r, Z.sub_0_r.
    split; [done|]. symmetry. by apply wrap_i64_id.
Qed.

Lemma wrap_i64_wrap a : wrap_i64 (wrap_i64 a) = wrap_i64 a.
Proof. apply wrap_i64_id, wrap_i64_range. Qed.

Lemma wrap_i64_sub_r a c : wrap_i64 (a - wrap_i64 c) = wrap_i64 (a - c).
Proof.
  replace (a - wrap_i64 c) with (- (wrap_i64 c - a)) by lia.
  replace (a - c) with (- (c - a)) by lia.
  unfold wrap_i64 at 1 3. f_equal.
  rewrite <- (Z.add_0_l (- (wrap_i64 c - a) + 2 ^ 63)).
  pose proof (wrap_i64_sub_l c a) as H. unfold wrap_i64 at 1 3 in H.
  assert (H' : (wrap_i64 c - a + 2 ^ 63) mod 2 ^ 64 = (c - a + 2 ^ 63) mod 2 ^ 64) by lia.
  clear H.
  replace (0 + (- (wrap_i64 c - a) + 2 ^ 63))
    with (2 ^ 64 - (wrap_i64 c - a + 2 ^ 63)) by lia.
  replace (- (c - a) + 2 ^ 63) with (2 ^ 64 - (c - a + 2 ^ 63)) by lia.
  rewrite <- (Zminus_mod_idemp_r (2 ^ 64) (wrap_i64 c - a + 2 ^ 63)).
  rewrite <- (Zminus_mod_idemp_r (2 ^ 64) (c - a + 2 ^ 63)).
  by rewrite H'.
Qed.
End TradeQuantities.

Section LimitResponse.
(** The quantities of the answer of [add_limit] for an unused id. *)
Lemma add_limit_internal_response b id tr s p q :
  order_map_ b !! id = None ->
  let st := match_order b id tr s p q false in
  let r := (add_limit_internal b id tr s p q).2 in
  OrderResponse.qty_filled r = wrap_i64 (q - ms_remaining st) /\
  OrderResponse.qty_remaining r = ms_remaining st /\
  OrderResponse.trade_count r = ms_trades st /\
  OrderResponse.order_id r = id.
Proof.
  intros Hid. cbv zeta. unfold add_limit_internal.
  case_bool_decide as Hdup; [rewrite Hid in Hdup; by destruct Hdup|].
  set (st := match_order b id tr s p q false).
  destruct (ms_remaining st <=? 0); [done|].
  destruct (Pool.allocate _ _) as [pool_idx pool1].
  destruct (pool_idx =? INVALID_POOL_INDEX)%N; [done|].
  destruct (find_or_create_level _ _ _) as [it levels1].
  destruct (PriceLevel.push_back _ _ _) as [pool2 lvl]. done.
Qed.

(** Why [add_limit] rejects an unused id. *)
Lemma add_limit_internal_rejected b id tr s p q :
  order_map_ b !! id = None ->
  OrderResponse.result (add_limit_internal b id tr s p q).2 = Rejected ->
  ms_remaining (match_order b id tr s p q false) > 0 /\
  Pool.free_head_ (order_pool_ (ms_book (match_order b id tr s p q false)))
  = INVALID_POOL_INDEX.
Proof.
  intros Hid. unfold add_limit_internal.
  case_bool_decide as Hdup; [rewrite Hid in Hdup; by destruct Hdup|].
  set (st := match_order b id tr s p q false).
  destruct (Z.leb_spec (ms_remaining st) 0); [done|].
  unfold Pool.allocate.
  destruct (N.eqb_spec (Pool.free_head_ (order_pool_ (ms_book st)))
                       INVALID_POOL_INDEX) as [He|Hne].
  - intros _. split; [lia|done].
  - destruct (N.eqb_spec (Pool.free_head_ (order_pool_ (ms_book st)))
                         INVALID_POOL_INDEX) as [|_]; [done|].
    destruct (find_or_create_level _ _ _) as [it levels1].
    destruct (PriceLevel.push_back _ _ _) as [pool2 lvl]. simpl.
    by destruct (0 <? ms_trades st)%N.
Qed.
End LimitResponse.

(** X3.  A limit order never trades through its limit: on a reachable
    book every trade of [add_limit] for a buy is priced at or below the
    limit, and every trade for a sell at or above it. *)
Theorem limit_never_traded_through (b : OrderBook) (order_id trader_id : N)
    (side : Side) (price qty : Z) :
  reachable b ->
  Forall (fun t => match side with
                   | Buy => Trade.price t <= price
                   | Sell => price <= Trade.price t
                   end)
         (trades_since b (add_limit b order_id trader_id side price qty).1).
Proof.
  intros Hr. pose proof (reachable_Inv b Hr) as Hb. unfold add_limit.
  destruct (order_map_ b !! order_id) as [i|] eqn:Hid.
  - rewrite add_limit_internal_duplicate by (by rewrite Hid).
    rewrite trades_since_same by done. constructor.
  - destruct (match_order_within_limit order_id trader_id side b price qty Hb)
      as (ts & Hlog & Hts).
    unfold trades_since. rewrite add_limit_internal_log by done.
    rewrite Hlog, drop_app_length. exact Hts.
Qed.

Lemma limit_never_traded_through_witness :
  reachable two_asks_book /\
  trades_since two_asks_book (add_limit two_asks_book 4 2 Buy 105 12).1
  = [Trade.mk 1 4 0 2 100 10 Buy; Trade.mk 2 4 1 2 100 2 Buy] /\
  Forall (fun t => Trade.price t <= 105)
         (trades_since two_asks_book (add_limit two_asks_book 4 2 Buy 105 12).1).
Proof.
  split; [exact two_asks_book_reachable|]. split; [vm_compute; reflexivity|].
  apply (limit_never_traded_through two_asks_book 4 2 Buy 105 12).
  exact two_asks_book_reachable.
Defined.

(** X4.  Quantity is conserved in 64-bit arithmetic: for a market order,
    and for a limit order with an unused id, the filled quantity of the
    answer is the total quantity of the trades handed to the observer, and
    filled plus remaining quantity is the quantity submitted. *)
Theorem filled_plus_remaining_is_quantity (b : OrderBook) (order_id trader_id : N)
    (side : Side) (price qty : Z) :
  in_i64 qty ->
  (let r := (add_market b order_id trader_id side qty).2 in
   let ts := trades_since b (add_market b order_id trader_id side qty).1 in
   OrderResponse.qty_filled r = wrap_i64 (traded_qty ts) /\
   wrap_i64 (OrderResponse.qty_filled r + OrderResponse.qty_remaining r) = qty) /\
  (order_map_ b !! order_id = None ->
   let r := (add_limit b order_id trader_id side price qty).2 in
   let ts := trades_since b (add_limit b order_id trader_id side price qty).1 in
   OrderResponse.qty_filled r = wrap_i64 (traded_qty ts) /\
   wrap_i64 (OrderResponse.qty_filled r + OrderResponse.qty_remaining r) = qty).
Proof.
  intros Hq.
  assert (Hgen : forall p is_market,
    let st := match_order b order_id trader_id side p qty is_market in
    wrap_i64 (qty - ms_remaining st)
    = wrap_i64 (traded_qty (trades_since b (ms_book st))) /\
    wrap_i64 (wrap_i64 (qty - ms_remaining st) + ms_remaining st) = qty).
  { intros p is_market. cbv zeta.
    destruct (match_order_quantities order_id trader_id side b p qty is_market Hq)
      as (ts & Hlog & Hrem).
    rewrite (trades_since_app _ _ ts Hlog). split.
    - rewrite Hrem, wrap_i64_sub_r. f_equal. lia.
    - rewrite wrap_i64_add_l, Z.sub_add. by apply wrap_i64_id. }
  split.
  - cbv zeta. unfold add_market. cbn [fst snd OrderResponse.qty_filled
                                      OrderResponse.qty_remaining].
    apply (Hgen 0 true).
  - intros Hid. cbv zeta. unfold add_limit.
    destruct (add_limit_internal_response b order_id trader_id side price qty Hid)
      as (Hf & Hrm & _).
    rewrite Hf, Hrm. unfold trades_since.
    rewrite add_limit_internal_log by done. apply (Hgen price false).
Qed.

Lemma filled_plus_remaining_is_quantity_witness :
  in_i64 12 /\ order_map_ two_asks_book !! 4%N = None /\
  OrderResponse.qty_filled (add_limit two_asks_book 4 2 Buy 100 12).2
  = wrap_i64 (traded_qty
                (trades_since two_asks_book
                   (add_limit two_asks_book 4 2 Buy 100 12).1)) /\
  wrap_i64 (OrderResponse.qty_filled (add_limit two_asks_book 4 2 Buy 100 12).2
            + OrderResponse.qty_remaining (add_limit two_asks_book 4 2 Buy 100 12).2)
  = 12.
Proof.
  assert (Hq : in_i64 12) by (unfold in_i64; lia).
  assert (Hid : order_map_ two_asks_book !! 4%N = None) by (vm_compute; reflexivity).
  split; [exact Hq|]. split; [exact Hid|].
  destruct (filled_plus_remaining_is_quantity two_asks_book 4 2 Buy 100 12 Hq)
    as [_ H].
  exact (H Hid).
Defined.

(** X5.  On a reachable book [add_limit] rejects in two cases only.  An id
    that is already indexed is rejected and the book is left as it was.
    An unused id is rejected only when the pool was already full before
    the call, and then nothing has traded: no trade was handed to the
    observer, the trade count and the filled quantity of the answer are
    0 and the remaining quantity is the quantity submitted. *)
Theorem add_limit_rejects_only_when_full (b : OrderBook) (order_id trader_id : N)
    (side : Side) (price qty : Z) :
  reachable b ->
  (is_Some (order_map_ b !! order_id) ->
   add_limit b order_id trader_id side price qty
   = (b, OrderResponse.mk Rejected order_id 0 0 0%N)) /\
  (order_map_ b !! order_id = None ->
   OrderResponse.result (add_limit b order_id trader_id side price qty).2 = Rejected ->
   Pool.full (order_pool_ b) = true /\
   trades_since b (add_limit b order_id trader_id side price qty).1 = [] /\
   OrderResponse.trade_count (add_limit b order_id trader_id side price qty).2 = 0%N /\
   (in_i64 qty ->
    OrderResponse.qty_filled (add_limit b order_id trader_id side price qty).2 = 0 /\
    OrderResponse.qty_remaining (add_limit b order_id trader_id side price qty).2
    = qty)).
Proof.
  intros Hr. pose proof (reachable_Inv b Hr) as [Hinv _].
  split; [apply add_limit_internal_duplicate|].
  intros Hid Hrej. unfold add_limit in *.
  destruct (add_limit_internal_rejected b order_id trader_id side price qty Hid Hrej)
    as [Hrem Hfull].
  destruct (match_order_remainder_has_slot order_id trader_id side b price qty false
              Hinv Hrem Hfull) as [Hnone Htr].
  destruct (add_limit_internal_response b order_id trader_id side price qty Hid)
    as (Hf & Hrm & Htc & _).
  split; [|split; [|split]].
  - unfold Pool.full. apply N.eqb_eq.
    destruct (N.eq_dec (Pool.free_head_ (order_pool_ b)) INVALID_POOL_INDEX)
      as [|Hne]; [done|].
    destruct (match_order_free_head order_id trader_id side b price qty false
                Hinv Hne) as [_ H]. done.
  - unfold trades_since in *. by rewrite add_limit_internal_log.
  - by rewrite Htc.
  - intros Hq.
    destruct (match_order_quantities order_id trader_id side b price qty false Hq)
      as (ts & Hlog & Hrem').
    rewrite (trades_since_app _ _ ts Hlog) in Hnone. subst ts.
    simpl in Hrem'. rewrite Z.sub_0_r, (wrap_i64_id _ Hq) in Hrem'.
    rewrite Hf, Hrm, Hrem', Z.sub_diag. done.
Qed.

Lemma add_limit_rejects_only_when_full_witness :
  reachable full_book /\ order_map_ full_book !! 2%N = None /\
  OrderResponse.result (add_limit full_book 2 1 Buy 99 5).2 = Rejected /\
  Pool.full (order_pool_ full_book) = true /\
  trades_since full_book (add_limit full_book 2 1 Buy 99 5).1 = [].
Proof.
  assert (Hid : order_map_ full_book !! 2%N = None) by (vm_compute; reflexivity).
  assert (Hrej : OrderResponse.result (add_limit full_book 2 1 Buy 99 5).2 = Rejected)
    by (vm_compute; reflexivity).
  split; [exact full_book_reachable|]. split; [exact Hid|]. split; [exact Hrej|].
  destruct (add_limit_rejects_only_when_full full_book 2 1 Buy 99 5
              full_book_reachable) as [_ H].
  destruct (H Hid Hrej) as (Hfull & Hts & _). split; [exact Hfull|exact Hts].
Defined.

(** X6.  Cancelling on a reachable book.  An id that is not resting gives
    [NotFound] and leaves the book as it is.  A resting id gives
    [Cancelled] with the quantity the order still had; the order leaves
    the index and the queue of its side, its slot is returned to the pool
    as the next one to be handed out, no trade is made, and every other
    order keeps its place in price-time priority, its identity and its
    remaining quantity. *)
Theorem cancel_removes_only_that_order (b : OrderBook) (order_id : N) :
  reachable b ->
  let b' := (cancel b order_id).1 in
  let r := (cancel b order_id).2 in
  match order_map_ b !! order_id with
  | None => b' = b /\ r = OrderResponse.mk NotFound order_id 0 0 0%N
  | Some idx =>
      let o := Pool.at_ (order_pool_ b) idx in
      r = OrderResponse.mk Cancelled order_id 0 (Order.qty_remaining o) 0%N /\
      order_map_ b' = delete order_id (order_map_ b) /\
      (exists A B, priority_order (Order.side o) b = A ++ idx :: B /\
                   priority_order (Order.side o) b' = A ++ B) /\
      priority_order (opposite (Order.side o)) b'
      = priority_order (opposite (Order.side o)) b /\
      (forall j,
         ident (Pool.at_ (order_pool_ b') j) = ident (Pool.at_ (order_pool_ b) j) /\
         Order.qty_remaining (Pool.at_ (order_pool_ b') j)
         = Order.qty_remaining (Pool.at_ (order_pool_ b) j)) /\
      (forall j, slot_live (order_pool_ b') j <->
                 slot_live (order_pool_ b) j /\ j <> idx) /\
      Pool.free_head_ (order_pool_ b') = idx /\
      trades_since b b' = [] /\
      trade_count b' = trade_count b /\ total_volume b' = total_volume b
  end.
Proof.
  intros Hr. cbv zeta. unfold cancel.
  destruct (order_map_ b !! order_id) as [idx|] eqn:Hid; [|done].
  destruct (reachable_Inv b Hr) as [[ch Hinv] Hne].
  destruct (remove_order_chains b ch order_id idx Hinv Hne Hid) as
    ((ch2 & A & B & Hinv2 & HA & HB & Hopp & Hmap & Hsame & Hlive)
     & _ & Hfh & _ & _ & Hlog & Htr & Hvol).
  cbn [fst snd]. split; [done|]. split; [exact Hmap|].
  rewrite !(priority_order_chains b ch _ Hinv).
  rewrite !(priority_order_chains _ ch2 _ Hinv2).
  split; [by exists A, B|]. split; [exact Hopp|].
  split; [exact Hsame|]. split; [exact Hlive|]. split; [exact Hfh|].
  split; [|split].
  - unfold trades_since. rewrite Hlog. apply drop_all.
  - unfold trade_count. exact Htr.
  - unfold total_volume. exact Hvol.
Qed.

(** Cancelling order 1 of [two_asks_book] (orders 1 and 2 at 100, order 3
    at 101): orders 2 and 3 keep their order. *)
Lemma cancel_removes_only_that_order_witness :
  reachable two_asks_book /\
  order_map_ two_asks_book !! 1%N = Some 0%N /\
  priority_order Sell two_asks_book = [0; 1; 2]%N /\
  priority_order Sell (cancel two_asks_book 1).1 = [1; 2]%N /\
  (cancel two_asks_book 1).2 = OrderResponse.mk Cancelled 1 0 10 0%N /\
  trades_since two_asks_book (cancel two_asks_book 1).1 = [].
Proof.
  split; [exact two_asks_book_reachable|].
  pose proof (cancel_removes_only_that_order two_asks_book 1
                two_asks_book_reachable) as H.
  cbv zeta in H.
  change (order_map_ two_asks_book !! 1%N) with (Some 0%N) in H.
  destruct H as (Hres & _ & _ & _ & _ & _ & _ & Hts & _).
  split; [reflexivity|]. split; [vm_compute; reflexivity|].
  split; [vm_compute; reflexivity|]. split; [|exact Hts].
  rewrite Hres. vm_compute. reflexivity.
Defined.

Section OwnChains.
Variables (taker_order_id taker_trader_id : N) (side : Side).

Local Abbreviation ms := (opposite side).
Local Abbreviation fill_of := (match_fill taker_order_id taker_trader_id side).

(** Matching leaves the queues of the taker's own side, and the orders
    in them, as they were. *)
Lemma match_order_own_chains b ch price qty is_market :
  book_inv b ch ->
  let st := match_order b taker_order_id taker_trader_id side price qty is_market in
  exists ch',
    book_inv (ms_book st) ch' /\
    chains_of side ch' = chains_of side ch /\
    (forall j, ident (Pool.at_ (order_pool_ (ms_book st)) j)
               = ident (Pool.at_ (order_pool_ b) j)) /\
    (forall j, j ∈ concat (chains_of side ch) ->
               Order.qty_remaining (Pool.at_ (order_pool_ (ms_book st)) j)
               = Order.qty_remaining (Pool.at_ (order_pool_ b) j)).
Proof.
  intros Hinv0. cbv zeta.
  set (G := fun st : MatchState =>
    exists ch',
      book_inv (ms_book st) ch' /\
      chains_of side ch' = chains_of side ch /\
      (forall j, ident (Pool.at_ (order_pool_ (ms_book st)) j)
                 = ident (Pool.at_ (order_pool_ b) j)) /\
      (forall j, j ∈ concat (chains_of side ch) ->
                 Order.qty_remaining (Pool.at_ (order_pool_ (ms_book st)) j)
                 = Order.qty_remaining (Pool.at_ (order_pool_ b) j))).
  destruct (match_order_ind3 taker_order_id taker_trader_id side
              (fun _ st => G st) (fun _ st => G st)
              b price qty is_market) as (li & HG); [| | | | | | |exact HG].
  - intros li st (ch' & Hi & _). eauto.
  - by intros li st HG _.
  - intros li st (ch' & Hi & Hown & Hid & Hq) Hc.
    apply match_level_continues_spec in Hc as (lvl & Hl & _ & Hne).
    destruct (match_fill_inv taker_order_id taker_trader_id side li st ch' lvl
                Hi Hl Hne) as
      (m & c & c' & lvl' & Hc & Hhd & Hinv' & _).
    eexists. split; [exact Hinv'|].
    split; [|split].
    + rewrite chains_of_set_chains_ne by (by destruct side). exact Hown.
    + intros j. by rewrite match_fill_ident.
    + intros j Hj. rewrite <- (Hq j Hj).
      eapply match_fill_qty_other; [exact Hl|].
      rewrite Hhd. intros ->.
      destruct Hi as (_ & _ & Hnd & _).
      rewrite <- Hown in Hj.
      apply (all_slots_sides_disjoint side ch' m Hnd Hj).
      eapply elem_concat_lookup; [exact Hc|left].
  - intros li st lvl (ch' & Hi & Hown & Hid & Hq) _ Hl He.
    exists (set_chains ms (delete li (chains_of ms ch')) ch').
    cbn [ms_book]. split; [by eapply erase_level_inv|].
    split; [|split].
    + rewrite chains_of_set_chains_ne by (by destruct side). exact Hown.
    + intros j. by book_simpl.
    + intros j Hj. book_simpl. by apply Hq.
  - by intros li st lvl HG _ _ _.
  - by intros li st HG _.
  - exists ch. by cbn [ms_book].
Qed.
End OwnChains.

Section QueuePrices.
Implicit Types (b : OrderBook) (ch : Chains) (s : Side).

(** The queues of a side hold, level by level, orders of the level's
    price: better priced ones before a level, worse priced ones after. *)
Lemma chains_sorted_prices b ch s it l c :
  book_inv b ch ->
  levels_of s b !! it = Some l ->
  chains_of s ch !! it = Some c ->
  (forall j, j ∈ concat (take it (chains_of s ch)) ->
             worse s (PriceLevel.price l) (Order.price (order_at b j))) /\
  (forall j, j ∈ c -> Order.price (order_at b j) = PriceLevel.price l) /\
  (forall j, j ∈ concat (drop (S it) (chains_of s ch)) ->
             worse s (Order.price (order_at b j)) (PriceLevel.price l)).
Proof.
  intros Hinv Hl Hc.
  pose proof Hinv as (_ & Hlv & _ & _ & Hsorted).
  assert (Hprice : forall k lk ck j,
            levels_of s b !! k = Some lk -> chains_of s ch !! k = Some ck ->
            j ∈ ck -> Order.price (order_at b j) = PriceLevel.price lk).
  { intros k lk ck j Hk Hck Hj.
    destruct (inv_level_chain b ch s k lk Hinv Hk) as (c0 & Hc0 & (_ & _ & Hrest)).
    assert (c0 = ck) as -> by congruence.
    rewrite Forall_forall in Hrest. by destruct (Hrest j Hj) as (_ & _ & Hp & _). }
  split; [|split].
  - intros j Hj. apply elem_of_concat in Hj as (ck & Hck & Hj).
    apply elem_of_take in Hck as (k & Hck & Hlt).
    destruct (Forall2_lookup_r _ _ _ k ck (Hlv s) Hck) as (lk & Hk & _).
    rewrite (Hprice k lk ck j Hk Hck Hj).
    pose proof (StronglySorted_lookup _ _ k it lk l (Hsorted s) Hlt Hk Hl) as H.
    unfold level_before in H. destruct s; simpl in *; lia.
  - intros j Hj. by eapply Hprice.
  - intros j Hj. apply elem_of_concat in Hj as (ck & Hck & Hj).
    apply list_elem_of_lookup_1 in Hck as (k & Hck).
    rewrite lookup_drop in Hck.
    destruct (Forall2_lookup_r _ _ _ _ ck (Hlv s) Hck) as (lk & Hk & _).
    rewrite (Hprice _ lk ck j Hk Hck Hj).
    pose proof (StronglySorted_lookup _ _ it (S it + k) l lk (Hsorted s)
                  ltac:(lia) Hl Hk) as H.
    unfold level_before in H. destruct s; simpl in *; lia.
Qed.
End QueuePrices.

Section RestingPlace.
(** Where [add_limit_internal] links the remainder of an order. *)
Lemma add_limit_internal_rests b order_id trader_id side price qty :
  Inv b ->
  order_map_ b !! order_id = None ->
  let b' := (add_limit_internal b order_id trader_id side price qty).1 in
  let r := (add_limit_internal b order_id trader_id side price qty).2 in
  OrderResponse.result r = Accepted \/ OrderResponse.result r = PartiallyFilled ->
  exists idx A B,
    order_map_ b' !! order_id = Some idx /\
    priority_order side b = A ++ B /\
    priority_order side b' = A ++ idx :: B /\
    Forall (fun j => no_worse side (Order.price (order_at b' j)) price) A /\
    Forall (fun j => worse side (Order.price (order_at b' j)) price) B /\
    ident (order_at b' idx) = (order_id, trader_id, side, price) /\
    Order.qty_remaining (order_at b' idx) = OrderResponse.qty_remaining r /\
    0 < OrderResponse.qty_remaining r /\
    forall j, j ∈ priority_order side b ->
      ident (order_at b' j) = ident (order_at b j) /\
      Order.qty_remaining (order_at b' j) = Order.qty_remaining (order_at b j).
Proof.
  intros Hb Hid. cbv zeta. unfold add_limit_internal.
  case_bool_decide as Hdup; [rewrite Hid in Hdup; by destruct Hdup|].
  destruct Hb as [[ch Hinv] Hne].
  pose proof (match_order_Inv order_id trader_id side b price qty false
                (conj (ex_intro _ ch Hinv) Hne)) as [_ Hne1].
  destruct (match_order_own_chains order_id trader_id side b ch price qty false
              Hinv) as (ch1 & Hinv1 & Hown & Hid1 & Hq1).
  pose proof (match_order_map_sub order_id trader_id side b price qty false
                order_id) as Hsub.
  set (st := match_order b order_id trader_id side price qty false) in *.
  destruct (Z.leb_spec (ms_remaining st) 0) as [Hle|Hgt];
    [by intros [H|H]; discriminate H|].
  destruct (Pool.allocate _ _) as [idx pool1] eqn:Halloc.
  destruct (N.eqb_spec idx INVALID_POOL_INDEX) as [He|Hidx];
    [by intros [H|H]; discriminate H|].
  destruct (find_or_create_level _ _ _) as [it levels1] eqn:Hfc.
  destruct (PriceLevel.push_back _ _ _) as [pool2 lvl] eqn:Hpb.
  intros _. cbn [fst snd].
  assert (Hid' : order_map_ (ms_book st) !! order_id = None).
  { destruct (order_map_ (ms_book st) !! order_id) as [i|] eqn:Hi; [|done].
    specialize (Hsub i eq_refl). congruence. }
  destruct (rest_order_chains (ms_book st) ch1 order_id trader_id side price
              (ms_remaining st) idx pool1 it levels1 pool2 lvl
              Hinv1 Hne1 Hid' Halloc Hidx Hfc Hpb) as
    ((ch' & c & Hinv' & Hc' & Hprice & Hcat & _ & Hident & Hqty & Hfresh & Hoth) & _).
  set (b' := set_levels side _ _) in *.
  assert (Hl' : levels_of side b' !! it = Some lvl).
  { unfold b'. rewrite levels_of_set_levels.
    pose proof Hinv' as (_ & Hlv & _).
    destruct (Forall2_lookup_r _ _ _ it _ (Hlv side) Hc') as (l0 & Hl0 & _).
    unfold b' in Hl0. rewrite levels_of_set_levels in Hl0.
    apply list_lookup_insert_eq. apply lookup_lt_Some in Hl0.
    by rewrite length_insert in Hl0. }
  destruct (chains_sorted_prices b' ch' side it lvl (c ++ [idx]) Hinv' Hl' Hc')
    as (Hbefore & Hsame & Hafter).
  exists idx, (concat (take it (chains_of side ch')) ++ c),
    (concat (drop (S it) (chains_of side ch'))).
  split; [unfold b'; book_simpl; apply lookup_insert_eq|].
  split.
  { rewrite (priority_order_chains b ch side Hinv), <- Hown, Hcat.
    by rewrite app_assoc. }
  split.
  { rewrite (priority_order_chains b' ch' side Hinv').
    destruct (concat_insert (chains_of side ch') it _ (c ++ [idx]) Hc') as [-> _].
    by rewrite <- !app_assoc. }
  split.
  { apply Forall_app. split; apply Forall_forall; intros j Hj.
    - specialize (Hbefore j Hj). rewrite Hprice in Hbefore.
      unfold worse, no_worse in *. destruct side; lia.
    - rewrite (Hsame j) by (apply elem_of_app; by left). rewrite Hprice.
      unfold no_worse. destruct side; lia. }
  split.
  { apply Forall_forall. intros j Hj. specialize (Hafter j Hj).
    by rewrite Hprice in Hafter. }
  split; [exact Hident|]. split; [exact Hqty|].
  split; [change (0 < ms_remaining st); lia|].
  intros j Hj. rewrite (priority_order_chains b ch side Hinv) in Hj.
  assert (Hji : j <> idx).
  { intros ->. apply Hfresh. apply (all_slots_side side). left. by rewrite Hown. }
  destruct (Hoth j Hji) as [Hi1 Hi2]. unfold order_at.
  split; [by rewrite Hi1, Hid1|]. rewrite Hi2. by apply Hq1.
Qed.
End RestingPlace.

(** X7.  Where a limit order comes to rest.  On a reachable book, when
    [add_limit] for an unused id answers [Accepted] or [PartiallyFilled],
    the order is indexed under its id with the identity it was sent with
    and the unfilled quantity of the answer, which is positive; it stands
    in the price-time priority of its side behind every order priced at
    least as well and ahead of every order priced worse; and the orders
    that were resting on that side keep their relative order, identity
    and remaining quantity. *)
Theorem limit_order_rests_behind_its_price (b : OrderBook)
    (order_id trader_id : N) (side : Side) (price qty : Z) :
  reachable b ->
  order_map_ b !! order_id = None ->
  let b' := (add_limit b order_id trader_id side price qty).1 in
  let r := (add_limit b order_id trader_id side price qty).2 in
  OrderResponse.result r = Accepted \/ OrderResponse.result r = PartiallyFilled ->
  exists idx A B,
    order_map_ b' !! order_id = Some idx /\
    priority_order side b = A ++ B /\
    priority_order side b' = A ++ idx :: B /\
    Forall (fun j => no_worse side (Order.price (order_at b' j)) price) A /\
    Forall (fun j => worse side (Order.price (order_at b' j)) price) B /\
    ident (order_at b' idx) = (order_id, trader_id, side, price) /\
    Order.qty_remaining (order_at b' idx) = OrderResponse.qty_remaining r /\
    0 < OrderResponse.qty_remaining r /\
    forall j, j ∈ priority_order side b ->
      ident (order_at b' j) = ident (order_at b j) /\
      Order.qty_remaining (order_at b' j) = Order.qty_remaining (order_at b j).
Proof.
  intros Hr. apply add_limit_internal_rests. by apply reachable_Inv.
Qed.

(** A sell at 100 for 5 units on [two_asks_book] (orders 1 and 2 at 100,
    order 3 at 101) rests behind orders 1 and 2 and ahead of order 3. *)
Lemma limit_order_rests_behind_its_price_witness :
  reachable two_asks_book /\
  order_map_ two_asks_book !! 9%N = None /\
  OrderResponse.result (add_limit two_asks_book 9 4 Sell 100 5).2 = Accepted /\
  priority_order Sell two_asks_book = [0; 1; 2]%N /\
  priority_order Sell (add_limit two_asks_book 9 4 Sell 100 5).1 = [0; 1; 3; 2]%N /\
  exists idx,
    order_map_ (add_limit two_asks_book 9 4 Sell 100 5).1 !! 9%N = Some idx /\
    ident (order_at (add_limit two_asks_book 9 4 Sell 100 5).1 idx)
    = (9%N, 4%N, Sell, 100).
Proof.
  split; [exact two_asks_book_reachable|].
  split; [reflexivity|]. split; [vm_compute; reflexivity|].
  split; [vm_compute; reflexivity|]. split; [vm_compute; reflexivity|].
  destruct (limit_order_rests_behind_its_price two_asks_book 9 4 Sell 100 5
              two_asks_book_reachable eq_refl)
    as (idx & A & B & Hm & _ & _ & _ & _ & Hi & _).
  { left. vm_compute. reflexivity. }
  exists idx. split; [exact Hm|exact Hi].
Defined.

(** X8.  Reducing a resting order in place.  On a reachable book, a
    [modify] that keeps the price (the new price is 0 or the order's own)
    and asks for less than the order's remaining quantity answers
    [Modified] and changes that quantity only: the index, the price-time
    priority of both sides and the identity of every order stay as they
    are, no other order's quantity changes, no trade is made, and the
    total of the order's level goes down by the difference. *)
Theorem modify_reduce_keeps_priority (b : OrderBook) (order_id : N)
    (new_qty new_price : Z) (idx : N) :
  reachable b ->
  order_map_ b !! order_id = Some idx ->
  new_price = 0 \/ new_price = Order.price (order_at b idx) ->
  new_qty < Order.qty_remaining (order_at b idx) ->
  let o := order_at b idx in
  let b' := (modify b order_id new_qty new_price).1 in
  (modify b order_id new_qty new_price).2
  = OrderResponse.mk Modified order_id 0 new_qty 0%N /\
  order_map_ b' = order_map_ b /\
  (forall s, priority_order s b' = priority_order s b) /\
  Order.qty_remaining (order_at b' idx) = new_qty /\
  (forall j, ident (order_at b' j) = ident (order_at b j)) /\
  (forall j, j <> idx ->
     Order.qty_remaining (order_at b' j) = Order.qty_remaining (order_at b j)) /\
  trades_since b b' = [] /\
  levels_of (opposite (Order.side o)) b' = levels_of (opposite (Order.side o)) b /\
  exists li l,
    levels_of (Order.side o) b !! li = Some l /\
    PriceLevel.price l = Order.price o /\
    levels_of (Order.side o) b'
    = <[li := PriceLevel.reduce_qty l
                (wrap_i64 (Order.qty_remaining o - new_qty))]>
        (levels_of (Order.side o) b).
Proof.
  intros Hr Hid Hprice Hqty. cbv zeta. unfold order_at in *.
  destruct (reachable_Inv b Hr) as [[ch Hinv] Hne].
  destruct (modify_reduce_chains b ch order_id idx new_qty Hinv Hne Hid)
    as (Hinv' & _ & li & l & Hl & Hli & Hpl).
  cbv zeta in Hinv', Hl, Hli, Hpl.
  unfold modify. rewrite Hid.
  assert (Hbranch : negb (new_price =? 0)
                    && negb (new_price =? Order.price (Pool.at_ (order_pool_ b) idx))
                    = false).
  { destruct Hprice as [->| ->]; [done|].
    rewrite Z.eqb_refl. apply andb_false_r. }
  rewrite Hbranch.
  destruct (Z.ltb_spec new_qty (Order.qty_remaining (Pool.at_ (order_pool_ b) idx)))
    as [_|Hge]; [|lia].
  cbn [fst snd]. rewrite Hli, Hl in *.
  set (s := Order.side (Pool.at_ (order_pool_ b) idx)) in *.
  assert (Hlive : slot_live (order_pool_ b) idx).
  { pose proof Hinv as (_ & _ & _ & Hmap & _).
    destruct (Hmap order_id idx Hid) as [Hin _].
    by eapply inv_slot_live. }
  split; [done|]. split; [by book_simpl|].
  split.
  { intros s0. rewrite (priority_order_chains _ ch s0 Hinv').
    by rewrite (priority_order_chains b ch s0 Hinv). }
  split.
  { book_simpl. rewrite update_at_eq by (by apply slot_live_dom). done. }
  split.
  { intros j. book_simpl. apply update_ident. intros o. reflexivity. }
  split.
  { intros j Hj. book_simpl. by rewrite update_at_ne. }
  split.
  { unfold trades_since. rewrite trade_log_set_levels. apply drop_all. }
  split.
  { rewrite levels_of_set_levels_ne by (by destruct s). done. }
  exists li, l. split; [done|]. split; [done|].
  by rewrite levels_of_set_levels.
Qed.

(** Order 1 of [two_asks_book] (10 units at 100, ahead of order 2) is
    reduced to 4 units and stays ahead of order 2. *)
Lemma modify_reduce_keeps_priority_witness :
  reachable two_asks_book /\
  order_map_ two_asks_book !! 1%N = Some 0%N /\
  Order.qty_remaining (order_at two_asks_book 0) = 10 /\
  (modify two_asks_book 1 4 0).2 = OrderResponse.mk Modified 1 0 4 0%N /\
  priority_order Sell (modify two_asks_book 1 4 0).1 = [0; 1; 2]%N /\
  Order.qty_remaining (order_at (modify two_asks_book 1 4 0).1 0) = 4.
Proof.
  split; [exact two_asks_book_reachable|].
  split; [reflexivity|]. split; [vm_compute; reflexivity|].
  destruct (modify_reduce_keeps_priority two_asks_book 1 4 0 0
              two_asks_book_reachable eq_refl)
    as (Hres & _ & Hprio & Hq & _).
  { by left. }
  { vm_compute. reflexivity. }
  split; [exact Hres|]. split; [|exact Hq].
  rewrite Hprio. vm_compute. reflexivity.
Defined.

(** X9.  A [modify] that changes the price, or that does not lower the
    quantity, is a cancel followed by a fresh limit order under the same
    id: on a reachable book it gives what [add_limit_internal] gives on
    the book left by [cancel].  When the answer is [Accepted] or
    [PartiallyFilled] the order has lost its place: it is linked again
    behind every order of its side priced at least as well, the other
    orders of the side keeping their relative order, identity and
    quantity.  With any other answer the id is no longer indexed. *)
Theorem modify_reenters_behind (b : OrderBook) (order_id : N)
    (new_qty new_price : Z) (idx : N) :
  reachable b ->
  order_map_ b !! order_id = Some idx ->
  (new_price <> 0 /\ new_price <> Order.price (order_at b idx)) \/
  Order.qty_remaining (order_at b idx) <= new_qty ->
  let o := order_at b idx in
  let side := Order.side o in
  let price := if new_price =? 0 then Order.price o else new_price in
  let b' := (modify b order_id new_qty new_price).1 in
  let r := (modify b order_id new_qty new_price).2 in
  modify b order_id new_qty new_price
  = add_limit_internal (cancel b order_id).1 order_id (Order.trader_id o)
                       side price new_qty /\
  (OrderResponse.result r = Accepted \/ OrderResponse.result r = PartiallyFilled ->
   exists idx' A B A' B',
     priority_order side b = A ++ idx :: B /\
     priority_order side b' = A' ++ idx' :: B' /\
     A' ++ B' = A ++ B /\
     order_map_ b' !! order_id = Some idx' /\
     Forall (fun j => no_worse side (Order.price (order_at b' j)) price) A' /\
     Forall (fun j => worse side (Order.price (order_at b' j)) price) B' /\
     ident (order_at b' idx') = (order_id, Order.trader_id o, side, price) /\
     Order.qty_remaining (order_at b' idx') = OrderResponse.qty_remaining r /\
     forall j, j ∈ A ++ B ->
       ident (order_at b' j) = ident (order_at b j) /\
       Order.qty_remaining (order_at b' j) = Order.qty_remaining (order_at b j)) /\
  (OrderResponse.result r <> Accepted ->
   OrderResponse.result r <> PartiallyFilled ->
   order_map_ b' !! order_id = None).
Proof.
  intros Hr Hid Hcase. cbv zeta. unfold order_at in *.
  set (o := Pool.at_ (order_pool_ b) idx) in *.
  set (price := if new_price =? 0 then Order.price o else new_price).
  set (b2 := (cancel b order_id).1).
  assert (Hmod : modify b order_id new_qty new_price
                 = add_limit_internal b2 order_id (Order.trader_id o)
                                      (Order.side o) price new_qty).
  { unfold modify, b2, cancel, price. rewrite Hid. cbn [fst]. fold o.
    destruct (Z.eqb_spec new_price 0) as [H0|H0];
      destruct (Z.eqb_spec new_price (Order.price o)) as [Hp|Hp];
      cbn [negb andb]; try reflexivity.
    - destruct (Z.ltb_spec new_qty (Order.qty_remaining o)); [|done].
      destruct Hcase as [[? ?]|?]; [done|lia].
    - destruct (Z.ltb_spec new_qty (Order.qty_remaining o)); [|done].
      destruct Hcase as [[? ?]|?]; [done|lia].
    - destruct (Z.ltb_spec new_qty (Order.qty_remaining o)); [|by rewrite Hp].
      destruct Hcase as [[? ?]|?]; [done|lia]. }
  rewrite Hmod. split; [done|].
  destruct (reachable_Inv b Hr) as [[ch Hinv] Hne].
  assert (Hb2 : b2 = set_map (delete order_id
                               (order_map_ (remove_order_internal b idx)))
                             (remove_order_internal b idx)).
  { unfold b2, cancel. by rewrite Hid. }
  pose proof (remove_order_chains b ch order_id idx Hinv Hne Hid) as Hrem.
  cbv zeta in Hrem. rewrite <- Hb2 in Hrem. fold o in Hrem.
  destruct Hrem as
    ((ch2 & A & B & Hinv2 & HA & HB & _ & _ & Hsame & _)
     & Hne2 & _ & _ & Hnone & _).
  assert (Hinvb2 : Inv b2) by (split; [eauto|done]).
  split.
  - intros Hres.
    destruct (add_limit_internal_rests b2 order_id (Order.trader_id o)
                (Order.side o) price new_qty Hinvb2 Hnone Hres)
      as (idx' & A' & B' & Hm & Hp2 & Hp' & HfA & HfB & Hi & Hq & _ & Hoth).
    exists idx', A, B, A', B'.
    rewrite (priority_order_chains b ch _ Hinv).
    rewrite (priority_order_chains b2 ch2 _ Hinv2) in Hp2, Hoth.
    split; [exact HA|]. split; [exact Hp'|].
    split; [by rewrite <- Hp2, HB|]. split; [exact Hm|].
    split; [exact HfA|]. split; [exact HfB|]. split; [exact Hi|].
    split; [exact Hq|].
    intros j Hj. rewrite <- HB in Hj. destruct (Hoth j Hj) as [H1 H2].
    unfold order_at in *. destruct (Hsame j) as [H3 H4].
    split; congruence.
  - intros Hna Hnp. unfold add_limit_internal in *.
    case_bool_decide as Hdup; [done|].
    pose proof (match_order_map_sub order_id (Order.trader_id o) (Order.side o)
                  b2 price new_qty false order_id) as Hsub.
    set (st := match_order b2 order_id (Order.trader_id o) (Order.side o)
                           price new_qty false) in *.
    assert (Hst : order_map_ (ms_book st) !! order_id = None).
    { destruct (order_map_ (ms_book st) !! order_id) as [i|] eqn:Hi; [|done].
      specialize (Hsub i eq_refl). congruence. }
    destruct (ms_remaining st <=? 0); [exact Hst|].
    destruct (Pool.allocate _ _) as [pool_idx pool1].
    destruct (pool_idx =? INVALID_POOL_INDEX)%N; [by book_simpl|].
    destruct (find_or_create_level _ _ _) as [it levels1].
    destruct (PriceLevel.push_back _ _ _) as [pool2 lvl].
    cbn [fst snd] in *. exfalso.
    destruct (0 <? ms_trades st)%N; [by apply Hnp|by apply Hna].
Qed.

(** Order 1 of [two_asks_book] (ahead of order 2 at 100, order 3 at 101)
    is raised from 10 to 12 units and re-enters behind order 2. *)
Lemma modify_reenters_behind_witness :
  reachable two_asks_book /\
  order_map_ two_asks_book !! 1%N = Some 0%N /\
  Order.qty_remaining (order_at two_asks_book 0) = 10 /\
  priority_order Sell two_asks_book = [0; 1; 2]%N /\
  (modify two_asks_book 1 12 0).2 = OrderResponse.mk Accepted 1 0 12 0%N /\
  priority_order Sell (modify two_asks_book 1 12 0).1 = [1; 0; 2]%N /\
  modify two_asks_book 1 12 0
  = add_limit_internal (cancel two_asks_book 1).1 1 0 Sell 100 12.
Proof.
  split; [exact two_asks_book_reachable|].
  split; [reflexivity|]. split; [vm_compute; reflexivity|].
  split; [vm_compute; reflexivity|]. split; [vm_compute; reflexivity|].
  split; [vm_compute; reflexivity|].
  destruct (modify_reenters_behind two_asks_book 1 12 0 0
              two_asks_book_reachable eq_refl) as [Hmod _].
  { right. vm_compute. discriminate. }
  exact Hmod.
Defined.

(** X10.  A market order takes liquidity only.  On a reachable book, an
    [add_market] that answers [PartiallyFilled] has emptied the opposite
    side; whatever the answer, the levels and the price-time priority of
    the taker's own side and the orders resting there are as before, and
    no id is added to the index. *)
Theorem market_order_sweeps (b : OrderBook) (order_id trader_id : N)
    (side : Side) (qty : Z) :
  reachable b ->
  let b' := (add_market b order_id trader_id side qty).1 in
  let r := (add_market b order_id trader_id side qty).2 in
  (OrderResponse.result r = PartiallyFilled ->
   levels_of (opposite side) b' = []) /\
  levels_of side b' = levels_of side b /\
  priority_order side b' = priority_order side b /\
  (forall j, j ∈ priority_order side b ->
     ident (order_at b' j) = ident (order_at b j) /\
     Order.qty_remaining (order_at b' j) = Order.qty_remaining (order_at b j)) /\
  (forall id i, order_map_ b' !! id = Some i -> order_map_ b !! id = Some i).
Proof.
  intros Hr. cbv zeta. unfold add_market. cbn [fst snd OrderResponse.result].
  pose proof (reachable_Inv b Hr) as Hb.
  destruct (match_order_ends order_id trader_id side b 0 qty true Hb) as [Hend|Hend].
  all: destruct Hb as [[ch Hinv] _].
  all: destruct (match_order_own_chains order_id trader_id side b ch 0 qty true
                   Hinv) as (ch' & Hinv' & Hown & Hid & Hq).
  all: set (st := match_order b order_id trader_id side 0 qty true) in *.
  all: split; [|split; [apply match_order_own_side|split; [|split]]].
  all: try (rewrite (priority_order_chains _ ch' side Hinv'),
             (priority_order_chains b ch side Hinv), Hown; reflexivity).
  all: try (intros j Hj; rewrite (priority_order_chains b ch side Hinv) in Hj;
            unfold order_at; split; [apply Hid|by apply Hq]).
  all: try (intros id i; apply match_order_map_sub).
  - destruct (Z.leb_spec (ms_remaining st) 0); [discriminate|lia].
  - destruct (Z.leb_spec (ms_remaining st) 0) as [Hle|Hgt]; [discriminate|].
    intros _. unfold match_levels_continues in Hend.
    destruct (levels_of (opposite side) (ms_book st)) as [|lvl ls] eqn:Hl; [done|].
    simpl in Hend. apply andb_false_iff in Hend as [Hend|Hend]; [lia|].
    by destruct side.
Qed.

(** A buy of 40 units takes all 22 units offered by [two_asks_book]. *)
Lemma market_order_sweeps_witness :
  reachable two_asks_book /\
  (add_market two_asks_book 9 4 Buy 40).2
  = OrderResponse.mk PartiallyFilled 9 22 18 3%N /\
  asks_ (add_market two_asks_book 9 4 Buy 40).1 = [].
Proof.
  split; [exact two_asks_book_reachable|].
  split; [vm_compute; reflexivity|].
  destruct (market_order_sweeps two_asks_book 9 4 Buy 40 two_asks_book_reachable)
    as [H _].
  apply H. vm_compute. reflexivity.
Defined.

Section IndexSize.
(** A map that is in one-to-one correspondence with a duplicate-free
    list has the length of the list as its size. *)
Lemma map_size_bijection (m : gmap N N) (l : list N) (f : N -> N) :
  NoDup l ->
  (forall id i, m !! id = Some i -> i ∈ l /\ f i = id) ->
  (forall j, j ∈ l -> m !! f j = Some j) ->
  size m = length l.
Proof.
  intros Hnd Hm Hl.
  set (L := (fun j => (f j, j)) <$> l).
  assert (Hfst : L.*1 = f <$> l).
  { unfold L. rewrite <- list_fmap_compose. done. }
  assert (Hkeys : NoDup L.*1).
  { rewrite Hfst. apply NoDup_fmap_2_strong; [|done].
    intros x y Hx Hy Hxy. pose proof (Hl x Hx) as H1. pose proof (Hl y Hy) as H2.
    rewrite Hxy in H1. congruence. }
  assert (Heq : m = list_to_map L).
  { apply map_eq. intros id. apply option_eq. intros i.
    rewrite <- elem_of_list_to_map by done. unfold L.
    rewrite list_elem_of_fmap. split.
    - intros Hi. destruct (Hm id i Hi) as [Hin Hf]. exists i. by rewrite Hf.
    - intros (j & [= -> ->] & Hj). by apply Hl. }
  rewrite Heq, map_size_list_to_map by done.
  unfold L. by rewrite length_fmap.
Qed.
End IndexSize.

(** X11.  The index and the queues describe the same orders.  In every
    reachable state no slot is linked twice; an id is indexed exactly when
    its slot is linked in a level and holds an order with that id; every
    linked slot is in use, holds an order of the side it is queued on and
    is found by [has_order] and by the pool's [get]; and the number of
    indexed ids is the number of linked orders, at most the capacity of
    the pool. *)
Theorem index_matches_queues (b : OrderBook) :
  reachable b ->
  NoDup (linked_orders b) /\
  (forall id i, order_map_ b !! id = Some i <->
                i ∈ linked_orders b /\ Order.order_id (order_at b i) = id) /\
  (forall s j, j ∈ priority_order s b ->
     Order.side (order_at b j) = s /\
     Pool.is_valid (order_pool_ b) j = true /\
     Pool.get (order_pool_ b) j = Some (order_at b j) /\
     has_order b (Order.order_id (order_at b j)) = true) /\
  size (order_map_ b) = length (linked_orders b) /\
  (N.of_nat (length (linked_orders b)) <= Pool.capacity (order_pool_ b))%N.
Proof.
  intros Hr. destruct (reachable_Inv b Hr) as [[ch Hinv] _].
  pose proof Hinv as (Hpool & _ & Hnd & Hmap & _).
  assert (Hlinked : linked_orders b = all_slots ch).
  { unfold linked_orders, all_slots.
    by rewrite !(priority_order_chains b ch _ Hinv). }
  assert (Hrest : forall j, j ∈ all_slots ch ->
            slot_live (order_pool_ b) j /\
            order_map_ b !! Order.order_id (order_at b j) = Some j).
  { intros j Hj.
    destruct (inv_slot_resting b ch j Hinv Hj) as
      (s & li & l & c & _ & _ & _ & (Hlive & _ & _ & Hjm)). done. }
  rewrite Hlinked. split; [done|]. split; [|split; [|split]].
  - intros id i. split; [apply Hmap|].
    intros [Hi <-]. by apply Hrest.
  - intros s j Hj. rewrite (priority_order_chains b ch s Hinv) in Hj.
    assert (Hin : j ∈ all_slots ch) by (apply (all_slots_side s); by left).
    destruct (Hrest j Hin) as [Hlive Hjm].
    destruct (pool_ok_live_bound _ _ Hpool Hlive) as [Hcap _].
    split.
    { destruct (inv_slot_resting b ch j Hinv Hin) as
        (s0 & li & l & c & _ & Hc & Hjc & (_ & Hside & _)).
      unfold order_at. rewrite Hside.
      destruct (decide (s0 = s)) as [->|Hne]; [done|].
      exfalso. apply (all_slots_sides_disjoint s ch j Hnd Hj).
      replace (opposite s) with s0 by (by destruct s, s0).
      eapply elem_concat_lookup; eauto. }
    unfold Pool.is_valid, Pool.get, has_order, order_at.
    unfold slot_live in Hlive. rewrite Hlive.
    destruct (N.ltb_spec j (Pool.capacity_ (order_pool_ b))); [|lia].
    destruct (N.leb_spec (Pool.capacity_ (order_pool_ b)) j); [lia|].
    split; [done|]. split; [done|].
    apply bool_decide_eq_true. unfold order_at in Hjm. by rewrite Hjm.
  - apply (map_size_bijection _ _ (fun i => Order.order_id (order_at b i))); [done| |].
    + intros id i Hi. by apply Hmap.
    + intros j Hj. by apply Hrest.
  - apply bounded_NoDup_length; [done|].
    intros x Hx. eapply pool_ok_live_bound; [exact Hpool|]. by apply Hrest.
Qed.

(** In [sample_book] one buy and two sells are linked and indexed. *)
Lemma index_matches_queues_witness :
  reachable sample_book /\
  linked_orders sample_book = [2; 1; 0]%N /\
  size (order_map_ sample_book) = 3%nat /\
  NoDup (linked_orders sample_book).
Proof.
  split; [exact sample_book_reachable|].
  destruct (index_matches_queues sample_book sample_book_reachable)
    as (Hnd & _ & _ & Hsize & _).
  split; [vm_compute; reflexivity|]. split; [|exact Hnd].
  rewrite Hsize. vm_compute. reflexivity.
Defined.

(* ===================================================================== *)
(** ** The ring buffer is a bounded queue *)
(* ===================================================================== *)

Section RingBufferFacts.
Context {T : Type}.
Implicit Types (rb : RingBuffer.t T) (q : list T).
Local Open Scope N_scope.

(** A capacity accepted by the [requires] clause is a power of two. *)
Lemma requires_power_of_two Capacity :
  RingBuffer.requires Capacity = true -> exists k, Capacity = (2 ^ k)%N.
Proof.
  unfold RingBuffer.requires. intros H.
  apply andb_true_iff in H as [Hpos Hland].
  apply N.ltb_lt in Hpos. apply N.eqb_eq in Hland.
  exists (N.log2 Capacity).
  destruct (N.log2_spec Capacity Hpos) as [Hlo Hhi].
  destruct (N.eq_dec Capacity (2 ^ N.log2 Capacity)) as [|Hne]; [done|].
  exfalso.
  assert (Hbit : N.testbit Capacity (N.log2 Capacity) = true).
  { apply N.bit_log2. lia. }
  assert (Hlog : N.log2 (Capacity - 1) = N.log2 Capacity).
  { apply N.log2_unique; [lia|]. lia. }
  assert (Hbit' : N.testbit (Capacity - 1) (N.log2 Capacity) = true).
  { rewrite <- Hlog. apply N.bit_log2.
    assert (2 ^ N.log2 Capacity <> 0) by (apply N.pow_nonzero; lia).
    lia. }
  assert (Hb : N.testbit (N.land Capacity (Capacity - 1)) (N.log2 Capacity) = true).
  { by rewrite N.land_spec, Hbit, Hbit'. }
  rewrite Hland in Hb. by rewrite N.bits_0 in Hb.
Qed.

(** Masking the successor is the successor modulo the capacity. *)
Lemma mask_succ Capacity i :
  RingBuffer.requires Capacity = true -> (Capacity < 2 ^ 64)%N ->
  (i < Capacity)%N ->
  N.land (wrap_u64 (i + 1)) (RingBuffer.MASK Capacity) = ((i + 1) mod Capacity)%N.
Proof.
  intros Hreq Hcap Hi. destruct (requires_power_of_two _ Hreq) as [k ->].
  unfold RingBuffer.MASK, wrap_u64.
  rewrite (N.mod_small (i + 1)) by lia.
  rewrite N.sub_1_r, <- N.ones_equiv. apply N.land_ones.
Qed.

Lemma mod_window_inj Capacity a b :
  a < b -> b < a + Capacity -> a mod Capacity <> b mod Capacity.
Proof.
  intros Hab Hb Heq.
  assert (HC : Capacity <> 0) by lia.
  pose proof (N.div_mod a Capacity HC) as Ha.
  pose proof (N.div_mod b Capacity HC) as Hb'.
  rewrite <- Heq in Hb'.
  assert (Hlt : a / Capacity < b / Capacity) by nia.
  nia.
Qed.

Lemma ring_holds_new Capacity (init : T) :
  0 < Capacity -> ring_holds Capacity (RingBuffer.new Capacity init) [].
Proof.
  intros HC. unfold ring_holds, RingBuffer.new. simpl.
  rewrite length_replicate. split; [done|]. split; [done|].
  split; [done|]. split; [lia|]. split; [|done].
  rewrite N.add_0_l. by rewrite N.mod_0_l by lia.
Qed.

(** Every call acts on the buffer as on the queue it holds. *)
Lemma ring_call_simulates Capacity rb q op :
  RingBuffer.requires Capacity = true -> Capacity < 2 ^ 64 ->
  ring_holds Capacity rb q ->
  (ring_call Capacity rb op).1 = (queue_call Capacity q op).1 /\
  ring_holds Capacity (ring_call Capacity rb op).2 (queue_call Capacity q op).2.
Proof.
  intros Hreq Hcap (Hlen & Htail & Hsize & Hle & Hhead & Hcells).
  assert (HC : 0 < Capacity).
  { unfold RingBuffer.requires in Hreq. apply andb_true_iff in Hreq as [H _].
    by apply N.ltb_lt. }
  assert (Hhd : RingBuffer.head_ rb < Capacity).
  { rewrite Hhead. apply N.mod_lt. lia. }
  destruct op as [v| | |]; simpl.
  - (* push *)
    unfold RingBuffer.push. rewrite Hsize.
    destruct (N.leb_spec Capacity (N.of_nat (length q))) as [Hfull|Hroom];
      destruct (N.ltb_spec (N.of_nat (length q)) Capacity) as [Hroom'|Hfull'];
      try lia; simpl.
    + split; [done|]. by repeat split.
    + split; [done|]. unfold ring_holds; simpl.
      rewrite length_insert, mask_succ by done.
      split; [done|]. split; [done|].
      rewrite length_app. simpl length.
      assert (Hw : wrap_u64 (N.of_nat (length q) + 1) = N.of_nat (length q) + 1).
      { unfold wrap_u64. apply N.mod_small. lia. }
      split; [rewrite Hw; lia|].
      split; [rewrite Hw; lia|].
      split.
      * rewrite Hhead, Hsize, Hw. rewrite N.add_mod_idemp_l by lia.
        f_equal. lia.
      * intros k x Hk.
        destruct (decide (k < length q)%nat) as [Hlt|Hge].
        -- rewrite lookup_app_l in Hk by done.
           rewrite list_lookup_insert_ne; [by apply Hcells|].
           rewrite Hhead, Hsize. intros Heq. apply N2Nat.inj in Heq.
           symmetry in Heq. revert Heq. apply mod_window_inj; lia.
        -- pose proof (lookup_lt_Some _ _ _ Hk) as Hb.
           rewrite length_app in Hb. simpl in Hb.
           assert (k = length q) as -> by lia.
           rewrite lookup_app_r, Nat.sub_diag in Hk by lia.
           injection Hk as <-.
           rewrite <- Hsize, <- Hhead.
           apply list_lookup_insert_eq. lia.
  - (* pop *)
    unfold RingBuffer.pop. rewrite Hsize.
    destruct q as [|x q']; simpl.
    + split; [done|]. by repeat split.
    + destruct (N.eqb_spec (N.pos (Pos.of_succ_nat (length q'))) 0) as [|_]; [lia|].
      simpl. pose proof (Hcells 0%nat x eq_refl) as H0.
      rewrite N.add_0_r, N.mod_small in H0 by done.
      rewrite H0. split; [done|].
      unfold ring_holds; simpl. rewrite mask_succ by done.
      simpl length in Hsize.
      split; [done|]. split; [apply N.mod_lt; lia|].
      split; [lia|]. split; [lia|]. split.
      * rewrite Hhead, Hsize. rewrite N.add_mod_idemp_l by lia.
        f_equal. lia.
      * intros k y Hk. rewrite N.add_mod_idemp_l by lia.
        replace (RingBuffer.tail_ rb + 1 + N.of_nat k)
          with (RingBuffer.tail_ rb + N.of_nat (S k)) by lia.
        by apply Hcells.
  - (* peek *)
    split; [|by repeat split].
    unfold RingBuffer.peek. rewrite Hsize. destruct q as [|x q']; simpl; [done|].
    pose proof (Hcells 0%nat x eq_refl) as H0.
    rewrite N.add_0_r, N.mod_small in H0 by done. by rewrite H0.
  - (* clear *)
    split; [done|]. unfold ring_holds; simpl.
    split; [done|]. split; [done|]. split; [done|]. split; [lia|].
    split; [|done]. rewrite N.add_0_l. by rewrite N.mod_0_l by lia.
Qed.

Lemma ring_run_simulates Capacity ops : forall rb q,
  RingBuffer.requires Capacity = true -> Capacity < 2 ^ 64 ->
  ring_holds Capacity rb q ->
  ring_run Capacity rb ops = queue_run Capacity q ops.
Proof.
  induction ops as [|op ops IH]; intros rb q Hreq Hcap Hholds; simpl; [done|].
  destruct (ring_call_simulates Capacity rb q op Hreq Hcap Hholds) as [Hres Hnext].
  destruct (ring_call Capacity rb op) as [r rb'].
  destruct (queue_call Capacity q op) as [r' q']. simpl in Hres, Hnext. subst r'.
  rewrite (IH rb' q' Hreq Hcap Hnext). f_equal. f_equal.
  destruct Hnext as (_ & _ & Hsize & _).
  unfold RingBuffer.size, RingBuffer.empty, RingBuffer.full. rewrite Hsize.
  f_equal; [f_equal|].
  - by destruct q'.
  - destruct (N.leb_spec Capacity (N.of_nat (length q'))).
    + by rewrite bool_decide_eq_true_2.
    + rewrite bool_decide_eq_false_2; [done|lia].
Qed.
End RingBufferFacts.

(** X12.  [RingBuffer<T, Capacity>] is a first-in first-out queue bounded
    by [Capacity]: for a capacity accepted by the [requires] clause, any
    sequence of [push], [pop], [peek] and [clear] calls on a new buffer
    returns what the same calls return on a queue that refuses a push
    when it holds [Capacity] elements, and [size()], [empty()] and
    [full()] report the length of that queue after every call. *)
Theorem ring_buffer_is_bounded_queue {T : Type} (Capacity : N) (init : T)
    (ops : list (RingOp T)) :
  RingBuffer.requires Capacity = true ->
  (Capacity < 2 ^ 64)%N ->
  ring_run Capacity (RingBuffer.new Capacity init) ops = queue_run Capacity [] ops.
Proof.
  intros Hreq Hcap. apply ring_run_simulates; [done|done|].
  apply ring_holds_new. unfold RingBuffer.requires in Hreq.
  apply andb_true_iff in Hreq as [H _]. by apply N.ltb_lt.
Qed.

(** A buffer of two cells: the third push is refused, the elements come
    out in the order they went in, and the cells are reused. *)
Lemma ring_buffer_is_bounded_queue_witness :
  ring_run 2 (RingBuffer.new 2 0%N)
    [RingPush 7%N; RingPush 8%N; RingPush 9%N; RingPop; RingPush 9%N;
     RingPop; RingPop; RingPop]
  = [(Pushed true, (1%N, false, false)); (Pushed true, (2%N, false, true));
     (Pushed false, (2%N, false, true)); (Popped (Some 7%N), (1%N, false, false));
     (Pushed true, (2%N, false, true)); (Popped (Some 8%N), (1%N, false, false));
     (Popped (Some 9%N), (0%N, true, false)); (Popped None, (0%N, true, false))].
Proof.
  rewrite (ring_buffer_is_bounded_queue 2 0%N); [reflexivity|reflexivity|reflexivity].
Defined.

(* ===================================================================== *)
(** ** Parsing the names of the enumerations *)
(* ===================================================================== *)

Section Strings.
Lemma is_nul_spec c : is_nul c = true <-> c = Ascii.zero.
Proof. unfold is_nul. apply Ascii.eqb_eq. Qed.

Lemma is_nul_false c : is_nul c = false <-> c <> Ascii.zero.
Proof. unfold is_nul. apply Ascii.eqb_neq. Qed.
End Strings.

(** X13.  [str_equal] decides equality of C strings: it returns true
    exactly when the two arguments hold the same characters up to their
    terminators. *)
Theorem str_equal_decides_equality (a b : string) :
  str_equal a b = true <-> c_str a = c_str b.
Proof.
  revert b. induction a as [|x a IH]; intros [|y b]; cbn [str_equal c_str].
  - done.
  - rewrite Ascii.eqb_sym. fold (is_nul y).
    destruct (is_nul y); split; (done || discriminate).
  - fold (is_nul x). destruct (is_nul x); split; (done || discriminate).
  - destruct (is_nul x) eqn:Hx, (is_nul y) eqn:Hy; cbn [negb andb].
    + apply is_nul_spec in Hx, Hy. subst. by rewrite Ascii.eqb_refl.
    + apply is_nul_spec in Hx. apply is_nul_false in Hy. subst.
      split; [|discriminate]. intros H. apply Ascii.eqb_eq in H. congruence.
    + apply is_nul_false in Hx. apply is_nul_spec in Hy. subst.
      split; [|discriminate]. intros H. by apply Ascii.eqb_eq in H.
    + destruct (Ascii.eqb_spec x y) as [->|Hne]; cbn [negb].
      * rewrite IH. split; [by intros ->|]. by intros [= ->].
      * split; [discriminate|]. intros [= ? _]. contradiction.
Qed.

(** X14.  The parsers invert [to_string] and accept exactly the spellings
    listed in the source: [parse_side] gives [Buy] for "Buy" and "B" and
    [Sell] for any other string; [parse_order_type] gives [NewMarket],
    [Cancel] and [Modify] for their names and the letters "M", "C" and
    "X", and [NewLimit] for any other string.  The names of the order
    results are pairwise distinct. *)
Theorem parsers_invert_to_string :
  (forall s, parse_side (to_string_Side s) = s) /\
  (forall t, parse_order_type (to_string_OrderType t) = t) /\
  (forall str, parse_side str = Buy <-> c_str str = "Buy" \/ c_str str = "B") /\
  (forall str, parse_order_type str = NewMarket <->
               c_str str = "NewMarket" \/ c_str str = "M") /\
  (forall str, parse_order_type str = Cancel <->
               c_str str = "Cancel" \/ c_str str = "C") /\
  (forall str, parse_order_type str = Modify <->
               c_str str = "Modify" \/ c_str str = "X") /\
  (forall r r', to_string_OrderResult r = to_string_OrderResult r' -> r = r').
Proof.
  assert (Heq : forall str lit, c_str lit = lit ->
            str_equal str lit = true <-> c_str str = lit).
  { intros str lit Hlit. rewrite str_equal_decides_equality. by rewrite Hlit. }
  assert (Hor : forall str l1 l2, c_str l1 = l1 -> c_str l2 = l2 ->
            str_equal str l1 || str_equal str l2 = true <->
            c_str str = l1 \/ c_str str = l2).
  { intros str l1 l2 H1 H2. rewrite orb_true_iff. by rewrite !Heq. }
  assert (Hnor : forall str l1 l2, c_str l1 = l1 -> c_str l2 = l2 ->
            str_equal str l1 || str_equal str l2 = false ->
            c_str str <> l1 /\ c_str str <> l2).
  { intros str l1 l2 H1 H2 H. split; intros Hc.
    - assert (Ht : str_equal str l1 || str_equal str l2 = true)
        by (apply Hor; auto). congruence.
    - assert (Ht : str_equal str l1 || str_equal str l2 = true)
        by (apply Hor; auto). congruence. }
  split; [by intros []|]. split; [by intros []|].
  split.
  { intros str. unfold parse_side.
    destruct (str_equal str "Buy" || str_equal str "B") eqn:H.
    - split; [|done]. intros _. by apply Hor.
    - apply Hnor in H as [H1 H2]; [|done..]. split; [discriminate|tauto]. }
  split; [|split; [|split]].
  4: { intros [] []; simpl; (done || discriminate). }
  all: intros str; unfold parse_order_type.
  all: destruct (str_equal str "NewLimit" || str_equal str "L") eqn:HL;
    [apply Hor in HL; [|done..]|apply Hnor in HL as [HL1 HL2]; [|done..]].
  all: destruct (str_equal str "NewMarket" || str_equal str "M") eqn:HM;
    [apply Hor in HM; [|done..]|apply Hnor in HM as [HM1 HM2]; [|done..]].
  all: destruct (str_equal str "Cancel" || str_equal str "C") eqn:HC;
    [apply Hor in HC; [|done..]|apply Hnor in HC as [HC1 HC2]; [|done..]].
  all: destruct (str_equal str "Modify" || str_equal str "X") eqn:HX;
    [apply Hor in HX; [|done..]|apply Hnor in HX as [HX1 HX2]; [|done..]].
  all: split; try discriminate; try tauto.
  all: try (intros [H|H]; destruct HL as [H'|H']; rewrite H' in H; discriminate).
  all: try (intros [H|H]; destruct HM as [H'|H']; rewrite H' in H; discriminate).
  all: try (intros [H|H]; destruct HC as [H'|H']; rewrite H' in H; discriminate).
Qed.

(* ===================================================================== *)
(** ** The arena allocator *)
(* ===================================================================== *)

Section ArenaFacts.
Local Open Scope N_scope.

Lemma sub_u64_small a b : b <= a -> a < 2 ^ 64 -> sub_u64 a b = a - b.
Proof.
  intros Hb Ha. unfold sub_u64, wrap_u64.
  rewrite (N.mod_small b) by lia.
  replace (a + (2 ^ 64 - b)) with (a - b + 1 * 2 ^ 64) by lia.
  rewrite N.Div0.mod_add. apply N.mod_small. lia.
Qed.

(** Clearing the low [k] bits rounds down to a multiple of [2 ^ k]. *)
Lemma land_not_ones x k :
  x < 2 ^ 64 -> k < 64 ->
  N.land x (not_u64 (2 ^ k - 1)) = x / 2 ^ k * 2 ^ k.
Proof.
  intros Hx Hk. unfold not_u64, wrap_u64.
  assert (Hp : 2 ^ k < 2 ^ 64) by (apply N.pow_lt_mono_r; lia).
  assert (Hp0 : 2 ^ k <> 0) by (apply N.pow_nonzero; lia).
  rewrite (N.mod_small (2 ^ k - 1)) by lia.
  rewrite N.sub_1_r, <- N.ones_equiv.
  rewrite <- N.shiftr_div_pow2, <- N.shiftl_mul_pow2.
  apply N.bits_inj. intros i. rewrite N.land_spec.
  destruct (N.lt_ge_cases i k) as [Hlo|Hhi].
  - rewrite N.shiftl_spec_low by done.
    rewrite N.lnot_spec_low by lia.
    rewrite N.ones_spec_low by done. apply andb_false_r.
  - rewrite N.shiftl_spec_high' by done. rewrite N.shiftr_spec'.
    replace (i - k + k) with i by lia.
    destruct (N.lt_ge_cases i 64) as [Hi|Hi].
    + rewrite N.lnot_spec_low by done.
      rewrite N.ones_spec_high by done. apply andb_true_r.
    + assert (Hbit : N.testbit x i = false).
      { destruct (N.eq_dec x 0) as [->|Hx0]; [apply N.bits_0|].
        apply N.bits_above_log2.
        assert (N.log2 x < 64) by (apply N.log2_lt_pow2; lia). lia. }
      by rewrite Hbit.
Qed.

Lemma round_up_spec offset k :
  offset <= round_up offset (2 ^ k) < offset + 2 ^ k /\
  round_up offset (2 ^ k) mod 2 ^ k = 0.
Proof.
  unfold round_up.
  assert (Hp0 : 2 ^ k <> 0) by (apply N.pow_nonzero; lia).
  set (al := 2 ^ k) in *.
  pose proof (N.div_mod (offset + al - 1) al Hp0) as Hdm.
  pose proof (N.mod_lt (offset + al - 1) al Hp0) as Hlt.
  split; [|by apply N.Div0.mod_mul].
  rewrite (N.mul_comm _ al).
  set (d := (offset + al - 1) / al) in *.
  set (m := (offset + al - 1) mod al) in *.
  assert (Hal : 0 < al) by lia.
  clearbody d m al. set (ad := al * d) in *. clearbody ad. lia.
Qed.

(** One call of [allocate]. *)
Lemma allocate_spec a size k :
  Arena.offset_ a <= Arena.capacity_ a ->
  Arena.capacity_ a + 2 ^ k + size < 2 ^ 64 ->
  let p := round_up (Arena.offset_ a) (2 ^ k) in
  Arena.allocate a size (2 ^ k)
  = if Arena.capacity_ a <? p + size then (None, a)
    else (Some p, Arena.mk (Arena.capacity_ a) (p + size)).
Proof.
  intros Hoff Hfit. cbv zeta. unfold Arena.allocate.
  assert (Hp0 : 2 ^ k <> 0) by (apply N.pow_nonzero; lia).
  assert (Hk : k < 64).
  { apply (N.pow_lt_mono_r_iff 2); lia. }
  assert (H1 : wrap_u64 (Arena.offset_ a + 2 ^ k) = Arena.offset_ a + 2 ^ k).
  { unfold wrap_u64. apply N.mod_small. lia. }
  rewrite H1, !sub_u64_small by lia.
  rewrite land_not_ones by lia.
  fold (round_up (Arena.offset_ a) (2 ^ k)).
  destruct (round_up_spec (Arena.offset_ a) k) as [[Hlo Hhi] _].
  unfold wrap_u64. rewrite (N.mod_small (_ + size)) by lia. done.
Qed.

End ArenaFacts.

(** X15.  [Arena::allocate] is a bump allocator.  For a power-of-two
    alignment, with capacity, alignment and size together below 2^64 and
    the offset within the capacity, the block starts at the least
    multiple of the alignment not below the current offset; if the block
    fits the capacity that offset is returned and [used()] becomes the end
    of the block, otherwise [nullptr] is returned and the arena is left as
    it is. *)
Theorem arena_allocate_rounds_up (a : Arena.t) (size k : N) :
  (Arena.used a <= Arena.capacity a)%N ->
  (Arena.capacity a + 2 ^ k + size < 2 ^ 64)%N ->
  let p := round_up (Arena.used a) (2 ^ k) in
  (Arena.used a <= p < Arena.used a + 2 ^ k)%N /\
  (p mod 2 ^ k = 0)%N /\
  ((p + size <= Arena.capacity a)%N ->
   (Arena.allocate a size (2 ^ k)).1 = Some p /\
   Arena.used (Arena.allocate a size (2 ^ k)).2 = (p + size)%N /\
   Arena.capacity (Arena.allocate a size (2 ^ k)).2 = Arena.capacity a) /\
  ((Arena.capacity a < p + size)%N ->
   Arena.allocate a size (2 ^ k) = (None, a)).
Proof.
  intros Hoff Hfit. cbv zeta. unfold Arena.used, Arena.capacity in *.
  destruct (round_up_spec (Arena.offset_ a) k) as [Hrange Hmod].
  split; [done|]. split; [done|].
  rewrite (allocate_spec a size k Hoff Hfit).
  split; intros H.
  - destruct (N.ltb_spec (Arena.capacity_ a)
                (round_up (Arena.offset_ a) (2 ^ k) + size)); [lia|done].
  - destruct (N.ltb_spec (Arena.capacity_ a)
                (round_up (Arena.offset_ a) (2 ^ k) + size)); [done|lia].
Qed.

(** In an arena of 64 bytes with 5 bytes used, 16 bytes aligned to 8 are
    placed at offset 8; a request for 60 more bytes is refused. *)
Lemma arena_allocate_rounds_up_witness :
  Arena.allocate (Arena.mk 64 5) 16 8 = (Some 8%N, Arena.mk 64 24) /\
  Arena.allocate (Arena.mk 64 24) 60 8 = (None, Arena.mk 64 24).
Proof.
  split.
  - destruct (arena_allocate_rounds_up (Arena.mk 64 5) 16 3) as (_ & _ & H & _);
      [vm_compute; discriminate|reflexivity|].
    destruct H as (H1 & H2 & H3); [vm_compute; discriminate|].
    change (2 ^ 3)%N with 8%N in *.
    destruct (Arena.allocate (Arena.mk 64 5) 16 8) as [p [c o]].
    simpl in *. unfold Arena.used, Arena.capacity in *. simpl in *.
    by subst.
  - destruct (arena_allocate_rounds_up (Arena.mk 64 24) 60 3) as (_ & _ & _ & H);
      [vm_compute; discriminate|reflexivity|].
    apply H. reflexivity.
Defined.

(** X16.  The blocks an arena hands out never overlap.  For any sequence
    of requests that fit the arithmetic, starting from an arena whose
    offset is within its capacity, every block handed out lies inside the
    buffer, at or after the offset the arena started from, and each block
    begins at or after the end of the block handed out before it. *)
Theorem arena_blocks_are_disjoint (a : Arena.t) (reqs : list ArenaRequest) :
  (Arena.used a <= Arena.capacity a)%N ->
  Forall (request_fits (Arena.capacity a)) reqs ->
  Forall (fun blk => (Arena.used a <= blk.1)%N /\
                     (blk.1 + blk.2 <= Arena.capacity a)%N)
         (arena_blocks a reqs) /\
  StronglySorted (fun b1 b2 => (b1.1 + b1.2 <= b2.1)%N) (arena_blocks a reqs).
Proof.
  unfold Arena.used, Arena.capacity. revert a.
  induction reqs as [|[size alignment] reqs IH]; intros a Hoff Hfit; simpl.
  { split; constructor. }
  apply Forall_cons in Hfit as [[[k Hk] Hlt] Hfit]. simpl in Hk, Hlt. subst alignment.
  rewrite (allocate_spec a size k Hoff Hlt).
  destruct (round_up_spec (Arena.offset_ a) k) as [[Hlo Hhi] _].
  set (p := round_up (Arena.offset_ a) (2 ^ k)) in *.
  destruct (N.ltb_spec (Arena.capacity_ a) (p + size)) as [Hfull|Hroom].
  - by apply IH.
  - destruct (IH (Arena.mk (Arena.capacity_ a) (p + size))) as [Hin Hsorted];
      [simpl; lia|done|]. simpl in Hin.
    split.
    + constructor; [simpl; lia|].
      eapply Forall_impl; [exact Hin|]. simpl. intros blk. lia.
    + constructor; [done|].
      eapply Forall_impl; [exact Hin|]. simpl. intros blk. lia.
Qed.

(** Three requests on a new arena of 64 bytes; the second does not fit. *)
Lemma arena_blocks_are_disjoint_witness :
  arena_blocks (Arena.new 64) [(5, 1); (100, 8); (16, 8)]%N = [(0, 5); (8, 16)]%N /\
  StronglySorted (fun b1 b2 => (b1.1 + b1.2 <= b2.1)%N)
                 (arena_blocks (Arena.new 64) [(5, 1); (100, 8); (16, 8)]%N).
Proof.
  split; [reflexivity|].
  apply (arena_blocks_are_disjoint (Arena.new 64)).
  - vm_compute. discriminate.
  - repeat constructor; simpl; try (vm_compute; reflexivity).
    + by exists 0%N.
    + by exists 3%N.
    + by exists 3%N.
Defined.

(* ===================================================================== *)
(** ** The account table *)
(* ===================================================================== *)

Section AccountTable.
Implicit Types (accs : Accounts.t) (l : list Account.t) (f : Account.t -> Account.t).

Lemma find_from_None l id pos :
  Accounts.find_from l id pos = None <-> id ∉ Account.trader_id <$> l.
Proof.
  revert pos. induction l as [|a l IH]; intros pos; simpl.
  - split; [intros _; apply not_elem_of_nil|done].
  - rewrite not_elem_of_cons.
    destruct (N.eqb_spec (Account.trader_id a) id) as [He|Hne].
    + split; [done|]. intros [H _]. by destruct H.
    + rewrite IH. split; [by intros ?; split|by intros [_ ?]].
Qed.

Lemma get_None accs id : Accounts.get accs id = None <-> id ∉ trader_ids accs.
Proof. apply find_from_None. Qed.

Lemma find_from_app l l' id pos :
  Accounts.find_from (l ++ l') id pos =
  match Accounts.find_from l id pos with
  | Some i => Some i
  | None => Accounts.find_from l' id (pos + length l)
  end.
Proof.
  revert pos. induction l as [|a l IH]; intros pos; simpl.
  - by rewrite Nat.add_0_r.
  - destruct (_ =? _)%N; [done|]. rewrite IH.
    by replace (S pos + length l)%nat with (pos + S (length l))%nat by lia.
Qed.

Lemma find_from_bound l id pos i :
  Accounts.find_from l id pos = Some i -> (i < pos + length l)%nat.
Proof.
  intros H. apply find_from_lookup in H as (a & Hle & Hl & _).
  apply lookup_lt_Some in Hl. lia.
Qed.

Lemma trader_ids_update accs k f :
  keeps_trader f -> trader_ids (Accounts.update accs k f) = trader_ids accs.
Proof.
  intros Hf. unfold trader_ids, Accounts.update; simpl.
  apply list_eq. intros i. rewrite !list_lookup_fmap, list_lookup_alter.
  case_decide as Hik; [|done]. subst i.
  destruct (Accounts.accounts_ accs !! k); simpl; [by rewrite Hf|done].
Qed.

Lemma max_traders_update accs k f :
  Accounts.max_traders_ (Accounts.update accs k f) = Accounts.max_traders_ accs.
Proof. done. Qed.

Lemma trader_ids_apply_trade accs m t s p q :
  trader_ids (Accounts.apply_trade accs m t s p q) = trader_ids accs /\
  Accounts.max_traders_ (Accounts.apply_trade accs m t s p q)
  = Accounts.max_traders_ accs.
Proof.
  unfold Accounts.apply_trade.
  destruct (Accounts.get accs m) as [mi|]; [|done].
  destruct (Accounts.get accs t) as [ti|]; [|done].
  destruct s; rewrite !trader_ids_update; try done; intros a; reflexivity.
Qed.

(** The table after a new account is appended. *)
Lemma appended_account accs id b :
  Accounts.get accs id = None ->
  let accs' := Accounts.mk (Accounts.accounts_ accs ++ [Account.make id b])
                           (Accounts.max_traders_ accs) in
  account_of accs' id = Some (Account.make id b) /\
  Accounts.get accs' id = Some (length (Accounts.accounts_ accs)) /\
  forall id', id' <> id ->
    account_of accs' id' = account_of accs id'.
Proof.
  intros Hnone. cbv zeta. unfold account_of, Accounts.get in *. simpl.
  rewrite !find_from_app, Hnone. simpl. rewrite N.eqb_refl.
  split; [by rewrite lookup_app_r, Nat.sub_diag by lia|]. split; [done|].
  intros id' Hne. rewrite find_from_app.
  destruct (Accounts.find_from (Accounts.accounts_ accs) id' 0) as [i|] eqn:Hi.
  - apply find_from_bound in Hi. by rewrite lookup_app_l by lia.
  - simpl. by destruct (N.eqb_spec id id').
Qed.
(** Every call keeps the ids distinct and the table within its bound. *)
Lemma account_call_keeps accs op :
  NoDup (trader_ids accs) ->
  (N.of_nat (length (Accounts.accounts_ accs)) <= Accounts.max_traders_ accs)%N ->
  NoDup (trader_ids (account_call accs op)) /\
  (N.of_nat (length (Accounts.accounts_ (account_call accs op)))
   <= Accounts.max_traders_ (account_call accs op))%N /\
  Accounts.max_traders_ (account_call accs op) = Accounts.max_traders_ accs.
Proof.
  intros Hnd Hlen.
  assert (Happ : forall id b, Accounts.get accs id = None ->
            (Accounts.max_traders_ accs <=? N.of_nat (length (Accounts.accounts_ accs)))%N
            = false ->
            NoDup (trader_ids (Accounts.mk
                     (Accounts.accounts_ accs ++ [Account.make id b])
                     (Accounts.max_traders_ accs))) /\
            (N.of_nat (length (Accounts.accounts_ accs ++ [Account.make id b]))
             <= Accounts.max_traders_ accs)%N).
  { intros id b Hnone Hroom. apply N.leb_gt in Hroom.
    unfold trader_ids; simpl. rewrite fmap_app, length_app; simpl.
    split; [|lia]. apply NoDup_app. split; [done|].
    split; [|apply NoDup_singleton].
    intros x Hx Hx'. apply list_elem_of_singleton in Hx'. subst x.
    by apply get_None in Hnone. }
  destruct op as [id b|id b|m t s p q|id amount|]; simpl.
  - unfold Accounts.create_account.
    destruct (Accounts.get accs id) eqn:Hg; [done|].
    destruct (_ <=? _)%N eqn:Hroom; [done|]. simpl.
    destruct (Happ id b Hg eq_refl). done.
  - unfold Accounts.get_or_create.
    destruct (Accounts.get accs id) eqn:Hg; [done|].
    destruct (_ <=? _)%N eqn:Hroom; [done|]. simpl.
    destruct (Happ id b Hg eq_refl). done.
  - destruct (trader_ids_apply_trade accs m t s p q) as [Hids Hm].
    rewrite Hids, Hm. split; [done|]. split; [|done].
    assert (Hl : length (trader_ids (Accounts.apply_trade accs m t s p q))
                 = length (trader_ids accs)) by (by rewrite Hids).
    unfold trader_ids in Hl. rewrite !length_fmap in Hl. by rewrite Hl.
  - unfold Accounts.adjust_balance.
    destruct (Accounts.get accs id) eqn:Hg; [|done]. simpl.
    rewrite trader_ids_update by (intros a; reflexivity).
    split; [done|]. split; [|done].
    unfold Accounts.update; simpl. by rewrite length_alter.
  - split; [constructor|]. split; [simpl; lia|done].
Qed.
End AccountTable.

(** X17.  The account table never holds two accounts of one trader.
    After any sequence of [create_account], [get_or_create],
    [apply_trade], [adjust_balance] and [clear] calls on a new table, the
    trader ids are pairwise distinct, [size()] is at most [max_traders],
    and [get] returns a pointer exactly for the traders that have an
    account, to an account with that trader's id. *)
Theorem accounts_hold_one_per_trader (max_traders : N) (ops : list AccountOp) :
  let accs := account_run (Accounts.new max_traders) ops in
  NoDup (trader_ids accs) /\
  (Accounts.size accs <= max_traders)%N /\
  forall id,
    (Accounts.get accs id = None <-> id ∉ trader_ids accs) /\
    (id ∈ trader_ids accs ->
     exists a, account_of accs id = Some a /\ Account.trader_id a = id).
Proof.
  cbv zeta.
  assert (Hinv : forall accs,
            NoDup (trader_ids accs) ->
            (N.of_nat (length (Accounts.accounts_ accs))
             <= Accounts.max_traders_ accs)%N ->
            NoDup (trader_ids (account_run accs ops)) /\
            (N.of_nat (length (Accounts.accounts_ (account_run accs ops)))
             <= Accounts.max_traders_ accs)%N).
  { unfold account_run. induction ops as [|op ops IH]; intros accs Hnd Hlen; simpl.
    { done. }
    destruct (account_call_keeps accs op Hnd Hlen) as (Hnd' & Hlen' & Hmax).
    rewrite <- Hmax. by apply IH. }
  destruct (Hinv (Accounts.new max_traders)) as (Hnd & Hlen);
    [constructor|simpl; lia|]. simpl in Hlen.
  set (accs := account_run _ _) in *.
  split; [done|]. split; [done|]. intros id. split; [apply get_None|].
  intros Hin. unfold account_of.
  destruct (Accounts.get accs id) as [i|] eqn:Hg.
  - destruct (get_lookup accs id i Hg) as (a & Hl & Ha). eauto.
  - apply get_None in Hg. contradiction.
Qed.

(** X18.  Creating and finding accounts.  [create_account] succeeds
    exactly when the trader has no account and the table is below
    [max_traders]; [get_or_create] returns the existing account of the
    trader untouched, or creates one under the same condition and
    otherwise returns [nullptr].  A created account holds the initial
    balance, a position of 0 and no trades, [size()] grows by one, and
    the account of every other trader is as before; a call that creates
    nothing leaves the table unchanged. *)
Theorem create_account_then_lookup (accs : Accounts.t) (id : N) (initial_balance : Z) :
  let created := Accounts.mk (Accounts.accounts_ accs ++ [Account.make id initial_balance])
                             (Accounts.max_traders_ accs) in
  let room := (Accounts.size accs <? Accounts.max_traders_ accs)%N in
  (Accounts.create_account accs id initial_balance
   = if bool_decide (account_of accs id = None) && room
     then (true, created) else (false, accs)) /\
  ((Accounts.get_or_create accs id initial_balance).2
   = if bool_decide (account_of accs id = None) && room then created else accs) /\
  (account_of accs id = None -> room = false ->
   (Accounts.get_or_create accs id initial_balance).1 = None) /\
  (forall a, account_of accs id = Some a ->
     Accounts.get_or_create accs id initial_balance = (Accounts.get accs id, accs)) /\
  (account_of accs id = None ->
   account_of created id = Some (Account.mk id initial_balance 0 0%N 0%N) /\
   Accounts.get_balance created id = initial_balance /\
   Accounts.get_position created id = 0 /\
   Accounts.size created = (Accounts.size accs + 1)%N /\
   forall id', id' <> id ->
     account_of created id' = account_of accs id' /\
     Accounts.get_balance created id' = Accounts.get_balance accs id' /\
     Accounts.get_position created id' = Accounts.get_position accs id').
Proof.
  cbv zeta.
  assert (Hnone : account_of accs id = None <-> Accounts.get accs id = None).
  { unfold account_of. destruct (Accounts.get accs id) as [i|] eqn:Hg; [|done].
    destruct (get_lookup accs id i Hg) as (a & Hl & _). rewrite Hl.
    split; discriminate. }
  assert (Hroom : (Accounts.max_traders_ accs
                   <=? N.of_nat (length (Accounts.accounts_ accs)))%N
                  = negb (Accounts.size accs <? Accounts.max_traders_ accs)%N).
  { unfold Accounts.size.
    destruct (N.leb_spec (Accounts.max_traders_ accs)
                (N.of_nat (length (Accounts.accounts_ accs))));
      destruct (N.ltb_spec (N.of_nat (length (Accounts.accounts_ accs)))
                  (Accounts.max_traders_ accs)); (done || lia). }
  assert (Hval : forall t id0,
            Accounts.get_balance t id0
            = default 0 (Account.balance <$> account_of t id0) /\
            Accounts.get_position t id0
            = default 0 (Account.position <$> account_of t id0)).
  { intros t id0. unfold Accounts.get_balance, Accounts.get_position, account_of.
    by destruct (Accounts.get t id0). }
  unfold Accounts.create_account, Accounts.get_or_create. rewrite Hroom.
  split; [|split; [|split; [|split]]].
  - destruct (Accounts.get accs id) as [i|] eqn:Hg.
    + rewrite bool_decide_eq_false_2; [done|]. rewrite Hnone. discriminate.
    + rewrite bool_decide_eq_true_2 by (by apply Hnone).
      by destruct (Accounts.size accs <? Accounts.max_traders_ accs)%N.
  - destruct (Accounts.get accs id) as [i|] eqn:Hg.
    + rewrite bool_decide_eq_false_2; [done|]. rewrite Hnone. discriminate.
    + rewrite bool_decide_eq_true_2 by (by apply Hnone).
      by destruct (Accounts.size accs <? Accounts.max_traders_ accs)%N.
  - intros Ha Hr. apply Hnone in Ha. by rewrite Ha, Hr.
  - intros a Ha. destruct (Accounts.get accs id) as [i|] eqn:Hg; [done|].
    assert (account_of accs id = None) by (by apply Hnone). congruence.
  - intros Ha. apply Hnone in Ha.
    destruct (appended_account accs id initial_balance Ha) as (Hnew & _ & Hoth).
    split; [exact Hnew|].
    destruct (Hval (Accounts.mk (Accounts.accounts_ accs
                                 ++ [Account.make id initial_balance])
                                (Accounts.max_traders_ accs)) id) as [-> ->].
    rewrite Hnew. split; [done|]. split; [done|].
    split; [unfold Accounts.size; simpl; rewrite length_app; simpl; lia|].
    intros id' Hne. specialize (Hoth id' Hne). split; [exact Hoth|].
    destruct (Hval (Accounts.mk (Accounts.accounts_ accs
                                 ++ [Account.make id initial_balance])
                                (Accounts.max_traders_ accs)) id') as [-> ->].
    destruct (Hval accs id') as [-> ->]. by rewrite Hoth.
Qed.

(** X19.  [adjust_balance] returns false and changes nothing when the
    trader has no account; otherwise it returns true, adds the amount to
    that trader's balance in 64-bit arithmetic and leaves the trader's
    position, the number of accounts and every other trader's account as
    they were. *)
Theorem adjust_balance_changes_one_balance (accs : Accounts.t) (id : N) (amount : Z) :
  let accs' := (Accounts.adjust_balance accs id amount).2 in
  (Accounts.adjust_balance accs id amount).1
  = bool_decide (is_Some (account_of accs id)) /\
  (account_of accs id = None -> accs' = accs) /\
  Accounts.get_balance accs' id
  = (if bool_decide (is_Some (account_of accs id))
     then wrap_i64 (Accounts.get_balance accs id + amount)
     else 0) /\
  Accounts.get_position accs' id = Accounts.get_position accs id /\
  Accounts.size accs' = Accounts.size accs /\
  forall id', id' <> id -> account_of accs' id' = account_of accs id'.
Proof.
  cbv zeta. unfold Accounts.adjust_balance, account_of.
  destruct (Accounts.get accs id) as [i|] eqn:Hg; simpl.
  - destruct (get_lookup accs id i Hg) as (a & Hl & Ha). rewrite Hl.
    rewrite bool_decide_eq_true_2 by eauto.
    assert (Hget : forall id0, Accounts.get
                     (Accounts.update accs i (Account.balance_fetch_add amount)) id0
                     = Accounts.get accs id0).
    { intros id0. apply get_update. intros x. reflexivity. }
    split; [done|]. split; [discriminate|].
    unfold Accounts.get_balance, Accounts.get_position. rewrite !Hget, Hg.
    unfold Accounts.update; simpl. rewrite list_lookup_alter.
    case_decide; [|done]. rewrite Hl. simpl.
    split; [done|]. split; [done|].
    split; [unfold Accounts.size; simpl; by rewrite length_alter|].
    intros id' Hne. rewrite Hget.
    destruct (Accounts.get accs id') as [j|] eqn:Hg'; [|done].
    unfold Accounts.update; simpl. rewrite list_lookup_alter.
    case_decide as Hij; [|done]. subst j. exfalso. apply Hne.
    by apply (get_injective accs id' id i).
  - unfold Accounts.get_balance. by rewrite Hg.
Qed.

(** X20.  [apply_trade] touches the two parties only.  When the maker or
    the taker has no account nothing changes, not even the account of
    the party that exists.  Otherwise every account stays where it is,
    the account of any third trader is unchanged, and each party's trade
    count goes up by one and its volume by the traded quantity (by two
    and twice the quantity when maker and taker are the same trader). *)
Theorem apply_trade_touches_only_parties (accs : Accounts.t)
    (maker_id taker_id : N) (taker_side : Side) (price qty : Z) :
  let accs' := Accounts.apply_trade accs maker_id taker_id taker_side price qty in
  let times := if bool_decide (maker_id = taker_id) then 2%nat else 1%nat in
  (account_of accs maker_id = None \/ account_of accs taker_id = None ->
   accs' = accs) /\
  (forall id, Accounts.get accs' id = Accounts.get accs id) /\
  Accounts.size accs' = Accounts.size accs /\
  (forall id, id <> maker_id -> id <> taker_id ->
     account_of accs' id = account_of accs id) /\
  (is_Some (account_of accs maker_id) -> is_Some (account_of accs taker_id) ->
   forall id a, (id = maker_id \/ id = taker_id) ->
     account_of accs id = Some a ->
     exists a', account_of accs' id = Some a' /\
       Account.trader_id a' = id /\
       Account.trade_count a'
       = Nat.iter times (fun c => wrap_u64 (c + 1)) (Account.trade_count a) /\
       Account.volume a'
       = Nat.iter times (fun v => add_i64_to_u64 v qty) (Account.volume a)).
Proof.
  cbv zeta.
  assert (Hnone : forall id, account_of accs id = None <-> Accounts.get accs id = None).
  { intros id. unfold account_of.
    destruct (Accounts.get accs id) as [i|] eqn:Hg; [|done].
    destruct (get_lookup accs id i Hg) as (a & Hl & _). rewrite Hl.
    split; discriminate. }
  assert (Hget : forall id,
            Accounts.get (Accounts.apply_trade accs maker_id taker_id taker_side
                                               price qty) id
            = Accounts.get accs id).
  { intros id. unfold Accounts.apply_trade.
    destruct (Accounts.get accs maker_id); [|done].
    destruct (Accounts.get accs taker_id); [|done].
    destruct taker_side; rewrite !get_update; try done; intros a; reflexivity. }
  split; [|split; [exact Hget|split; [|split]]].
  - unfold Accounts.apply_trade. intros [H|H]; apply Hnone in H; rewrite H; [done|].
    by destruct (Accounts.get accs maker_id).
  - destruct (trader_ids_apply_trade accs maker_id taker_id taker_side price qty)
      as [Hids _].
    assert (Hl : length (trader_ids (Accounts.apply_trade accs maker_id taker_id
                                       taker_side price qty))
                 = length (trader_ids accs)) by (by rewrite Hids).
    unfold trader_ids in Hl. rewrite !length_fmap in Hl.
    unfold Accounts.size. by rewrite Hl.
  - intros id Hm Ht. unfold account_of. rewrite Hget.
    destruct (Accounts.get accs id) as [i|] eqn:Hg; [|done].
    unfold Accounts.apply_trade.
    destruct (Accounts.get accs maker_id) as [mi|] eqn:Hgm; [|done].
    destruct (Accounts.get accs taker_id) as [ti|] eqn:Hgt; [|done].
    assert (i <> mi) by (intros ->; apply Hm; by eapply get_injective).
    assert (i <> ti) by (intros ->; apply Ht; by eapply get_injective).
    destruct taker_side; unfold Accounts.update; simpl;
      rewrite !list_lookup_alter; repeat case_decide; congruence.
  - intros [m Hm] [t Ht] id a Hid Ha. unfold account_of in *. rewrite Hget.
    destruct (Accounts.get accs maker_id) as [mi|] eqn:Hgm; [|done].
    destruct (Accounts.get accs taker_id) as [ti|] eqn:Hgt; [|done].
    destruct (get_lookup accs maker_id mi Hgm) as (m' & Hlm & Hidm).
    destruct (get_lookup accs taker_id ti Hgt) as (t' & Hlt & Hidt).
    assert (m' = m) as -> by congruence. assert (t' = t) as -> by congruence.
    unfold Accounts.apply_trade. rewrite Hgm, Hgt.
    case_bool_decide as Hself.
    + assert (mi = ti) as -> by congruence.
      assert (m = t) as -> by congruence.
      assert (Accounts.get accs id = Some ti) as Hgi
        by (destruct Hid as [->| ->]; congruence).
      rewrite Hgi in *. assert (a = t) as -> by congruence.
      destruct taker_side; unfold Accounts.update; simpl;
        rewrite !list_lookup_alter; repeat case_decide; try congruence;
        rewrite Hlt; simpl; eexists; (split; [reflexivity|]); simpl;
        (split; [destruct Hid; congruence|done]).
    + assert (Hne : mi <> ti).
      { intros ->. apply Hself. by eapply get_injective. }
      destruct Hid as [-> | ->].
      * rewrite Hgm in *. assert (a = m) as -> by congruence.
        destruct taker_side; unfold Accounts.update; simpl;
          rewrite !list_lookup_alter; repeat case_decide; try congruence;
          rewrite Hlm; simpl; eexists; (split; [reflexivity|]); simpl; done.
      * rewrite Hgt in *. assert (a = t) as -> by congruence.
        destruct taker_side; unfold Accounts.update; simpl;
          rewrite !list_lookup_alter; repeat case_decide; try congruence;
          rewrite Hlt; simpl; eexists; (split; [reflexivity|]); simpl; done.
Qed.

(* ===================================================================== *)
(** ** Counters and the stream of trades *)
(* ===================================================================== *)

Section Counters.
Lemma advances_nil b b' :
  trade_log_ b' = trade_log_ b -> total_trades_ b' = total_trades_ b ->
  total_volume_ b' = total_volume_ b -> advances b b' [].
Proof. intros H1 H2 H3. split; [by rewrite app_nil_r|done]. Qed.

Lemma advances_trans b1 b2 b3 ts ts' :
  advances b1 b2 ts -> advances b2 b3 ts' -> advances b1 b3 (ts ++ ts').
Proof.
  intros (H1 & H2 & H3) (H1' & H2' & H3'). split; [|split].
  - by rewrite H1', H1, app_assoc.
  - rewrite H2', H2, length_app. unfold incr_u64_times.
    by rewrite Nat.add_comm, Nat.iter_add.
  - rewrite H3', H3. unfold add_volumes. by rewrite fold_left_app.
Qed.

Lemma remove_order_internal_counters b i :
  trade_log_ (remove_order_internal b i) = trade_log_ b /\
  total_trades_ (remove_order_internal b i) = total_trades_ b /\
  total_volume_ (remove_order_internal b i) = total_volume_ b.
Proof.
  unfold remove_order_internal.
  destruct (levels_of _ b !! _) as [l|]; [|done].
  destruct (PriceLevel.remove _ _ _) as [pool1 l1].
  by book_simpl.
Qed.

Lemma add_limit_internal_advances b id tr s p q :
  exists ts,
    advances b (add_limit_internal b id tr s p q).1 ts /\
    OrderResponse.trade_count (add_limit_internal b id tr s p q).2
    = incr_u64_times (length ts) 0%N.
Proof.
  unfold add_limit_internal. case_bool_decide as Hdup.
  { exists []. split; [by apply advances_nil|done]. }
  destruct (match_order_log id tr s b p q false) as (ts & Hlog & Htr & Htt & Htv & _).
  set (st := match_order b id tr s p q false) in *.
  exists ts. destruct (ms_remaining st <=? 0); [done|].
  destruct (Pool.allocate _ _) as [pool_idx pool1].
  destruct (pool_idx =? INVALID_POOL_INDEX)%N; [done|].
  destruct (find_or_create_level _ _ _) as [it levels1].
  destruct (PriceLevel.push_back _ _ _) as [pool2 lvl]. simpl.
  unfold advances. by book_simpl.
Qed.

Lemma cancel_state_counters b id :
  advances b (set_map (delete id (order_map_ (remove_order_internal b id)))
                (remove_order_internal b id)) [] .
Proof.
  destruct (remove_order_internal_counters b id) as (H1 & H2 & H3).
  apply advances_nil; by book_simpl.
Qed.

Lemma apply_op_advances b op :
  exists ts,
    advances b (apply_op b op).1 ts /\
    OrderResponse.trade_count (apply_op b op).2 = incr_u64_times (length ts) 0%N.
Proof.
  destruct op as [id tr s p q|id tr s q|id|id q p]; simpl.
  - apply add_limit_internal_advances.
  - unfold add_market.
    destruct (match_order_log id tr s b 0 q true) as (ts & Hlog & Htr & Htt & Htv & _).
    exists ts. done.
  - unfold cancel. destruct (order_map_ b !! id) as [i|].
    + exists []. split; [|done]. simpl.
      destruct (remove_order_internal_counters b i) as (H1 & H2 & H3).
      apply advances_nil; by book_simpl.
    + exists []. split; [by apply advances_nil|done].
  - unfold modify. destruct (order_map_ b !! id) as [i|].
    2: { exists []. split; [by apply advances_nil|done]. }
    assert (Hre : forall tr s p0 q0,
              exists ts,
                advances b
                  (add_limit_internal
                     (set_map (delete id (order_map_ (remove_order_internal b i)))
                              (remove_order_internal b i)) id tr s p0 q0).1 ts /\
                OrderResponse.trade_count
                  (add_limit_internal
                     (set_map (delete id (order_map_ (remove_order_internal b i)))
                              (remove_order_internal b i)) id tr s p0 q0).2
                = incr_u64_times (length ts) 0%N).
    { intros tr s p0 q0.
      destruct (add_limit_internal_advances
                  (set_map (delete id (order_map_ (remove_order_internal b i)))
                           (remove_order_internal b i)) id tr s p0 q0)
        as (ts & Hadv & Hcnt).
      exists ts. split; [|done].
      change ts with ([] ++ ts). eapply advances_trans; [|exact Hadv].
      destruct (remove_order_internal_counters b i) as (H1 & H2 & H3).
      apply advances_nil; by book_simpl. }
    destruct (_ && _); [apply Hre|].
    destruct (_ <? _); [|apply Hre].
    exists []. split; [|done]. simpl.
    apply advances_nil; by book_simpl.
Qed.
End Counters.

(** X21.  The counters of the book follow the trades it reports.  In
    every reachable state [trade_count()] is the number of trades handed
    to the observer so far and [total_volume()] the sum of their
    quantities, both as 64-bit counters; every operation only appends
    trades to that stream, and the [trade_count] of its answer is the
    number of trades it appended. *)
Theorem counters_follow_the_trades (b : OrderBook) (op : BookOp) :
  reachable b ->
  trade_count b = incr_u64_times (length (trade_log_ b)) 0%N /\
  total_volume b = add_volumes (trade_log_ b) 0%N /\
  let b' := (apply_op b op).1 in
  trade_log_ b' = trade_log_ b ++ trades_since b b' /\
  OrderResponse.trade_count (apply_op b op).2
  = incr_u64_times (length (trades_since b b')) 0%N /\
  trade_count b' = incr_u64_times (length (trades_since b b')) (trade_count b) /\
  total_volume b' = add_volumes (trades_since b b') (total_volume b).
Proof.
  intros Hr. unfold trade_count, total_volume.
  assert (Hbase : advances (OrderBook_new 0) b (trade_log_ b)).
  { induction Hr as [n Hn|b op' Hr IH].
    - by apply advances_nil.
    - destruct (apply_op_advances b op') as (ts & Hadv & _).
      pose proof (advances_trans _ _ _ _ _ IH Hadv) as Htrans.
      destruct Hadv as (Hlog & _). by rewrite Hlog. }
  destruct Hbase as (_ & Htt & Htv). simpl in Htt, Htv.
  split; [exact Htt|]. split; [exact Htv|]. cbv zeta.
  destruct (apply_op_advances b op) as (ts & (Hlog & Htt' & Htv') & Hcnt).
  rewrite (trades_since_app _ _ _ Hlog). done.
Qed.

(** After the operations of [sample_book] one trade of 4 units has been
    reported. *)
Lemma counters_follow_the_trades_witness :
  reachable sample_book /\
  length (trade_log_ sample_book) = 1%nat /\
  trade_count sample_book = 1%N /\
  total_volume sample_book = 4%N.
Proof.
  split; [exact sample_book_reachable|].
  destruct (counters_follow_the_trades sample_book (OpCancel 1)
              sample_book_reachable) as (Htc & Htv & _).
  split; [vm_compute; reflexivity|].
  rewrite Htc, Htv. split; vm_compute; reflexivity.
Defined.

(* ===================================================================== *)
(** ** The statistics of the engine *)
(* ===================================================================== *)

Section EngineCounters.
Lemma fold_on_trade ts accs stats :
  EngineStats.trade_count (fold_left MatchingEngine.on_trade ts (accs, stats)).2
  = incr_u64_times (length ts) (EngineStats.trade_count stats) /\
  EngineStats.volume (fold_left MatchingEngine.on_trade ts (accs, stats)).2
  = add_volumes ts (EngineStats.volume stats) /\
  EngineStats.rejected_count (fold_left MatchingEngine.on_trade ts (accs, stats)).2
  = EngineStats.rejected_count stats /\
  EngineStats.orders_received (fold_left MatchingEngine.on_trade ts (accs, stats)).2
  = EngineStats.orders_received stats /\
  EngineStats.orders_accepted (fold_left MatchingEngine.on_trade ts (accs, stats)).2
  = EngineStats.orders_accepted stats /\
  EngineStats.orders_cancelled (fold_left MatchingEngine.on_trade ts (accs, stats)).2
  = EngineStats.orders_cancelled stats /\
  EngineStats.orders_modified (fold_left MatchingEngine.on_trade ts (accs, stats)).2
  = EngineStats.orders_modified stats.
Proof.
  revert accs stats. induction ts as [|t ts IH] using rev_ind; intros accs stats.
  { done. }
  rewrite fold_left_app. simpl.
  destruct (IH accs stats) as (H1 & H2 & H3 & H4 & H5 & H6 & H7).
  destruct (fold_left MatchingEngine.on_trade ts (accs, stats)) as [a1 s1].
  simpl in *. rewrite length_app, Nat.add_comm. simpl.
  rewrite H1, add_volumes_snoc. unfold add_volumes in *. rewrite H2. done.
Qed.

Lemma dispatch_is_apply_op b ev :
  exists op, MatchingEngine.dispatch b ev = apply_op b op /\
    (OrderEvent.type ev = NewLimit ->
     op = OpAddLimit (OrderEvent.order_id ev) (OrderEvent.trader_id ev)
                     (OrderEvent.side ev) (OrderEvent.price ev) (OrderEvent.qty ev)) /\
    (OrderEvent.type ev = NewMarket ->
     op = OpAddMarket (OrderEvent.order_id ev) (OrderEvent.trader_id ev)
                      (OrderEvent.side ev) (OrderEvent.qty ev)) /\
    (OrderEvent.type ev = Cancel -> op = OpCancel (OrderEvent.order_id ev)) /\
    (OrderEvent.type ev = Modify ->
     op = OpModify (OrderEvent.order_id ev) (OrderEvent.qty ev) (OrderEvent.price ev)).
Proof.
  unfold MatchingEngine.dispatch.
  destruct (OrderEvent.type ev).
  - exists (OpAddLimit (OrderEvent.order_id ev) (OrderEvent.trader_id ev)
              (OrderEvent.side ev) (OrderEvent.price ev) (OrderEvent.qty ev)).
    repeat split; (done || discriminate).
  - exists (OpAddMarket (OrderEvent.order_id ev) (OrderEvent.trader_id ev)
              (OrderEvent.side ev) (OrderEvent.qty ev)).
    repeat split; (done || discriminate).
  - exists (OpCancel (OrderEvent.order_id ev)).
    repeat split; (done || discriminate).
  - exists (OpModify (OrderEvent.order_id ev) (OrderEvent.qty ev)
              (OrderEvent.price ev)).
    repeat split; (done || discriminate).
Qed.
End EngineCounters.

(** X22.  The statistics of the engine agree with its book.  After any
    sequence of events processed by a new engine, the trade count and the
    volume of the statistics equal [trade_count()] and [total_volume()]
    of the book; every event was either counted as processed or counted
    as rejected, so the two counters add up to the number of events (as
    64-bit counters); and the engine never touches the counters
    [orders_received], [orders_accepted], [orders_cancelled] and
    [orders_modified], which stay 0. *)
Theorem engine_stats_agree_with_book (config : EngineConfig.t)
    (events : list OrderEvent.t) :
  let e := MatchingEngine.run (MatchingEngine.new config) events in
  EngineStats.trade_count (MatchingEngine.stats_ e)
  = trade_count (MatchingEngine.book_ e) /\
  EngineStats.volume (MatchingEngine.stats_ e)
  = total_volume (MatchingEngine.book_ e) /\
  wrap_u64 (MatchingEngine.events_processed_ e
            + EngineStats.rejected_count (MatchingEngine.stats_ e))
  = wrap_u64 (N.of_nat (length events)) /\
  EngineStats.orders_received (MatchingEngine.stats_ e) = 0%N /\
  EngineStats.orders_accepted (MatchingEngine.stats_ e) = 0%N /\
  EngineStats.orders_cancelled (MatchingEngine.stats_ e) = 0%N /\
  EngineStats.orders_modified (MatchingEngine.stats_ e) = 0%N.
Proof.
  cbv zeta. unfold MatchingEngine.run, trade_count, total_volume.
  induction events as [|ev events IH] using rev_ind; [done|].
  rewrite fold_left_app. simpl.
  set (e := fold_left MatchingEngine.process_event events (MatchingEngine.new config))
    in *.
  destruct IH as (Htc & Hvol & Hcount & Hrecv & Hacc & Hcan & Hmod).
  rewrite length_app, Nat.add_comm. simpl length.
  assert (Hstep : forall a r : N,
            wrap_u64 (a + r) = wrap_u64 (N.of_nat (length events)) ->
            wrap_u64 (incr_u64 a + r) = wrap_u64 (N.of_nat (S (length events))) /\
            wrap_u64 (a + incr_u64 r) = wrap_u64 (N.of_nat (S (length events)))).
  { intros a r H. unfold incr_u64, wrap_u64 in *.
    assert (Hn : (N.of_nat (S (length events)) mod 2 ^ 64
                  = (a + r + 1) mod 2 ^ 64)%N).
    { rewrite Nat2N.inj_succ, <- N.add_1_r.
      rewrite <- (N.Div0.add_mod_idemp_l (N.of_nat (length events)) 1), <- H.
      by rewrite N.Div0.add_mod_idemp_l. }
    rewrite Hn. split.
    - rewrite N.Div0.add_mod_idemp_l. f_equal. lia.
    - rewrite N.Div0.add_mod_idemp_r. f_equal. lia. }
  change (1 + length events)%nat with (S (length events)).
  unfold MatchingEngine.process_event.
  destruct (negb (bool_decide (RiskChecker.check _ ev = Passed))).
  - simpl. repeat split; try done. by apply Hstep.
  - destruct (dispatch_is_apply_op (MatchingEngine.book_ e) ev) as (op & Hop & _).
    rewrite Hop.
    destruct (apply_op_advances (MatchingEngine.book_ e) op)
      as (ts & (Hlog & Htt & Htv) & _).
    unfold MatchingEngine.new_trades.
    destruct (apply_op (MatchingEngine.book_ e) op) as [book1 response] eqn:Hap.
    simpl in Hlog, Htt, Htv.
    rewrite Hlog, drop_app_length.
    match goal with
    | |- context [fold_left MatchingEngine.on_trade ts (?a, ?s)] =>
        destruct (fold_on_trade ts a s) as (F1 & F2 & F3 & F4 & F5 & F6 & F7);
        destruct (fold_left MatchingEngine.on_trade ts (a, s)) as [accounts2 stats2]
    end.
    simpl in F1, F2, F3, F4, F5, F6, F7.
    assert (Hfilled : forall s3,
              s3 = stats2 \/
              s3 = EngineStats.add_filled (OrderResponse.qty_filled response) stats2 ->
              EngineStats.trade_count s3 = EngineStats.trade_count stats2 /\
              EngineStats.volume s3 = EngineStats.volume stats2 /\
              EngineStats.rejected_count s3 = EngineStats.rejected_count stats2 /\
              EngineStats.orders_received s3 = EngineStats.orders_received stats2 /\
              EngineStats.orders_accepted s3 = EngineStats.orders_accepted stats2 /\
              EngineStats.orders_cancelled s3 = EngineStats.orders_cancelled stats2 /\
              EngineStats.orders_modified s3 = EngineStats.orders_modified stats2).
    { intros s3 [->| ->]; done. }
    simpl.
    match goal with
    | |- context [if ?c then EngineStats.add_filled ?q stats2 else stats2] =>
        destruct (Hfilled (if c then EngineStats.add_filled q stats2 else stats2))
          as (G1 & G2 & G3 & G4 & G5 & G6 & G7); [destruct c; auto|]
    end.
    rewrite G1, G2, G3, G4, G5, G6, G7, F1, F2, F3, F4, F5, F6, F7.
    rewrite Htt, Htv, Htc, Hvol.
    repeat split; try done. by apply Hstep.
Qed.

(* ===================================================================== *)
(** ** Positive quantities *)
(* ===================================================================== *)

Section PositiveMatching.
Variables (taker_order_id taker_trader_id : N) (side : Side).

Local Abbreviation ms := (opposite side).
Local Abbreviation fill_of := (match_fill taker_order_id taker_trader_id side).

(** After a fill the head order is either gone from the index or has
    something left. *)
Lemma match_fill_maker li st lvl id :
  levels_of ms (ms_book st) !! li = Some lvl ->
  is_Some (Pool.storage_ (order_pool_ (ms_book st)) !! PriceLevel.head_idx lvl) ->
  order_map_ (ms_book (fill_of li st)) !! id = Some (PriceLevel.head_idx lvl) ->
  id <> Order.order_id (Pool.at_ (order_pool_ (ms_book st)) (PriceLevel.head_idx lvl)) \/
  0 < Order.qty_remaining
        (Pool.at_ (order_pool_ (ms_book (fill_of li st))) (PriceLevel.head_idx lvl)).
Proof.
  intros Hl Hdom. unfold match_fill. rewrite Hl. unfold PriceLevel.front_idx.
  set (m := PriceLevel.head_idx lvl) in *.
  set (pool1 := Pool.update _ _ _).
  destruct (Z.leb_spec (Order.qty_remaining (Pool.at_ pool1 m)) 0) as [Hle|Hgt].
  - destruct (PriceLevel.remove pool1 _ _) as [pool2 lvl2] eqn:Hrm. book_simpl.
    intros H. apply lookup_delete_Some in H as [Hne _]. left.
    intros ->. apply Hne.
    assert (Hid : ident (Pool.at_ pool2 m) = ident (Pool.at_ (order_pool_ (ms_book st)) m)).
    { replace pool2 with (PriceLevel.remove pool1
                            (PriceLevel.reduce_qty lvl
                               (Z.min (ms_remaining st)
                                  (Order.qty_remaining
                                     (Pool.at_ (order_pool_ (ms_book st)) m)))) m).1
        by (by rewrite Hrm).
      rewrite remove_ident. unfold pool1. apply update_ident.
      intros o. reflexivity. }
    by injection Hid.
  - book_simpl. intros _. right. done.
Qed.

(** Matching against positive quantities: the index keeps positive
    quantities, every trade has a positive quantity, and the taker is
    left with what it came with less what was traded. *)
Lemma match_order_positive b price qty is_market :
  Inv b -> quantities_positive b -> in_i64 qty ->
  let st := match_order b taker_order_id taker_trader_id side price qty is_market in
  quantities_positive (ms_book st) /\
  exists ts,
    trade_log_ (ms_book st) = trade_log_ b ++ ts /\
    Forall (fun t => 0 < Trade.qty t) ts /\
    ms_remaining st = qty - traded_qty ts /\
    (0 <= qty -> 0 <= ms_remaining st).
Proof.
  intros [[ch0 Hinv0] _] Hq0 Hqty. cbv zeta.
  set (G := fun st : MatchState =>
    (exists ch, book_inv (ms_book st) ch) /\
    quantities_positive (ms_book st) /\
    exists ts,
      trade_log_ (ms_book st) = trade_log_ b ++ ts /\
      Forall (fun t => 0 < Trade.qty t) ts /\
      ms_remaining st = qty - traded_qty ts /\
      ms_remaining st <= qty /\
      (0 <= qty -> 0 <= ms_remaining st)).
  destruct (match_order_ind3 taker_order_id taker_trader_id side
              (fun _ st => G st) (fun _ st => G st)
              b price qty is_market) as (li & _ & HQ & Hts); [| | | | | | |].
  - by intros li st [Hi _].
  - by intros li st HG _.
  - intros li st ([ch Hi] & HQ & ts & Hlog & Hpos & Hrem & Hle & Hnn) Hc.
    apply match_level_continues_spec in Hc as (lvl & Hl & Hgt & Hne).
    destruct (match_fill_inv taker_order_id taker_trader_id side li st ch lvl
                Hi Hl Hne) as (m & c & c' & lvl' & Hc & Hhd & Hinv' & _).
    destruct (match_fill_log taker_order_id taker_trader_id side li st lvl Hl)
      as (Hlog' & Hrem' & _).
    destruct (inv_level_chain _ ch ms li lvl Hi Hl) as (c1 & Hc1 & (_ & _ & Hrest)).
    assert (c1 = m :: c) as -> by congruence.
    apply Forall_cons in Hrest as [(Hlive & _ & _ & Hmm) _].
    pose proof (HQ _ _ Hmm) as Hmq. unfold order_at in Hmq.
    rewrite Hhd in *.
    set (maker := Pool.at_ (order_pool_ (ms_book st)) m) in *.
    set (fill := Z.min (ms_remaining st) (Order.qty_remaining maker)) in *.
    assert (Hfill : 0 < fill <= ms_remaining st) by (unfold fill; lia).
    assert (Hin : in_i64 (ms_remaining st - fill)) by (unfold in_i64 in *; lia).
    split; [eauto|]. split.
    + intros id i Hid. unfold order_at.
      pose proof (match_fill_map_sub taker_order_id taker_trader_id side
                    li st id i Hid) as Hid0.
      destruct (decide (i = m)) as [->|Him].
      * rewrite <- Hhd in Hid.
        destruct (match_fill_maker li st lvl id Hl) as [Hne'|Hpos'];
          [rewrite Hhd; by apply slot_live_dom|exact Hid| |by rewrite Hhd in Hpos'].
        exfalso. apply Hne'. rewrite Hhd.
        destruct Hi as (_ & _ & _ & Hmap & _).
        by destruct (Hmap id m Hid0) as [_ <-].
      * rewrite (match_fill_qty_other taker_order_id taker_trader_id side
                   li st lvl i Hl) by (by rewrite Hhd).
        by apply (HQ id i).
    + exists (ts ++ [Trade.mk (Order.order_id maker) taker_order_id
                       (Order.trader_id maker) taker_trader_id
                       (Order.price maker) fill side]).
      split; [by rewrite Hlog', Hlog, <- app_assoc|].
      split; [apply Forall_app; split; [done|]; apply Forall_singleton; simpl; lia|].
      rewrite traded_qty_snoc, Hrem', (wrap_i64_id _ Hin). simpl.
      split; [lia|]. split; [lia|]. intros ?. lia.
  - intros li st lvl ([ch Hi] & HQ & Hts) _ Hl He.
    split; [cbn [ms_book]; eexists; by eapply erase_level_inv|].
    split; [|by book_simpl].
    intros id i. unfold order_at. cbn [ms_book]. book_simpl. apply HQ.
  - by intros li st lvl HG _ _ _.
  - by intros li st HG _.
  - split; [eauto|]. split; [done|]. exists []. simpl.
    rewrite app_nil_r. repeat split; try done; lia.
  - split; [done|]. destruct Hts as (ts & H1 & H2 & H3 & _ & H5). eauto.
Qed.
End PositiveMatching.

Section PositiveOperations.
Lemma add_limit_internal_positive b id tr s p q :
  Inv b -> quantities_positive b -> in_i64 q ->
  quantities_positive (add_limit_internal b id tr s p q).1 /\
  Forall (fun t => 0 < Trade.qty t)
         (trades_since b (add_limit_internal b id tr s p q).1).
Proof.
  intros Hb HQ Hq.
  destruct (order_map_ b !! id) as [i0|] eqn:Hid.
  { rewrite add_limit_internal_duplicate by (by rewrite Hid).
    split; [done|]. rewrite trades_since_same by done. constructor. }
  pose proof (add_limit_internal_log b id tr s p q Hid) as Hlog.
  destruct (match_order_positive id tr s b p q false Hb HQ Hq)
    as (HQ1 & ts & Hlog1 & Hpos & _).
  split.
  2: { rewrite Hlog1 in Hlog. by rewrite (trades_since_app _ _ _ Hlog). }
  pose proof (match_order_Inv id tr s b p q false Hb) as [[ch1 Hinv1] Hne1].
  pose proof (match_order_map_sub id tr s b p q false id) as Hsub.
  unfold add_limit_internal.
  case_bool_decide as Hdup; [rewrite Hid in Hdup; by destruct Hdup|].
  set (st := match_order b id tr s p q false) in *.
  destruct (Z.leb_spec (ms_remaining st) 0) as [Hle|Hgt]; [done|].
  destruct (Pool.allocate _ _) as [idx pool1] eqn:Halloc.
  destruct (N.eqb_spec idx INVALID_POOL_INDEX) as [He|Hidx].
  { subst idx. apply allocate_fail in Halloc as [-> _].
    cbn [fst]. intros id' i. unfold order_at. book_simpl. apply HQ1. }
  destruct (find_or_create_level _ _ _) as [it levels1] eqn:Hfc.
  destruct (PriceLevel.push_back _ _ _) as [pool2 lvl] eqn:Hpb.
  cbn [fst].
  assert (Hid' : order_map_ (ms_book st) !! id = None).
  { destruct (order_map_ (ms_book st) !! id) as [i|] eqn:Hi; [|done].
    specialize (Hsub i eq_refl). congruence. }
  destruct (rest_order_chains (ms_book st) ch1 id tr s p
              (ms_remaining st) idx pool1 it levels1 pool2 lvl
              Hinv1 Hne1 Hid' Halloc Hidx Hfc Hpb) as
    ((ch' & c & Hinv' & _ & _ & _ & _ & _ & Hqty & Hfresh & Hoth) & _).
  intros id' i. unfold order_at. book_simpl.
  destruct (decide (id' = id)) as [->|Hne].
  - rewrite lookup_insert_eq. intros [= <-].
    cbv zeta in Hqty. revert Hqty. book_simpl. intros ->. lia.
  - rewrite lookup_insert_ne by done. intros Hi.
    assert (Hii : i <> idx).
    { intros ->. apply Hfresh.
      destruct Hinv1 as (_ & _ & _ & Hmap & _). by destruct (Hmap id' idx Hi). }
    destruct (Hoth i Hii) as [_ Hsame]. revert Hsame. book_simpl. intros ->.
    by apply (HQ1 id' i).
Qed.

Lemma cancel_state_positive b ch id idx :
  book_inv b ch -> (forall s, levels_nonempty (levels_of s b)) ->
  order_map_ b !! id = Some idx -> quantities_positive b ->
  quantities_positive
    (set_map (delete id (order_map_ (remove_order_internal b idx)))
             (remove_order_internal b idx)).
Proof.
  intros Hinv Hne Hid HQ.
  destruct (remove_order_chains b ch id idx Hinv Hne Hid) as
    ((ch2 & A & B & _ & _ & _ & _ & Hmap & Hsame & _) & _).
  intros id' i Hi. rewrite Hmap in Hi. apply lookup_delete_Some in Hi as [_ Hi].
  unfold order_at. destruct (Hsame i) as [_ ->]. by apply (HQ id' i).
Qed.

Lemma apply_op_positive b op :
  Inv b -> quantities_positive b -> well_typed_op op -> positive_op op ->
  quantities_positive (apply_op b op).1 /\
  Forall (fun t => 0 < Trade.qty t) (trades_since b (apply_op b op).1).
Proof.
  intros Hb HQ Hwt Hpos.
  destruct op as [id tr s p q|id tr s q|id|id q p]; simpl in *.
  - apply add_limit_internal_positive; tauto.
  - unfold add_market. cbn [fst].
    destruct (match_order_positive id tr s b 0 q true Hb HQ)
      as (HQ1 & ts & Hlog & Hts & _); [tauto|].
    split; [done|]. by rewrite (trades_since_app _ _ _ Hlog).
  - unfold cancel. destruct (order_map_ b !! id) as [idx|] eqn:Hid; cbn [fst].
    + destruct Hb as [[ch Hinv] Hne]. split.
      * by eapply cancel_state_positive.
      * destruct (remove_order_internal_counters b idx) as (Hlog & _).
        rewrite trades_since_same; [constructor|by book_simpl].
    + split; [done|]. rewrite trades_since_same by done. constructor.
  - unfold modify. destruct (order_map_ b !! id) as [idx|] eqn:Hid.
    2: { cbn [fst]. split; [done|]. rewrite trades_since_same by done. constructor. }
    assert (Hre : forall tr s p0,
              quantities_positive
                (add_limit_internal
                   (set_map (delete id (order_map_ (remove_order_internal b idx)))
                            (remove_order_internal b idx)) id tr s p0 q).1 /\
              Forall (fun t => 0 < Trade.qty t)
                (trades_since b
                   (add_limit_internal
                      (set_map (delete id (order_map_ (remove_order_internal b idx)))
                               (remove_order_internal b idx)) id tr s p0 q).1)).
    { intros tr s p0. pose proof Hb as [[ch Hinv] Hne].
      pose proof (cancel_state_positive b ch id idx Hinv Hne Hid HQ) as HQ2.
      destruct (remove_order_inv b ch id idx Hinv Hne Hid) as (Hb2 & _).
      cbv zeta in Hb2.
      destruct (add_limit_internal_positive _ id tr s p0 q Hb2 HQ2) as [H1 H2];
        [tauto|].
      split; [done|].
      destruct (remove_order_internal_counters b idx) as (Hlog & _).
      unfold trades_since in *. revert H2. book_simpl. by rewrite Hlog. }
    destruct (_ && _); [apply Hre|].
    destruct (_ <? _); [|apply Hre]. cbn [fst]. split.
    + intros id' i. unfold order_at. book_simpl. intros Hi.
      destruct (decide (i = idx)) as [->|Hne].
      * rewrite update_at_eq; [simpl; tauto|].
        destruct Hb as [[ch Hinv] _]. apply slot_live_dom.
        pose proof Hinv as (_ & _ & _ & Hmap & _).
        destruct (Hmap id idx Hid) as [Hin _]. by eapply inv_slot_live.
      * rewrite update_at_ne by done. by apply (HQ id' i).
    + rewrite trades_since_same; [constructor|].
      by rewrite trade_log_set_levels.
Qed.

Lemma run_ops_positive ops : forall b,
  reachable b -> quantities_positive b ->
  Forall (fun t => 0 < Trade.qty t) (trade_log_ b) ->
  Forall well_typed_op ops -> Forall positive_op ops ->
  quantities_positive (run_ops b ops) /\
  Forall (fun t => 0 < Trade.qty t) (trade_log_ (run_ops b ops)).
Proof.
  induction ops as [|op ops IH]; intros b Hr HQ Hlog Hwt Hpos; [done|].
  apply Forall_cons in Hwt as [Hwt1 Hwt]. apply Forall_cons in Hpos as [Hpos1 Hpos].
  unfold run_ops. simpl. apply IH; [| | |done|done].
  - by apply reachable_step.
  - by apply apply_op_positive; [apply reachable_Inv|..].
  - destruct (apply_op_positive b op (reachable_Inv b Hr) HQ Hwt1 Hpos1) as [_ Hts].
    destruct (apply_op_advances b op) as (ts & (Hl & _) & _).
    rewrite (trades_since_app _ _ _ Hl) in Hts. rewrite Hl.
    apply Forall_app. done.
Qed.

Lemma new_book_positive max_orders :
  quantities_positive (OrderBook_new max_orders).
Proof. intros id i Hi. simpl in Hi. by rewrite lookup_empty in Hi. Qed.

Lemma two_asks_book_positive : quantities_positive two_asks_book.
Proof.
  apply run_ops_positive.
  - by constructor.
  - apply new_book_positive.
  - constructor.
  - repeat constructor; vm_compute; try reflexivity; discriminate.
  - repeat constructor.
Qed.
End PositiveOperations.

(** X23.  Quantities stay positive unless a [modify] asks otherwise.  For
    any sequence of well-typed operations on a new book in which every
    [modify] asks for a positive quantity, every order left in the index
    has a positive remaining quantity and every trade reported so far has
    a positive quantity. *)
Theorem quantities_stay_positive (max_orders : N) (ops : list BookOp) :
  in_u32 max_orders ->
  Forall well_typed_op ops ->
  Forall positive_op ops ->
  let b := run_ops (OrderBook_new max_orders) ops in
  quantities_positive b /\
  Forall (fun t => 0 < Trade.qty t) (trade_log_ b).
Proof.
  intros Hn Hwt Hpos. cbv zeta.
  apply run_ops_positive; [by constructor| |constructor|done|done].
  apply new_book_positive.
Qed.

(** The operations of [sample_book] contain one [modify], for 7 units. *)
Lemma quantities_stay_positive_witness :
  quantities_positive sample_book /\
  Forall (fun t => 0 < Trade.qty t) (trade_log_ sample_book).
Proof.
  apply (quantities_stay_positive 8 sample_ops).
  - vm_compute. reflexivity.
  - repeat constructor; vm_compute; try reflexivity; discriminate.
  - repeat constructor.
Defined.

Section NoOverfill.
Lemma traded_qty_nonneg ts :
  Forall (fun t => 0 < Trade.qty t) ts -> 0 <= traded_qty ts.
Proof.
  unfold traded_qty. induction 1 as [|t ts Ht _ IH]; simpl; lia.
Qed.
End NoOverfill.

(** X24.  An order is never filled beyond its quantity.  On a reachable
    book whose resting quantities are positive, a market order, or a
    limit order with an unused id, for a quantity of at least 0 trades in
    positive quantities only; the filled quantity of the answer is the
    exact sum of the quantities of its trades, it lies between 0 and the
    quantity submitted, and the remaining quantity is the exact
    difference. *)
Theorem fills_never_exceed_the_order (b : OrderBook) (order_id trader_id : N)
    (side : Side) (price qty : Z) :
  reachable b ->
  quantities_positive b ->
  in_i64 qty ->
  0 <= qty ->
  (let r := (add_market b order_id trader_id side qty).2 in
   let ts := trades_since b (add_market b order_id trader_id side qty).1 in
   Forall (fun t => 0 < Trade.qty t) ts /\
   OrderResponse.qty_filled r = traded_qty ts /\
   0 <= OrderResponse.qty_filled r <= qty /\
   OrderResponse.qty_remaining r = qty - OrderResponse.qty_filled r) /\
  (order_map_ b !! order_id = None ->
   let r := (add_limit b order_id trader_id side price qty).2 in
   let ts := trades_since b (add_limit b order_id trader_id side price qty).1 in
   Forall (fun t => 0 < Trade.qty t) ts /\
   OrderResponse.qty_filled r = traded_qty ts /\
   0 <= OrderResponse.qty_filled r <= qty /\
   OrderResponse.qty_remaining r = qty - OrderResponse.qty_filled r).
Proof.
  intros Hr HQ Hq Hq0. pose proof (reachable_Inv b Hr) as Hb.
  assert (Hmain : forall is_market p,
            let st := match_order b order_id trader_id side p qty is_market in
            let ts := trades_since b (ms_book st) in
            Forall (fun t => 0 < Trade.qty t) ts /\
            wrap_i64 (qty - ms_remaining st) = traded_qty ts /\
            0 <= wrap_i64 (qty - ms_remaining st) <= qty /\
            ms_remaining st = qty - wrap_i64 (qty - ms_remaining st)).
  { intros is_market p. cbv zeta.
    destruct (match_order_positive order_id trader_id side b p qty is_market
                Hb HQ Hq) as (_ & ts & Hlog & Hpos & Hrem & Hnn).
    rewrite (trades_since_app _ _ _ Hlog).
    pose proof (traded_qty_nonneg ts Hpos) as Hts. specialize (Hnn Hq0).
    rewrite Hrem in *.
    replace (qty - (qty - traded_qty ts)) with (traded_qty ts) by lia.
    rewrite wrap_i64_id by (unfold in_i64 in *; lia).
    split; [done|]. split; [done|]. split; lia. }
  split.
  - cbv zeta. unfold add_market. cbn [fst snd OrderResponse.qty_filled
                                     OrderResponse.qty_remaining].
    apply (Hmain true 0).
  - intros Hid. cbv zeta. unfold add_limit.
    destruct (add_limit_internal_response b order_id trader_id side price qty Hid)
      as (Hf & Hrm & _).
    cbv zeta in Hf, Hrm. rewrite Hf, Hrm.
    unfold trades_since. rewrite (add_limit_internal_log b _ _ _ _ _ Hid).
    apply (Hmain false price).
Qed.

(** A buy of 12 units at 101 on [two_asks_book] trades 10 and 2 units. *)
Lemma fills_never_exceed_the_order_witness :
  reachable two_asks_book /\
  quantities_positive two_asks_book /\
  (add_limit two_asks_book 9 4 Buy 101 12).2
  = OrderResponse.mk FullyFilled 9 12 0 2%N /\
  Forall (fun t => 0 < Trade.qty t)
         (trades_since two_asks_book (add_limit two_asks_book 9 4 Buy 101 12).1).
Proof.
  split; [exact two_asks_book_reachable|].
  split; [exact two_asks_book_positive|].
  split; [vm_compute; reflexivity|].
  destruct (fills_never_exceed_the_order two_asks_book 9 4 Buy 101 12
              two_asks_book_reachable two_asks_book_positive) as [_ H].
  - unfold in_i64. lia.
  - lia.
  - by destruct (H eq_refl) as [Hpos _].
Defined.

(* ===================================================================== *)
(** ** The book behind the risk checks *)
(* ===================================================================== *)

Section PricesOfOrders.
Variable R : Z -> Prop.

Lemma ident_price o o' : ident o = ident o' -> Order.price o = Order.price o'.
Proof. unfold ident. congruence. Qed.

Lemma add_limit_internal_prices b id tr s p q :
  Inv b -> prices_satisfy R b -> R p ->
  prices_satisfy R (add_limit_internal b id tr s p q).1.
Proof.
  intros Hb HP Hp.
  destruct (order_map_ b !! id) as [i0|] eqn:Hid.
  { by rewrite add_limit_internal_duplicate by (by rewrite Hid). }
  pose proof Hb as [[ch Hinv] _].
  destruct (match_order_own_chains id tr s b ch p q false Hinv)
    as (ch1' & _ & _ & Hident & _).
  pose proof (match_order_Inv id tr s b p q false Hb) as [[ch1 Hinv1] Hne1].
  pose proof (match_order_map_sub id tr s b p q false) as Hsub.
  unfold add_limit_internal.
  case_bool_decide as Hdup; [rewrite Hid in Hdup; by destruct Hdup|].
  set (st := match_order b id tr s p q false) in *.
  assert (HP1 : prices_satisfy R (ms_book st)).
  { intros id' i Hi. unfold order_at.
    rewrite (ident_price _ _ (Hident i)).
    apply (HP id' i). by apply Hsub. }
  destruct (ms_remaining st <=? 0); [done|].
  destruct (Pool.allocate _ _) as [idx pool1] eqn:Halloc.
  destruct (N.eqb_spec idx INVALID_POOL_INDEX) as [He|Hidx].
  { subst idx. apply allocate_fail in Halloc as [-> _].
    cbn [fst]. intros id' i. unfold order_at. book_simpl. apply HP1. }
  destruct (find_or_create_level _ _ _) as [it levels1] eqn:Hfc.
  destruct (PriceLevel.push_back _ _ _) as [pool2 lvl] eqn:Hpb.
  cbn [fst].
  assert (Hid' : order_map_ (ms_book st) !! id = None).
  { destruct (order_map_ (ms_book st) !! id) as [i|] eqn:Hi; [|done].
    specialize (Hsub id i Hi). congruence. }
  destruct (rest_order_chains (ms_book st) ch1 id tr s p
              (ms_remaining st) idx pool1 it levels1 pool2 lvl
              Hinv1 Hne1 Hid' Halloc Hidx Hfc Hpb) as
    ((ch' & c & Hinv' & _ & _ & _ & _ & Hnew & _ & Hfresh & Hoth) & _).
  intros id' i. unfold order_at. book_simpl.
  destruct (decide (id' = id)) as [->|Hne].
  - rewrite lookup_insert_eq. intros [= <-].
    cbv zeta in Hnew. revert Hnew. book_simpl. unfold ident. intros Hnew.
    congruence.
  - rewrite lookup_insert_ne by done. intros Hi.
    assert (Hii : i <> idx).
    { intros ->. apply Hfresh.
      destruct Hinv1 as (_ & _ & _ & Hmap & _). by destruct (Hmap id' idx Hi). }
    destruct (Hoth i Hii) as [Hsame _]. revert Hsame. book_simpl. intros Hsame.
    rewrite (ident_price _ _ Hsame). by apply (HP1 id' i).
Qed.

Lemma cancel_state_prices b ch id idx :
  book_inv b ch -> (forall s, levels_nonempty (levels_of s b)) ->
  order_map_ b !! id = Some idx -> prices_satisfy R b ->
  prices_satisfy R
    (set_map (delete id (order_map_ (remove_order_internal b idx)))
             (remove_order_internal b idx)).
Proof.
  intros Hinv Hne Hid HP.
  destruct (remove_order_chains b ch id idx Hinv Hne Hid) as
    ((ch2 & A & B & _ & _ & _ & _ & Hmap & Hsame & _) & _).
  intros id' i Hi. rewrite Hmap in Hi. apply lookup_delete_Some in Hi as [_ Hi].
  unfold order_at. destruct (Hsame i) as [Hident _].
  rewrite (ident_price _ _ Hident). by apply (HP id' i).
Qed.

Lemma apply_op_prices b op :
  Inv b -> prices_satisfy R b -> op_prices_satisfy R op ->
  prices_satisfy R (apply_op b op).1.
Proof.
  intros Hb HP Hop.
  destruct op as [id tr s p q|id tr s q|id|id q p]; simpl in *.
  - by apply add_limit_internal_prices.
  - unfold add_market. cbn [fst]. pose proof Hb as [[ch Hinv] _].
    destruct (match_order_own_chains id tr s b ch 0 q true Hinv)
      as (ch1' & _ & _ & Hident & _).
    intros id' i Hi. unfold order_at.
    rewrite (ident_price _ _ (Hident i)).
    apply (HP id' i). by eapply match_order_map_sub.
  - unfold cancel. destruct (order_map_ b !! id) as [idx|] eqn:Hid; cbn [fst];
      [|done].
    destruct Hb as [[ch Hinv] Hne]. by eapply cancel_state_prices.
  - unfold modify. destruct (order_map_ b !! id) as [idx|] eqn:Hid; [|done].
    assert (Hre : forall tr s p0, R p0 ->
              prices_satisfy R
                (add_limit_internal
                   (set_map (delete id (order_map_ (remove_order_internal b idx)))
                            (remove_order_internal b idx)) id tr s p0 q).1).
    { intros tr s p0 Hp0. pose proof Hb as [[ch Hinv] Hne].
      pose proof (cancel_state_prices b ch id idx Hinv Hne Hid HP) as HP2.
      destruct (remove_order_inv b ch id idx Hinv Hne Hid) as (Hb2 & _).
      cbv zeta in Hb2. by apply add_limit_internal_prices. }
    destruct (Z.eqb_spec p 0) as [Hp0|Hp0]; simpl.
    + destruct (_ <? _); [|apply Hre; by apply (HP id idx)].
      cbn [fst]. intros id' i. unfold order_at. book_simpl. intros Hi.
      rewrite (ident_price _ _ (update_ident (order_pool_ b) idx
                 (Order.set_qty_remaining q) i ltac:(intros o; reflexivity))).
      apply (HP id' i Hi).
    + destruct (_ =? _) eqn:Hsame; simpl.
      * destruct (_ <? _); [|apply Hre; by apply (HP id idx)].
        cbn [fst]. intros id' i. unfold order_at. book_simpl. intros Hi.
        rewrite (ident_price _ _ (update_ident (order_pool_ b) idx
                   (Order.set_qty_remaining q) i ltac:(intros o; reflexivity))).
        apply (HP id' i Hi).
      * apply Hre. by apply Hop.
Qed.
End PricesOfOrders.

Section EngineInvariants.
(** What a passed risk check says about an event. *)
Lemma check_passed rc ev :
  RiskChecker.check rc ev = Passed ->
  OrderEvent.type ev <> Cancel ->
  0 < OrderEvent.qty ev /\
  (OrderEvent.type ev = NewLimit \/ OrderEvent.type ev = Modify ->
   price_allowed (RiskChecker.config_ rc) (OrderEvent.price ev)).
Proof.
  unfold RiskChecker.check, price_allowed. intros Hc Hnc.
  rewrite bool_decide_eq_false_2 in Hc by done.
  destruct ((bool_decide (OrderEvent.type ev = NewLimit)
             || bool_decide (OrderEvent.type ev = Modify))
            && ((OrderEvent.price ev <? RiskConfig.min_price (RiskChecker.config_ rc))
                || (OrderEvent.price ev >? RiskConfig.max_price (RiskChecker.config_ rc))))
    eqn:Hprice; [discriminate|].
  destruct ((OrderEvent.qty ev <=? 0)
            || (OrderEvent.qty ev >? RiskConfig.max_order_qty (RiskChecker.config_ rc)))
    eqn:Hqty; [discriminate|].
  apply orb_false_iff in Hqty as [Hq _]. split; [lia|].
  intros Hty. apply andb_false_iff in Hprice as [Hp|Hp].
  - apply orb_false_iff in Hp as [H1 H2].
    apply bool_decide_eq_false in H1, H2. tauto.
  - apply orb_false_iff in Hp as [H1 H2]. lia.
Qed.

Lemma process_event_config e ev :
  MatchingEngine.config_ (MatchingEngine.process_event e ev)
  = MatchingEngine.config_ e.
Proof.
  unfold MatchingEngine.process_event.
  destruct (negb _); [done|].
  destruct (MatchingEngine.dispatch _ _) as [book1 response].
  by destruct (fold_left _ _ _) as [accounts2 stats2].
Qed.

(** The book after an event: as it was when the event is rejected, and
    otherwise the result of the book operation the event stands for. *)
Lemma process_event_book e ev :
  MatchingEngine.book_ (MatchingEngine.process_event e ev) = MatchingEngine.book_ e \/
  exists op,
    MatchingEngine.book_ (MatchingEngine.process_event e ev)
    = (apply_op (MatchingEngine.book_ e) op).1 /\
    (well_typed_event ev -> well_typed_op op) /\
    positive_op op /\
    op_prices_satisfy
      (price_allowed (EngineConfig.risk (MatchingEngine.config_ e))) op.
Proof.
  unfold MatchingEngine.process_event.
  set (rc := RiskChecker.mk _ _).
  destruct (bool_decide (RiskChecker.check rc ev = Passed)) eqn:Hrisk; simpl;
    [|by left].
  apply bool_decide_eq_true in Hrisk. right.
  destruct (dispatch_is_apply_op (MatchingEngine.book_ e) ev)
    as (op & Hop & HL & HM & HC & HX).
  exists op. rewrite Hop.
  destruct (apply_op (MatchingEngine.book_ e) op) as [book1 response].
  destruct (fold_left _ _ _) as [accounts2 stats2]. split; [done|].
  pose proof (check_passed rc ev Hrisk) as Hpass. simpl in Hpass.
  destruct (OrderEvent.type ev) eqn:Hty.
  - rewrite (HL eq_refl). simpl.
    split; [unfold well_typed_event; tauto|]. split; [done|].
    apply Hpass; [done|by left].
  - rewrite (HM eq_refl). simpl.
    split; [unfold well_typed_event; tauto|]. done.
  - rewrite (HC eq_refl). simpl.
    split; [unfold well_typed_event; tauto|]. done.
  - rewrite (HX eq_refl). simpl.
    split; [unfold well_typed_event; tauto|]. split; [by apply Hpass|].
    intros _. apply Hpass; [done|by right].
Qed.
End EngineInvariants.

(** X25.  The book of the engine.  After any sequence of well-typed
    events processed by a new engine, the book is in a state reachable by
    book operations (a rejected event leaves it as it is, every other
    event performs the one operation it stands for), so all that holds of
    reachable books holds of it; and because every event that reaches the
    book has passed the risk checks, every resting order has a positive
    remaining quantity and a price within the configured price range,
    and every trade reported has a positive quantity. *)
Theorem engine_book_behind_risk_checks (config : EngineConfig.t)
    (events : list OrderEvent.t) :
  in_u32 (EngineConfig.max_orders config) ->
  Forall well_typed_event events ->
  let b := MatchingEngine.book_
             (MatchingEngine.run (MatchingEngine.new config) events) in
  reachable b /\
  quantities_positive b /\
  prices_satisfy (price_allowed (EngineConfig.risk config)) b /\
  Forall (fun t => 0 < Trade.qty t) (trade_log_ b).
Proof.
  intros Hn Hev. cbv zeta. unfold MatchingEngine.run.
  revert Hev. induction events as [|ev events IH] using rev_ind; intros Hev.
  { simpl. split; [by constructor|]. split; [apply new_book_positive|].
    split; [|constructor]. intros id i Hi. simpl in Hi.
    by rewrite lookup_empty in Hi. }
  apply Forall_app in Hev as [Hev Hwt]. apply Forall_inv in Hwt.
  specialize (IH Hev). rewrite fold_left_app. simpl.
  set (e := fold_left MatchingEngine.process_event events (MatchingEngine.new config))
    in *.
  assert (Hcfg : MatchingEngine.config_ e = config).
  { unfold e. clear. induction events as [|ev' events IH'] using rev_ind; [done|].
    rewrite fold_left_app. simpl. by rewrite process_event_config. }
  destruct IH as (Hr & HQ & HP & Hlog).
  destruct (process_event_book e ev) as [->|(op & -> & Hwto & Hpos & Hpr)]; [done|].
  rewrite Hcfg in Hpr. specialize (Hwto Hwt).
  pose proof (reachable_Inv _ Hr) as Hb.
  destruct (apply_op_positive _ op Hb HQ Hwto Hpos) as [HQ' Hts].
  split; [by apply reachable_step|]. split; [done|].
  split; [by apply apply_op_prices|].
  destruct (apply_op_advances (MatchingEngine.book_ e) op) as (ts & (Hl & _) & _).
  rewrite (trades_since_app _ _ _ Hl) in Hts. rewrite Hl.
  by apply Forall_app.
Qed.

(** Three events on an engine with room for four orders and the default
    risk limits: a sell, a modify to quantity 0 (rejected by the risk
    checks) and a buy that trades with the resting sell. *)
Lemma engine_book_behind_risk_checks_witness :
  let e := MatchingEngine.run
             (MatchingEngine.new (EngineConfig.mk 4 8 1000000000 RiskConfig.default))
             [OrderEvent.new_limit 1 0 Sell 100 10;
              OrderEvent.modify 1 0 100;
              OrderEvent.new_limit 2 1 Buy 100 4] in
  reachable (MatchingEngine.book_ e) /\
  quantities_positive (MatchingEngine.book_ e) /\
  trade_log_ (MatchingEngine.book_ e) = [Trade.mk 1 2 0 1 100 4 Buy] /\
  EngineStats.rejected_count (MatchingEngine.stats_ e) = 1%N.
Proof.
  cbv zeta.
  destruct (engine_book_behind_risk_checks
              (EngineConfig.mk 4 8 1000000000 RiskConfig.default)
              [OrderEvent.new_limit 1 0 Sell 100 10;
               OrderEvent.modify 1 0 100;
               OrderEvent.new_limit 2 1 Buy 100 4]) as (Hr & HQ & _).
  - vm_compute. reflexivity.
  - repeat constructor; vm_compute; try reflexivity; discriminate.
  - split; [exact Hr|]. split; [exact HQ|].
    split; vm_compute; reflexivity.
Defined.

(* ===================================================================== *)
(** ** Conservation over the account table *)
(* ===================================================================== *)

Section Conservation.
Implicit Types (accs : Accounts.t) (l : list Account.t).

Lemma wrap_i64_add_r a c : wrap_i64 (a + wrap_i64 c) = wrap_i64 (a + c).
Proof. rewrite Z.add_comm, wrap_i64_add_l. f_equal. lia. Qed.

Lemma wrap_i64_idem z : wrap_i64 (wrap_i64 z) = wrap_i64 z.
Proof. pose proof (wrap_i64_add_l z 0) as H. by rewrite !Z.add_0_r in H. Qed.

Lemma sums_alter l i f d e a :
  shifts f d e -> l !! i = Some a ->
  wrap_i64 (sum_balances (alter f i l)) = wrap_i64 (sum_balances l + d) /\
  wrap_i64 (sum_positions (alter f i l)) = wrap_i64 (sum_positions l + e).
Proof.
  intros Hf. revert i. induction l as [|x l IH]; intros i Hi; [done|].
  destruct i as [|i].
  - change (alter f 0%nat (x :: l)) with (f x :: l).
    unfold sum_balances, sum_positions. cbn [foldr].
    destruct (Hf x) as [Hb Hp].
    rewrite <- wrap_i64_add_l, Hb, wrap_i64_add_l.
    rewrite <- (wrap_i64_add_l (Account.position (f x))), Hp, wrap_i64_add_l.
    split; f_equal; lia.
  - change (alter f (S i) (x :: l)) with (x :: alter f i l).
    destruct (IH i Hi) as [Hb Hp].
    unfold sum_balances, sum_positions in *. cbn [foldr].
    rewrite <- wrap_i64_add_r, Hb, wrap_i64_add_r.
    rewrite <- (wrap_i64_add_r (Account.position x)), Hp, wrap_i64_add_r.
    split; f_equal; lia.
Qed.

Lemma totals_update accs i f d e :
  shifts f d e -> is_Some (Accounts.accounts_ accs !! i) ->
  total_balance (Accounts.update accs i f) = wrap_i64 (total_balance accs + d) /\
  total_position (Accounts.update accs i f) = wrap_i64 (total_position accs + e).
Proof.
  intros Hf [a Hi]. unfold total_balance, total_position, Accounts.update. simpl.
  destruct (sums_alter _ i f d e a Hf Hi) as [-> ->].
  by rewrite !wrap_i64_add_l.
Qed.

Lemma lookup_update accs i f k :
  is_Some (Accounts.accounts_ accs !! k) ->
  is_Some (Accounts.accounts_ (Accounts.update accs i f) !! k).
Proof.
  intros [a Hk]. unfold Accounts.update. simpl. rewrite list_lookup_alter.
  case_decide; [subst; rewrite Hk|]; eauto.
Qed.

Lemma shifts_balance_add d : shifts (Account.balance_fetch_add d) d 0.
Proof. intros a. simpl. by rewrite wrap_i64_idem, Z.add_0_r. Qed.

Lemma shifts_balance_sub d : shifts (Account.balance_fetch_sub d) (- d) 0.
Proof. intros a. simpl. by rewrite wrap_i64_idem, Z.add_0_r. Qed.

Lemma shifts_position_add d : shifts (Account.position_fetch_add d) 0 d.
Proof. intros a. simpl. by rewrite wrap_i64_idem, Z.add_0_r. Qed.

Lemma shifts_position_sub d : shifts (Account.position_fetch_sub d) 0 (- d).
Proof. intros a. simpl. by rewrite wrap_i64_idem, Z.add_0_r. Qed.

Lemma shifts_trade_count n : shifts (Account.trade_count_fetch_add n) 0 0.
Proof. intros a. simpl. by rewrite !Z.add_0_r. Qed.

Lemma shifts_volume d : shifts (Account.volume_fetch_add d) 0 0.
Proof. intros a. simpl. by rewrite !Z.add_0_r. Qed.

(** One more update in a chain of updates that started from [accs]. *)
Lemma totals_step accs accs' i f d e d' e' :
  (total_balance accs' = wrap_i64 (total_balance accs + d) /\
   total_position accs' = wrap_i64 (total_position accs + e) /\
   forall k, is_Some (Accounts.accounts_ accs !! k) ->
             is_Some (Accounts.accounts_ accs' !! k)) ->
  shifts f d' e' -> is_Some (Accounts.accounts_ accs !! i) ->
  total_balance (Accounts.update accs' i f) = wrap_i64 (total_balance accs + (d + d')) /\
  total_position (Accounts.update accs' i f) = wrap_i64 (total_position accs + (e + e')) /\
  forall k, is_Some (Accounts.accounts_ accs !! k) ->
            is_Some (Accounts.accounts_ (Accounts.update accs' i f) !! k).
Proof.
  intros (Hb & Hp & Hk) Hf Hi.
  destruct (totals_update accs' i f d' e' Hf (Hk i Hi)) as [-> ->].
  rewrite Hb, Hp, !wrap_i64_add_l. repeat split; try (f_equal; lia).
  intros k Hsome. apply lookup_update, Hk, Hsome.
Qed.

(** A trade moves money and position between two accounts. *)
Lemma apply_trade_totals accs m t s p q :
  total_balance (Accounts.apply_trade accs m t s p q) = total_balance accs /\
  total_position (Accounts.apply_trade accs m t s p q) = total_position accs.
Proof.
  unfold Accounts.apply_trade.
  destruct (Accounts.get accs m) as [mi|] eqn:Hm; [|done].
  destruct (Accounts.get accs t) as [ti|] eqn:Ht; [|done].
  destruct (get_lookup accs m mi Hm) as (am & Hlm & _).
  destruct (get_lookup accs t ti Ht) as (at_ & Hlt & _).
  assert (Hm0 : is_Some (Accounts.accounts_ accs !! mi)) by eauto.
  assert (Ht0 : is_Some (Accounts.accounts_ accs !! ti)) by eauto.
  cbv zeta. generalize (wrap_i64 (p * q)). intros n.
  assert (H0 : total_balance accs = wrap_i64 (total_balance accs + 0) /\
               total_position accs = wrap_i64 (total_position accs + 0) /\
               forall k, is_Some (Accounts.accounts_ accs !! k) ->
                         is_Some (Accounts.accounts_ accs !! k)).
  { rewrite !Z.add_0_r. unfold total_balance, total_position.
    by rewrite !wrap_i64_idem. }
  destruct H0 as (Hb0 & Hp0 & _).
  destruct s.
  - pose proof (totals_step accs accs ti _ 0 0 _ _
                  (conj Hb0 (conj Hp0 (fun k H => H))) (shifts_balance_sub n) Ht0) as H1.
    pose proof (totals_step _ _ ti _ _ _ _ _ H1 (shifts_position_add q) Ht0) as H2.
    pose proof (totals_step _ _ mi _ _ _ _ _ H2 (shifts_balance_add n) Hm0) as H3.
    pose proof (totals_step _ _ mi _ _ _ _ _ H3 (shifts_position_sub q) Hm0) as H4.
    pose proof (totals_step _ _ mi _ _ _ _ _ H4 (shifts_trade_count 1) Hm0) as H5.
    pose proof (totals_step _ _ mi _ _ _ _ _ H5 (shifts_volume q) Hm0) as H6.
    pose proof (totals_step _ _ ti _ _ _ _ _ H6 (shifts_trade_count 1) Ht0) as H7.
    pose proof (totals_step _ _ ti _ _ _ _ _ H7 (shifts_volume q) Ht0) as (Hb & Hp & _).
    rewrite Hb, Hp. rewrite Hb0 at 2. rewrite Hp0 at 2. split; f_equal; lia.
  - pose proof (totals_step accs accs ti _ 0 0 _ _
                  (conj Hb0 (conj Hp0 (fun k H => H))) (shifts_balance_add n) Ht0) as H1.
    pose proof (totals_step _ _ ti _ _ _ _ _ H1 (shifts_position_sub q) Ht0) as H2.
    pose proof (totals_step _ _ mi _ _ _ _ _ H2 (shifts_balance_sub n) Hm0) as H3.
    pose proof (totals_step _ _ mi _ _ _ _ _ H3 (shifts_position_add q) Hm0) as H4.
    pose proof (totals_step _ _ mi _ _ _ _ _ H4 (shifts_trade_count 1) Hm0) as H5.
    pose proof (totals_step _ _ mi _ _ _ _ _ H5 (shifts_volume q) Hm0) as H6.
    pose proof (totals_step _ _ ti _ _ _ _ _ H6 (shifts_trade_count 1) Ht0) as H7.
    pose proof (totals_step _ _ ti _ _ _ _ _ H7 (shifts_volume q) Ht0) as (Hb & Hp & _).
    rewrite Hb, Hp. rewrite Hb0 at 2. rewrite Hp0 at 2. split; f_equal; lia.
Qed.
End Conservation.

Section EngineConservation.
Implicit Types (accs : Accounts.t) (e : MatchingEngine.t).

Lemma sums_app l a :
  sum_balances (l ++ [a]) = sum_balances l + Account.balance a /\
  sum_positions (l ++ [a]) = sum_positions l + Account.position a.
Proof.
  unfold sum_balances, sum_positions.
  induction l as [|x l [IHb IHp]]; simpl; [lia|]. rewrite IHb, IHp. lia.
Qed.

(** [get_or_create] leaves the table as it is or appends one account
    holding the initial balance and no position. *)
Lemma get_or_create_totals accs id b :
  let accs' := (Accounts.get_or_create accs id b).2 in
  accs' = accs \/
  (Accounts.size accs' = (Accounts.size accs + 1)%N /\
   total_balance accs' = wrap_i64 (total_balance accs + b) /\
   total_position accs' = total_position accs).
Proof.
  unfold Accounts.get_or_create.
  destruct (Accounts.get accs id); [by left|].
  destruct (_ <=? _)%N; [by left|]. right. simpl.
  unfold Accounts.size, total_balance, total_position. simpl.
  destruct (sums_app (Accounts.accounts_ accs) (Account.make id b)) as [-> ->].
  simpl. rewrite length_app, wrap_i64_add_l, Z.add_0_r. simpl.
  split; [lia|done].
Qed.

Lemma size_apply_trade accs m t s p q :
  Accounts.size (Accounts.apply_trade accs m t s p q) = Accounts.size accs.
Proof.
  destruct (trader_ids_apply_trade accs m t s p q) as [H _].
  unfold Accounts.size. f_equal.
  apply (f_equal length) in H. unfold trader_ids in H.
  by rewrite !length_fmap in H.
Qed.

Lemma fold_on_trade_totals ts accs stats :
  let accs' := (fold_left MatchingEngine.on_trade ts (accs, stats)).1 in
  total_balance accs' = total_balance accs /\
  total_position accs' = total_position accs /\
  Accounts.size accs' = Accounts.size accs.
Proof.
  revert accs stats. induction ts as [|tr ts IH]; intros accs stats; [done|].
  pose proof (IH (Accounts.apply_trade accs (Trade.maker_trader_id tr)
                    (Trade.taker_trader_id tr) (Trade.taker_side tr)
                    (Trade.price tr) (Trade.qty tr))
                 (EngineStats.add_trade (Trade.qty tr) stats)) as (Hb & Hp & Hs).
  destruct (apply_trade_totals accs (Trade.maker_trader_id tr)
              (Trade.taker_trader_id tr) (Trade.taker_side tr)
              (Trade.price tr) (Trade.qty tr)) as [Hb' Hp'].
  split_and!.
  - etrans; [exact Hb|exact Hb'].
  - etrans; [exact Hp|exact Hp'].
  - etrans; [exact Hs|apply size_apply_trade].
Qed.

(** What one event does to the totals of the account table. *)
Lemma process_event_totals e ev :
  let ib := EngineConfig.initial_balance (MatchingEngine.config_ e) in
  let accs := MatchingEngine.accounts_ e in
  let accs' := MatchingEngine.accounts_ (MatchingEngine.process_event e ev) in
  total_position accs = 0 ->
  total_balance accs = wrap_i64 (Z.of_N (Accounts.size accs) * ib) ->
  total_position accs' = 0 /\
  total_balance accs' = wrap_i64 (Z.of_N (Accounts.size accs') * ib).
Proof.
  cbv zeta. intros Hp Hb.
  unfold MatchingEngine.process_event.
  set (ib := EngineConfig.initial_balance (MatchingEngine.config_ e)) in *.
  set (accounts1 := if bool_decide _ then _ else _).
  assert (H1 : total_position accounts1 = 0 /\
               total_balance accounts1
               = wrap_i64 (Z.of_N (Accounts.size accounts1) * ib)).
  { subst accounts1. destruct (bool_decide _); [done|].
    pose proof (get_or_create_totals (MatchingEngine.accounts_ e)
                  (OrderEvent.trader_id ev) ib) as Hg.
    cbv zeta in Hg. destruct Hg as [->|(Hs & Hb' & Hp')]; [done|].
    rewrite Hp', Hb', Hs, Hb, wrap_i64_add_l.
    split; [done|]. f_equal. lia. }
  clearbody accounts1. cbv zeta.
  destruct (negb _); [done|].
  destruct (MatchingEngine.dispatch _ _) as [book1 response].
  pose proof (fold_on_trade_totals
                (MatchingEngine.new_trades (MatchingEngine.book_ e) book1)
                accounts1 (MatchingEngine.stats_ e)) as Hfold.
  cbv zeta in Hfold.
  destruct (fold_left _ _ _) as [accounts2 stats2]. simpl in *.
  destruct Hfold as (-> & -> & ->). done.
Qed.
End EngineConservation.

(** X26.  The engine neither creates nor destroys money or position.
    After any sequence of events processed by a new engine, the positions
    of all accounts sum to zero and the balances of all accounts sum to
    the number of accounts times the configured initial balance, both in
    64-bit two's-complement arithmetic: an account is only ever created
    with the initial balance and no position, and every trade debits one
    party by what it credits the other. *)
Theorem engine_conserves_money_and_position
    (config : EngineConfig.t) (events : list OrderEvent.t) :
  let e := MatchingEngine.run (MatchingEngine.new config) events in
  let accs := MatchingEngine.accounts_ e in
  total_position accs = 0 /\
  total_balance accs
  = wrap_i64 (Z.of_N (Accounts.size accs) * EngineConfig.initial_balance config).
Proof.
  cbv zeta. unfold MatchingEngine.run.
  assert (Hc : forall evs,
             MatchingEngine.config_
               (fold_left MatchingEngine.process_event evs (MatchingEngine.new config))
             = config).
  { induction evs as [|ev' evs IH'] using rev_ind; [done|].
    rewrite fold_left_app. simpl. by rewrite process_event_config. }
  induction events as [|ev events IH] using rev_ind; [done|].
  rewrite fold_left_app. simpl.
  destruct IH as [Hp Hb].
  pose proof (process_event_totals
                (fold_left MatchingEngine.process_event events (MatchingEngine.new config))
                ev) as H.
  cbv zeta in H. rewrite Hc in H. by apply H.
Qed.

(* ===================================================================== *)
(** ** The object pool keeps account of its slots *)
(* ===================================================================== *)

Section PoolAccounting.
Implicit Types (p : Pool.t) (fl : list N) (i j : N).
Local Open Scope N_scope.

Lemma elem_of_indices capacity i : i ∈ indices capacity <-> i < capacity.
Proof.
  unfold indices. rewrite list_elem_of_fmap. split.
  - intros (n & -> & Hn). apply elem_of_seq in Hn. lia.
  - intros Hlt. exists (N.to_nat i). split; [lia|]. apply elem_of_seq. lia.
Qed.

Lemma NoDup_indices capacity : NoDup (indices capacity).
Proof. apply NoDup_fmap; [|apply NoDup_seq]. intros x y. lia. Qed.

Lemma length_indices capacity : N.of_nat (length (indices capacity)) = capacity.
Proof. unfold indices. rewrite length_fmap, length_seq. lia. Qed.

Lemma free_list_ext_in p p' hd fl :
  (forall j, j ∈ fl ->
     Pool.next_free (Pool.entry_at p' j) = Pool.next_free (Pool.entry_at p j)) ->
  free_list p hd fl -> free_list p' hd fl.
Proof.
  revert hd. induction fl as [|k fl IH]; intros hd H; simpl; [done|].
  intros [-> Hl]. split; [done|]. rewrite H by left.
  apply IH; [|done]. intros j Hj. apply H. by right.
Qed.

(** The freelist of a pool whose slots are chained in index order. *)
Lemma free_list_chained p capacity :
  (forall i, i < capacity ->
     Pool.next_free (Pool.entry_at p i) = Pool.free_link capacity i) ->
  free_list p (if 0 <? capacity then 0 else INVALID_POOL_INDEX) (indices capacity).
Proof.
  intros Hnext.
  assert (Hgen : forall n start,
            (start + n)%nat = N.to_nat capacity ->
            free_list p
              (match n with O => INVALID_POOL_INDEX | _ => N.of_nat start end)
              (N.of_nat <$> seq start n)).
  { induction n as [|n IH]; intros start Hs; simpl; [done|].
    split; [done|]. rewrite Hnext by lia.
    specialize (IH (S start) ltac:(lia)).
    unfold Pool.free_link. destruct n as [|n].
    - destruct (N.ltb_spec (N.of_nat start + 1) capacity); [lia|done].
    - destruct (N.ltb_spec (N.of_nat start + 1) capacity); [|lia].
      replace (N.of_nat start + 1) with (N.of_nat (S start)) by lia. done. }
  specialize (Hgen (N.to_nat capacity) 0%nat eq_refl). unfold indices.
  destruct (N.ltb_spec 0 capacity).
  - destruct (N.to_nat capacity) eqn:E; [lia|done].
  - replace (N.to_nat capacity) with 0%nat in * by lia. done.
Qed.

Lemma is_valid_spec p fl i :
  pool_acct p fl -> Pool.is_valid p i = true <-> i < Pool.capacity_ p /\ i ∉ fl.
Proof.
  intros (Hcap & Hdom & Hfl & Hnd & Hfree & Hsize). unfold Pool.is_valid.
  rewrite andb_true_iff, N.ltb_lt. split.
  - intros [Hlt Hu]. split; [done|]. intros Hi. apply Hfree in Hi.
    by eapply slot_free_not_live.
  - intros [Hlt Hni]. split; [done|].
    destruct (proj2 (Hdom i) Hlt) as [e He].
    unfold Pool.entry_at. rewrite He. simpl.
    destruct (Pool.in_use e) eqn:Hu; [done|].
    exfalso. apply Hni, Hfree. by exists e.
Qed.

Lemma elem_of_valid_indices p i :
  i ∈ valid_indices p <-> Pool.is_valid p i = true.
Proof.
  unfold valid_indices. rewrite list_elem_of_filter, elem_of_indices.
  unfold Pool.is_valid. rewrite andb_true_iff, N.ltb_lt. tauto.
Qed.

(** [size_] is the number of valid indices. *)
Lemma size_counts_valid p fl :
  pool_acct p fl -> Pool.size_ p = N.of_nat (length (valid_indices p)).
Proof.
  intros Hp. pose proof Hp as (Hcap & Hdom & Hfl & Hnd & Hfree & Hsize).
  assert (Hperm : indices (Pool.capacity_ p) ≡ₚ fl ++ valid_indices p).
  { apply NoDup_Permutation; [apply NoDup_indices| |].
    - apply NoDup_app. split; [done|]. split.
      + intros i Hi Hv. apply elem_of_valid_indices in Hv.
        apply (is_valid_spec p fl i Hp) in Hv as [_ Hni]. done.
      + apply NoDup_filter, NoDup_indices.
    - intros i. rewrite elem_of_indices, elem_of_app, elem_of_valid_indices,
        (is_valid_spec p fl i Hp). split.
      + intros Hlt. destruct (decide (i ∈ fl)); [by left|by right].
      + intros [Hi|[Hlt _]]; [|done]. apply Hfree in Hi as (e & He & _).
        apply Hdom. eauto. }
  apply Permutation_length in Hperm. rewrite length_app in Hperm.
  pose proof (length_indices (Pool.capacity_ p)). lia.
Qed.

Lemma pool_acct_new capacity :
  in_u32 capacity -> pool_acct (Pool.new capacity) (indices capacity).
Proof.
  intros Hcap. unfold in_u32 in Hcap.
  split; [simpl; unfold INVALID_POOL_INDEX; lia|]. split.
  { intros i. rewrite pool_new_lookup. simpl.
    destruct (N.ltb_spec i capacity) as [Hlt|Hge]; split; intros Hi;
      try done; try lia; by destruct Hi. }
  split.
  { simpl Pool.free_head_. apply free_list_chained. intros i Hi.
    unfold Pool.entry_at. rewrite pool_new_lookup.
    destruct (N.ltb_spec i capacity); [done|lia]. }
  split; [apply NoDup_indices|]. split.
  - intros i. rewrite elem_of_indices. unfold slot_free.
    rewrite pool_new_lookup. destruct (N.ltb_spec i capacity); split.
    + intros _. eauto.
    + done.
    + lia.
    + by intros (e & He & _).
  - simpl. rewrite length_indices. lia.
Qed.

Lemma foldl_alter_lookup {A} (g : N -> A -> A) (keys : list N) (m : gmap N A) j :
  NoDup keys ->
  foldl (fun m i => alter (g i) i m) m keys !! j
  = if decide (j ∈ keys) then g j <$> m !! j else m !! j.
Proof.
  revert m. induction keys as [|k keys IH]; intros m Hnd.
  { simpl. destruct (decide (j ∈ [])) as [Hj|]; [by apply elem_of_nil in Hj|done]. }
  apply NoDup_cons in Hnd as [Hk Hnd]. simpl. rewrite IH by done.
  rewrite lookup_alter.
  destruct (decide (k = j)) as [->|Hne].
  - rewrite decide_False by done. rewrite decide_True by left. done.
  - destruct (decide (j ∈ keys)) as [Hj|Hj].
    + rewrite decide_True by (by right). done.
    + rewrite decide_False; [done|].
      intros Hc. apply elem_of_cons in Hc as [->|Hc]; done.
Qed.

Lemma clear_lookup p i :
  Pool.storage_ (Pool.clear p) !! i
  = if decide (i < Pool.capacity_ p)
    then Pool.clear_entry (Pool.capacity_ p) i <$> Pool.storage_ p !! i
    else Pool.storage_ p !! i.
Proof.
  unfold Pool.clear. simpl.
  rewrite (foldl_alter_lookup (Pool.clear_entry (Pool.capacity_ p)))
    by apply NoDup_indices.
  fold (indices (Pool.capacity_ p)).
  destruct (decide (i < Pool.capacity_ p)) as [Hlt|Hge].
  - rewrite decide_True; [done|]. by apply elem_of_indices.
  - rewrite decide_False; [done|]. by rewrite elem_of_indices.
Qed.

Lemma pool_acct_clear p fl :
  pool_acct p fl -> pool_acct (Pool.clear p) (indices (Pool.capacity_ p)).
Proof.
  intros (Hcap & Hdom & _).
  split; [done|]. split.
  { intros i. rewrite clear_lookup. change (Pool.capacity_ (Pool.clear p))
      with (Pool.capacity_ p). specialize (Hdom i).
    case_decide; [by rewrite fmap_is_Some|done]. }
  split.
  { simpl Pool.free_head_. apply free_list_chained. intros i Hi.
    unfold Pool.entry_at. rewrite clear_lookup, decide_True by done.
    destruct (proj2 (Hdom i) Hi) as [e ->]. done. }
  split; [apply NoDup_indices|]. split.
  - intros i. rewrite elem_of_indices. unfold slot_free. rewrite clear_lookup.
    split.
    + intros Hi. rewrite decide_True by done.
      destruct (proj2 (Hdom i) Hi) as [e ->]. simpl. eauto.
    + intros (e & He & _). case_decide; [done|]. apply Hdom. eauto.
  - simpl. rewrite length_indices. lia.
Qed.

Lemma allocate_lookup p o j :
  Pool.storage_ (Pool.allocate p o).2 !! j
  = if decide (Pool.free_head_ p = j /\ Pool.free_head_ p <> INVALID_POOL_INDEX)
    then (fun e => Pool.mkEntry o (Pool.next_free e) true) <$> Pool.storage_ p !! j
    else Pool.storage_ p !! j.
Proof.
  unfold Pool.allocate.
  destruct (N.eqb_spec (Pool.free_head_ p) INVALID_POOL_INDEX) as [He|Hne]; simpl.
  - rewrite decide_False; [done|]. tauto.
  - rewrite lookup_alter. destruct (decide (Pool.free_head_ p = j)) as [Heq|Hj].
    + rewrite decide_True by (split; done). by rewrite Heq.
    + rewrite decide_False; [done|]. tauto.
Qed.

Lemma pool_acct_allocate p fl o :
  pool_acct p fl -> Pool.free_head_ p <> INVALID_POOL_INDEX ->
  exists fl', fl = Pool.free_head_ p :: fl' /\
              pool_acct (Pool.allocate p o).2 fl' /\
              Pool.size_ (Pool.allocate p o).2 = Pool.size_ p + 1.
Proof.
  intros (Hcap & Hdom & Hfl & Hnd & Hfree & Hsize) Hne.
  destruct fl as [|i fl']; simpl in Hfl; [done|].
  destruct Hfl as [Hi Hfl]. exists fl'. split; [by rewrite Hi|].
  apply NoDup_cons in Hnd as [Hni Hnd].
  destruct (proj1 (Hfree i) ltac:(left)) as (e & He & Hu).
  assert (Hlk : forall j,
    Pool.storage_ (Pool.allocate p o).2 !! j =
    if decide (i = j) then Some (Pool.mkEntry o (Pool.next_free e) true)
    else Pool.storage_ p !! j).
  { intros j. rewrite allocate_lookup, Hi.
    destruct (decide (i = j)) as [<-|Hj].
    - rewrite decide_True by (split; congruence). by rewrite He.
    - rewrite decide_False; [done|]. tauto. }
  assert (Hp' : Pool.allocate p o
                = (i, Pool.mk (alter (fun e => Pool.mkEntry o (Pool.next_free e) true) i
                                     (Pool.storage_ p))
                              (Pool.next_free e) (Pool.capacity_ p)
                              (incr_u32 (Pool.size_ p)))).
  { unfold Pool.allocate.
    destruct (N.eqb_spec (Pool.free_head_ p) INVALID_POOL_INDEX); [done|].
    unfold Pool.entry_at. rewrite Hi, He. done. }
  assert (Hsz : incr_u32 (Pool.size_ p) = Pool.size_ p + 1).
  { unfold incr_u32, wrap_u32. apply N.mod_small.
    simpl in Hsize. unfold INVALID_POOL_INDEX in Hcap. lia. }
  rewrite Hp' in Hlk |- *. cbn [snd] in Hlk |- *. clear Hp'.
  split; [|by simpl].
  split; [done|]. split.
  { intros j. cbn [Pool.storage_ Pool.capacity_]. rewrite Hlk.
    case_decide; [subst j|by rewrite Hdom].
    rewrite <- Hdom, He. split; eauto. }
  split.
  { cbn [Pool.free_head_].
    unfold Pool.entry_at in Hfl. rewrite He in Hfl. simpl in Hfl.
    eapply free_list_ext; [|exact Hfl].
    intros j. unfold Pool.entry_at. rewrite Hlk.
    case_decide; [subst j; by rewrite He|done]. }
  split; [done|]. split.
  - intros j. unfold slot_free. rewrite Hlk. split.
    + intros Hj. rewrite decide_False by (intros ->; done).
      apply Hfree. by right.
    + intros (e' & He' & Hu'). case_decide; [by simplify_eq|].
      assert (Hj : j ∈ i :: fl') by (apply Hfree; by exists e').
      apply elem_of_cons in Hj as [->|Hj]; done.
  - simpl in *. lia.
Qed.

Lemma pool_acct_deallocate p fl i :
  pool_acct p fl -> Pool.is_valid p i = true ->
  pool_acct (Pool.deallocate p i) (i :: fl) /\
  Pool.size_ p = Pool.size_ (Pool.deallocate p i) + 1.
Proof.
  intros Hp Hv. pose proof Hp as (Hcap & Hdom & Hfl & Hnd & Hfree & Hsize).
  pose proof (size_counts_valid p fl Hp) as Hcount.
  pose proof (proj2 (elem_of_valid_indices p i) Hv) as Hin.
  apply (is_valid_spec p fl i Hp) in Hv as [Hlt Hni].
  pose proof (proj2 (Hdom i) Hlt) as Hsome.
  assert (Hpos : 1 <= Pool.size_ p).
  { destruct (valid_indices p); [by apply elem_of_nil in Hin|].
    simpl in Hcount. lia. }
  assert (Hsz : decr_u32 (Pool.size_ p) = Pool.size_ p - 1).
  { unfold decr_u32, wrap_u32.
    replace (Pool.size_ p + (2 ^ 32 - 1)) with (Pool.size_ p - 1 + 1 * 2 ^ 32) by lia.
    rewrite N.Div0.mod_add. apply N.mod_small.
    unfold INVALID_POOL_INDEX in Hcap. lia. }
  split; [|simpl; lia].
  split; [done|]. split.
  { intros j. by rewrite deallocate_dom. }
  split.
  { simpl. split; [done|]. rewrite deallocate_next_free by done.
    rewrite decide_True by done.
    eapply free_list_ext_in; [|exact Hfl]. intros j Hj.
    rewrite deallocate_next_free by done.
    rewrite decide_False; [done|]. by intros ->. }
  split; [by apply NoDup_cons|]. split.
  - intros j. rewrite deallocate_free, elem_of_cons, Hfree. split.
    + intros [->|Hj]; [by left|]. right. split; [|done].
      intros ->. by apply Hni, Hfree.
    + intros [[-> _]|[_ Hj]]; [by left|by right].
  - simpl Pool.size_. simpl Pool.capacity_. simpl length. lia.
Qed.

Lemma free_head_valid p fl :
  pool_acct p fl ->
  (Pool.free_head_ p = INVALID_POOL_INDEX <-> fl = []) /\
  (Pool.free_head_ p <> INVALID_POOL_INDEX ->
   Pool.free_head_ p < Pool.capacity_ p /\ Pool.free_head_ p ∈ fl).
Proof.
  intros (Hcap & Hdom & Hfl & Hnd & Hfree & Hsize).
  destruct fl as [|i fl']; simpl in Hfl; [done|]. destruct Hfl as [-> _].
  assert (Hi : i < Pool.capacity_ p).
  { destruct (proj1 (Hfree i) ltac:(left)) as (e & He & _). apply Hdom. eauto. }
  split; [split; [lia|done]|]. intros _. split; [done|left].
Qed.

Lemma allocate_get p fl o :
  pool_acct p fl -> Pool.free_head_ p <> INVALID_POOL_INDEX ->
  (Pool.allocate p o).1 = Pool.free_head_ p /\
  Pool.get (Pool.allocate p o).2 (Pool.free_head_ p) = Some o /\
  forall j, j <> Pool.free_head_ p ->
            Pool.get (Pool.allocate p o).2 j = Pool.get p j.
Proof.
  intros Hp Hne. destruct (free_head_valid p fl Hp) as [_ Hhd].
  destruct (Hhd Hne) as [Hlt Hin].
  destruct Hp as (Hcap & Hdom & Hfl & Hnd & Hfree & Hsize).
  destruct (proj1 (Hfree _) Hin) as (e & He & Hu).
  assert (Hc : Pool.capacity_ (Pool.allocate p o).2 = Pool.capacity_ p).
  { unfold Pool.allocate. by destruct (_ =? _). }
  split; [|split].
  - unfold Pool.allocate. by destruct (N.eqb_spec (Pool.free_head_ p) INVALID_POOL_INDEX).
  - unfold Pool.get, Pool.at_, Pool.entry_at. rewrite Hc, allocate_lookup.
    rewrite decide_True by done. rewrite He. simpl.
    destruct (N.leb_spec (Pool.capacity_ p) (Pool.free_head_ p)); [lia|done].
  - intros j Hj. unfold Pool.get, Pool.at_, Pool.entry_at.
    rewrite Hc, allocate_lookup. rewrite decide_False; [done|].
    intros [Heq _]. congruence.
Qed.

Lemma deallocate_get p i :
  is_Some (Pool.storage_ p !! i) ->
  Pool.is_valid (Pool.deallocate p i) i = false /\
  forall j, j <> i -> Pool.get (Pool.deallocate p i) j = Pool.get p j.
Proof.
  intros [e He]. split.
  - unfold Pool.is_valid, Pool.entry_at, Pool.deallocate. simpl.
    rewrite lookup_alter, decide_True by done. rewrite He. simpl.
    apply andb_false_r.
  - intros j Hj. unfold Pool.get, Pool.at_, Pool.entry_at, Pool.deallocate. simpl.
    rewrite lookup_alter, decide_False by done. done.
Qed.

Lemma pool_run_snoc p ops op :
  pool_run p (ops ++ [op]) = pool_run p ops ≫= fun p' => pool_call p' op.
Proof. unfold pool_run. by rewrite foldl_app. Qed.

Lemma pool_run_acct capacity ops p :
  in_u32 capacity -> pool_run (Pool.new capacity) ops = Some p ->
  Pool.capacity_ p = capacity /\ exists fl, pool_acct p fl.
Proof.
  intros Hcap. revert p. induction ops as [|op ops IH] using rev_ind; intros p.
  { intros [= <-]. split; [done|]. eexists. by apply pool_acct_new. }
  rewrite pool_run_snoc.
  destruct (pool_run (Pool.new capacity) ops) as [p0|]; [|done]. simpl.
  destruct (IH p0 eq_refl) as (Hc & fl & Hp0).
  destruct op as [o|i|]; simpl.
  - intros [= <-].
    destruct (N.eq_dec (Pool.free_head_ p0) INVALID_POOL_INDEX) as [He|Hne].
    + unfold Pool.allocate. rewrite (proj2 (N.eqb_eq _ _) He). simpl. eauto.
    + destruct (pool_acct_allocate p0 fl o Hp0 Hne) as (fl' & _ & Hp' & _).
      split; [|eauto]. unfold Pool.allocate. by destruct (_ =? _).
  - destruct (Pool.is_valid p0 i) eqn:Hv; [|done]. intros [= <-].
    split; [done|]. exists (i :: fl). by apply pool_acct_deallocate.
  - intros [= <-]. split; [done|]. eexists. by eapply pool_acct_clear.
Qed.
End PoolAccounting.

(** X27.  The object pool keeps account of its slots.  For a pool built
    with a capacity below 2^32 and used through [allocate], [deallocate]
    of indices in use, and [clear]: [size()] is the number of indices
    [is_valid] accepts, and [full()] holds exactly when it equals the
    capacity.  [allocate] on a full pool returns [INVALID_INDEX] and
    changes nothing; otherwise it hands out an index below the capacity
    that was not in use, stores the object there, and leaves what [get]
    returns at every other index alone.  [deallocate] frees exactly its
    index, which the next [allocate] hands out again, and after [clear]
    no index is valid. *)
Theorem pool_accounts_for_every_slot
    (capacity : N) (ops : list PoolOp) (p : Pool.t) :
  in_u32 capacity -> pool_run (Pool.new capacity) ops = Some p ->
  Pool.capacity p = capacity /\
  Pool.size p = N.of_nat (length (valid_indices p)) /\
  (Pool.full p = true <-> Pool.size p = capacity) /\
  (forall o,
     let r := Pool.allocate p o in
     if Pool.full p then r = (INVALID_POOL_INDEX, p)
     else (r.1 < capacity)%N /\ Pool.is_valid p r.1 = false /\
          Pool.get r.2 r.1 = Some o /\ Pool.size r.2 = (Pool.size p + 1)%N /\
          forall j, j <> r.1 -> Pool.get r.2 j = Pool.get p j) /\
  (forall i, Pool.is_valid p i = true ->
     let p' := Pool.deallocate p i in
     Pool.is_valid p' i = false /\ Pool.size p = (Pool.size p' + 1)%N /\
     (forall j, j <> i -> Pool.get p' j = Pool.get p j) /\
     forall o, (Pool.allocate p' o).1 = i) /\
  forall i, Pool.is_valid (Pool.clear p) i = false.
Proof.
  intros Hcap Hrun.
  destruct (pool_run_acct capacity ops p Hcap Hrun) as (Hc & fl & Hp).
  pose proof (free_head_valid p fl Hp) as [Hnil Hhd].
  pose proof Hp as (Hle & Hdom & Hfl & Hnd & Hfree & Hsize).
  unfold Pool.capacity, Pool.size, Pool.full.
  split; [done|]. split; [by apply (size_counts_valid p fl)|]. split; [|split; [|split]].
  - rewrite N.eqb_eq, Hnil. split; [intros ->; simpl in Hsize; lia|].
    intros Hs. destruct fl; [done|]. simpl in Hsize. lia.
  - intros o. cbv zeta.
    destruct (N.eqb_spec (Pool.free_head_ p) INVALID_POOL_INDEX) as [He|Hne].
    + unfold Pool.allocate. by rewrite (proj2 (N.eqb_eq _ _) He).
    + destruct (allocate_get p fl o Hp Hne) as (-> & Hget & Hother).
      destruct (Hhd Hne) as [Hlt Hin].
      destruct (pool_acct_allocate p fl o Hp Hne) as (fl' & _ & _ & Hs).
      split; [lia|]. split; [|done].
      destruct (Pool.is_valid p (Pool.free_head_ p)) eqn:Hv; [|done].
      apply (is_valid_spec p fl _ Hp) in Hv as [_ Hni]. done.
  - intros i Hv. cbv zeta.
    destruct (pool_acct_deallocate p fl i Hp Hv) as [Hp' Hs].
    apply (is_valid_spec p fl i Hp) in Hv as [Hlt Hni].
    destruct (deallocate_get p i (proj2 (Hdom i) Hlt)) as [Hinv Hother].
    split; [done|]. split; [done|]. split; [done|].
    intros o. unfold Pool.allocate. simpl.
    destruct (N.eqb_spec i INVALID_POOL_INDEX); [lia|done].
  - intros i. pose proof (pool_acct_clear p fl Hp) as Hcl.
    destruct (Pool.is_valid (Pool.clear p) i) eqn:Hv; [|done].
    apply (is_valid_spec _ _ i Hcl) in Hv as [Hlt Hni].
    exfalso. apply Hni, elem_of_indices. done.
Qed.

(** A pool of two slots after two allocations and the release of slot 0. *)
Lemma pool_accounts_for_every_slot_witness :
  let ops := [PoolAllocate Order.default; PoolAllocate Order.default;
              PoolDeallocate 0%N] in
  in_u32 2 /\
  pool_run (Pool.new 2) ops
  = Some (Pool.deallocate (Pool.allocate (Pool.allocate (Pool.new 2) Order.default).2
                             Order.default).2 0) /\
  Pool.size (Pool.deallocate (Pool.allocate (Pool.allocate (Pool.new 2) Order.default).2
                                Order.default).2 0) = 1%N.
Proof.
  cbv zeta.
  assert (H2 : in_u32 2) by (unfold in_u32; lia).
  assert (Hrun : pool_run (Pool.new 2)
                   [PoolAllocate Order.default; PoolAllocate Order.default;
                    PoolDeallocate 0%N]
                 = Some (Pool.deallocate
                           (Pool.allocate (Pool.allocate (Pool.new 2) Order.default).2
                              Order.default).2 0)) by (vm_compute; reflexivity).
  split; [exact H2|]. split; [exact Hrun|].
  destruct (pool_accounts_for_every_slot 2 _ _ H2 Hrun) as (_ & -> & _).
  vm_compute. reflexivity.
Defined.

(* ===================================================================== *)
(** ** [order_count()] counts the resting orders *)
(* ===================================================================== *)

Section CountSteps.
Implicit Types (p : Pool.t) (b : OrderBook) (ch : Chains).
Local Open Scope N_scope.

Lemma remove_size p l i : Pool.size_ (PriceLevel.remove p l i).1 = Pool.size_ p.
Proof.
  unfold PriceLevel.remove. cbn [fst].
  repeat match goal with
         | |- context [if ?c then _ else _] => destruct c
         end; reflexivity.
Qed.

Lemma push_back_size p l i : Pool.size_ (PriceLevel.push_back p l i).1 = Pool.size_ p.
Proof.
  unfold PriceLevel.push_back. cbn [fst]. by destruct (_ =? _).
Qed.

Lemma allocate_size p o idx p' :
  Pool.allocate p o = (idx, p') -> idx <> INVALID_POOL_INDEX ->
  Pool.size_ p' = incr_u32 (Pool.size_ p).
Proof.
  unfold Pool.allocate.
  destruct (N.eqb_spec (Pool.free_head_ p) INVALID_POOL_INDEX);
    intros [= <- <-]; done.
Qed.

(** The index is as large as the queues are long, and the queues fit
    in the pool. *)
Lemma index_size b ch :
  book_inv b ch ->
  size (order_map_ b) = length (all_slots ch) /\
  N.of_nat (length (all_slots ch)) <= Pool.capacity_ (order_pool_ b) /\
  Pool.capacity_ (order_pool_ b) <= INVALID_POOL_INDEX.
Proof.
  intros Hinv. pose proof Hinv as (Hpool & _ & Hnd & Hmap & _).
  assert (Hrest : forall j, j ∈ all_slots ch ->
            slot_live (order_pool_ b) j /\
            order_map_ b !! Order.order_id (Pool.at_ (order_pool_ b) j) = Some j).
  { intros j Hj.
    destruct (inv_slot_resting b ch j Hinv Hj) as
      (s & li & l & c & _ & _ & _ & (Hlive & _ & _ & Hjm)). done. }
  split; [|split].
  - apply (map_size_bijection _ _
             (fun i => Order.order_id (Pool.at_ (order_pool_ b) i))); [done| |].
    + intros id i Hi. by apply Hmap.
    + intros j Hj. by apply Hrest.
  - apply bounded_NoDup_length; [done|].
    intros x Hx. eapply pool_ok_live_bound; [exact Hpool|]. by apply Hrest.
  - by destruct Hpool.
Qed.

(** Releasing the slot of an indexed order keeps the count. *)
Lemma counted_release b ch id i :
  book_inv b ch -> counted b -> order_map_ b !! id = Some i ->
  decr_u32 (Pool.size_ (order_pool_ b)) = N.of_nat (size (delete id (order_map_ b))).
Proof.
  intros Hinv Hk Hid. destruct (index_size b ch Hinv) as (Hs & Hle & Hcap).
  rewrite map_size_delete_Some by eauto. rewrite Hk.
  assert (Hpos : (0 < size (order_map_ b))%nat).
  { destruct (decide (size (order_map_ b) = 0%nat)) as [H0|]; [|lia].
    apply map_size_empty_inv in H0. rewrite H0 in Hid. by rewrite lookup_empty in Hid. }
  unfold decr_u32, wrap_u32. unfold INVALID_POOL_INDEX in Hcap.
  replace (N.of_nat (size (order_map_ b)) + (2 ^ 32 - 1))
    with (N.of_nat (Nat.pred (size (order_map_ b))) + 1 * 2 ^ 32) by lia.
  rewrite N.Div0.mod_add. apply N.mod_small. lia.
Qed.

(** Taking a free slot for a new id keeps the count. *)
Lemma counted_take b ch o idx p' id :
  book_inv b ch -> counted b ->
  Pool.allocate (order_pool_ b) o = (idx, p') -> idx <> INVALID_POOL_INDEX ->
  order_map_ b !! id = None ->
  Pool.size_ p' = N.of_nat (size (<[id := idx]> (order_map_ b))).
Proof.
  intros Hinv Hk Ha Hidx Hid. destruct (index_size b ch Hinv) as (Hs & _ & Hcap).
  pose proof Hinv as (Hpool & _ & Hnd & _).
  destruct (allocate_ok _ _ _ _ Hpool Ha Hidx) as (_ & Hfree & _).
  rewrite (allocate_size _ _ _ _ Ha Hidx), map_size_insert_None by done.
  assert (Hb : N.of_nat (length (idx :: all_slots ch))
               <= Pool.capacity_ (order_pool_ b)).
  { apply bounded_NoDup_length.
    - apply NoDup_cons. split; [|done]. intros Hin.
      eapply slot_free_not_live; [exact Hfree|]. by eapply inv_slot_live.
    - intros x Hx. apply elem_of_cons in Hx as [->|Hx].
      + destruct Hpool as (_ & Hdom & _). apply Hdom.
        destruct Hfree as (e & He & _). eauto.
      + eapply pool_ok_live_bound; [exact Hpool|]. by eapply inv_slot_live. }
  simpl length in Hb. unfold incr_u32, wrap_u32. rewrite Hk, Hs.
  unfold INVALID_POOL_INDEX in Hcap. rewrite N.mod_small by lia. lia.
Qed.
End CountSteps.

Section CountMatching.
Variables (taker_order_id taker_trader_id : N) (side : Side).

Local Abbreviation ms := (opposite side).
Local Abbreviation fill_of := (match_fill taker_order_id taker_trader_id side).

(** A fill leaves the pool and the index as large as they were, or
    releases the slot of the maker and erases the maker's id. *)
Lemma match_fill_count li st lvl :
  levels_of ms (ms_book st) !! li = Some lvl ->
  let m := PriceLevel.head_idx lvl in
  let b := ms_book st in
  let b' := ms_book (fill_of li st) in
  (Pool.size_ (order_pool_ b') = Pool.size_ (order_pool_ b) /\
   order_map_ b' = order_map_ b) \/
  (Pool.size_ (order_pool_ b') = decr_u32 (Pool.size_ (order_pool_ b)) /\
   order_map_ b'
   = delete (Order.order_id (Pool.at_ (order_pool_ b) m)) (order_map_ b)).
Proof.
  intros Hl. cbv zeta. unfold match_fill. rewrite Hl. unfold PriceLevel.front_idx.
  set (m := PriceLevel.head_idx lvl) in *.
  set (pool1 := Pool.update _ _ _).
  destruct (Z.leb_spec (Order.qty_remaining (Pool.at_ pool1 m)) 0) as [Hle|Hgt].
  - right.
    destruct (PriceLevel.remove pool1 _ _) as [pool2 lvl2] eqn:Hrm. book_simpl.
    assert (Hp2 : pool2 = (PriceLevel.remove pool1
                             (PriceLevel.reduce_qty lvl
                                (Z.min (ms_remaining st)
                                   (Order.qty_remaining
                                      (Pool.at_ (order_pool_ (ms_book st)) m)))) m).1)
      by (by rewrite Hrm).
    split.
    + cbn [Pool.deallocate Pool.size_]. f_equal. rewrite Hp2, remove_size. done.
    + assert (Hid : ident (Pool.at_ pool2 m)
                    = ident (Pool.at_ (order_pool_ (ms_book st)) m)).
      { rewrite Hp2, remove_ident. unfold pool1. apply update_ident.
        intros o. reflexivity. }
      injection Hid as -> _ _ _. done.
  - left. book_simpl. done.
Qed.

Lemma match_order_counted b price qty is_market :
  Inv b -> counted b ->
  counted (ms_book (match_order b taker_order_id taker_trader_id side
                                price qty is_market)).
Proof.
  intros [[ch0 Hinv0] _] Hk0.
  set (G := fun st : MatchState =>
    (exists ch, book_inv (ms_book st) ch) /\ counted (ms_book st)).
  destruct (match_order_ind3 taker_order_id taker_trader_id side
              (fun _ st => G st) (fun _ st => G st)
              b price qty is_market) as (li & _ & HK); [| | | | | | |done].
  - by intros li st [Hi _].
  - by intros li st HG _.
  - intros li st ([ch Hi] & Hk) Hc.
    apply match_level_continues_spec in Hc as (lvl & Hl & Hgt & Hne).
    destruct (match_fill_inv taker_order_id taker_trader_id side li st ch lvl
                Hi Hl Hne) as (m & c & c' & lvl' & Hc & Hhd & Hinv' & _).
    split; [eauto|].
    destruct (inv_level_chain _ ch ms li lvl Hi Hl) as (c1 & Hc1 & (_ & _ & Hrest)).
    assert (c1 = m :: c) as -> by congruence.
    apply Forall_cons in Hrest as [(Hlive & _ & _ & Hmm) _].
    pose proof (match_fill_count li st lvl Hl) as Hcount. cbv zeta in Hcount.
    rewrite Hhd in Hcount. unfold counted.
    destruct Hcount as [[-> ->]|[-> ->]]; [done|].
    by apply (counted_release _ ch _ m).
  - intros li st lvl ([ch Hi] & Hk) _ Hl He.
    split; [cbn [ms_book]; eexists; by eapply erase_level_inv|].
    unfold counted. cbn [ms_book]. by book_simpl.
  - by intros li st lvl HG _ _ _.
  - by intros li st HG _.
  - split; [eauto|done].
Qed.
End CountMatching.

Section CountOperations.
Lemma add_limit_internal_counted b id tr s p q :
  Inv b -> counted b -> counted (add_limit_internal b id tr s p q).1.
Proof.
  intros Hb Hk.
  destruct (order_map_ b !! id) as [i0|] eqn:Hid.
  { by rewrite add_limit_internal_duplicate by (by rewrite Hid). }
  pose proof (match_order_counted id tr s b p q false Hb Hk) as Hk1.
  pose proof (match_order_Inv id tr s b p q false Hb) as [[ch1 Hinv1] Hne1].
  pose proof (match_order_map_sub id tr s b p q false id) as Hsub.
  unfold add_limit_internal.
  case_bool_decide as Hdup; [rewrite Hid in Hdup; by destruct Hdup|].
  set (st := match_order b id tr s p q false) in *.
  destruct (Z.leb_spec (ms_remaining st) 0) as [Hle|Hgt]; [done|].
  destruct (Pool.allocate _ _) as [idx pool1] eqn:Halloc.
  destruct (N.eqb_spec idx INVALID_POOL_INDEX) as [He|Hidx].
  { subst idx. apply allocate_fail in Halloc as [-> _].
    cbn [fst]. unfold counted. by book_simpl. }
  destruct (find_or_create_level _ _ _) as [it levels1] eqn:Hfc.
  destruct (PriceLevel.push_back _ _ _) as [pool2 lvl] eqn:Hpb.
  cbn [fst].
  assert (Hid' : order_map_ (ms_book st) !! id = None).
  { destruct (order_map_ (ms_book st) !! id) as [i|] eqn:Hi; [|done].
    specialize (Hsub i eq_refl). congruence. }
  unfold counted. book_simpl.
  replace pool2 with (PriceLevel.push_back pool1
                        (default (PriceLevel.new p) (levels1 !! it)) idx).1
    by (by rewrite Hpb).
  rewrite push_back_size.
  by apply (counted_take (ms_book st) ch1
              (Order.make id tr s p (ms_remaining st)) idx pool1 id).
Qed.

Lemma remove_order_internal_size b idx :
  Pool.size_ (order_pool_ (remove_order_internal b idx))
  = decr_u32 (Pool.size_ (order_pool_ b)) /\
  order_map_ (remove_order_internal b idx) = order_map_ b.
Proof.
  unfold remove_order_internal.
  destruct (levels_of _ b !! _) as [l|]; [|by book_simpl].
  destruct (PriceLevel.remove _ _ _) as [pool1 l1] eqn:Hrm. book_simpl.
  split; [|done]. cbn [Pool.deallocate Pool.size_]. f_equal.
  replace pool1 with (PriceLevel.remove (order_pool_ b) l idx).1 by (by rewrite Hrm).
  apply remove_size.
Qed.

Lemma cancel_state_counted b ch id idx :
  book_inv b ch -> order_map_ b !! id = Some idx -> counted b ->
  counted (set_map (delete id (order_map_ (remove_order_internal b idx)))
                   (remove_order_internal b idx)).
Proof.
  intros Hinv Hid Hk. unfold counted. book_simpl.
  destruct (remove_order_internal_size b idx) as [-> ->].
  by apply (counted_release b ch id idx).
Qed.

Lemma apply_op_counted b op : Inv b -> counted b -> counted (apply_op b op).1.
Proof.
  intros Hb Hk. destruct op as [id tr s p q|id tr s q|id|id q p]; simpl.
  - by apply add_limit_internal_counted.
  - unfold add_market. cbn [fst]. by apply match_order_counted.
  - unfold cancel. destruct (order_map_ b !! id) as [idx|] eqn:Hid; cbn [fst]; [|done].
    destruct Hb as [[ch Hinv] _]. by eapply cancel_state_counted.
  - unfold modify. destruct (order_map_ b !! id) as [idx|] eqn:Hid; [|done].
    assert (Hre : forall tr s p0,
              counted
                (add_limit_internal
                   (set_map (delete id (order_map_ (remove_order_internal b idx)))
                            (remove_order_internal b idx)) id tr s p0 q).1).
    { intros tr s p0. pose proof Hb as [[ch Hinv] Hne].
      pose proof (cancel_state_counted b ch id idx Hinv Hid Hk) as Hk2.
      destruct (remove_order_inv b ch id idx Hinv Hne Hid) as (Hb2 & _).
      cbv zeta in Hb2. by apply add_limit_internal_counted. }
    destruct (_ && _); [apply Hre|].
    destruct (_ <? _); [|apply Hre]. cbn [fst].
    unfold counted. book_simpl. exact Hk.
Qed.

Lemma reachable_counted b : reachable b -> counted b.
Proof.
  induction 1 as [max_orders Hcap|b op Hr IH _]; [done|].
  apply apply_op_counted; [by apply reachable_Inv|done].
Qed.
End CountOperations.

(** X28.  [order_count()] is the number of resting orders.  In every
    reachable state of the book the count kept by the pool equals the
    number of ids in the index and the number of orders linked in the
    price levels, and it never exceeds the capacity of the pool; so
    no operation leaks a pool slot or counts an order twice.  A cancel
    of an indexed id lowers the count by exactly one and a cancel of an
    unknown id leaves it as it is. *)
Theorem order_count_counts_resting_orders (b : OrderBook) :
  reachable b ->
  order_count b = N.of_nat (size (order_map_ b)) /\
  order_count b = N.of_nat (length (linked_orders b)) /\
  (order_count b <= Pool.capacity (order_pool_ b))%N /\
  forall id,
    order_count b
    = (order_count (cancel b id).1 + (if has_order b id then 1 else 0))%N.
Proof.
  intros Hr. pose proof (reachable_counted b Hr) as Hk.
  pose proof (reachable_Inv b Hr) as [[ch Hinv] Hne].
  destruct (index_size b ch Hinv) as (Hs & Hle & _).
  assert (Hlinked : linked_orders b = all_slots ch).
  { unfold linked_orders, all_slots.
    by rewrite !(priority_order_chains b ch _ Hinv). }
  unfold order_count, Pool.capacity. rewrite Hlinked, <- Hs.
  split; [exact Hk|]. split; [exact Hk|]. split; [rewrite Hk; lia|].
  intros id. unfold has_order, cancel.
  destruct (order_map_ b !! id) as [idx|] eqn:Hid; cbn [fst].
  - rewrite bool_decide_eq_true_2 by eauto.
    pose proof (cancel_state_counted b ch id idx Hinv Hid Hk) as Hk2.
    unfold counted in Hk2. rewrite Hk2. cbn [order_map_ set_map].
    destruct (remove_order_internal_size b idx) as [_ ->].
    rewrite map_size_delete_Some by eauto. rewrite Hk.
    assert (Hpos : (0 < size (order_map_ b))%nat).
    { destruct (decide (size (order_map_ b) = 0%nat)) as [H0|]; [|lia].
      apply map_size_empty_inv in H0. rewrite H0 in Hid. by rewrite lookup_empty in Hid. }
    lia.
  - rewrite bool_decide_eq_false_2; [lia|]. by intros [? ?].
Qed.

(** [sample_book] holds three resting orders. *)
Lemma order_count_counts_resting_orders_witness :
  reachable sample_book /\
  order_count sample_book = 3%N /\
  size (order_map_ sample_book) = 3%nat.
Proof.
  split; [exact sample_book_reachable|].
  destruct (order_count_counts_resting_orders sample_book sample_book_reachable)
    as (Hcount & _).
  split; [rewrite Hcount|]; vm_compute; reflexivity.
Defined.

(* ===================================================================== *)
(** ** The semaphore queue delivers in order *)
(* ===================================================================== *)

Ltac spsc_simpl :=
  cbn [queue producer consumer pushed popped
       SpscSemaphoreQueue.buffer_ SpscSemaphoreQueue.head_ SpscSemaphoreQueue.tail_
       SpscSemaphoreQueue.free_slots_ SpscSemaphoreQueue.filled_slots_
       p_unwritten p_unstored p_unreleased c_read c_stored c_acquired] in *.

Ltac spsc_split :=
  split; [|split; [|split; [|split; [|split; [|split; [|split; [|split; [|split]]]]]]]].

Section SpscFacts.
Context {T : Type}.
Implicit Types (s : Spsc T).
Local Open Scope N_scope.

Lemma spsc_requires_power_of_two Capacity :
  SpscSemaphoreQueue.requires Capacity = true ->
  0 < Capacity /\ exists k, Capacity = 2 ^ k.
Proof.
  intros H. split.
  - unfold SpscSemaphoreQueue.requires in H.
    apply andb_true_iff in H as [H _]. by apply N.ltb_lt.
  - by apply requires_power_of_two.
Qed.

(** Masking a 64-bit index is taking the count modulo the capacity. *)
Lemma mask_index Capacity n :
  SpscSemaphoreQueue.requires Capacity = true -> Capacity < 2 ^ 64 ->
  N.land (wrap_u64 n) (SpscSemaphoreQueue.MASK Capacity) = n mod Capacity.
Proof.
  intros Hreq Hcap. destruct (spsc_requires_power_of_two _ Hreq) as [_ [k ->]].
  assert (Hk : k < 64).
  { apply (N.pow_lt_mono_r_iff 2); [lia|done]. }
  unfold SpscSemaphoreQueue.MASK, wrap_u64.
  rewrite N.sub_1_r, <- N.ones_equiv, N.land_ones.
  replace (2 ^ 64) with (2 ^ k * 2 ^ (64 - k)).
  2: { rewrite <- N.pow_add_r. f_equal. lia. }
  rewrite N.Div0.mod_mul_r.
  rewrite (N.mul_comm (2 ^ k)), N.Div0.mod_add. apply N.Div0.mod_mod.
Qed.

Lemma wrap_u64_succ n : wrap_u64 (wrap_u64 n + 1) = wrap_u64 (n + 1).
Proof. unfold wrap_u64. apply N.Div0.add_mod_idemp_l. Qed.

(** The difference of two wrapped counters that are less than 2^64
    apart. *)
Lemma sub_u64_wrapped a b :
  b <= a -> a - b < 2 ^ 64 -> sub_u64 (wrap_u64 a) (wrap_u64 b) = a - b.
Proof.
  intros Hb Hd. unfold sub_u64, wrap_u64.
  rewrite N.Div0.mod_mod, N.Div0.add_mod_idemp_l.
  pose proof (N.div_mod b (2 ^ 64) ltac:(lia)) as Hdm.
  pose proof (N.mod_lt b (2 ^ 64) ltac:(lia)) as Hlt.
  set (r := b mod 2 ^ 64) in *. set (d := b / 2 ^ 64) in *. clearbody r d.
  replace (a + (2 ^ 64 - r)) with (a - b + (d + 1) * 2 ^ 64) by lia.
  rewrite N.Div0.mod_add. by apply N.mod_small.
Qed.

Lemma producer_flags (p : Producer T) :
  p_unwritten p <= p_unstored p /\ p_unstored p <= p_unreleased p /\
  p_unreleased p <= 1.
Proof. destruct p; simpl; lia. Qed.

Lemma consumer_flags (c : Consumer T) :
  c_stored c <= c_read c /\ c_read c <= c_acquired c /\ c_acquired c <= 1.
Proof. destruct c; simpl; lia. Qed.

Lemma spsc_inv_new Capacity (init : T) : spsc_inv Capacity (spsc_new Capacity init).
Proof.
  unfold spsc_inv, spsc_new. simpl. rewrite length_replicate.
  repeat split; try done; try lia.
Qed.

Lemma producer_step_inv Capacity v s :
  SpscSemaphoreQueue.requires Capacity = true -> Capacity < 2 ^ 64 ->
  spsc_inv Capacity s -> spsc_inv Capacity (producer_step Capacity v s).
Proof.
  intros Hreq Hcap.
  destruct (spsc_requires_power_of_two _ Hreq) as [HC _].
  destruct s as [[buf hd tl fr fi] p c ps qs].
  pose proof (consumer_flags c) as (Hc1 & Hc2 & Hc3).
  unfold spsc_inv, producer_step. spsc_simpl.
  intros (Hlen & Hpa & Hhd & Htl & Hfree & Hfill & Hbuf & Hpre & Hp & Hc).
  unfold producer_ok, consumer_ok in *. spsc_simpl.
  destruct p as [|v0|v0 h|h|]; spsc_simpl.
  - destruct (N.eqb_spec fr 0) as [Hz|Hnz]; spsc_simpl.
    { spsc_split; done. }
    rewrite length_app. cbn [length].
    assert (Hqs : (length qs <= length ps)%nat) by lia.
    spsc_split; [done|lia|rewrite Hhd; f_equal; lia|done|lia|lia| | | |].
    + intros k x Hk1 Hk2 Hx. apply Hbuf; [done|lia|].
      rewrite lookup_app_l in Hx by lia. done.
    + rewrite take_app_le by done. done.
    + apply last_snoc.
    + destruct c as [| |t|t out|out]; try done.
      * destruct Hc as [Ht Ho]. split; [done|]. by apply lookup_app_l_Some.
      * by apply lookup_app_l_Some.
  - spsc_split; done.
  - destruct Hp as [Hlast ->]. rewrite Hhd.
    rewrite (mask_index Capacity _ Hreq Hcap).
    assert (Hidx : (N.to_nat ((N.of_nat (length ps) - 1) mod Capacity)
                    < length buf)%nat).
    { rewrite Hlen. pose proof (N.mod_lt (N.of_nat (length ps) - 1) Capacity). lia. }
    spsc_split; [by rewrite length_insert|done|done|done|done|done| |done|done|done].
    intros k x Hk1 Hk2 Hx.
    destruct (N.eq_dec k (N.of_nat (length ps) - 1)) as [->|Hne].
    + rewrite list_lookup_insert_eq by done.
      rewrite last_lookup in Hlast.
      replace (N.to_nat (N.of_nat (length ps) - 1)) with (Nat.pred (length ps))
        in Hx by lia.
      congruence.
    + rewrite list_lookup_insert_ne.
      * apply Hbuf; [done|lia|done].
      * intros Heq. apply N2Nat.inj in Heq.
        apply (mod_window_inj Capacity k (N.of_nat (length ps) - 1)); [lia|lia|].
        done.
  - subst h.
    spsc_split; [done|done| |done|done|done|done|done|done|done].
    rewrite Hhd, wrap_u64_succ. f_equal. lia.
  - spsc_split; [done|lia|done|done|done|lia|done|done|done|done].
Qed.

Lemma consumer_step_inv Capacity s :
  SpscSemaphoreQueue.requires Capacity = true -> Capacity < 2 ^ 64 ->
  spsc_inv Capacity s -> spsc_inv Capacity (consumer_step Capacity s).
Proof.
  intros Hreq Hcap.
  destruct (spsc_requires_power_of_two _ Hreq) as [HC _].
  destruct s as [[buf hd tl fr fi] p c ps qs].
  pose proof (producer_flags p) as (Hp1 & Hp2 & Hp3).
  unfold spsc_inv, consumer_step. spsc_simpl.
  intros (Hlen & Hpa & Hhd & Htl & Hfree & Hfill & Hbuf & Hpre & Hp & Hc).
  unfold producer_ok, consumer_ok in *. spsc_simpl.
  destruct c as [| |t|t out|out]; spsc_simpl.
  - destruct (N.eqb_spec fi 0) as [Hz|Hnz]; spsc_simpl.
    { spsc_split; done. }
    spsc_split; [done|done|done|done|done|lia|done|done|done|done].
  - spsc_split; done.
  - subst t. rewrite Htl, N.add_0_r, (mask_index Capacity _ Hreq Hcap).
    assert (Hlt : (length qs < length ps)%nat) by lia.
    destruct (lookup_lt_is_Some_2 ps (length qs) Hlt) as [x Hx].
    assert (Hcell : buf !! N.to_nat (N.of_nat (length qs) mod Capacity) = Some x).
    { apply Hbuf; [lia|lia|]. by rewrite Nat2N.id. }
    rewrite Hcell. spsc_simpl.
    spsc_split; [done|done|done|by rewrite N.add_0_r|done|done| |done|done|done].
    intros k y Hk1 Hk2 Hy. apply Hbuf; [lia|done|done].
  - destruct Hc as [-> Hout].
    spsc_split; [done|done|done| |done|done|done|done|done|done].
    rewrite Htl, N.add_0_r, wrap_u64_succ. done.
  - rewrite length_app. cbn [length].
    spsc_split; [done|done|done| |lia|lia| | |done|done].
    + rewrite Htl. f_equal. lia.
    + intros k y Hk1 Hk2 Hy. apply Hbuf; [lia|done|done].
    + replace (length qs + 1)%nat with (S (length qs)) by lia.
      rewrite (take_S_r _ _ _ Hc). by rewrite <- Hpre.
Qed.

Lemma spsc_run_inv Capacity (init : T) schedule :
  SpscSemaphoreQueue.requires Capacity = true -> Capacity < 2 ^ 64 ->
  spsc_inv Capacity (spsc_run Capacity (spsc_new Capacity init) schedule).
Proof.
  intros Hreq Hcap. unfold spsc_run.
  induction schedule as [|step schedule IH] using rev_ind;
    [apply spsc_inv_new|].
  rewrite fold_left_app. simpl. destruct step as [v|]; simpl.
  - by apply producer_step_inv.
  - by apply consumer_step_inv.
Qed.
End SpscFacts.

(** X29.  The semaphore queue hands over the values in order.  For a
    capacity that is a power of two below 2^64 and any interleaving of
    the steps of one producer and one consumer: the values returned by
    [pop] are, in order, the first of the values accepted by [push], so
    none is lost, repeated or invented; at most [Capacity] accepted
    values wait to be returned; the two semaphores together never count
    more than [Capacity]; [size_approx()], when no step falls between
    its two loads, never exceeds [Capacity], and while both threads are
    outside their calls it is the number of values waiting, as is
    [filled_slots_]; and the producer is never about to write the cell
    the consumer is about to read. *)
Theorem spsc_queue_delivers_in_order {T : Type}
    (Capacity : N) (init : T) (schedule : list (SpscStep T)) :
  SpscSemaphoreQueue.requires Capacity = true -> (Capacity < 2 ^ 64)%N ->
  let s := spsc_run Capacity (spsc_new Capacity init) schedule in
  let q := queue s in
  popped s `prefix_of` pushed s /\
  (length (pushed s) <= length (popped s) + N.to_nat Capacity)%nat /\
  (SpscSemaphoreQueue.free_slots_ q + SpscSemaphoreQueue.filled_slots_ q
   <= Capacity)%N /\
  (SpscSemaphoreQueue.size_approx q <= Capacity)%N /\
  (producer s = PIdle -> consumer s = CIdle ->
   SpscSemaphoreQueue.size_approx q
   = N.of_nat (length (pushed s) - length (popped s)) /\
   SpscSemaphoreQueue.filled_slots_ q = SpscSemaphoreQueue.size_approx q) /\
  (forall v head tail,
     producer s = PLoaded v head -> consumer s = CLoaded tail ->
     N.land head (SpscSemaphoreQueue.MASK Capacity)
     <> N.land tail (SpscSemaphoreQueue.MASK Capacity)).
Proof.
  intros Hreq Hcap. cbv zeta.
  pose proof (spsc_run_inv Capacity init schedule Hreq Hcap) as Hinv.
  destruct (spsc_run Capacity (spsc_new Capacity init) schedule)
    as [[buf hd tl fr fi] p c ps qs].
  pose proof (producer_flags p) as (Hp1 & Hp2 & Hp3).
  pose proof (consumer_flags c) as (Hc1 & Hc2 & Hc3).
  unfold spsc_inv in Hinv. spsc_simpl.
  destruct Hinv as (Hlen & Hpa & Hhd & Htl & Hfree & Hfill & Hbuf & Hpre & Hp & Hc).
  assert (Hsize : SpscSemaphoreQueue.size_approx
                    (SpscSemaphoreQueue.mk buf hd tl fr fi)
                  = (N.of_nat (length ps) - p_unstored p
                     - (N.of_nat (length qs) + c_stored c))%N).
  { unfold SpscSemaphoreQueue.size_approx. spsc_simpl. rewrite Hhd, Htl.
    apply sub_u64_wrapped; lia. }
  rewrite Hsize.
  split; [rewrite Hpre; apply prefix_take|]. split; [lia|]. split; [lia|].
  split; [lia|]. split.
  - intros -> ->. spsc_simpl. lia.
  - intros v h t -> ->. spsc_simpl.
    unfold producer_ok, consumer_ok in *. spsc_simpl.
    destruct Hp as [_ ->]. subst t. rewrite Hhd, Htl.
    rewrite !(mask_index Capacity _ Hreq Hcap). intros Heq.
    apply (mod_window_inj Capacity (N.of_nat (length qs) + 0)
             (N.of_nat (length ps) - 1)); [lia|lia|done].
Qed.

(** A queue of two cells: two values are pushed, the third waits for a
    free slot until the first has been popped. *)
Lemma spsc_queue_delivers_in_order_witness :
  let schedule :=
    [StepProducer 7; StepProducer 7; StepProducer 7; StepProducer 7; StepProducer 7;
     StepProducer 8; StepProducer 8; StepProducer 8; StepProducer 8; StepProducer 8;
     StepConsumer; StepConsumer; StepProducer 9; StepConsumer; StepConsumer;
     StepConsumer; StepProducer 9]%Z in
  SpscSemaphoreQueue.requires 2 = true /\ (2 < 2 ^ 64)%N /\
  popped (spsc_run 2 (spsc_new 2 0%Z) schedule) = [7]%Z /\
  pushed (spsc_run 2 (spsc_new 2 0%Z) schedule) = [7; 8; 9]%Z /\
  popped (spsc_run 2 (spsc_new 2 0%Z) schedule)
    `prefix_of` pushed (spsc_run 2 (spsc_new 2 0%Z) schedule).
Proof.
  cbv zeta.
  assert (Hreq : SpscSemaphoreQueue.requires 2 = true) by reflexivity.
  assert (Hcap : (2 < 2 ^ 64)%N) by (vm_compute; reflexivity).
  split; [exact Hreq|]. split; [exact Hcap|].
  split; [vm_compute; reflexivity|]. split; [vm_compute; reflexivity|].
  exact (proj1 (spsc_queue_delivers_in_order 2 0%Z _ Hreq Hcap)).
Defined.

(* ===================================================================== *)
(** ** The latency histogram *)
(* ===================================================================== *)

Section Histogram.
Implicit Types (h : LatencyHistogram.t) (xs : list Z).
Local Open Scope N_scope.

Lemma since_clear_snoc ops op :
  since_clear (ops ++ [op])
  = match op with
    | HistRecord latency_ns => since_clear ops ++ [latency_ns]
    | HistClear => []
    end.
Proof. unfold since_clear. by rewrite fold_left_app. Qed.

Lemma since_clear_length ops : (length (since_clear ops) <= length ops)%nat.
Proof.
  induction ops as [|op ops IH] using rev_ind; [done|].
  rewrite since_clear_snoc, length_app. simpl.
  destruct op; [rewrite length_app|]; simpl; lia.
Qed.

Lemma foldr_min_snoc xs x m :
  foldr Z.min m (xs ++ [x]) = Z.min (foldr Z.min m xs) x.
Proof. induction xs as [|y xs IH]; simpl; [lia|]. rewrite IH. lia. Qed.

Lemma foldr_max_snoc xs x m :
  foldr Z.max m (xs ++ [x]) = Z.max (foldr Z.max m xs) x.
Proof. induction xs as [|y xs IH]; simpl; [lia|]. rewrite IH. lia. Qed.

Lemma foldr_add_snoc xs x :
  foldr Z.add 0%Z (xs ++ [x]) = (foldr Z.add 0 xs + x)%Z.
Proof. induction xs as [|y xs IH]; simpl; [lia|]. rewrite IH. lia. Qed.

Lemma summarises_new capacity : summarises capacity (LatencyHistogram.new capacity) [].
Proof.
  unfold summarises, LatencyHistogram.new. simpl. rewrite length_replicate.
  split; [done|]. split; [done|]. split; [done|].
  split; [by destruct capacity|]. repeat (split; [done|]).
  intros k Hk. lia.
Qed.

Lemma summarises_clear capacity h xs :
  summarises capacity h xs -> summarises capacity (LatencyHistogram.clear h) [].
Proof.
  intros (Hlen & Hcap & _). unfold summarises, LatencyHistogram.clear. simpl.
  split; [done|]. split; [done|]. split; [done|].
  split; [by destruct capacity|]. repeat (split; [done|]).
  intros k Hk. lia.
Qed.

Lemma summarises_record capacity h xs x :
  0 < capacity -> capacity < 2 ^ 64 -> N.of_nat (length xs) + 1 < 2 ^ 64 ->
  summarises capacity h xs ->
  summarises capacity (LatencyHistogram.record h x) (xs ++ [x]).
Proof.
  intros HC Hcap Hn (Hlen & Hc & Hcount & Hwp & Hmin & Hmax & Hsum & Hwin).
  unfold summarises, LatencyHistogram.record. simpl.
  rewrite length_app. simpl length.
  assert (Hwlt : LatencyHistogram.write_pos_ h < capacity).
  { rewrite Hwp. apply N.mod_lt. lia. }
  split; [by rewrite length_insert|]. split; [done|]. split.
  { rewrite Hcount. unfold wrap_u64. rewrite N.mod_small by lia. lia. }
  split.
  { rewrite Hc. unfold wrap_u64. rewrite (N.mod_small (_ + 1)) by lia.
    rewrite Hwp, N.Div0.add_mod_idemp_l. f_equal. lia. }
  split; [by rewrite foldr_min_snoc, Hmin|].
  split; [by rewrite foldr_max_snoc, Hmax|].
  split.
  { rewrite foldr_add_snoc, Hsum. apply wrap_i64_add_l. }
  intros k Hk1 Hk2. rewrite Hwp.
  destruct (N.eq_dec k (N.of_nat (length xs))) as [->|Hne].
  - rewrite list_lookup_insert_eq.
    + rewrite Nat2N.id. by rewrite lookup_app_r, Nat.sub_diag by lia.
    + rewrite Hlen. pose proof (N.mod_lt (N.of_nat (length xs)) capacity). lia.
  - rewrite list_lookup_insert_ne.
    + rewrite Hwin by lia. by rewrite lookup_app_l by lia.
    + intros Heq. apply N2Nat.inj in Heq.
      apply (mod_window_inj capacity k (N.of_nat (length xs))); [lia|lia|done].
Qed.

Lemma hist_run_summarises capacity ops :
  0 < capacity -> capacity < 2 ^ 64 -> N.of_nat (length ops) < 2 ^ 64 ->
  summarises capacity (hist_run (LatencyHistogram.new capacity) ops)
             (since_clear ops).
Proof.
  intros HC Hcap. unfold hist_run.
  induction ops as [|op ops IH] using rev_ind; intros Hn;
    [apply summarises_new|].
  rewrite length_app in Hn. simpl in Hn.
  rewrite fold_left_app, since_clear_snoc. simpl.
  specialize (IH ltac:(lia)). destruct op as [x|]; simpl.
  - apply summarises_record; [done|done| |done].
    pose proof (since_clear_length ops). lia.
  - by eapply summarises_clear.
Qed.

Lemma foldr_min_bound xs m x : x ∈ xs -> (foldr Z.min m xs <= x)%Z.
Proof.
  induction xs as [|y xs IH]; [by intros ?%elem_of_nil|].
  intros [->|Hx]%elem_of_cons; simpl; [lia|]. specialize (IH Hx). lia.
Qed.

Lemma foldr_max_bound xs m x : x ∈ xs -> (x <= foldr Z.max m xs)%Z.
Proof.
  induction xs as [|y xs IH]; [by intros ?%elem_of_nil|].
  intros [->|Hx]%elem_of_cons; simpl; [lia|]. specialize (IH Hx). lia.
Qed.

Lemma foldr_min_attained xs m :
  foldr Z.min m xs = m \/ foldr Z.min m xs ∈ xs.
Proof.
  induction xs as [|y xs [IH|IH]]; simpl; [by left| |].
  - rewrite IH. destruct (Z.min_spec y m) as [[_ ->]|[_ ->]];
      [right; left|by left].
  - destruct (Z.min_spec y (foldr Z.min m xs)) as [[_ ->]|[_ ->]];
      [right; left|right; by right].
Qed.

Lemma foldr_max_attained xs m :
  foldr Z.max m xs = m \/ foldr Z.max m xs ∈ xs.
Proof.
  induction xs as [|y xs [IH|IH]]; simpl; [by left| |].
  - rewrite IH. destruct (Z.max_spec y m) as [[_ ->]|[_ ->]];
      [by left|right; left].
  - destruct (Z.max_spec y (foldr Z.max m xs)) as [[_ ->]|[_ ->]];
      [right; by right|right; left].
Qed.

Lemma rotate_index (n capacity : N) (i : nat) :
  0 < capacity -> capacity <= n -> (i < N.to_nat capacity)%nat ->
  rotate_nat_add (N.to_nat (n mod capacity)) i (N.to_nat capacity)
  = N.to_nat ((n - capacity + N.of_nat i) mod capacity).
Proof.
  intros HC Hn Hi. unfold rotate_nat_add.
  apply Nat2Z.inj. rewrite Z2Nat.id by (apply Z.mod_pos; lia).
  rewrite !N_nat_Z, !N2Z.inj_mod, Zplus_mod_idemp_l.
  rewrite N2Z.inj_add, N2Z.inj_sub, nat_N_Z by done.
  replace (Z.of_N n + Z.of_nat i)%Z
    with (Z.of_N n - Z.of_N capacity + Z.of_nat i + 1 * Z.of_N capacity)%Z by lia.
  by rewrite Z_mod_plus_full.
Qed.

(** Up to [capacity] samples the array holds them all, in order; from
    then on it holds the last [capacity] of them, the oldest at
    [write_pos_]. *)
Lemma summarised_samples capacity h xs :
  0 < capacity -> summarises capacity h xs ->
  ((length xs <= N.to_nat capacity)%nat ->
   take (length xs) (LatencyHistogram.samples_ h) = xs) /\
  ((N.to_nat capacity <= length xs)%nat ->
   rotate (N.to_nat (LatencyHistogram.write_pos_ h)) (LatencyHistogram.samples_ h)
   = drop (length xs - N.to_nat capacity) xs).
Proof.
  intros HC (Hlen & Hc & Hcount & Hwp & _ & _ & _ & Hwin). split.
  - intros Hle. apply list_eq. intros i.
    destruct (decide (i < length xs)%nat) as [Hi|Hi].
    + rewrite lookup_take_lt by done.
      rewrite <- (Nat2N.id i) at 2. rewrite <- Hwin by lia.
      rewrite N.mod_small by lia. by rewrite Nat2N.id.
    + rewrite lookup_take_ge by lia. symmetry. apply lookup_ge_None. lia.
  - intros Hge. apply list_eq. intros i.
    destruct (decide (i < N.to_nat capacity)%nat) as [Hi|Hi].
    + rewrite lookup_rotate_r by lia. rewrite Hlen, Hwp.
      rewrite rotate_index by lia. rewrite Hwin by lia.
      rewrite lookup_drop. f_equal. lia.
    + rewrite !(proj2 (lookup_ge_None _ _)); [done| |].
      * rewrite length_drop. lia.
      * rewrite length_rotate. lia.
Qed.
End Histogram.

(** X30.  The latency histogram summarises the samples recorded since
    the last [clear].  For a capacity between 1 and 2^64 and fewer than
    2^64 calls: [count()] is the number of those samples and [sum_]
    their sum in 64-bit arithmetic; [compute_stats] reports nothing for
    no sample, and otherwise bounds every sample by the minimum and the
    maximum it reports, which cover all the samples, also the
    overwritten ones, the minimum being one of them unless all exceed
    the initial value and the maximum being one of them unless none is
    above 0; the vector it takes the percentiles from is a
    rearrangement of the last [capacity] samples (of all of them, in
    order, while they fit), the oldest of which sits at [write_pos_]. *)
Theorem latency_histogram_summarises_samples (capacity : N) (ops : list HistOp) :
  (0 < capacity)%N -> (capacity < 2 ^ 64)%N -> (N.of_nat (length ops) < 2 ^ 64)%N ->
  let h := hist_run (LatencyHistogram.new capacity) ops in
  let xs := since_clear ops in
  let n := length xs in
  LatencyHistogram.count h = N.of_nat n /\
  LatencyHistogram.sum_ h = wrap_i64 (foldr Z.add 0 xs) /\
  (xs = [] ->
   LatencyHistogram.stats_bounds h = (0%N, LatencyHistogram.DURATION_MAX, 0) /\
   LatencyHistogram.stats_samples h = []) /\
  (xs <> [] ->
   exists lo hi,
     LatencyHistogram.stats_bounds h = (N.of_nat n, lo, hi) /\
     (forall x, x ∈ xs -> lo <= x <= hi) /\
     (lo ∈ xs \/ lo = LatencyHistogram.DURATION_MAX) /\
     (hi ∈ xs \/ hi = 0)) /\
  LatencyHistogram.stats_samples h ≡ₚ drop (n - N.to_nat capacity) xs /\
  ((n <= N.to_nat capacity)%nat -> LatencyHistogram.stats_samples h = xs) /\
  ((N.to_nat capacity <= n)%nat ->
   rotate (N.to_nat (LatencyHistogram.write_pos_ h)) (LatencyHistogram.samples_ h)
   = drop (n - N.to_nat capacity) xs).
Proof.
  intros HC Hcap Hn. cbv zeta.
  pose proof (hist_run_summarises capacity ops HC Hcap Hn) as Hsum.
  destruct (summarised_samples capacity _ _ HC Hsum) as [Hfew Hmany].
  destruct Hsum as (Hlen & Hc & Hcount & Hwp & Hmin & Hmax & Hsum & Hwin).
  set (h := hist_run (LatencyHistogram.new capacity) ops) in *.
  set (xs := since_clear ops) in *.
  unfold LatencyHistogram.count, LatencyHistogram.stats_bounds,
    LatencyHistogram.stats_samples, LatencyHistogram.sample_count.
  rewrite Hcount, Hc.
  assert (Hsamples :
    (length xs <= N.to_nat capacity)%nat ->
    (if (N.of_nat (length xs) =? 0)%N then []
     else take (N.to_nat (N.min (N.of_nat (length xs)) capacity))
               (LatencyHistogram.samples_ h)) = xs).
  { intros Hle. destruct (N.eqb_spec (N.of_nat (length xs)) 0) as [Hz|Hnz].
    - by destruct xs.
    - rewrite N.min_l by lia. rewrite Nat2N.id. by apply Hfew. }
  split; [done|]. split; [done|]. split; [|split; [|split; [|split]]].
  - intros Hnil. rewrite Hnil. done.
  - intros Hne. exists (LatencyHistogram.min_ h), (LatencyHistogram.max_ h).
    destruct (N.eqb_spec (N.of_nat (length xs)) 0) as [Hz|Hnz];
      [by destruct xs|].
    split; [done|]. rewrite Hmin, Hmax. split; [|split].
    + intros x Hx. split; [by apply foldr_min_bound|by apply foldr_max_bound].
    + destruct (foldr_min_attained xs LatencyHistogram.DURATION_MAX); [by right|by left].
    + destruct (foldr_max_attained xs 0%Z); [by right|by left].
  - destruct (decide (length xs <= N.to_nat capacity)%nat) as [Hle|Hgt].
    + rewrite (Hsamples Hle).
      replace (length xs - N.to_nat capacity)%nat with 0%nat by lia. done.
    + destruct (N.eqb_spec (N.of_nat (length xs)) 0) as [Hz|Hnz]; [lia|].
      rewrite N.min_r by lia. rewrite <- Hmany by lia.
      rewrite firstn_all2 by lia.
      unfold rotate.
      rewrite <- (take_drop (N.to_nat (LatencyHistogram.write_pos_ h)
                             `mod` length (LatencyHistogram.samples_ h))
                            (LatencyHistogram.samples_ h)) at 1.
      apply Permutation_app_comm.
  - exact Hsamples.
  - exact Hmany.
Qed.

(** Five samples into a histogram of three cells: the first two are
    overwritten, and still count for the minimum. *)
Lemma latency_histogram_summarises_samples_witness :
  let ops := [HistRecord 10; HistClear; HistRecord 1; HistRecord 7; HistRecord 5;
              HistRecord 9; HistRecord 8]%Z in
  (0 < 3)%N /\ (3 < 2 ^ 64)%N /\ (N.of_nat (length ops) < 2 ^ 64)%N /\
  since_clear ops = [1; 7; 5; 9; 8]%Z /\
  LatencyHistogram.stats_bounds (hist_run (LatencyHistogram.new 3) ops)
  = (5%N, 1, 9)%Z /\
  LatencyHistogram.stats_samples (hist_run (LatencyHistogram.new 3) ops)
  = [9; 8; 5]%Z /\
  LatencyHistogram.stats_samples (hist_run (LatencyHistogram.new 3) ops)
    ≡ₚ [5; 9; 8]%Z.
Proof.
  cbv zeta.
  assert (H0 : (0 < 3)%N) by lia.
  assert (H1 : (3 < 2 ^ 64)%N) by (vm_compute; reflexivity).
  assert (H2 : (N.of_nat
                  (length [HistRecord 10; HistClear; HistRecord 1; HistRecord 7;
                           HistRecord 5; HistRecord 9; HistRecord 8]%Z)
                < 2 ^ 64)%N) by (vm_compute; reflexivity).
  split; [exact H0|]. split; [exact H1|]. split; [exact H2|].
  split; [vm_compute; reflexivity|]. split; [vm_compute; reflexivity|].
  split; [vm_compute; reflexivity|].
  exact (proj1 (proj2 (proj2 (proj2 (proj2
           (latency_histogram_summarises_samples 3 _ H0 H1 H2)))))).
Defined.

(* ===================================================================== *)
(** ** Pool exhaustion and the trades of [add_limit] *)
(* ===================================================================== *)

Section CommittedTrades.
End CommittedTrades.



